(** * Demand-system estimation notebook: linear and nonlinear IV estimators

    A shallow embedding of the two estimation cells of the notebook
    (cells "Linear IV" and "Non-linear IV") and the properties its
    specification states about them; then the selection of the manager
    before them (cell "Select the manager") and further properties of the
    cells as programs: what they come to, what they solve, and what leaves
    their results as they are.  The cells that only load the packages and
    the spreadsheet or print the estimates are not embedded.

    The notebook computes with NumPy arrays of floating-point numbers.  The
    embedding keeps the array program as it is written and is polymorphic in
    the scalar type: the arithmetic the notebook takes from Python and NumPy
    (literals, [+ - *], [np.exp], [np.log], [np.abs], [np.max], [>]) and the
    one LAPACK call ([np.linalg.inv]) are the operations of the classes
    [Numeric] and [LinAlg].  Three instances are given: exact rational
    arithmetic, which computes; the real numbers, which carry the true
    [exp] and [ln]; and the real numbers with the special values [inf] and
    [nan] of floating point, on which [np.exp] overflows.  None of them
    rounds.
    Whatever a property needs from the arithmetic is a named hypothesis of
    its theorem.

    A [while] loop takes a number of passes it may make ([fuel]); a run that
    needs more is [OutOfFuel].  The cell "Non-linear IV" is given a second
    time on a namespace of objects, references and views (module [Store]),
    for the property that depends on which names share an array. *)

From Stdlib Require Import String.
From Stdlib Require Import List Bool Arith Lia ZArith QArith Qcanon.
From Stdlib Require Import Reals Lra ClassicalEpsilon Permutation.
Import ListNotations.
Close Scope Q_scope.
Close Scope Qc_scope.

Set Implicit Arguments.

(** ** Errors and outcomes *)

(** The exceptions the two cells can raise. *)
Inductive exn : Type :=
| LinAlgError   (* np.linalg.inv: singular or non-square matrix *)
| ValueError    (* shape mismatch, ambiguous truth value, empty reduction *)
| IndexError    (* index out of bounds *)
| NameError.    (* a name read before it is bound *)

Definition result (A : Type) : Type := (exn + A)%type.

Definition ret {A} (a : A) : result A := inr a.
Definition raise {A} (e : exn) : result A := inl e.
Definition bind {A B} (c : result A) (k : A -> result B) : result B :=
  match c with
  | inl e => inl e
  | inr a => k a
  end.

Declare Scope result_scope.
Delimit Scope result_scope with result.
Notation "x <- c ;; k" := (bind c (fun x => k))
  (at level 61, c at next level, right associativity) : result_scope.
Open Scope result_scope.

(** What running a cell that contains a [while] loop comes to: it returns, it
    raises, or the loop is still running when the step budget is used up. *)
Inductive outcome (A : Type) : Type :=
| Returned (a : A)
| Raised (e : exn)
| OutOfFuel.
Arguments Raised {A} e.
Arguments OutOfFuel {A}.

Definition lift {A} (c : result A) : outcome A :=
  match c with
  | inl e => Raised e
  | inr a => Returned a
  end.

(** ** Two-dimensional arrays *)

(** A NumPy array of two dimensions: its shape and its cells, row by row.  The
    shape is kept apart from the cells because an array with no row still has
    a number of columns ([np.ones((0,1))], the transpose of a [(7,0)] array). *)
Record ndarray (F : Type) : Type := mkArr {
  nrows : nat;
  ncols : nat;
  cells : list (list F)
}.
Arguments mkArr {F} nrows ncols cells.

(** The cells agree with the shape. *)
Definition well_shaped {F} (a : ndarray F) : Prop :=
  length (cells a) = nrows a /\ Forall (fun r => length r = ncols a) (cells a).

(** ** The arithmetic the notebook relies on *)

Class Numeric (F : Type) : Type := {
  lit  : Q -> F;                 (* a float literal: .99, 1e-4, 1, 0 *)
  add  : F -> F -> F;
  sub  : F -> F -> F;
  mul  : F -> F -> F;
  neg  : F -> F;
  fexp : F -> F;                 (* np.exp, on one cell *)
  flog : F -> F;                 (* np.log, on one cell *)
  fabs : F -> F;                 (* np.abs, on one cell *)
  fmax : F -> F -> F;            (* the maximum np.max folds with *)
  gtb  : F -> F -> bool;         (* > *)
  leb  : F -> F -> bool          (* <=, used by the statements only *)
}.

(** [np.linalg.inv]: the inverse, or [None] where NumPy raises [LinAlgError]
    (a singular matrix, a matrix that is not square). *)
Class LinAlg (F : Type) : Type := {
  linalg_inv : ndarray F -> option (ndarray F)
}.

Section Arrays.
Context {F : Type} {NF : Numeric F} {LA : LinAlg F}.

Definition zero : F := lit 0%Q.
Definition one : F := lit 1%Q.
Definition ceiling : F := lit (99 # 100)%Q.     (* .99 *)
Definition tolerance : F := lit (1 # 10000)%Q.  (* 1e-4 *)

Definition shape (a : ndarray F) : nat * nat := (nrows a, ncols a).

(** [a[:, lo:hi]]: a slice of columns; bounds past the end are clipped. *)
Definition cols (lo hi : nat) (a : ndarray F) : ndarray F :=
  mkArr (nrows a) (Nat.min hi (ncols a) - lo)
        (map (fun r => firstn (hi - lo) (skipn lo r)) (cells a)).

(** [a[idx]] with [idx] a list of row numbers: the rows in that order. *)
Fixpoint take_rows (rows : list (list F)) (idx : list nat)
  : result (list (list F)) :=
  match idx with
  | [] => ret []
  | i :: idx' =>
      match nth_error rows i with
      | None => raise IndexError
      | Some r => rs <- take_rows rows idx' ;; ret (r :: rs)
      end
  end.

Definition take (a : ndarray F) (idx : list nat) : result (ndarray F) :=
  rs <- take_rows (cells a) idx ;;
  ret (mkArr (length idx) (ncols a) rs).

(** [np.argwhere(a > 0)]: the (row, column) positions of the cells greater
    than zero, in row-major order. *)
Fixpoint argwhere_row (i j : nat) (r : list F) : list (nat * nat) :=
  match r with
  | [] => []
  | x :: r' =>
      if gtb x zero then (i, j) :: argwhere_row i (S j) r'
      else argwhere_row i (S j) r'
  end.

Fixpoint argwhere_from (i : nat) (rows : list (list F)) : list (nat * nat) :=
  match rows with
  | [] => []
  | r :: rows' => argwhere_row i 0 r ++ argwhere_from (S i) rows'
  end.

Definition argwhere_gt0 (a : ndarray F) : list (nat * nat) :=
  argwhere_from 0 (cells a).

(** Cell by cell. *)
Definition amap (f : F -> F) (a : ndarray F) : ndarray F :=
  mkArr (nrows a) (ncols a) (map (map f) (cells a)).

Definition np_log : ndarray F -> ndarray F := amap flog.
Definition np_exp : ndarray F -> ndarray F := amap fexp.
Definition np_abs : ndarray F -> ndarray F := amap fabs.
Definition aneg : ndarray F -> ndarray F := amap neg.             (* -a *)
Definition scale (c : F) : ndarray F -> ndarray F := amap (mul c). (* c*a *)
Definition sub_scalar (a : ndarray F) (c : F) : ndarray F :=      (* a-c *)
  amap (fun x => sub x c) a.

Definition np_ones (r c : nat) : ndarray F :=
  mkArr r c (repeat (repeat one c) r).

(** [np.array([[x]])] *)
Definition singleton (x : F) : ndarray F := mkArr 1 1 [[x]].

(** [a.T] *)
Definition column (j : nat) (rows : list (list F)) : list F :=
  map (fun r => nth j r zero) rows.

Definition transpose (a : ndarray F) : ndarray F :=
  mkArr (ncols a) (nrows a)
        (map (fun j => column j (cells a)) (seq 0 (ncols a))).

(** [a @ b] *)
Fixpoint dot (u v : list F) : F :=
  match u, v with
  | x :: u', y :: v' => add (mul x y) (dot u' v')
  | _, _ => zero
  end.

Definition matmul_cells (a b : list (list F)) (p : nat) : list (list F) :=
  map (fun r => map (fun j => dot r (column j b)) (seq 0 p)) a.

Definition matmul (a b : ndarray F) : result (ndarray F) :=
  if Nat.eqb (ncols a) (nrows b) then
    ret (mkArr (nrows a) (ncols b)
           (matmul_cells (cells a) (cells b) (ncols b)))
  else raise ValueError.

(** [np.linalg.inv] *)
Definition inv (a : ndarray F) : result (ndarray F) :=
  match linalg_inv a with
  | Some b => ret b
  | None => raise LinAlgError
  end.

(** [np.concatenate([...], axis=1)]: side by side; the row counts must agree. *)
Fixpoint zip_rows (r1 r2 : list (list F)) : list (list F) :=
  match r1, r2 with
  | x :: r1', y :: r2' => (x ++ y) :: zip_rows r1' r2'
  | _, _ => []
  end.

Definition hstack2 (a b : ndarray F) : result (ndarray F) :=
  if Nat.eqb (nrows a) (nrows b) then
    ret (mkArr (nrows a) (ncols a + ncols b) (zip_rows (cells a) (cells b)))
  else raise ValueError.

Fixpoint concatenate1 (a : ndarray F) (rest : list (ndarray F))
  : result (ndarray F) :=
  match rest with
  | [] => ret a
  | b :: rest' => ab <- hstack2 a b ;; concatenate1 ab rest'
  end.

(** [np.concatenate([a, b], axis=0)]: one above the other; the column counts
    must agree. *)
Definition concatenate0 (a b : ndarray F) : result (ndarray F) :=
  if Nat.eqb (ncols a) (ncols b) then
    ret (mkArr (nrows a + nrows b) (ncols a) (cells a ++ cells b))
  else raise ValueError.

(** Binary operators on arrays, with NumPy's broadcasting of a dimension of
    size one. *)
Fixpoint map2 {A B C} (f : A -> B -> C) (u : list A) (v : list B) : list C :=
  match u, v with
  | x :: u', y :: v' => f x y :: map2 f u' v'
  | _, _ => []
  end.

Definition bdim (m n : nat) : option nat :=
  if Nat.eqb m n then Some m
  else if Nat.eqb m 1 then Some n
  else if Nat.eqb n 1 then Some m
  else None.

Definition bget (a : ndarray F) (i j : nat) : F :=
  nth (if Nat.eqb (ncols a) 1 then 0 else j)
      (nth (if Nat.eqb (nrows a) 1 then 0 else i) (cells a) []) zero.

Definition zipwith (op : F -> F -> F) (a b : ndarray F) : result (ndarray F) :=
  if Nat.eqb (nrows a) (nrows b) && Nat.eqb (ncols a) (ncols b) then
    ret (mkArr (nrows a) (ncols a) (map2 (map2 op) (cells a) (cells b)))
  else
    match bdim (nrows a) (nrows b), bdim (ncols a) (ncols b) with
    | Some r, Some c =>
        ret (mkArr r c
               (map (fun i => map (fun j => op (bget a i j) (bget b i j))
                                  (seq 0 c))
                    (seq 0 r)))
    | _, _ => raise ValueError
    end.

Definition aadd : ndarray F -> ndarray F -> result (ndarray F) := zipwith add.
Definition asub : ndarray F -> ndarray F -> result (ndarray F) := zipwith sub.
Definition amul : ndarray F -> ndarray F -> result (ndarray F) := zipwith mul.

(** [np.max(a)]: the largest cell; an empty array has none. *)
Definition np_max (a : ndarray F) : result F :=
  match concat (cells a) with
  | [] => raise ValueError
  | x :: xs => ret (fold_left fmax xs x)
  end.

(** [a[0]]: the first row. *)
Definition row0 (a : ndarray F) : result (list F) :=
  match cells a with
  | [] => raise IndexError
  | r :: _ => ret r
  end.

(** [a[1:]]: all rows but the first. *)
Definition tail_rows (a : ndarray F) : ndarray F :=
  mkArr (nrows a - 1) (ncols a) (tl (cells a)).

(** [if a[0] > c:] the truth value of the one-dimensional array [r > c]: one
    cell decides, no cell is false, several cells are refused. *)
Definition truth_gt (r : list F) (c : F) : result bool :=
  match r with
  | [] => ret false
  | [x] => ret (gtb x c)
  | _ => raise ValueError
  end.

(** ** Cell "Linear IV" *)

(** The variables the cell sets under "Structure the data". *)
Record linear_data : Type := mkLinearData {
  l_mchars : ndarray F;
  l_vLNme : ndarray F;
  l_vLNmeIV : ndarray F;
  l_vLNrweight : ndarray F;
  l_vones : ndarray F;
  l_mX : ndarray F;
  l_mZ : ndarray F
}.

(** [vrweight = mdata[:,2:3]], set when the data is loaded. *)
Definition vrweight_of (mdata : ndarray F) : ndarray F := cols 2 3 mdata.

Definition structure_linear (mdata : ndarray F) : result linear_data :=
  let vrweight := vrweight_of mdata in
  let vloc := map fst (argwhere_gt0 vrweight) in
  mdata0 <- take mdata vloc ;;
  let mchars := cols 3 8 mdata0 in
  let vLNme := cols 8 9 mdata0 in
  let vLNmeIV := cols 9 10 mdata0 in
  w0 <- take vrweight vloc ;;
  let vLNrweight := np_log w0 in
  let dT := nrows vLNme in
  let vones := np_ones dT 1 in
  mX <- concatenate1 vLNme [mchars; vones] ;;
  mZ <- concatenate1 vLNmeIV [mchars; vones] ;;
  ret (mkLinearData mchars vLNme vLNmeIV vLNrweight vones mX mZ).

(** [np.linalg.inv(mZ.T@mX)@mZ.T@vLNrweight] *)
Definition unconstrained_linear (d : linear_data) : result (ndarray F) :=
  ZtX <- matmul (transpose (l_mZ d)) (l_mX d) ;;
  Minv <- inv ZtX ;;
  MZt <- matmul Minv (transpose (l_mZ d)) ;;
  matmul MZt (l_vLNrweight d).

(** The body of [if vb_linearIV[0] > .99:]. *)
Definition constrained_linear (d : linear_data) : result (ndarray F) :=
  mX <- concatenate1 (l_mchars d) [l_vones d] ;;
  XtX <- matmul (transpose mX) mX ;;
  Minv <- inv XtX ;;
  MXt <- matmul Minv (transpose mX) ;;
  y <- asub (l_vLNrweight d) (scale ceiling (l_vLNme d)) ;;
  b <- matmul MXt y ;;
  concatenate0 (singleton ceiling) b.

(** The test of the [if]. *)
Definition exceeds_ceiling (vb : ndarray F) : result bool :=
  r <- row0 vb ;; truth_gt r ceiling.

Definition linear_of (d : linear_data) : result (ndarray F) :=
  vb <- unconstrained_linear d ;;
  c <- exceeds_ceiling vb ;;
  if c then constrained_linear d else ret vb.

Definition vb_linearIV (mdata : ndarray F) : result (ndarray F) :=
  d <- structure_linear mdata ;;
  linear_of d.

(** ** Cell "Non-linear IV" *)

(** The variables the cell sets under "Structure the data". *)
Record nonlinear_data : Type := mkNonlinearData {
  n_vrweight : ndarray F;
  n_mchars : ndarray F;
  n_vLNme : ndarray F;
  n_vones : ndarray F;
  n_dN : nat;
  n_mX : ndarray F;
  n_mZ : ndarray F
}.

Definition structure_nonlinear (mdata : ndarray F) : result nonlinear_data :=
  let mchars := cols 3 8 mdata in
  let vLNme := cols 8 9 mdata in
  let vLNmeIV := cols 9 10 mdata in
  let dT := nrows mchars in
  let dN := ncols mchars + 2 in
  let vones := np_ones dT 1 in
  mX <- concatenate1 vLNme [mchars; vones] ;;
  mZ <- concatenate1 vLNmeIV [mchars; vones] ;;
  ret (mkNonlinearData (vrweight_of mdata) mchars vLNme vones dN mX mZ).

(** The lines of the body of the first [while], one by one. *)

(** [vlatent = vrweight * np.exp(-mX@vb_nonlinearIV)] *)
Definition vlatent_unconstrained (d : nonlinear_data) (vb : ndarray F)
  : result (ndarray F) :=
  Xb <- matmul (aneg (n_mX d)) vb ;;
  amul (n_vrweight d) (np_exp Xb).

(** [mZ_tilde = (vlatent @ np.ones((1,dN))) * mZ] *)
Definition mZ_tilde_of (d : nonlinear_data) (vlatent : ndarray F)
  : result (ndarray F) :=
  lat1 <- matmul vlatent (np_ones 1 (n_dN d)) ;;
  amul lat1 (n_mZ d).

(** [np.linalg.inv(mZ_tilde.T @ mX) @ mZ.T @ (vlatent-1)], the increment *)
Definition update_unconstrained (d : nonlinear_data)
    (vlatent mZ_tilde : ndarray F) : result (ndarray F) :=
  ZtX <- matmul (transpose mZ_tilde) (n_mX d) ;;
  Minv <- inv ZtX ;;
  MZt <- matmul Minv (transpose (n_mZ d)) ;;
  matmul MZt (sub_scalar vlatent one).

(** [dchange = np.max(np.abs(vb_nonlinearIV - vb_nonlinearIV_new))] *)
Definition dchange_of (vb vb_new : ndarray F) : result F :=
  diff <- asub vb vb_new ;;
  np_max (np_abs diff).

(** One pass through the body: the new [dchange] and the new vector. *)
Definition step_unconstrained (d : nonlinear_data) (vb : ndarray F)
  : result (F * ndarray F) :=
  vlatent <- vlatent_unconstrained d vb ;;
  mZ_tilde <- mZ_tilde_of d vlatent ;;
  upd <- update_unconstrained d vlatent mZ_tilde ;;
  vb_new <- aadd vb upd ;;
  dchange <- dchange_of vb vb_new ;;
  ret (dchange, vb_new).

(** The lines of the body of the second [while], where [mX] is
    [[mchars | vones]] and [dN] is one less. *)

(** [vlatent = vrweight * np.exp(-.99*vLNme - mX@vb_nonlinearIV)] *)
Definition vlatent_constrained (d : nonlinear_data) (mX vb : ndarray F)
  : result (ndarray F) :=
  Xb <- matmul mX vb ;;
  e <- asub (scale (neg ceiling) (n_vLNme d)) Xb ;;
  amul (n_vrweight d) (np_exp e).

(** [mX_tilde = (vlatent @ np.ones((1,dN))) * mX] *)
Definition mX_tilde_of (d : nonlinear_data) (mX vlatent : ndarray F)
  : result (ndarray F) :=
  lat1 <- matmul vlatent (np_ones 1 (n_dN d - 1)) ;;
  amul lat1 mX.

(** [np.linalg.inv(mX_tilde.T@mX)@mX.T@(vlatent-1)] *)
Definition update_constrained (mX vlatent mX_tilde : ndarray F)
  : result (ndarray F) :=
  XtX <- matmul (transpose mX_tilde) mX ;;
  Minv <- inv XtX ;;
  MXt <- matmul Minv (transpose mX) ;;
  matmul MXt (sub_scalar vlatent one).

Definition step_constrained (d : nonlinear_data) (mX : ndarray F)
    (vb : ndarray F) : result (F * ndarray F) :=
  vlatent <- vlatent_constrained d mX vb ;;
  mX_tilde <- mX_tilde_of d mX vlatent ;;
  upd <- update_constrained mX vlatent mX_tilde ;;
  vb_new <- aadd vb upd ;;
  dchange <- dchange_of vb vb_new ;;
  ret (dchange, vb_new).

(** [while dchange > 1e-4: body], on the pair [(dchange, vb_nonlinearIV)] the
    loop reads and writes; [fuel] bounds the number of tests of the
    condition. *)
Fixpoint while_loop (body : ndarray F -> result (F * ndarray F))
    (fuel : nat) (st : F * ndarray F) : outcome (ndarray F) :=
  match fuel with
  | O => OutOfFuel
  | S fuel' =>
      if gtb (fst st) tolerance then
        match body (snd st) with
        | inl e => Raised e
        | inr st' => while_loop body fuel' st'
        end
      else Returned (snd st)
  end.

(** "Unconstrained estimation": [vb_nonlinearIV = vb_linearIV; dchange = 1]
    and the first loop. *)
Definition unconstrained_nonlinear (d : nonlinear_data) (fuel : nat)
    (vb_lin : ndarray F) : outcome (ndarray F) :=
  while_loop (step_unconstrained d) fuel (one, vb_lin).

(** The body of [if vb_nonlinearIV[0] > .99:]. *)
Definition constrained_nonlinear (d : nonlinear_data) (fuel : nat)
    (vb_lin : ndarray F) : outcome (ndarray F) :=
  match concatenate1 (n_mchars d) [n_vones d] with
  | inl e => Raised e
  | inr mX =>
      match while_loop (step_constrained d mX) fuel (one, tail_rows vb_lin) with
      | Returned vb => lift (concatenate0 (singleton ceiling) vb)
      | Raised e => Raised e
      | OutOfFuel => OutOfFuel
      end
  end.

Definition nonlinear_of (d : nonlinear_data) (fuel : nat)
    (vb_lin : ndarray F) : outcome (ndarray F) :=
  match unconstrained_nonlinear d fuel vb_lin with
  | Returned vb =>
      match exceeds_ceiling vb with
      | inl e => Raised e
      | inr true => constrained_nonlinear d fuel vb_lin
      | inr false => Returned vb
      end
  | Raised e => Raised e
  | OutOfFuel => OutOfFuel
  end.

(** The cell, run after the linear one has set [vb_linearIV]. *)
Definition vb_nonlinearIV (fuel : nat) (mdata vb_lin : ndarray F)
  : outcome (ndarray F) :=
  match structure_nonlinear mdata with
  | inl e => Raised e
  | inr d => nonlinear_of d fuel vb_lin
  end.

(** Both cells in the notebook's order. *)
Definition notebook (fuel : nat) (mdata : ndarray F)
  : outcome (ndarray F * ndarray F) :=
  match vb_linearIV mdata with
  | inl e => Raised e
  | inr vb_lin =>
      match vb_nonlinearIV fuel mdata vb_lin with
      | Returned vb => Returned (vb_lin, vb)
      | Raised e => Raised e
      | OutOfFuel => OutOfFuel
      end
  end.

End Arrays.

(** ** The estimators as the specification words them *)

Section Specification.
Context {F : Type} {NF : Numeric F} {LA : LinAlg F}.

(** One observation row of the data model. *)
Record observation : Type := mkObservation {
  weight : F;
  log_market_value : F;
  log_market_value_instrument : F;
  characteristics : list F
}.

(** The fixed columns of the input table: identifier, an unused column, the
    weight, five characteristics, the log market value and its instrument. *)
Definition observation_of (r : list F) : observation :=
  mkObservation (nth 2 r zero) (nth 8 r zero) (nth 9 r zero)
    [nth 3 r zero; nth 4 r zero; nth 5 r zero; nth 6 r zero; nth 7 r zero].

Definition observations (mdata : ndarray F) : list observation :=
  map observation_of (cells mdata).

Definition characteristic_count : nat := 5.

(** A table the external loader hands over: ten columns in every row. *)
Definition table_ok (mdata : ndarray F) : Prop :=
  ncols mdata = 10 /\ length (cells mdata) = nrows mdata /\
  Forall (fun r => length r = 10) (cells mdata).

(** "Retain only rows with weight > 0." *)
Definition retained (obs : list observation) : list observation :=
  filter (fun o => gtb (weight o) zero) obs.

(** [X = [log_market_value | characteristics | 1]] *)
Definition design_row (o : observation) : list F :=
  log_market_value o :: characteristics o ++ [one].

(** [Z = [log_market_value_instrument | characteristics | 1]] *)
Definition instrument_row (o : observation) : list F :=
  log_market_value_instrument o :: characteristics o ++ [one].

(** [X' = [characteristics | 1]] *)
Definition reduced_row (o : observation) : list F :=
  characteristics o ++ [one].

Definition matrix_of (c : nat) (row : observation -> list F)
    (obs : list observation) : ndarray F :=
  mkArr (length obs) c (map row obs).

Definition design (obs : list observation) : ndarray F :=
  matrix_of (characteristic_count + 2) design_row obs.
Definition instruments (obs : list observation) : ndarray F :=
  matrix_of (characteristic_count + 2) instrument_row obs.
Definition reduced_design (obs : list observation) : ndarray F :=
  matrix_of (characteristic_count + 1) reduced_row obs.

Definition column_of (f : observation -> F) (obs : list observation)
  : ndarray F :=
  mkArr (length obs) 1 (map (fun o => [f o]) obs).

(** [y = log(weight)] *)
Definition log_weights : list observation -> ndarray F :=
  column_of (fun o => flog (weight o)).

(** [(A^T B)^-1 A^T y]: with [A = Z], [B = X] the two-stage least-squares
    normal equation; with [A = B = X'] ordinary least squares. *)
Definition normal_equation (A B y : ndarray F) : result (ndarray F) :=
  AtB <- matmul (transpose A) B ;;
  Minv <- inv AtB ;;
  MAt <- matmul Minv (transpose A) ;;
  matmul MAt y.

(** Steps 1 to 4 of the linear estimator. *)
Definition two_stage_least_squares (obs : list observation)
  : result (ndarray F) :=
  let kept := retained obs in
  normal_equation (instruments kept) (design kept) (log_weights kept).

(** Step 5 of the linear estimator: ordinary least squares of
    [y - c_max * log_market_value] on [X'], with [c_max] put back in front. *)
Definition adjusted_log_weights : list observation -> ndarray F :=
  column_of (fun o => sub (flog (weight o)) (mul ceiling (log_market_value o))).

Definition constrained_least_squares (obs : list observation)
  : result (ndarray F) :=
  let kept := retained obs in
  b <- normal_equation (reduced_design kept) (reduced_design kept)
         (adjusted_log_weights kept) ;;
  ret (mkArr (1 + nrows b) 1 ([ceiling] :: cells b)).

(** *** The nonlinear estimator *)

(** "Build [X], [Z] over ALL rows": what the nonlinear cell structures, in
    the words of the specification. *)
Definition nonlinear_data_of (obs : list observation) : nonlinear_data :=
  mkNonlinearData
    (column_of weight obs)
    (matrix_of characteristic_count characteristics obs)
    (column_of log_market_value obs)
    (np_ones (length obs) 1)
    (characteristic_count + 2)
    (design obs)
    (instruments obs).

(** [latent = weight (.) exp(-X beta)] *)
Definition latent_demand (w X beta : ndarray F) : result (ndarray F) :=
  Xb <- matmul X beta ;;
  amul w (np_exp (aneg Xb)).

(** [diag(v)] for a column [v]. *)
Definition diag (v : ndarray F) : ndarray F :=
  mkArr (nrows v) (nrows v)
    (map (fun i => map (fun j => if Nat.eqb i j
                                 then nth 0 (nth i (cells v) []) zero
                                 else zero)
                       (seq 0 (nrows v)))
         (seq 0 (nrows v))).

(** The largest absolute change of a coefficient, [max |beta' - beta|]. *)
Definition max_abs_change (beta beta' : ndarray F) : result F :=
  d <- asub beta' beta ;;
  np_max (np_abs d).

(** One Gauss-Newton step, given how the latent demand is computed and the
    regressors [X] and instruments [Z] of the unknown coefficients:
    [beta' = beta + (Zt^T X)^-1 Z^T (latent - 1)] with [Zt = diag(latent) Z]. *)
Definition gauss_newton_step (latent_of : ndarray F -> result (ndarray F))
    (X Z beta : ndarray F) : result (ndarray F) :=
  latent <- latent_of beta ;;
  Zt <- matmul (diag latent) Z ;;
  ZtX <- matmul (transpose Zt) X ;;
  Minv <- inv ZtX ;;
  MZ <- matmul Minv (transpose Z) ;;
  upd <- matmul MZ (sub_scalar latent one) ;;
  aadd beta upd.

(** The iteration from [beta]: repeat the step until the change it makes is
    at most the tolerance; [converges step beta b] says that this ends, and
    with [b]. *)
Inductive converges (step : ndarray F -> result (ndarray F))
  : ndarray F -> ndarray F -> Prop :=
| converges_stop (beta beta' : ndarray F) (d : F) :
    step beta = inr beta' ->
    max_abs_change beta beta' = inr d ->
    leb d tolerance = true ->
    converges step beta beta'
| converges_next (beta beta' b : ndarray F) (d : F) :
    step beta = inr beta' ->
    max_abs_change beta beta' = inr d ->
    leb d tolerance = false ->
    converges step beta' b ->
    converges step beta b.

(** Unconstrained branch: all rows, [X] and [Z] as in the linear estimator. *)
Definition unconstrained_step (obs : list observation)
  : ndarray F -> result (ndarray F) :=
  gauss_newton_step
    (latent_demand (column_of weight obs) (design obs))
    (design obs) (instruments obs).



(** *** What the properties assume of the arithmetic *)


Definition le_reflexive : Prop := forall x : F, leb x x = true.

(** [1 > 1e-4] *)
Definition one_exceeds_tolerance : Prop := gtb one tolerance = true.

(** The inverse of a matrix has the shape of the matrix. *)
Definition inverse_keeps_shape : Prop :=
  forall M N : ndarray F,
    linalg_inv M = Some N ->
    nrows N = nrows M /\ ncols N = ncols M /\ length (cells N) = nrows N.

(** The laws of exact arithmetic the rewording of a formula relies on. *)
Record exact_arithmetic : Prop := mkExact {
  add_zero_r : forall x : F, add x zero = x;
  add_zero_l : forall x : F, add zero x = x;
  mul_one_r : forall x : F, mul x one = x;
  mul_zero_l : forall x : F, mul zero x = zero;
  mul_neg_l : forall x y : F, mul (neg x) y = neg (mul x y);
  neg_add : forall x y : F, neg (add x y) = add (neg x) (neg y);
  neg_zero : neg zero = zero;
  abs_sub_sym : forall x y : F, fabs (sub x y) = fabs (sub y x);
  add_cancel_l : forall x u : F, add x u = x -> u = zero
}.

End Specification.

(** ** The stopping rule as the loops test it *)

Section StoppingRule.
Context {F : Type} {NF : Numeric F} {LA : LinAlg F}.

(** The iteration from [beta] as a [while change > 1e-4] runs it: repeat the
    pass, which gives the change and the new vector, as long as the change
    is above the tolerance; [settles pass beta b] says that this ends, and
    with [b].  The iteration stops at the first change of which [> 1e-4] is
    false: one that is at most 1e-4, or one that is not ordered with it. *)
Inductive settles (pass : ndarray F -> result (F * ndarray F))
  : ndarray F -> ndarray F -> Prop :=
| settles_stop (beta beta' : ndarray F) (d : F) :
    pass beta = inr (d, beta') ->
    gtb d tolerance = false ->
    settles pass beta beta'
| settles_next (beta beta' b : ndarray F) (d : F) :
    pass beta = inr (d, beta') ->
    gtb d tolerance = true ->
    settles pass beta' b ->
    settles pass beta b.

(** [.99 > .99] is false. *)
Definition ceiling_not_above_itself : Prop := gtb ceiling ceiling = false.


End StoppingRule.

(** ** Vocabulary of the statements *)

Section Vocabulary.
Context {F : Type} {NF : Numeric F} {LA : LinAlg F}.

(** [x] is the first coefficient of the column [vb]. *)
Definition first_coefficient (vb : ndarray F) (x : F) : Prop :=
  exists rest, cells vb = [x] :: rest.

(** A column: one cell in every row. *)
Definition column_vector (vb : ndarray F) : Prop :=
  ncols vb = 1 /\ Forall (fun r => length r = 1) (cells vb).

(** [passes body st n st']: from the loop state [st] the condition of the
    [while] holds and the body succeeds [n] times in a row, leaving [st']. *)
Inductive passes (body : ndarray F -> result (F * ndarray F))
  : F * ndarray F -> nat -> F * ndarray F -> Prop :=
| passes_O (st : F * ndarray F) : passes body st 0 st
| passes_S (st st' st'' : F * ndarray F) (n : nat) :
    gtb (fst st) tolerance = true ->
    body (snd st) = inr st' ->
    passes body st' n st'' ->
    passes body st (S n) st''.

(** The matrix the unconstrained loop hands to [np.linalg.inv] when its body
    runs on [vb]. *)
Definition cross_product_unconstrained (d : nonlinear_data) (vb : ndarray F)
  : result (ndarray F) :=
  vlatent <- vlatent_unconstrained d vb ;;
  mZ_tilde <- mZ_tilde_of d vlatent ;;
  matmul (transpose mZ_tilde) (n_mX d).


(** An array of zeros only. *)
Definition all_zero (a : ndarray F) : Prop :=
  Forall (Forall (fun x => x = zero)) (cells a).

(** A row of the table with a positive weight. *)
Definition positive_row (r : list F) : bool := gtb (nth 2 r zero) zero.

(** The body of a loop, in the words of the specification: a step, and the
    change it makes. *)
Definition step_and_change (step : ndarray F -> result (ndarray F))
    (vb : ndarray F) : result (F * ndarray F) :=
  vb' <- step vb ;;
  d <- max_abs_change vb vb' ;;
  ret (d, vb').

(** Every observation has its five characteristics. *)
Definition five_characteristics (obs : list (@observation F)) : Prop :=
  Forall (fun o => length (characteristics o) = characteristic_count) obs.

End Vocabulary.

(** ** Exact rational arithmetic: the instance that computes *)

Module QNum.

Local Open Scope Qc_scope.

Definition Qc_eqb (x y : Qc) : bool := if Qc_eq_dec x y then true else false.
Definition Qc_leb (x y : Qc) : bool := Qle_bool x y.
Definition Qc_gtb (x y : Qc) : bool := negb (Qc_leb x y).
Definition Qc_abs (x : Qc) : Qc := if Qc_leb 0 x then x else - x.
Definition Qc_max (x y : Qc) : Qc := if Qc_leb x y then y else x.

(** Gauss-Jordan elimination on the rows of [[a | I]], one column at a time:
    [done] holds the rows that already carry a pivot, [rest] the others.
    The elimination is exact: it finds no pivot, and [inverse] is [None], on
    exactly the matrices without an inverse, where float64 elimination stops
    only on a pivot that is exactly zero. *)
Definition row_scale (c : Qc) (r : list Qc) : list Qc := map (Qcmult c) r.
Definition row_sub (r p : list Qc) (c : Qc) : list Qc :=
  map2 (fun x y => x - c * y) r p.

Definition eliminate (k : nat) (p : list Qc) (r : list Qc) : list Qc :=
  row_sub r p (nth k r 0).

Fixpoint find_pivot (k : nat) (seen rest : list (list Qc))
  : option (list (list Qc) * list Qc * list (list Qc)) :=
  match rest with
  | [] => None
  | r :: rest' =>
      if Qc_eqb (nth k r 0) 0 then find_pivot k (seen ++ [r]) rest'
      else Some (seen, r, rest')
  end.

Fixpoint gauss_jordan (steps k : nat) (done rest : list (list Qc))
  : option (list (list Qc)) :=
  match steps with
  | O => Some done
  | S steps' =>
      match find_pivot k [] rest with
      | None => None
      | Some (before, r, after) =>
          let p := row_scale (/ nth k r 0) r in
          gauss_jordan steps' (S k)
            (map (eliminate k p) done ++ [p])
            (map (eliminate k p) (before ++ after))
      end
  end.

Definition unit_row (n i : nat) : list Qc :=
  map (fun j => if Nat.eqb i j then 1 else 0) (seq 0 n).

Definition augment (n : nat) (rows : list (list Qc)) : list (list Qc) :=
  map2 (fun r i => r ++ unit_row n i) rows (seq 0 n).

Definition inverse (a : ndarray Qc) : option (ndarray Qc) :=
  if Nat.eqb (nrows a) (ncols a) then
    match gauss_jordan (nrows a) 0 [] (augment (nrows a) (cells a)) with
    | Some rows => Some (mkArr (nrows a) (nrows a) (map (skipn (nrows a)) rows))
    | None => None
    end
  else None.

(** Rational stand-ins for [np.exp] and [np.log], so that the model runs: the
    (1,1) Pade approximant of the exponential, [(2+x)/(2-x)], and its inverse
    function [2(w-1)/(w+1)].  No theorem below depends on them. *)
Definition exp_pade (x : Qc) : Qc := (Q2Qc 2 + x) / (Q2Qc 2 - x).
Definition log_pade (w : Qc) : Qc := Q2Qc 2 * (w - 1) / (w + 1).

#[export] Instance numeric : Numeric Qc := {
  lit := Q2Qc;
  add := Qcplus;
  sub := Qcminus;
  mul := Qcmult;
  neg := Qcopp;
  fexp := exp_pade;
  flog := log_pade;
  fabs := Qc_abs;
  fmax := Qc_max;
  gtb := Qc_gtb;
  leb := Qc_leb
}.

#[export] Instance linalg : LinAlg Qc := {
  linalg_inv := inverse
}.

(** A table of ten columns (identifier, unused, weight, five characteristics,
    log market value, instrument) from its rows. *)
Definition table (rows : list (list Q)) : ndarray Qc :=
  mkArr (length rows) 10 (map (map Q2Qc) rows).

(** The cells of an array as plain fractions, for display and comparison. *)
Definition fractions (a : ndarray Qc) : list (list Q) :=
  map (map this) (cells a).

(** *** Observation sets to run the cells on *)

(** Seven securities held with weight 1/10 each. *)
Definition calm : ndarray Qc :=
  table [[1; 0; 1#10; 0; 0; 0; 0; 0; 0; 0];
         [1; 0; 1#10; 0; 0; 0; 0; 0; 1; 1];
         [1; 0; 1#10; 1; 0; 0; 0; 0; 0; 0];
         [1; 0; 1#10; 0; 1; 0; 0; 0; 0; 0];
         [1; 0; 1#10; 0; 0; 1; 0; 0; 0; 0];
         [1; 0; 1#10; 0; 0; 0; 1; 0; 0; 0];
         [1; 0; 1#10; 0; 0; 0; 0; 1; 0; 0]]%Q.

(** The same with a second security of weight 3/10 and log market value
    200/429, for which the unconstrained market-value coefficient is 6/5. *)
Definition steep : ndarray Qc :=
  table [[1; 0; 1#10; 0; 0; 0; 0; 0; 0; 0];
         [1; 0; 3#10; 0; 0; 0; 0; 0; 200#429; 1];
         [1; 0; 1#10; 1; 0; 0; 0; 0; 0; 0];
         [1; 0; 1#10; 0; 1; 0; 0; 0; 0; 0];
         [1; 0; 1#10; 0; 0; 1; 0; 0; 0; 0];
         [1; 0; 1#10; 0; 0; 0; 1; 0; 0; 0];
         [1; 0; 1#10; 0; 0; 0; 0; 1; 0; 0]]%Q.

(** [calm] and a security that is not held. *)
Definition with_unheld : ndarray Qc :=
  mkArr 8 10 (cells calm ++ [map Q2Qc [1; 0; 0; 0; 1; 0; 0; 1; 3; 2]%Q]).

Definition value_of (r : result (ndarray Qc)) : ndarray Qc :=
  match r with
  | inr v => v
  | inl _ => mkArr 0 0 []
  end.

Definition returned_of (r : outcome (ndarray Qc)) : ndarray Qc :=
  match r with
  | Returned v => v
  | _ => mkArr 0 0 []
  end.

Definition first_of (a : ndarray Qc) : Qc := nth 0 (nth 0 (cells a) []) 0.

(** What the cells compute on them. *)
Definition calm_linear : ndarray Qc :=
  Eval vm_compute in value_of (vb_linearIV calm).
Definition calm_nonlinear : ndarray Qc :=
  Eval vm_compute in returned_of (vb_nonlinearIV 3 calm calm_linear).
Definition steep_two_stage : ndarray Qc :=
  Eval vm_compute in
    value_of (two_stage_least_squares (observations steep)).
Definition steep_first : Qc := Eval vm_compute in first_of steep_two_stage.
Definition steep_linear : ndarray Qc :=
  Eval vm_compute in value_of (vb_linearIV steep).

End QNum.

(** ** The real numbers: exact arithmetic with the true [exp] and [ln] *)

Module RNum.

Local Open Scope R_scope.

Definition Rgtb (x y : R) : bool := if Rgt_dec x y then true else false.
Definition Rleb (x y : R) : bool := if Rle_dec x y then true else false.

#[export] Instance numeric : Numeric R := {
  lit := Q2R;
  add := Rplus;
  sub := Rminus;
  mul := Rmult;
  neg := Ropp;
  fexp := exp;
  flog := ln;
  fabs := Rabs;
  fmax := Rmax;
  gtb := Rgtb;
  leb := Rleb
}.

(** [np.eye(n)] *)
Definition identity (n : nat) : ndarray R :=
  mkArr n n (map (fun i => map (fun j => if Nat.eqb i j then 1 else 0)
                               (seq 0 n))
                 (seq 0 n)).

(** [N] is the inverse of the square matrix [M]. *)
Definition is_inverse (M N : ndarray R) : Prop :=
  nrows M = ncols M /\ well_shaped M /\
  nrows N = nrows M /\ ncols N = nrows M /\ well_shaped N /\
  matmul M N = inr (identity (nrows M)) /\
  matmul N M = inr (identity (nrows M)).

(** In exact arithmetic [np.linalg.inv] returns the inverse of a matrix that
    has one and raises on every other matrix.  This is the call without
    rounding: in float64 it raises only when the elimination meets a pivot
    that is exactly zero, so that a matrix without an inverse whose pivots
    round to something else is inverted, to large numbers.  The two agree on
    the zero matrix, on which both raise. *)
Definition inverse (M : ndarray R) : option (ndarray R) :=
  match excluded_middle_informative (exists N, is_inverse M N) with
  | left H => Some (proj1_sig (constructive_indefinite_description _ H))
  | right _ => None
  end.

#[export] Instance linalg : LinAlg R := {
  linalg_inv := inverse
}.

(** A table of ten columns from its rows. *)
Definition table (rows : list (list R)) : ndarray R :=
  mkArr (length rows) 10 rows.

(** *** Two observation sets

    Seven held securities with weight 1/10 each and one security that is not
    held.  The held rows are those of [held L L']: log market values [0], [L],
    [L'], [0], ... and the characteristics as indicators; the instrument of a
    held row is its log market value.  The row that is not held has
    instrument [iv] and first characteristic [c1]. *)
Definition held (L L' : R) : list (list R) :=
  [ [1; 0; 1/10;  0; 0; 0; 0; 0;  0;  0 ];
    [1; 0; 1/10;  0; 0; 0; 0; 0;  L;  L ];
    [1; 0; 1/10;  1; 0; 0; 0; 0;  L'; L'];
    [1; 0; 1/10;  0; 1; 0; 0; 0;  0;  0 ];
    [1; 0; 1/10;  0; 0; 1; 0; 0;  0;  0 ];
    [1; 0; 1/10;  0; 0; 0; 1; 0;  0;  0 ];
    [1; 0; 1/10;  0; 0; 0; 0; 1;  0;  0 ] ].

Definition not_held (iv c1 : R) : list R :=
  [1; 0; 0;  c1; 0; 0; 0; 0;  0; iv].

Definition portfolio (L L' iv c1 : R) : ndarray R :=
  table (held L L' ++ [not_held iv c1]).


(** On this one the nonlinear iteration raises the intercept by exactly 1 at
    every pass. *)
Definition drifting : ndarray R := portfolio 1 0 2 0.

(** A column from its cells. *)
Definition colvec (l : list R) : ndarray R :=
  mkArr (length l) 1 (map (fun x => [x]) l).

(** The observations of [portfolio]: the seven that are held, and all. *)
Definition held_observations (L L' : R) : list (@observation R) :=
  map observation_of (held L L').

Definition all_observations (L L' iv c1 : R) : list (@observation R) :=
  observations (portfolio L L' iv c1).

(** The design matrix [X] of the held rows is square; this is its inverse:
    row [i] gives coefficient [i] from the seven values of [X beta]. *)
Definition held_design_inverse (L L' : R) : list (list R) :=
  [ [-1 / L;     1 / L;    0; 0; 0; 0; 0];
    [L' / L - 1; - L' / L; 1; 0; 0; 0; 0];
    [-1;         0;        0; 1; 0; 0; 0];
    [-1;         0;        0; 0; 1; 0; 0];
    [-1;         0;        0; 0; 0; 1; 0];
    [-1;         0;        0; 0; 0; 0; 1];
    [1;          0;        0; 0; 0; 0; 0] ].

(** [sum_j a_j b_j / l_j] *)
Fixpoint weighted_dot (ls a b : list R) : R :=
  match ls, a, b with
  | l :: ls', x :: a', y :: b' => x * y / l + weighted_dot ls' a' b'
  | _, _, _ => 0
  end.

(** The inverse of [X^T diag(l) X] for the held rows: [Y diag(1/l) Y^T] with
    [Y] the inverse of [X]. *)
Definition cross_product_inverse (L L' : R) (ls : list R) : ndarray R :=
  mkArr 7 7
    (map (fun ya => map (fun yb => weighted_dot ls ya yb)
                        (held_design_inverse L L'))
         (held_design_inverse L L')).

(** The Gauss-Newton increment on [portfolio L L' iv c1] when the latent
    demands of the held rows are [l1 ... l7]: in the coordinates [u = X beta]
    each held row [j] moves by [1 - (1 + v_j) / l_j], where [v] spreads the
    instruments of the row that is not held over the held rows. *)
Definition increment (L L' iv c1 : R) (ls : list R) : list R :=
  let l := fun j => nth j ls 0 in
  let v2 := (iv - L' * c1) / L in
  let v3 := c1 in
  let v1 := 1 - v2 - v3 in
  let du1 := 1 - (1 + v1) / l 0%nat in
  let du2 := 1 - (1 + v2) / l 1%nat in
  let du3 := 1 - (1 + v3) / l 2%nat in
  let du j := 1 - 1 / l j in
  let s1 := (du2 - du1) / L in
  [ s1;
    du3 - L' * s1 - du1;
    du 3%nat - du1;
    du 4%nat - du1;
    du 5%nat - du1;
    du 6%nat - du1;
    du1 ].

(** The latent demands of the held rows at the coefficients [b]. *)
Definition latent_at (L L' : R) (b : list R) : list R :=
  let b := fun j => nth j b 0 in
  [ 1 / 10 * exp (- b 6%nat);
    1 / 10 * exp (- (L * b 0%nat + b 6%nat));
    1 / 10 * exp (- (L' * b 0%nat + b 1%nat + b 6%nat));
    1 / 10 * exp (- (b 2%nat + b 6%nat));
    1 / 10 * exp (- (b 3%nat + b 6%nat));
    1 / 10 * exp (- (b 4%nat + b 6%nat));
    1 / 10 * exp (- (b 5%nat + b 6%nat)) ].

(** The largest absolute difference of two lists of seven cells, as
    [np.max(np.abs(...))] folds it. *)
Definition max_abs_diff (b b' : list R) : R :=
  match map2 (fun x y => Rabs (x - y)) b b' with
  | [] => 0
  | x :: xs => fold_left Rmax xs x
  end.


(** *** A claim that fails, as it is stated, and runs that end *)


(** A run of the notebook that comes to an end within some number of
    passes. *)
Definition runs_to_completion (mdata : ndarray R) : Prop :=
  exists fuel, notebook fuel mdata <> OutOfFuel.

End RNum.

(** ** The nonlinear cell on the notebook's namespace

    The cells above pass arrays as values.  A notebook keeps them as objects
    that names refer to: [vb_nonlinearIV = vb_linearIV] makes two names refer
    to one object, and a slice such as [vb_linearIV[1:]] is a view of the
    object it was taken from.  The cell "Non-linear IV" is given here once
    more, statement by statement, on such a namespace. *)

Module Store.
Section Cell.
Context {F : Type} {NF : Numeric F} {LA : LinAlg F}.

(** A basic slice: [a[:, lo:hi]] or [a[1:]]. *)
Inductive window : Type :=
| Columns (lo hi : nat)
| RowsFrom1.

Definition through_window (a : ndarray F) (w : window) : ndarray F :=
  match w with
  | Columns lo hi => cols lo hi a
  | RowsFrom1 => tail_rows a
  end.

(** What a name refers to: an object, seen through the slices taken. *)
Record view : Type := mkView {
  ref : nat;
  windows : list window
}.

(** The objects, in the order of their creation; the names bound to arrays;
    and the numbers [dT], [dN] and [dchange], which are immutable values. *)
Record state : Type := mkState {
  heap : list (ndarray F);
  globals : string -> option view;
  dT : nat;
  dN : nat;
  dchange : F
}.

Definition deref (v : view) (s : state) : result (ndarray F) :=
  match nth_error (heap s) (ref v) with
  | None => raise NameError
  | Some a => ret (fold_left through_window (windows v) a)
  end.

(** Reading a name. *)
Definition load (x : string) (s : state) : result (ndarray F) :=
  match globals s x with
  | None => raise NameError
  | Some v => deref v s
  end.

Definition rebind (x : string) (v : view) (s : state) : state :=
  mkState (heap s)
    (fun y => if String.eqb x y then Some v else globals s y)
    (dT s) (dN s) (dchange s).

(** [x = <a new array>]: the array becomes a new object and [x] refers to
    it; no object that exists is written to. *)
Definition new_array (x : string) (a : ndarray F) (s : state) : state :=
  mkState (heap s ++ [a])
    (fun y => if String.eqb x y then Some (mkView (List.length (heap s)) [])
              else globals s y)
    (dT s) (dN s) (dchange s).

Definition with_dT (n : nat) (s : state) : state :=
  mkState (heap s) (globals s) n (dN s) (dchange s).
Definition with_dN (n : nat) (s : state) : state :=
  mkState (heap s) (globals s) (dT s) n (dchange s).
Definition with_dchange (x : F) (s : state) : state :=
  mkState (heap s) (globals s) (dT s) (dN s) x.

(** A statement: the state it leaves, and whether it ended. *)
Definition stmt : Type := state -> state * outcome unit.

(** [x = e], where [e] computes a new array. *)
Definition assign (x : string) (e : state -> result (ndarray F)) : stmt :=
  fun s => match e s with
           | inl err => (s, Raised err)
           | inr a => (new_array x a s, Returned tt)
           end.

(** [x = y] and [x = y[slice]]: [x] refers to the object of [y]. *)
Definition assign_view (x y : string) (ws : list window) : stmt :=
  fun s => match globals s y with
           | None => (s, Raised NameError)
           | Some v =>
               (rebind x (mkView (ref v) (windows v ++ ws)) s, Returned tt)
           end.

Definition assign_dN (e : state -> nat) : stmt :=
  fun s => (with_dN (e s) s, Returned tt).

Definition assign_dchange (e : state -> result F) : stmt :=
  fun s => match e s with
           | inl err => (s, Raised err)
           | inr x => (with_dchange x s, Returned tt)
           end.

(** [dT,dN = a.shape] *)
Definition assign_shape (e : state -> result (ndarray F)) : stmt :=
  fun s => match e s with
           | inl err => (s, Raised err)
           | inr a => (with_dN (ncols a) (with_dT (nrows a) s), Returned tt)
           end.

Definition seq (p q : stmt) : stmt :=
  fun s => match p s with
           | (s1, Returned _) => q s1
           | (s1, Raised e) => (s1, Raised e)
           | (s1, OutOfFuel) => (s1, OutOfFuel)
           end.

Definition skip : stmt := fun s => (s, Returned tt).

Definition if_ (c : state -> result bool) (p : stmt) : stmt :=
  fun s => match c s with
           | inl err => (s, Raised err)
           | inr true => p s
           | inr false => (s, Returned tt)
           end.

(** [while dchange > 1e-4: body] *)
Fixpoint while (fuel : nat) (body : stmt) : stmt :=
  fun s =>
    match fuel with
    | O => (s, OutOfFuel)
    | S fuel' =>
        if gtb (dchange s) tolerance then
          match body s with
          | (s1, Returned _) => while fuel' body s1
          | (s1, Raised e) => (s1, Raised e)
          | (s1, OutOfFuel) => (s1, OutOfFuel)
          end
        else (s, Returned tt)
    end.

Notation "p ;;; q" := (seq p q) (at level 62, right associativity).

(** "Structure the data" *)
Definition structure_the_data : stmt :=
  assign_view "mchars" "mdata" [Columns 3 8] ;;;
  assign_view "vLNme" "mdata" [Columns 8 9] ;;;
  assign_view "vLNmeIV" "mdata" [Columns 9 10] ;;;
  assign_shape (load "mchars") ;;;
  assign_dN (fun s => dN s + 2) ;;;
  assign "vones" (fun s => ret (np_ones (dT s) 1)) ;;;
  assign "mX" (fun s => a <- load "vLNme" s ;; b <- load "mchars" s ;;
                        c <- load "vones" s ;; concatenate1 a [b; c]) ;;;
  assign "mZ" (fun s => a <- load "vLNmeIV" s ;; b <- load "mchars" s ;;
                        c <- load "vones" s ;; concatenate1 a [b; c]).

(** The body of the first [while]. *)
Definition body_unconstrained : stmt :=
  assign "vlatent"
    (fun s => w <- load "vrweight" s ;; X <- load "mX" s ;;
              vb <- load "vb_nonlinearIV" s ;;
              Xb <- matmul (aneg X) vb ;; amul w (np_exp Xb)) ;;;
  assign "mZ_tilde"
    (fun s => v <- load "vlatent" s ;; Z <- load "mZ" s ;;
              lat1 <- matmul v (np_ones 1 (dN s)) ;; amul lat1 Z) ;;;
  assign "vb_nonlinearIV_new"
    (fun s => vb <- load "vb_nonlinearIV" s ;; Zt <- load "mZ_tilde" s ;;
              X <- load "mX" s ;; Z <- load "mZ" s ;;
              v <- load "vlatent" s ;;
              ZtX <- matmul (transpose Zt) X ;; Minv <- inv ZtX ;;
              MZt <- matmul Minv (transpose Z) ;;
              upd <- matmul MZt (sub_scalar v one) ;; aadd vb upd) ;;;
  assign_dchange
    (fun s => vb <- load "vb_nonlinearIV" s ;;
              vb_new <- load "vb_nonlinearIV_new" s ;;
              diff <- asub vb vb_new ;; np_max (np_abs diff)) ;;;
  assign_view "vb_nonlinearIV" "vb_nonlinearIV_new" [].

(** "Unconstrained estimation" *)
Definition unconstrained_estimation (fuel : nat) : stmt :=
  assign_view "vb_nonlinearIV" "vb_linearIV" [] ;;;
  assign_dchange (fun _ => ret one) ;;;
  while fuel body_unconstrained.

(** The body of the second [while]. *)
Definition body_constrained : stmt :=
  assign "vlatent"
    (fun s => w <- load "vrweight" s ;; m <- load "vLNme" s ;;
              X <- load "mX" s ;; vb <- load "vb_nonlinearIV" s ;;
              Xb <- matmul X vb ;;
              e <- asub (scale (neg ceiling) m) Xb ;; amul w (np_exp e)) ;;;
  assign "mX_tilde"
    (fun s => v <- load "vlatent" s ;; X <- load "mX" s ;;
              lat1 <- matmul v (np_ones 1 (dN s)) ;; amul lat1 X) ;;;
  assign "vb_nonlinearIV_new"
    (fun s => vb <- load "vb_nonlinearIV" s ;; Xt <- load "mX_tilde" s ;;
              X <- load "mX" s ;; v <- load "vlatent" s ;;
              XtX <- matmul (transpose Xt) X ;; Minv <- inv XtX ;;
              MXt <- matmul Minv (transpose X) ;;
              upd <- matmul MXt (sub_scalar v one) ;; aadd vb upd) ;;;
  assign_dchange
    (fun s => vb <- load "vb_nonlinearIV" s ;;
              vb_new <- load "vb_nonlinearIV_new" s ;;
              diff <- asub vb vb_new ;; np_max (np_abs diff)) ;;;
  assign_view "vb_nonlinearIV" "vb_nonlinearIV_new" [].

(** "Constrained estimation" *)
Definition constrained_estimation (fuel : nat) : stmt :=
  if_ (fun s => vb <- load "vb_nonlinearIV" s ;; exceeds_ceiling vb)
    (assign_view "vb_nonlinearIV" "vb_linearIV" [RowsFrom1] ;;;
     assign_dchange (fun _ => ret one) ;;;
     assign "mX" (fun s => b <- load "mchars" s ;; c <- load "vones" s ;;
                           concatenate1 b [c]) ;;;
     assign_dN (fun s => dN s - 1) ;;;
     while fuel body_constrained ;;;
     assign "vb_nonlinearIV"
       (fun s => vb <- load "vb_nonlinearIV" s ;;
                 concatenate0 (singleton ceiling) vb)).

(** The cell. *)
Definition nonlinear_cell (fuel : nat) : stmt :=
  structure_the_data ;;; unconstrained_estimation fuel ;;;
  constrained_estimation fuel.

(** The namespace as the cells before leave it: [mdata] is the table,
    [vrweight = mdata[:,2:3]] a view of it, [vb_linearIV] an array of its
    own.  The cell sets [dT], [dN] and [dchange] before it reads them. *)
Definition after_linear_cell (mdata vb_lin : ndarray F) : state :=
  mkState [mdata; vb_lin]
    (fun y => if String.eqb "mdata" y then Some (mkView 0 [])
              else if String.eqb "vrweight" y
                   then Some (mkView 0 [Columns 2 3])
              else if String.eqb "vb_linearIV" y then Some (mkView 1 [])
              else None)
    0 0 zero.

(** What the cell leaves in [vb_nonlinearIV]. *)
Definition result_of (r : state * outcome unit) : outcome (ndarray F) :=
  match snd r with
  | Returned _ => lift (load "vb_nonlinearIV" (fst r))
  | Raised e => Raised e
  | OutOfFuel => OutOfFuel
  end.

(** For contrast, an update in place ([x[...] = a], [x += a]) writes to the
    object [x] refers to; the cell has no such statement. *)
Fixpoint overwrite (h : list (ndarray F)) (r : nat) (a : ndarray F)
  : list (ndarray F) :=
  match h, r with
  | [], _ => []
  | _ :: h', O => a :: h'
  | b :: h', S r' => b :: overwrite h' r' a
  end.

Definition update_in_place (x : string) (a : ndarray F) (s : state) : state :=
  match globals s x with
  | None => s
  | Some v => mkState (overwrite (heap s) (ref v) a) (globals s)
                (dT s) (dN s) (dchange s)
  end.

(** Every name refers to an object that exists. *)
Definition well_formed (s : state) : Prop :=
  forall x v, globals s x = Some v -> ref v < List.length (heap s).

(** [frame s s']: from [s] to [s'] the name [vb_linearIV] refers to the same
    view, and every object of [s] is in [s'] as it was. *)
Definition frame (s s' : state) : Prop :=
  globals s' "vb_linearIV" = globals s "vb_linearIV" /\
  forall r a, nth_error (heap s) r = Some a -> nth_error (heap s') r = Some a.

(** A statement that leaves [vb_linearIV] and the objects alone. *)
Definition framed (p : stmt) : Prop := forall s, frame s (fst (p s)).

(** What a statement that ran to its end has done to the names: [x] now
    reads as [r], every other name as before. *)
Record effect (s s1 : state) (x : string) (r : result (ndarray F)) : Prop :=
  mkEffect {
    eff_wf : well_formed s1;
    eff_load : forall z, load z s1 = if String.eqb x z then r else load z s;
    eff_dT : dT s1 = dT s;
    eff_dN : dN s1 = dN s;
    eff_dchange : dchange s1 = dchange s
  }.

(** What the loops rely on: the names the cell has set, [mX] and [dN] being
    those of the branch. *)
Record knows (s : state) (d : nonlinear_data) (mX : ndarray F) (n : nat)
    (vb_lin : ndarray F) : Prop := mkKnows {
  k_wf : well_formed s;
  k_vrweight : load "vrweight" s = inr (n_vrweight d);
  k_mchars : load "mchars" s = inr (n_mchars d);
  k_vLNme : load "vLNme" s = inr (n_vLNme d);
  k_vones : load "vones" s = inr (n_vones d);
  k_mX : load "mX" s = inr mX;
  k_mZ : load "mZ" s = inr (n_mZ d);
  k_lin : load "vb_linearIV" s = inr vb_lin;
  k_dN : dN s = n
}.

End Cell.
End Store.

(** ** Cell "Select the manager"

    [imgr = 90457], [mdata = mdata[mdata[:,0]==imgr]]: the rows of the table
    read from the spreadsheet whose first cell is the number of the manager.
    [==] between two numbers is the operation of the class [NumericEq]. *)

Class NumericEq (F : Type) : Type := {
  feqb : F -> F -> bool
}.

Section SelectManager.
Context {F : Type} {NF : Numeric F} {LA : LinAlg F} {EQ : NumericEq F}.

(** [a[:,j]]: column [j] as a one-dimensional array; a column that is not
    there is an [IndexError]. *)
Definition column_1d (j : nat) (a : ndarray F) : result (list F) :=
  if Nat.ltb j (ncols a) then ret (map (fun r => nth j r zero) (cells a))
  else raise IndexError.

(** The rows of [rows] at which [mask] is true. *)
Fixpoint mask_rows (mask : list bool) (rows : list (list F))
  : list (list F) :=
  match mask, rows with
  | true :: mask', r :: rows' => r :: mask_rows mask' rows'
  | false :: mask', _ :: rows' => mask_rows mask' rows'
  | _, _ => []
  end.

(** [a[mask]] for a one-dimensional boolean [mask]: its length has to be the
    number of rows of [a]. *)
Definition boolean_index (mask : list bool) (a : ndarray F)
  : result (ndarray F) :=
  if Nat.eqb (length mask) (nrows a) then
    ret (mkArr (count_occ bool_dec mask true) (ncols a)
           (mask_rows mask (cells a)))
  else raise IndexError.

(** [mdata[mdata[:,0]==imgr]] *)
Definition select_manager (imgr : F) (raw : ndarray F) : result (ndarray F) :=
  ids <- column_1d 0 raw ;;
  boolean_index (map (fun x => feqb x imgr) ids) raw.

(** The notebook from the table as it is read: the selection, then the two
    estimation cells. *)
Definition notebook_for (fuel : nat) (imgr : F) (raw : ndarray F)
  : outcome (ndarray F * ndarray F) :=
  match select_manager imgr raw with
  | inl e => Raised e
  | inr mdata => notebook fuel mdata
  end.

(** The row [r] is a row of the manager [imgr]. *)
Definition of_manager (imgr : F) (r : list F) : bool :=
  feqb (nth 0 r zero) imgr.

End SelectManager.

(** [==] on the two instances. *)
Module QEq.
#[export] Instance numeric_eq : NumericEq Qc := {
  feqb := QNum.Qc_eqb
}.
End QEq.

Module REq.
Definition Reqb (x y : R) : bool := if Req_dec_T x y then true else false.
#[export] Instance numeric_eq : NumericEq R := {
  feqb := Reqb
}.
End REq.

(** ** Vocabulary for the properties of the cells as programs *)

Section MoreVocabulary.
Context {F : Type} {NF : Numeric F} {LA : LinAlg F}.

(** A column of [n] coefficients: the shape [(n,1)], and cells to match. *)
Definition column_of_height (n : nat) (vb : ndarray F) : Prop :=
  nrows vb = n /\ ncols vb = 1 /\ length (cells vb) = n /\
  Forall (fun r => length r = 1) (cells vb).

(** What a cell that does not fail for a shape comes to: it returns a value
    that satisfies [P], it raises [LinAlgError], or it is still looping. *)
Definition sound_outcome {A} (P : A -> Prop) (o : outcome A) : Prop :=
  match o with
  | Returned a => P a
  | Raised e => e = LinAlgError
  | OutOfFuel => True
  end.

Definition sound_result {A} (P : A -> Prop) (r : result A) : Prop :=
  match r with
  | inr a => P a
  | inl e => e = LinAlgError
  end.

(** The laws of exact arithmetic about zero that a fixed point relies on. *)
Record null_arithmetic : Prop := mkNull {
  null_add_r : forall x : F, add x zero = x;
  null_mul_r : forall x : F, mul x zero = zero;
  null_mul_one_l : forall x : F, mul one x = x;
  null_sub_diag : forall x : F, sub x x = zero;
  null_abs : fabs zero = zero;
  null_max : fmax zero zero = zero;
  null_small : gtb zero tolerance = false
}.

(** Sums do not depend on the order of their terms. *)
Record sum_laws : Prop := mkSum {
  sum_comm : forall x y : F, add x y = add y x;
  sum_assoc : forall x y z : F, add x (add y z) = add (add x y) z
}.

(** [inv(A.T @ X) @ Z.T @ y] for matrices and a column given row by row:
    the shape of the four estimations of the notebook. *)
Definition solve_rows {O : Type} (n : nat) (a x z : O -> list F) (y : O -> F)
    (k : list O) : result (ndarray F) :=
  AtX <- matmul (transpose (mkArr (length k) n (map a k)))
           (mkArr (length k) n (map x k)) ;;
  Minv <- inv AtX ;;
  MZ <- matmul Minv (transpose (mkArr (length k) n (map z k))) ;;
  matmul MZ (mkArr (length k) 1 (map (fun o => [y o]) k)).

(** A row of [vlatent @ np.ones((1,n))]: the latent demand [l] of the row,
    [n] times. *)
Definition spread (l : F) (n : nat) : list F :=
  map (fun j => dot [l] (column j [repeat one n])) (seq 0 n).

(** The latent demand of one observation at the coefficients [b], as the
    two loops compute it. *)
Definition latent_unconstrained_at (b : list F) (o : observation) : F :=
  mul (weight o) (fexp (dot (map neg (design_row o)) b)).

Definition latent_constrained_at (b : list F) (o : observation) : F :=
  mul (weight o)
    (fexp (sub (mul (neg ceiling) (log_market_value o))
               (dot (reduced_row o) b))).

End MoreVocabulary.

(** *** The weights in another unit *)

Section Rescaling.
Context {F : Type} {NF : Numeric F} {LA : LinAlg F}.

(** A row of the table with its weight, the cell of column 2, multiplied by
    [c]. *)
Definition scale_row (c : F) (r : list F) : list F :=
  firstn 2 r ++ map (mul c) (firstn 1 (skipn 2 r)) ++ skipn 3 r.

(** The table with every weight multiplied by [c]. *)
Definition rescale_weights (c : F) (mdata : ndarray F) : ndarray F :=
  mkArr (nrows mdata) (ncols mdata) (map (scale_row c) (cells mdata)).

Definition rescale_observation (c : F) (o : observation) : observation :=
  mkObservation (mul c (weight o)) (log_market_value o)
    (log_market_value_instrument o) (characteristics o).

(** A column with [a] added to its last cell, the coefficient of the
    constant. *)
Fixpoint shift_last (a : F) (rows : list (list F)) : list (list F) :=
  match rows with
  | [] => []
  | [r] => [map (fun x => add x a) r]
  | r :: rest => r :: shift_last a rest
  end.

Definition shift_intercept (a : F) (vb : ndarray F) : ndarray F :=
  mkArr (nrows vb) (ncols vb) (shift_last a (cells vb)).

(** What a cell comes to, with [f] applied to what it returns. *)
Definition map_result {A B} (f : A -> B) (r : result A) : result B :=
  match r with
  | inl e => inl e
  | inr a => inr (f a)
  end.

Definition map_outcome {A B} (f : A -> B) (o : outcome A) : outcome B :=
  match o with
  | Returned a => Returned (f a)
  | Raised e => Raised e
  | OutOfFuel => OutOfFuel
  end.

End Rescaling.

(** *** Vocabulary for the namespace at the end of the nonlinear cell *)

Section NamespaceVocabulary.
Context {F : Type} {NF : Numeric F} {LA : LinAlg F}.

(** The objects that existed when the heap had [n0] objects still exist. *)
Definition heap_from (n0 : nat) (s : @Store.state F) : Prop :=
  n0 <= length (Store.heap s).

(** The name [x] refers to a whole object (not to a slice of one) that was
    created after the first [n0] objects. *)
Definition created_since (n0 : nat) (x : string) (s : @Store.state F)
  : Prop :=
  exists v, Store.globals s x = Some v /\ n0 <= Store.ref v /\
            Store.windows v = [].

(** A statement started where [P] holds leaves [Q], if it ends normally. *)
Definition ends_with (P : @Store.state F -> Prop) (p : @Store.stmt F)
    (Q : @Store.state F -> Prop) : Prop :=
  forall s s' u, P s -> p s = (s', Returned u) -> Q s'.

End NamespaceVocabulary.

(** *** Tables to run the selection and the reordering on *)

Module MoreData.
Import QNum.

(** The rows of [calm] between two rows of a second manager. *)
Definition two_managers : ndarray Qc :=
  mkArr 9 10
    ([map Q2Qc [2; 0; 1#10; 1; 0; 0; 1; 0; 1; 1]%Q] ++ cells calm ++
     [map Q2Qc [2; 0; 0; 0; 1; 0; 0; 1; 3; 2]%Q]).

(** [with_unheld] with its first two rows exchanged. *)
Definition reordered : ndarray Qc :=
  table [[1; 0; 1#10; 0; 0; 0; 0; 0; 1; 1];
         [1; 0; 1#10; 0; 0; 0; 0; 0; 0; 0];
         [1; 0; 1#10; 1; 0; 0; 0; 0; 0; 0];
         [1; 0; 1#10; 0; 1; 0; 0; 0; 0; 0];
         [1; 0; 1#10; 0; 0; 1; 0; 0; 0; 0];
         [1; 0; 1#10; 0; 0; 0; 1; 0; 0; 0];
         [1; 0; 1#10; 0; 0; 0; 0; 1; 0; 0];
         [1; 0; 0; 0; 1; 0; 0; 1; 3; 2]]%Q.


(** Seven held rows and no other: weights the model generates without
    noise at the coefficients [0, ..., 0, ln (1/10)]. *)
Definition all_held : ndarray R := RNum.table (RNum.held 1 0).
Definition all_held_coefficients : list R :=
  [0; 0; 0; 0; 0; 0; ln (1 / 10)]%R.

End MoreData.

(** ** The real numbers with the special values of floating point

    Float64 has, besides its numbers, the values [inf], [-inf] and [nan],
    and the operations of the notebook produce them without raising:
    [np.exp] overflows to [inf], [0 * inf] is [nan], a [nan] spreads through
    [+ - *], [np.abs] and [np.max], and every comparison with a [nan] is
    false.  This instance adds the three values to the real numbers and
    follows IEEE 754 on them.  On numbers it computes as the real numbers do
    (no rounding, no underflow, no overflow of a sum or product); [np.exp]
    alone overflows, above 710 (in float64: above 709.78...). *)

Module XNum.

Local Open Scope R_scope.

Inductive xreal : Type :=
| Fin (x : R)
| PInf
| NInf
| NaN.

(** [x * inf] for a number [x]: the sign of [x], and [nan] for zero. *)
Definition times_inf (x : R) : xreal :=
  if RNum.Rgtb x 0 then PInf else if RNum.Rgtb 0 x then NInf else NaN.

Definition xneg (a : xreal) : xreal :=
  match a with
  | Fin x => Fin (- x)
  | PInf => NInf
  | NInf => PInf
  | NaN => NaN
  end.

Definition xadd (a b : xreal) : xreal :=
  match a, b with
  | NaN, _ | _, NaN => NaN
  | Fin x, Fin y => Fin (x + y)
  | PInf, NInf | NInf, PInf => NaN
  | PInf, _ | _, PInf => PInf
  | NInf, _ | _, NInf => NInf
  end.

Definition xsub (a b : xreal) : xreal := xadd a (xneg b).

Definition xmul (a b : xreal) : xreal :=
  match a, b with
  | NaN, _ | _, NaN => NaN
  | Fin x, Fin y => Fin (x * y)
  | Fin x, PInf | PInf, Fin x => times_inf x
  | Fin x, NInf | NInf, Fin x => xneg (times_inf x)
  | PInf, PInf | NInf, NInf => PInf
  | PInf, NInf | NInf, PInf => NInf
  end.

(** The argument above which [np.exp] overflows. *)
Definition exp_overflow : R := 710.

Definition xexp (a : xreal) : xreal :=
  match a with
  | Fin x => if RNum.Rgtb x exp_overflow then PInf else Fin (exp x)
  | PInf => PInf
  | NInf => Fin 0
  | NaN => NaN
  end.

Definition xlog (a : xreal) : xreal :=
  match a with
  | Fin x =>
      if RNum.Rgtb x 0 then Fin (ln x)
      else if RNum.Rgtb 0 x then NaN else NInf
  | PInf => PInf
  | NInf => NaN
  | NaN => NaN
  end.

Definition xabs (a : xreal) : xreal :=
  match a with
  | Fin x => Fin (Rabs x)
  | PInf | NInf => PInf
  | NaN => NaN
  end.

(** [np.max] hands a [nan] on. *)
Definition xmax (a b : xreal) : xreal :=
  match a, b with
  | NaN, _ | _, NaN => NaN
  | Fin x, Fin y => Fin (Rmax x y)
  | PInf, _ | _, PInf => PInf
  | NInf, c | c, NInf => c
  end.

Definition xgtb (a b : xreal) : bool :=
  match a, b with
  | Fin x, Fin y => RNum.Rgtb x y
  | PInf, Fin _ | PInf, NInf | Fin _, NInf => true
  | _, _ => false
  end.

Definition xleb (a b : xreal) : bool :=
  match a, b with
  | Fin x, Fin y => RNum.Rleb x y
  | NInf, Fin _ | NInf, PInf | NInf, NInf | Fin _, PInf | PInf, PInf => true
  | _, _ => false
  end.

#[export] Instance numeric : Numeric xreal := {
  lit := fun q => Fin (Q2R q);
  add := xadd;
  sub := xsub;
  mul := xmul;
  neg := xneg;
  fexp := xexp;
  flog := xlog;
  fabs := xabs;
  fmax := xmax;
  gtb := xgtb;
  leb := xleb
}.

Definition finite (a : xreal) : bool :=
  match a with
  | Fin _ => true
  | _ => false
  end.

Definition real_of (a : xreal) : R :=
  match a with
  | Fin x => x
  | _ => 0
  end.

Definition all_finite (M : ndarray xreal) : bool :=
  forallb (forallb finite) (cells M).

Definition reals_of (M : ndarray xreal) : ndarray R :=
  mkArr (nrows M) (ncols M) (map (map real_of) (cells M)).

Definition of_reals (N : ndarray R) : ndarray xreal :=
  mkArr (nrows N) (ncols N) (map (map Fin) (cells N)).

(** [np.linalg.inv].  On a matrix of numbers, as in the real numbers.  A
    square matrix with a cell that is not a number has no pivot that is
    equal to zero for LAPACK to find (a [nan] is equal to nothing), so the
    call does not raise; on a matrix of [nan] only -- the one case the run
    below meets -- every cell of what it returns is [nan], and the model
    gives that answer whenever a cell is not a number. *)
Definition inverse (M : ndarray xreal) : option (ndarray xreal) :=
  if all_finite M then
    match RNum.inverse (reals_of M) with
    | Some N => Some (of_reals N)
    | None => None
    end
  else if Nat.eqb (nrows M) (ncols M) then
    Some (mkArr (nrows M) (ncols M) (map (map (fun _ => NaN)) (cells M)))
  else None.

#[export] Instance linalg : LinAlg xreal := {
  linalg_inv := inverse
}.

(** A table of ten columns from its rows of numbers. *)
Definition table (rows : list (list R)) : ndarray xreal :=
  mkArr (length rows) 10 (map (map Fin) rows).

(** A column from its cells. *)
Definition colvec (l : list xreal) : ndarray xreal :=
  mkArr (length l) 1 (map (fun x => [x]) l).

(** [np.eye(n)] *)
Definition identity (n : nat) : ndarray xreal :=
  mkArr n n (map (fun i => map (fun j => if Nat.eqb i j then Fin 1 else Fin 0)
                               (seq 0 n))
                 (seq 0 n)).

(** *** An observation set on which [np.exp] overflows

    Seven held securities, one of them with half the weight of the others,
    and one security that is not held, whose first characteristic is 2000.
    The linear cell sees the held rows only: its coefficients are zero but
    for that of the first characteristic, [ln (1/20) - ln (1/10)], and the
    intercept [ln (1/10)].  The nonlinear cell sees all rows: on the eighth,
    [-X beta] is about 1388.6. *)
Definition overflowing : ndarray xreal :=
  table [ [1; 0; 1/10;  0;    0; 0; 0; 0;  0; 0];
          [1; 0; 1/10;  0;    0; 0; 0; 0;  1; 1];
          [1; 0; 1/20;  1;    0; 0; 0; 0;  0; 0];
          [1; 0; 1/10;  0;    1; 0; 0; 0;  0; 0];
          [1; 0; 1/10;  0;    0; 1; 0; 0;  0; 0];
          [1; 0; 1/10;  0;    0; 0; 1; 0;  0; 0];
          [1; 0; 1/10;  0;    0; 0; 0; 1;  0; 0];
          [1; 0; 0;     2000; 1; 1; 1; 1;  1; 1] ].

(** What the linear cell returns on it, and what the nonlinear cell does. *)
Definition overflowing_linear : ndarray xreal :=
  colvec [Fin 0; Fin (ln (1 / 20) - ln (1 / 10)); Fin 0; Fin 0; Fin 0; Fin 0;
          Fin (ln (1 / 10))].

Definition overflowing_nonlinear : ndarray xreal :=
  colvec [NaN; NaN; NaN; NaN; NaN; NaN; NaN].

(** The observations of the seven held rows, and what the nonlinear cell
    makes of the table under "Structure the data". *)
Definition overflowing_held : list (@observation xreal) :=
  firstn 7 (observations overflowing).

Definition overflowing_data : nonlinear_data :=
  nonlinear_data_of (observations overflowing).

(** Rows of [nan] only, and the matrix of that kind that the first pass on
    [overflowing] hands to [np.linalg.inv]. *)
Definition all_nan (rows : list (list xreal)) : Prop :=
  Forall (Forall (fun x => x = NaN)) rows.


(** *** Three claims that fail, as they are stated *)

(** "On every observation set on which the estimation completes, the first
    element of both coefficient vectors is at most .99." *)
Definition first_elements_at_most_ceiling (mdata : ndarray xreal) : Prop :=
  forall (fuel : nat) (vb_lin vb_non : ndarray xreal),
    notebook fuel mdata = Returned (vb_lin, vb_non) ->
    (exists x, first_coefficient vb_lin x /\ leb x ceiling = true) /\
    (exists x, first_coefficient vb_non x /\ leb x ceiling = true).

(** "The iteration from the linear-IV output stops exactly when the largest
    absolute change is at most 1e-4." *)
Definition stops_exactly_within_tolerance (mdata : ndarray xreal) : Prop :=
  forall vb_lin b : ndarray xreal,
    vb_linearIV mdata = inr vb_lin ->
    ((exists fuel,
         unconstrained_nonlinear (nonlinear_data_of (observations mdata))
           fuel vb_lin = Returned b) <->
     converges (unconstrained_step (observations mdata)) vb_lin b).



End XNum.

(** * Properties *)

Unset Implicit Arguments.

(** ** Lists and rows *)

Section RowLemmas.
Context {F : Type} {NF : Numeric F} {LA : LinAlg F}.

Lemma bind_ret_inv {A B} (c : result A) (k : A -> result B) (b : B) :
  bind c k = inr b -> exists a, c = inr a /\ k a = inr b.
Proof.
  destruct c as [e | a]; simpl; intros H; [discriminate | eauto].
Qed.

Lemma row10 (r : list F) :
  length r = 10 ->
  exists a0 a1 a2 a3 a4 a5 a6 a7 a8 a9,
    r = [a0; a1; a2; a3; a4; a5; a6; a7; a8; a9].
Proof.
  intros H.
  do 10 (destruct r as [| ? r]; [discriminate H |]).
  destruct r; [| discriminate H].
  repeat eexists.
Qed.

Lemma take_rows_map (f : list F -> list F) (rows : list (list F))
    (idx : list nat) (rs : list (list F)) :
  take_rows rows idx = inr rs ->
  take_rows (map f rows) idx = inr (map f rs).
Proof.
  revert rs; induction idx as [| i idx IH]; simpl; intros rs H.
  - inversion H; reflexivity.
  - rewrite nth_error_map.
    destruct (nth_error rows i) as [r |]; [| discriminate].
    apply bind_ret_inv in H as (rs' & H1 & H2).
    inversion H2; subst rs.
    simpl. rewrite (IH _ H1). reflexivity.
Qed.

Lemma take_rows_length (rows : list (list F)) (idx : list nat)
    (rs : list (list F)) :
  take_rows rows idx = inr rs -> length rs = length idx.
Proof.
  revert rs; induction idx as [| i idx IH]; simpl; intros rs H.
  - inversion H; reflexivity.
  - destruct (nth_error rows i) as [r |]; [| discriminate].
    apply bind_ret_inv in H as (rs' & H1 & H2).
    inversion H2; subst rs. simpl. f_equal. auto.
Qed.

(** [np.argwhere(vrweight>0)[:,0]] lists the positions of the positive rows,
    so that [mdata[vloc]] is the table filtered. *)
Lemma take_rows_argwhere (rows pre : list (list F)) :
  Forall (fun r => length r = 10) rows ->
  take_rows (pre ++ rows)
    (map fst (argwhere_from (length pre)
                (map (fun r => firstn 1 (skipn 2 r)) rows)))
  = inr (filter positive_row rows).
Proof.
  intros Hrows; revert pre.
  induction Hrows as [| r rows Hr _ IH]; intros pre; simpl.
  - reflexivity.
  - destruct (row10 _ Hr)
      as (a0 & a1 & a2 & a3 & a4 & a5 & a6 & a7 & a8 & a9 & ->).
    unfold positive_row; simpl.
    specialize (IH (pre ++ [[a0; a1; a2; a3; a4; a5; a6; a7; a8; a9]])).
    rewrite length_app, <- app_assoc in IH; simpl in IH.
    rewrite Nat.add_1_r in IH.
    destruct (gtb a2 zero); simpl.
    + rewrite nth_error_app2, Nat.sub_diag by lia. simpl.
      rewrite IH. reflexivity.
    + exact IH.
Qed.

Lemma row_fields (r : list F) :
  length r = 10 ->
  firstn (3 - 2) (skipn 2 r) = [weight (observation_of r)] /\
  firstn (8 - 3) (skipn 3 r) = characteristics (observation_of r) /\
  firstn (9 - 8) (skipn 8 r) = [log_market_value (observation_of r)] /\
  firstn (10 - 9) (skipn 9 r)
  = [log_market_value_instrument (observation_of r)].
Proof.
  intros H.
  destruct (row10 _ H)
    as (a0 & a1 & a2 & a3 & a4 & a5 & a6 & a7 & a8 & a9 & ->).
  repeat split.
Qed.

Lemma map_fields (rows : list (list F)) :
  Forall (fun r => length r = 10) rows ->
  map (fun r => firstn (3 - 2) (skipn 2 r)) rows
    = map (fun r => [weight (observation_of r)]) rows /\
  map (fun r => firstn (8 - 3) (skipn 3 r)) rows
    = map (fun r => characteristics (observation_of r)) rows /\
  map (fun r => firstn (9 - 8) (skipn 8 r)) rows
    = map (fun r => [log_market_value (observation_of r)]) rows /\
  map (fun r => firstn (10 - 9) (skipn 9 r)) rows
    = map (fun r => [log_market_value_instrument (observation_of r)]) rows.
Proof.
  intros H.
  repeat split; apply map_ext_in; intros r Hr;
    rewrite Forall_forall in H; apply (row_fields r (H r Hr)).
Qed.

Lemma zip_rows_map {A} (f g : A -> list F) (l : list A) :
  zip_rows (map f l) (map g l) = map (fun x => f x ++ g x) l.
Proof.
  induction l as [| x l IH]; simpl; [reflexivity | now rewrite IH].
Qed.

Lemma zip_rows_ones {A} (f : A -> list F) (l : list A) :
  zip_rows (map f l) (repeat [one] (length l))
  = map (fun x => f x ++ [one]) l.
Proof.
  induction l as [| x l IH]; simpl; [reflexivity | now rewrite IH].
Qed.

Lemma filter_observations (rows : list (list F)) :
  retained (map observation_of rows)
  = map observation_of (filter positive_row rows).
Proof.
  unfold retained.
  induction rows as [| r rows IH]; simpl; [reflexivity |].
  unfold positive_row at 1.
  change (weight (observation_of r)) with (nth 2 r zero).
  destruct (gtb (nth 2 r zero) zero); simpl; now rewrite IH.
Qed.

Lemma Forall_filter {A} (P : A -> Prop) (p : A -> bool) (l : list A) :
  Forall P l -> Forall P (filter p l).
Proof.
  intros H; rewrite Forall_forall in *; intros x Hx.
  apply filter_In in Hx as [Hx _]; auto.
Qed.

(** "Structure the data" of the linear cell yields the matrices of steps 1 to
    3 of the specification, over the retained rows. *)
Lemma structure_linear_spec (mdata : ndarray F) :
  table_ok mdata ->
  let kept := retained (observations mdata) in
  structure_linear mdata
  = inr (mkLinearData
           (matrix_of characteristic_count characteristics kept)
           (column_of log_market_value kept)
           (column_of log_market_value_instrument kept)
           (log_weights kept)
           (np_ones (length kept) 1)
           (design kept)
           (instruments kept)).
Proof.
  intros (Hc & Hn & Hrows) kept.
  unfold structure_linear, take, vrweight_of, argwhere_gt0.
  set (vloc := map fst _).
  assert (Htake : take_rows (cells mdata) vloc
                  = inr (filter positive_row (cells mdata))).
  { subst vloc. unfold cols; cbn [cells].
    exact (take_rows_argwhere (cells mdata) [] Hrows). }
  rewrite Htake.
  unfold cols; cbn [cells nrows ncols bind ret].
  rewrite (take_rows_map (fun r => firstn (3 - 2) (skipn 2 r)) _ _ _ Htake).
  cbn [bind ret].
  pose proof (take_rows_length _ _ _ Htake) as Hlen.
  pose proof (Forall_filter _ positive_row _ Hrows) as Hkept.
  destruct (map_fields _ Hkept) as (Hw & Hch & Hme & Hiv).
  assert (Hk : kept = map observation_of (filter positive_row (cells mdata)))
    by apply filter_observations.
  assert (Hlk : length kept = length vloc)
    by (rewrite Hk, length_map; exact Hlen).
  unfold np_log, amap, np_ones, concatenate1, hstack2.
  cbn [cells nrows ncols bind ret].
  rewrite Hc, !Nat.eqb_refl.
  cbn [cells nrows ncols bind ret].
  rewrite !Nat.eqb_refl.
  cbn [cells nrows ncols bind ret].
  rewrite Hw, Hch, Hme, Hiv, !map_map.
  unfold ret. f_equal.
  unfold matrix_of, column_of, log_weights, design, instruments, column_of,
    matrix_of, characteristic_count.
  rewrite Hlk, Hk, !map_map.
  change (repeat one 1) with [one].
  rewrite <- Hlen.
  rewrite !zip_rows_map, !zip_rows_ones.
  reflexivity.
Qed.

(** "Structure the data" of the nonlinear cell yields the matrices over all
    the rows. *)
Lemma structure_nonlinear_spec (mdata : ndarray F) :
  table_ok mdata ->
  structure_nonlinear mdata = inr (nonlinear_data_of (observations mdata)).
Proof.
  intros (Hc & Hn & Hrows).
  destruct (map_fields _ Hrows) as (Hw & Hch & Hme & Hiv).
  unfold structure_nonlinear, vrweight_of, cols, np_ones, concatenate1,
    hstack2.
  cbn [cells nrows ncols bind ret].
  rewrite Hc, !Nat.eqb_refl.
  cbn [cells nrows ncols bind ret].
  rewrite !Nat.eqb_refl.
  cbn [cells nrows ncols bind ret].
  rewrite Hw, Hch, Hme, Hiv.
  unfold ret. f_equal.
  unfold nonlinear_data_of, matrix_of, column_of, design, instruments,
    matrix_of, characteristic_count, observations, np_ones.
  rewrite !length_map, !map_map, Hn.
  change (repeat one 1) with [one].
  rewrite <- Hn.
  rewrite !zip_rows_map, !zip_rows_ones.
  reflexivity.
Qed.

End RowLemmas.

(** ** The [while] loop *)

Section LoopLemmas.
Context {F : Type} {NF : Numeric F} {LA : LinAlg F}.
Variable body : ndarray F -> result (F * ndarray F).

Lemma while_returned (fuel : nat) (st : F * ndarray F) (b : ndarray F) :
  while_loop body fuel st = Returned b <->
  exists n st', n < fuel /\ passes body st n st' /\
                gtb (fst st') tolerance = false /\ snd st' = b.
Proof.
  split.
  - revert st; induction fuel as [| fuel IH]; intros st H; simpl in H.
    + discriminate.
    + destruct (gtb (fst st) tolerance) eqn:G.
      * destruct (body (snd st)) as [e | st1] eqn:B; [discriminate |].
        destruct (IH _ H) as (n & st' & Hn & Hp & Hg & Hb).
        exists (S n), st'. repeat split; try assumption; [lia |].
        eapply passes_S; eassumption.
      * inversion H; subst b.
        exists 0, st. repeat split; [lia | constructor | assumption].
  - intros (n & st' & Hn & Hp & Hg & Hb).
    revert fuel Hn; induction Hp as [st | st st1 st2 n G B Hp IH];
      intros fuel Hn; (destruct fuel as [| fuel]; [lia |]); simpl.
    + rewrite Hg. now subst b.
    + rewrite G, B. apply IH; [assumption | assumption | lia].
Qed.

Lemma while_raised (fuel : nat) (st : F * ndarray F) (e : exn) :
  while_loop body fuel st = Raised e <->
  exists n st', n < fuel /\ passes body st n st' /\
                gtb (fst st') tolerance = true /\ body (snd st') = inl e.
Proof.
  split.
  - revert st; induction fuel as [| fuel IH]; intros st H; simpl in H.
    + discriminate.
    + destruct (gtb (fst st) tolerance) eqn:G; [| discriminate].
      destruct (body (snd st)) as [e' | st1] eqn:B.
      * inversion H; subst e'.
        exists 0, st.
        repeat split; [lia | constructor | assumption | assumption].
      * destruct (IH _ H) as (n & st' & Hn & Hp & Hg & Hb).
        exists (S n), st'. repeat split; try assumption; [lia |].
        eapply passes_S; eassumption.
  - intros (n & st' & Hn & Hp & Hg & Hb).
    revert fuel Hn; induction Hp as [st | st st1 st2 n G B Hp IH];
      intros fuel Hn; (destruct fuel as [| fuel]; [lia |]); simpl.
    + now rewrite Hg, Hb.
    + rewrite G, B. apply IH; [assumption | assumption | lia].
Qed.

Lemma while_out_of_fuel (fuel : nat) (st : F * ndarray F) :
  while_loop body fuel st = OutOfFuel <-> exists st', passes body st fuel st'.
Proof.
  split.
  - revert st; induction fuel as [| fuel IH]; intros st H; simpl in H.
    + exists st; constructor.
    + destruct (gtb (fst st) tolerance) eqn:G; [| discriminate].
      destruct (body (snd st)) as [e' | st1] eqn:B; [discriminate |].
      destruct (IH _ H) as (st' & Hp).
      exists st'. eapply passes_S; eassumption.
  - intros (st' & Hp).
    induction Hp as [st | st st1 st2 n G B Hp IH]; simpl.
    + reflexivity.
    + now rewrite G, B.
Qed.

(** A property of the vector that every pass preserves holds of whatever the
    loop returns. *)
Lemma passes_invariant (P : ndarray F -> Prop) :
  (forall vb d vb', P vb -> body vb = inr (d, vb') -> P vb') ->
  forall st n st', passes body st n st' -> P (snd st) -> P (snd st').
Proof.
  intros Hstep st n st' Hp.
  induction Hp as [st | st [d1 vb1] st2 n G B Hp IH]; intros HP.
  - assumption.
  - apply IH. simpl. eapply Hstep; eassumption.
Qed.

(** The passes of a run are determined. *)
Lemma passes_deterministic (st : F * ndarray F) (n : nat)
    (st1 st2 : F * ndarray F) :
  passes body st n st1 -> passes body st n st2 -> st1 = st2.
Proof.
  intros H1; revert st2.
  induction H1 as [st | st sa sb n G B Hp IH]; intros st2 H2;
    inversion H2; subst.
  - reflexivity.
  - apply IH. congruence.
Qed.

(** After at least one pass, the state is what the body made of the vector
    before it. *)
Lemma passes_last (st : F * ndarray F) (n : nat) (st' : F * ndarray F) :
  passes body st (S n) st' ->
  exists prev, passes body st n prev /\
               gtb (fst prev) tolerance = true /\ body (snd prev) = inr st'.
Proof.
  revert st; induction n as [| n IH]; intros st H.
  - inversion H as [| ? sa ? ? G B Hp]; subst.
    inversion Hp; subst.
    exists st. repeat split; [constructor | assumption | assumption].
  - inversion H as [| ? sa ? ? G B Hp]; subst.
    destruct (IH _ Hp) as (prev & Hq & Hg & Hb).
    exists prev. repeat split; try assumption.
    eapply passes_S; eassumption.
Qed.

(** One more pass at the end. *)
Lemma passes_snoc (st st1 st2 : F * ndarray F) (n : nat) :
  passes body st n st1 ->
  gtb (fst st1) tolerance = true ->
  body (snd st1) = inr st2 ->
  passes body st (S n) st2.
Proof.
  intros Hp; revert st2.
  induction Hp as [st | st sa sb n G B Hp IH]; intros st2 Hg Hb.
  - eapply passes_S; [exact Hg | exact Hb | constructor].
  - eapply passes_S; [exact G | exact B | apply IH; assumption].
Qed.

End LoopLemmas.

(** ** Columns stay columns *)

Section ShapeLemmas.
Context {F : Type} {NF : Numeric F} {LA : LinAlg F}.

Lemma matmul_inv (a b c : ndarray F) :
  matmul a b = inr c ->
  ncols a = nrows b /\
  c = mkArr (nrows a) (ncols b)
        (matmul_cells (cells a) (cells b) (ncols b)).
Proof.
  unfold matmul. destruct (Nat.eqb (ncols a) (nrows b)) eqn:E; [| discriminate].
  intros H; inversion H. apply Nat.eqb_eq in E. auto.
Qed.

Lemma matmul_column (a b c : ndarray F) :
  ncols b = 1 -> matmul a b = inr c -> column_vector c.
Proof.
  intros Hb H. apply matmul_inv in H as [_ ->].
  split; simpl; [assumption |].
  rewrite Hb. unfold matmul_cells. apply Forall_forall. intros r Hr.
  apply in_map_iff in Hr as (r' & <- & _). reflexivity.
Qed.

Lemma map2_rows_length (op : F -> F -> F) (a b : list (list F)) :
  Forall (fun r => length r = 1) a ->
  Forall (fun r => length r = 1) b ->
  Forall (fun r => length r = 1) (map2 (map2 op) a b).
Proof.
  intros Ha; revert b.
  induction Ha as [| r a Hr _ IH]; intros b Hb; simpl; [constructor |].
  destruct Hb as [| s b Hs Hb]; [constructor |].
  constructor; [| apply IH; assumption].
  destruct r as [| x [| ? ?]]; try discriminate.
  destruct s as [| y [| ? ?]]; try discriminate.
  reflexivity.
Qed.

Lemma zipwith_ncols (op : F -> F -> F) (a b c : ndarray F) :
  ncols a = 1 -> ncols b = 1 -> zipwith op a b = inr c -> ncols c = 1.
Proof.
  intros Ha Hb. unfold zipwith.
  destruct (Nat.eqb (nrows a) (nrows b) && Nat.eqb (ncols a) (ncols b)).
  - intros H; inversion H; assumption.
  - rewrite Ha, Hb. simpl.
    destruct (bdim (nrows a) (nrows b)); [| discriminate].
    intros H; inversion H; reflexivity.
Qed.

Lemma zipwith_column (op : F -> F -> F) (a b c : ndarray F) :
  column_vector a -> column_vector b -> zipwith op a b = inr c ->
  column_vector c.
Proof.
  intros [Ha Ra] [Hb Rb] H.
  split; [exact (zipwith_ncols op a b c Ha Hb H) |].
  revert H. unfold zipwith.
  destruct (Nat.eqb (nrows a) (nrows b) && Nat.eqb (ncols a) (ncols b)).
  - intros H; inversion H; simpl. apply map2_rows_length; assumption.
  - rewrite Ha, Hb. simpl.
    destruct (bdim (nrows a) (nrows b)); [| discriminate].
    intros H; inversion H; simpl.
    apply Forall_forall. intros r Hr.
    apply in_map_iff in Hr as (i & <- & _). reflexivity.
Qed.

Lemma exceeds_ceiling_column (vb : ndarray F) (c : bool) :
  column_vector vb -> exceeds_ceiling vb = inr c ->
  exists x, first_coefficient vb x /\ gtb x ceiling = c.
Proof.
  intros [_ Hr]. unfold exceeds_ceiling, row0, first_coefficient.
  destruct (cells vb) as [| r rest]; simpl; [discriminate |].
  inversion Hr as [| ? ? H1 _]; subst.
  destruct r as [| x [| ? ?]]; try discriminate.
  simpl. intros H; inversion H. eauto.
Qed.

Lemma concatenate0_singleton (x : F) (b vb : ndarray F) :
  concatenate0 (singleton x) b = inr vb ->
  ncols b = 1 /\ vb = mkArr (1 + nrows b) 1 ([x] :: cells b).
Proof.
  unfold concatenate0, singleton; simpl.
  destruct (ncols b) as [| [| n]]; simpl; try discriminate.
  intros H; inversion H. auto.
Qed.

(** The weights are a column as soon as the table has its ten columns. *)
Lemma vrweight_ncols (mdata : ndarray F) :
  ncols mdata = 10 -> ncols (vrweight_of mdata) = 1.
Proof. intros H. unfold vrweight_of, cols; simpl. now rewrite H. Qed.

Lemma structure_linear_ncols (mdata : ndarray F) (d : linear_data) :
  ncols mdata = 10 -> structure_linear mdata = inr d ->
  ncols (l_vLNrweight d) = 1 /\ ncols (l_vLNme d) = 1.
Proof.
  intros Hc. unfold structure_linear.
  intros H.
  apply bind_ret_inv in H as (mdata0 & H0 & H).
  apply bind_ret_inv in H as (w0 & Hw & H).
  apply bind_ret_inv in H as (mX & HX & H).
  apply bind_ret_inv in H as (mZ & HZ & H).
  inversion H; subst d; clear H. cbn [l_vLNrweight l_vLNme].
  unfold take in Hw, H0.
  apply bind_ret_inv in Hw as (rs & _ & Hw). inversion Hw; subst w0.
  apply bind_ret_inv in H0 as (rs0 & _ & H0). inversion H0; subst mdata0.
  unfold np_log, amap, cols; cbn [ncols]. rewrite Hc. split; reflexivity.
Qed.

Lemma unconstrained_linear_column (d : linear_data) (vb : ndarray F) :
  ncols (l_vLNrweight d) = 1 -> unconstrained_linear d = inr vb ->
  column_vector vb.
Proof.
  intros Hy H. unfold unconstrained_linear in H.
  apply bind_ret_inv in H as (ZtX & _ & H).
  apply bind_ret_inv in H as (Minv & _ & H).
  apply bind_ret_inv in H as (MZt & _ & H).
  exact (matmul_column _ _ _ Hy H).
Qed.

Lemma constrained_linear_first (d : linear_data) (vb : ndarray F) :
  constrained_linear d = inr vb ->
  column_vector vb /\ first_coefficient vb ceiling.
Proof.
  intros H. unfold constrained_linear in H.
  apply bind_ret_inv in H as (mX & _ & H).
  apply bind_ret_inv in H as (XtX & _ & H).
  apply bind_ret_inv in H as (Minv & _ & H).
  apply bind_ret_inv in H as (MXt & _ & H).
  apply bind_ret_inv in H as (y & _ & H).
  apply bind_ret_inv in H as (b & Hb & H).
  apply concatenate0_singleton in H as [Hc ->].
  apply matmul_inv in Hb as [_ ->]. simpl in Hc.
  split; [| eexists; reflexivity].
  split; simpl; [reflexivity |].
  constructor; [reflexivity |].
  rewrite Hc. unfold matmul_cells. apply Forall_forall. intros r Hr.
  apply in_map_iff in Hr as (r' & <- & _). reflexivity.
Qed.

Lemma linear_of_column (d : linear_data) (vb : ndarray F) :
  ncols (l_vLNrweight d) = 1 -> linear_of d = inr vb -> column_vector vb.
Proof.
  intros Hy H. unfold linear_of in H.
  apply bind_ret_inv in H as (vb0 & H0 & H).
  apply bind_ret_inv in H as (c & Hc & H).
  destruct c.
  - apply constrained_linear_first in H as [H _]; assumption.
  - inversion H; subst vb. exact (unconstrained_linear_column _ _ Hy H0).
Qed.

(** One pass of the first loop turns a column into a column. *)
Lemma step_unconstrained_column (d : nonlinear_data) (vb vb' : ndarray F)
    (dch : F) :
  ncols (n_vrweight d) = 1 -> column_vector vb ->
  step_unconstrained d vb = inr (dch, vb') -> column_vector vb'.
Proof.
  intros Hw Hvb H. unfold step_unconstrained in H.
  apply bind_ret_inv in H as (vlatent & Hl & H).
  apply bind_ret_inv in H as (mZt & _ & H).
  apply bind_ret_inv in H as (upd & Hu & H).
  apply bind_ret_inv in H as (vb_new & Hn & H).
  apply bind_ret_inv in H as (dc & _ & H).
  inversion H; subst; clear H.
  unfold vlatent_unconstrained in Hl.
  apply bind_ret_inv in Hl as (Xb & HXb & Hl).
  assert (HXc : ncols Xb = 1).
  { apply matmul_inv in HXb as [_ ->]. simpl. apply Hvb. }
  assert (Hlc : ncols vlatent = 1).
  { apply (zipwith_ncols _ _ _ _ Hw) in Hl; [exact Hl |]. exact HXc. }
  apply (zipwith_column _ _ _ _ Hvb) in Hn; [exact Hn |].
  unfold update_unconstrained in Hu.
  apply bind_ret_inv in Hu as (ZtX & _ & Hu).
  apply bind_ret_inv in Hu as (Minv & _ & Hu).
  apply bind_ret_inv in Hu as (MZt & _ & Hu).
  exact (matmul_column MZt (sub_scalar vlatent one) upd Hlc Hu).
Qed.

End ShapeLemmas.

(** ** Matrices of real numbers *)

Module RFacts.
Import RNum.
Local Open Scope R_scope.

Lemma zero_R : @zero R numeric = 0.
Proof. unfold zero, lit, numeric, Q2R; simpl. lra. Qed.

Lemma one_R : @one R numeric = 1.
Proof. unfold one, lit, numeric, Q2R; simpl. lra. Qed.

Lemma ceiling_R : @ceiling R numeric = 99 / 100.
Proof. unfold ceiling, lit, numeric, Q2R; simpl. lra. Qed.

Lemma tolerance_R : @tolerance R numeric = 1 / 10000.
Proof. unfold tolerance, lit, numeric, Q2R; simpl. lra. Qed.

Ltac dot_simpl := cbn [dot map seq add mul numeric column].

Lemma dot_nil_r (u : list R) : dot u [] = 0.
Proof. destruct u; dot_simpl; apply zero_R. Qed.

Lemma dot_nil_zero (u : list R) : dot u [] = zero.
Proof. destruct u; reflexivity. Qed.

Lemma dot_cons (x y : R) (u v : list R) :
  dot (x :: u) (y :: v) = x * y + dot u v.
Proof. reflexivity. Qed.

Lemma dot_comm (u v : list R) : dot u v = dot v u.
Proof.
  revert v; induction u as [| x u IH]; intros [| y v]; dot_simpl;
    try reflexivity.
  rewrite IH. ring.
Qed.

Lemma dot_linear (x : R) (f g : nat -> R) (s : list nat) (c : list R) :
  dot (map (fun j => x * f j + g j) s) c
  = x * dot (map f s) c + dot (map g s) c.
Proof.
  revert c; induction s as [| j s IH]; intros [| y c]; dot_simpl;
    rewrite ?zero_R; try ring.
  rewrite IH. ring.
Qed.

Lemma dot_zeros (s : list nat) (c : list R) :
  dot (map (fun _ => @zero R numeric) s) c = 0.
Proof.
  revert c; induction s as [| j s IH]; intros [| y c]; dot_simpl;
    rewrite ?IH, ?zero_R; ring.
Qed.

Lemma map_nth_seq_from (pre b : list R) :
  map (fun j => nth j (pre ++ b) zero) (seq (length pre) (length b)) = b.
Proof.
  revert pre; induction b as [| y b IH]; intros pre; simpl; [reflexivity |].
  rewrite app_nth2, Nat.sub_diag by lia. simpl. f_equal.
  specialize (IH (pre ++ [y])).
  rewrite length_app, <- app_assoc in IH. simpl in IH.
  rewrite Nat.add_1_r in IH. exact IH.
Qed.

Lemma map_nth_seq (b : list R) (m : nat) :
  length b = m -> map (fun j => nth j b zero) (seq 0 m) = b.
Proof. intros <-. exact (map_nth_seq_from [] b). Qed.

Lemma nth_map_seq (f : nat -> R) (l p : nat) :
  (l < p)%nat -> nth l (map f (seq 0 p)) zero = f l.
Proof.
  intros H.
  rewrite (nth_indep _ zero (f 0%nat)) by (rewrite length_map, length_seq; lia).
  rewrite (map_nth f (seq 0 p) 0%nat), seq_nth by lia. reflexivity.
Qed.

(** [(r B) c = r (B c)] *)
Lemma assoc_row (B : list (list R)) (r c : list R) (m : nat) :
  Forall (fun b => length b = m) B ->
  dot (map (fun j => dot r (column j B)) (seq 0 m)) c
  = dot r (map (fun rb => dot rb c) B).
Proof.
  intros HB; revert r.
  induction HB as [| b B Hb _ IH]; intros r.
  - cbn [map]. rewrite dot_nil_r.
    erewrite map_ext; [apply dot_zeros |].
    intros j. cbn [column map]. apply dot_nil_zero.
  - destruct r as [| x r].
    + cbn [dot]. rewrite dot_zeros. symmetry. apply zero_R.
    + cbn [map]. rewrite dot_cons, <- IH.
      erewrite map_ext;
        [| intros j;
           change (column j (b :: B)) with (nth j b zero :: column j B);
           apply dot_cons].
      rewrite (dot_linear x (fun j => nth j b zero)
                 (fun j => dot r (column j B))).
      rewrite (map_nth_seq b m Hb). reflexivity.
Qed.

Lemma column_matmul_cells (B C : list (list R)) (p l : nat) :
  (l < p)%nat ->
  column l (matmul_cells B C p) = map (fun rb => dot rb (column l C)) B.
Proof.
  intros H. unfold column at 1, matmul_cells. rewrite map_map.
  apply map_ext. intros rb. apply nth_map_seq. exact H.
Qed.

Lemma matmul_cells_assoc (A B C : list (list R)) (m p : nat) :
  Forall (fun b => length b = m) B ->
  matmul_cells (matmul_cells A B m) C p
  = matmul_cells A (matmul_cells B C p) p.
Proof.
  intros HB. unfold matmul_cells at 1 2 3. rewrite map_map.
  apply map_ext. intros r. apply map_ext_in. intros l Hl.
  apply in_seq in Hl.
  rewrite column_matmul_cells by lia.
  apply assoc_row. exact HB.
Qed.

(** The rows and columns of the identity pick a cell. *)
Lemma dot_unit (i n a : nat) (c : list R) :
  dot (map (fun k => if Nat.eqb i k then 1 else 0) (seq a n)) c
  = if Nat.leb a i && Nat.ltb i (a + n) then nth (i - a) c 0 else 0.
Proof.
  revert a c; induction n as [| n IH]; intros a c.
  - cbn [seq map dot]. rewrite zero_R.
    destruct (Nat.leb_spec a i), (Nat.ltb_spec i (a + 0)); cbn [andb];
      try reflexivity; lia.
  - destruct c as [| y c].
    + rewrite dot_nil_r. destruct (i - a)%nat; destruct (_ && _); reflexivity.
    + cbn [seq map]. rewrite dot_cons, IH.
      destruct (Nat.eqb_spec i a) as [-> | Hne].
      * rewrite Nat.sub_diag.
        destruct (Nat.leb_spec (S a) a); [lia |].
        destruct (Nat.leb_spec a a); [| lia].
        destruct (Nat.ltb_spec a (a + S n)); [| lia].
        cbn [andb nth]. ring.
      * destruct (Nat.leb_spec (S a) i), (Nat.leb_spec a i),
          (Nat.ltb_spec i (S a + n)), (Nat.ltb_spec i (a + S n));
          cbn [andb]; try lia; try ring.
        replace (i - a)%nat with (S (i - S a)) by lia. cbn [nth]. ring.
Qed.

Lemma identity_row (i n : nat) (c : list R) :
  (i < n)%nat ->
  dot (map (fun k => if Nat.eqb i k then 1 else 0) (seq 0 n)) c = nth i c 0.
Proof.
  intros H. rewrite dot_unit, Nat.sub_0_r.
  destruct (Nat.ltb_spec i (0 + n)); [reflexivity | lia].
Qed.

Lemma identity_column (j n : nat) :
  (j < n)%nat ->
  column j (cells (identity n))
  = map (fun k => if Nat.eqb j k then 1 else 0) (seq 0 n).
Proof.
  intros H. unfold column, identity; simpl. rewrite map_map.
  apply map_ext. intros i.
  rewrite nth_map_seq by exact H. rewrite Nat.eqb_sym. reflexivity.
Qed.

Lemma nth_zero_R (i : nat) (c : list R) : nth i c zero = nth i c 0.
Proof. rewrite zero_R. reflexivity. Qed.

Lemma matmul_cells_identity_r (A : list (list R)) (n : nat) :
  Forall (fun r => length r = n) A ->
  matmul_cells A (cells (identity n)) n = A.
Proof.
  intros HA. unfold matmul_cells.
  transitivity (map (fun r : list R => r) A); [| apply map_id].
  apply map_ext_in. intros r Hr.
  rewrite Forall_forall in HA. specialize (HA r Hr).
  transitivity (map (fun j => nth j r zero) (seq 0 n));
    [| apply map_nth_seq; exact HA].
  apply map_ext_in. intros j Hj. apply in_seq in Hj.
  rewrite identity_column by lia.
  rewrite dot_comm, identity_row by lia. symmetry. apply nth_zero_R.
Qed.

Lemma matmul_cells_identity_l (A : list (list R)) (n p : nat) :
  length A = n -> Forall (fun r => length r = p) A ->
  matmul_cells (cells (identity n)) A p = A.
Proof.
  intros Hn HA. unfold matmul_cells, identity; simpl. rewrite map_map.
  transitivity (map (fun i => nth i A []) (seq 0 n)).
  - apply map_ext_in. intros i Hi. apply in_seq in Hi.
    assert (Hlen : length (nth i A []) = p).
    { rewrite Forall_forall in HA. apply HA. apply nth_In. lia. }
    transitivity (map (fun j => nth j (nth i A []) zero) (seq 0 p));
      [| apply map_nth_seq; exact Hlen].
    apply map_ext. intros j.
    rewrite identity_row by lia.
    unfold column.
    rewrite <- nth_zero_R.
    rewrite (nth_indep _ zero ((fun r : list R => nth j r zero) []))
      by (rewrite length_map; lia).
    rewrite (map_nth (fun r : list R => nth j r zero)). reflexivity.
  - subst n. clear HA.
    assert (H : forall pre : list (list R),
               map (fun i => nth i (pre ++ A) []) (seq (length pre) (length A))
               = A).
    { induction A as [| r A IH]; intros pre; simpl; [reflexivity |].
      rewrite app_nth2, Nat.sub_diag by lia. simpl. f_equal.
      specialize (IH (pre ++ [r])).
      rewrite length_app, <- app_assoc in IH. simpl in IH.
      rewrite Nat.add_1_r in IH. exact IH. }
    exact (H []).
Qed.

(** A matrix has at most one inverse. *)
Lemma inverse_unique (M N1 N2 : ndarray R) :
  is_inverse M N1 -> is_inverse M N2 -> N1 = N2.
Proof.
  intros (Hsq & [HMl HMr] & Hr1 & Hc1 & [Hl1 Hw1] & _ & H1)
         (_ & _ & Hr2 & Hc2 & [Hl2 Hw2] & H2 & _).
  apply matmul_inv in H1 as [_ H1]. apply matmul_inv in H2 as [_ H2].
  apply (f_equal (@cells R)) in H1, H2. cbn [cells] in H1, H2.
  destruct N1 as [r1 c1 n1], N2 as [r2 c2 n2]; cbn [nrows ncols cells] in *.
  subst r1 c1 r2 c2. f_equal.
  rewrite <- Hsq in *.
  rewrite <- (matmul_cells_identity_r n1 (nrows M) Hw1).
  rewrite H2.
  rewrite <- (matmul_cells_assoc n1 (cells M) n2 (nrows M) (nrows M))
    by assumption.
  rewrite <- H1.
  apply matmul_cells_identity_l; assumption.
Qed.

(** [np.linalg.inv] returns the inverse when there is one. *)
Lemma inverse_eq (M N : ndarray R) :
  is_inverse M N -> linalg_inv M = Some N.
Proof.
  intros H. unfold linalg_inv, linalg, inverse.
  destruct (excluded_middle_informative _) as [Hex | Hno].
  - f_equal.
    destruct (constructive_indefinite_description _ Hex) as [N' HN']; simpl.
    exact (inverse_unique M N' N HN' H).
  - exfalso. apply Hno. exists N. exact H.
Qed.

Lemma inverse_spec (M N : ndarray R) :
  linalg_inv M = Some N -> is_inverse M N.
Proof.
  unfold linalg_inv, linalg, inverse.
  destruct (excluded_middle_informative _) as [Hex | Hno]; [| discriminate].
  destruct (constructive_indefinite_description _ Hex) as [N' HN']; simpl.
  intros E; inversion E; subst. exact HN'.
Qed.

End RFacts.

(** ** The two observation sets, evaluated *)

Module Portfolio.
Import RNum RFacts.
Local Open Scope R_scope.

Ltac fold_consts :=
  change (@zero R _) with (@zero R numeric) in *;
  change (@one R _) with (@one R numeric) in *;
  change (@ceiling R _) with (@ceiling R numeric) in *;
  change (@tolerance R _) with (@tolerance R numeric) in *.
Ltac consts := fold_consts; rewrite ?zero_R, ?one_R, ?ceiling_R, ?tolerance_R.
Ltac rcbv :=
  cbv - [IZR Rdiv Rminus Rplus Rmult Ropp Rinv exp ln Rabs Rmax Rgt_dec
         Rle_dec Rgtb Rleb zero one ceiling tolerance inv linalg_inv].
Ltac rcbv_in H :=
  cbv - [IZR Rdiv Rminus Rplus Rmult Ropp Rinv exp ln Rabs Rmax Rgt_dec
         Rle_dec Rgtb Rleb zero one ceiling tolerance inv linalg_inv] in H.
Ltac cells_eq tac :=
  repeat (apply f_equal2;
          [ repeat (apply f_equal2; [ tac | ]); try reflexivity | ]);
  try reflexivity.
Ltac by_field := consts; field; repeat split; (assumption || lra).

Lemma Rgtb_true x y : x > y -> Rgtb x y = true.
Proof.
  intros H. unfold Rgtb.
  destruct (Rgt_dec x y); [reflexivity | contradiction].
Qed.
Lemma Rgtb_false x y : x <= y -> Rgtb x y = false.
Proof. intros H. unfold Rgtb. destruct (Rgt_dec x y); [lra | reflexivity]. Qed.

Section Family.
Variables L L' iv c1 : R.
Hypothesis HL : L <> 0.

Let d := nonlinear_data_of (all_observations L L' iv c1).

Lemma table_ok_portfolio : table_ok (portfolio L L' iv c1).
Proof.
  unfold table_ok, portfolio, table, held, not_held; cbn.
  repeat split. repeat constructor.
Qed.

Lemma retained_portfolio :
  retained (all_observations L L' iv c1) = held_observations L L'.
Proof.
  unfold retained, all_observations, observations, portfolio, table, held,
    not_held, held_observations.
  assert (H1 : @gtb R numeric (1/10) zero = true)
    by (apply Rgtb_true; rewrite zero_R; lra).
  assert (H0 : @gtb R numeric 0 zero = false)
    by (apply Rgtb_false; rewrite zero_R; lra).
  cbv [map cells app observation_of nth filter weight].
  rewrite !H1, H0. reflexivity.
Qed.

Lemma vlatent_portfolio (b1 b2 b3 b4 b5 b6 b7 : R) :
  vlatent_unconstrained d (colvec [b1; b2; b3; b4; b5; b6; b7])
  = inr (colvec (latent_at L L' [b1; b2; b3; b4; b5; b6; b7] ++ [0])).
Proof.
  rcbv. apply f_equal. apply f_equal.
  cells_eq ltac:(first [ ring
                       | apply f_equal; apply f_equal; consts; ring ]).
Qed.

Section Update.
Variables l1 l2 l3 l4 l5 l6 l7 : R.
Hypothesis H1 : l1 <> 0.
Hypothesis H2 : l2 <> 0.
Hypothesis H3 : l3 <> 0.
Hypothesis H4 : l4 <> 0.
Hypothesis H5 : l5 <> 0.
Hypothesis H6 : l6 <> 0.
Hypothesis H7 : l7 <> 0.

Let ls := [l1; l2; l3; l4; l5; l6; l7].

Lemma update_portfolio :
  exists mZt,
    mZ_tilde_of d (colvec (ls ++ [0])) = inr mZt /\
    update_unconstrained d (colvec (ls ++ [0])) mZt
    = inr (colvec (increment L L' iv c1 ls)).
Proof.
  eexists. split; [rcbv; reflexivity |].
  unfold update_unconstrained.
  match goal with
  | |- context [matmul ?A ?B] =>
      let M := eval cbv - [IZR Rdiv Rminus Rplus Rmult Ropp Rinv exp ln Rabs
                           Rmax Rgt_dec Rle_dec Rgtb Rleb zero one ceiling
                           tolerance inv linalg_inv] in (matmul A B) in
      change (matmul A B) with M
  end.
  cbn [bind].
  match goal with
  | |- context [inv ?M] =>
      assert (HN : linalg_inv M = Some (cross_product_inverse L L' ls))
  end.
  { apply inverse_eq. unfold is_inverse. rcbv.
    repeat split; try (repeat constructor).
    - apply f_equal; apply f_equal; cells_eq by_field.
    - apply f_equal; apply f_equal; cells_eq by_field. }
  unfold inv. rewrite HN. clear HN.
  rcbv. apply f_equal. apply f_equal. cells_eq by_field.
Qed.

End Update.

Lemma latent_nonzero (b : list R) :
  Forall (fun l => l <> 0) (latent_at L L' b).
Proof.
  unfold latent_at.
  repeat constructor;
    (apply Rgt_not_eq; apply Rmult_lt_0_compat; [lra | apply exp_pos]).
Qed.

(** One pass of the first loop on [portfolio]. *)
Lemma step_portfolio (b1 b2 b3 b4 b5 b6 b7 : R) :
  let b := [b1; b2; b3; b4; b5; b6; b7] in
  let b' := map2 Rplus b (increment L L' iv c1 (latent_at L L' b)) in
  step_unconstrained d (colvec b) = inr (max_abs_diff b b', colvec b').
Proof.
  intros b b'. unfold step_unconstrained.
  subst b. rewrite vlatent_portfolio. cbn [bind].
  pose proof (latent_nonzero [b1; b2; b3; b4; b5; b6; b7]) as Hnz.
  remember (latent_at L L' [b1; b2; b3; b4; b5; b6; b7]) as ls eqn:Els.
  unfold latent_at in Els. cbn [nth] in Els.
  destruct ls as [| l1 [| l2 [| l3 [| l4 [| l5 [| l6 [| l7 [| ? ?]]]]]]]];
    try discriminate.
  inversion Hnz as [| ? ? G1 Hnz1]; inversion Hnz1 as [| ? ? G2 Hnz2];
    inversion Hnz2 as [| ? ? G3 Hnz3]; inversion Hnz3 as [| ? ? G4 Hnz4];
    inversion Hnz4 as [| ? ? G5 Hnz5]; inversion Hnz5 as [| ? ? G6 Hnz6];
    inversion Hnz6 as [| ? ? G7 _]; subst.
  destruct (update_portfolio l1 l2 l3 l4 l5 l6 l7 G1 G2 G3 G4 G5 G6 G7)
    as (mZt & HZ & HU).
  rewrite HZ. cbn [bind]. rewrite HU. cbn [bind].
  subst b'.
  assert (Hs : exists s1 s2 s3 s4 s5 s6 s7,
             increment L L' iv c1 [l1; l2; l3; l4; l5; l6; l7]
             = [s1; s2; s3; s4; s5; s6; s7])
    by (unfold increment; repeat eexists).
  destruct Hs as (s1 & s2 & s3 & s4 & s5 & s6 & s7 & ->).
  reflexivity.
Qed.

(** The linear cell on [portfolio]: the held rows determine the coefficients,
    which are zero but for the intercept [ln (1/10)]. *)
Lemma linear_portfolio :
  vb_linearIV (portfolio L L' iv c1)
  = inr (colvec [0; 0; 0; 0; 0; 0; ln (1 / 10)]).
Proof.
  unfold vb_linearIV.
  rewrite (structure_linear_spec _ table_ok_portfolio). cbn [bind].
  fold (all_observations L L' iv c1). rewrite retained_portfolio.
  assert (H0 : unconstrained_linear
                 (mkLinearData
                    (matrix_of characteristic_count characteristics
                       (held_observations L L'))
                    (column_of log_market_value (held_observations L L'))
                    (column_of log_market_value_instrument
                       (held_observations L L'))
                    (log_weights (held_observations L L'))
                    (np_ones (length (held_observations L L')) 1)
                    (design (held_observations L L'))
                    (instruments (held_observations L L')))
               = inr (colvec [0; 0; 0; 0; 0; 0; ln (1 / 10)])).
  { unfold unconstrained_linear. cbn [l_mX l_mZ l_vLNrweight].
    match goal with
    | |- context [matmul ?A ?B] =>
        let M := eval cbv - [IZR Rdiv Rminus Rplus Rmult Ropp Rinv exp ln Rabs
                             Rmax Rgt_dec Rle_dec Rgtb Rleb zero one ceiling
                             tolerance inv linalg_inv] in (matmul A B) in
        change (matmul A B) with M
    end.
    cbn [bind].
    match goal with
    | |- context [inv ?M] =>
        assert (HN : linalg_inv M
                     = Some (cross_product_inverse L L' [1; 1; 1; 1; 1; 1; 1]))
    end.
    { apply inverse_eq. unfold is_inverse. rcbv.
      repeat split; try (repeat constructor).
      - apply f_equal; apply f_equal; cells_eq by_field.
      - apply f_equal; apply f_equal; cells_eq by_field. }
    unfold inv. rewrite HN. clear HN.
    rcbv. apply f_equal. apply f_equal. cells_eq by_field. }
  unfold linear_of. rewrite H0. cbn [bind].
  unfold exceeds_ceiling, row0, colvec. cbn [cells map bind ret truth_gt].
  assert (Hc : @gtb R numeric 0 ceiling = false)
    by (apply Rgtb_false; rewrite ceiling_R; lra).
  rewrite Hc. reflexivity.
Qed.

End Family.
End Portfolio.

(** ** The loop bodies and the Gauss-Newton step *)

Section RefineLemmas.
Context {F : Type} {NF : Numeric F} {LA : LinAlg F}.
Hypothesis Hex : exact_arithmetic.

Lemma dot_neg (r c : list F) : dot (map neg r) c = neg (dot r c).
Proof.
  revert c; induction r as [| x r IH]; intros [| y c]; cbn [map dot];
    try (symmetry; apply (neg_zero Hex)).
  rewrite IH, (mul_neg_l Hex), (neg_add Hex). reflexivity.
Qed.

Lemma matmul_aneg (X b : ndarray F) :
  matmul (aneg X) b = (Xb <- matmul X b ;; ret (aneg Xb)).
Proof.
  unfold matmul, aneg, amap. cbn [ncols nrows cells].
  destruct (Nat.eqb (ncols X) (nrows b)); [| reflexivity].
  cbn [bind ret cells nrows ncols]. unfold ret. do 2 f_equal.
  unfold matmul_cells. rewrite !map_map.
  apply map_ext. intros r. rewrite map_map.
  apply map_ext. intros j. apply dot_neg.
Qed.

(** The code's latent demand is the specification's. *)
Lemma vlatent_unconstrained_spec (d : nonlinear_data) (vb : ndarray F) :
  vlatent_unconstrained d vb = latent_demand (n_vrweight d) (n_mX d) vb.
Proof.
  unfold vlatent_unconstrained, latent_demand. rewrite matmul_aneg.
  destruct (matmul (n_mX d) vb); reflexivity.
Qed.

(** A row of [diag(v)] picks one cell of a column. *)
Lemma dot_diag_row (x : F) (i n a : nat) (c : list F) :
  length c = n -> a <= i < a + n ->
  dot (map (fun k => if Nat.eqb i k then x else zero) (seq a n)) c
  = mul x (nth (i - a) c zero).
Proof.
  revert a c; induction n as [| n IH]; intros a c Hc Hi; [lia |].
  destruct c as [| y c]; [discriminate |].
  cbn [seq map dot].
  destruct (Nat.eqb_spec i a) as [-> | Hne].
  - rewrite Nat.sub_diag. cbn [nth].
    assert (Hz : forall m b (c' : list F),
               a < b ->
               dot (map (fun k => if Nat.eqb a k then x else zero) (seq b m)) c'
               = zero).
    { clear IH Hc Hi. intros m; induction m as [| m IHm]; intros b c' Hb;
        cbn [seq map dot].
      - reflexivity.
      - destruct c' as [| z c']; [reflexivity |].
        destruct (Nat.eqb_spec a b); [lia |].
        rewrite (mul_zero_l Hex), (add_zero_l Hex). apply IHm. lia. }
    rewrite Hz by lia. apply (add_zero_r Hex).
  - rewrite (mul_zero_l Hex), (add_zero_l Hex).
    rewrite IH by (simpl in Hc; lia).
    replace (i - a) with (S (i - S a)) by lia. reflexivity.
Qed.

Lemma nth_repeat_lt {A} (x d : A) (j m : nat) :
  j < m -> nth j (repeat x m) d = x.
Proof.
  revert j; induction m as [| m IH]; intros j Hj; [lia |].
  destruct j; simpl; [reflexivity | apply IH; lia].
Qed.

Lemma map2_const {A B C} (op : A -> B -> C) (l : A) (z : list B) (a : nat) :
  map2 op (map (fun _ => l) (seq a (length z))) z = map (op l) z.
Proof.
  revert a; induction z as [| y z IH]; intros a; simpl; [reflexivity |].
  now rewrite IH.
Qed.

Lemma map_seq_nth {A B} (f : A -> B) (d : A) (z pre : list A) :
  map (fun j => f (nth j (pre ++ z) d)) (seq (length pre) (length z))
  = map f z.
Proof.
  revert pre; induction z as [| y z IH]; intros pre; simpl; [reflexivity |].
  rewrite app_nth2, Nat.sub_diag by lia. simpl. f_equal.
  specialize (IH (pre ++ [y])).
  rewrite length_app, <- app_assoc in IH. simpl in IH.
  rewrite Nat.add_1_r in IH. exact IH.
Qed.

Lemma map_seq_map2 {A B C} (G : A -> B -> C) (dA : A) (dB : B)
    (u : list A) (v : list B) (pu : list A) (pv : list B) :
  length u = length v -> length pu = length pv ->
  map (fun i => G (nth i (pu ++ u) dA) (nth i (pv ++ v) dB))
      (seq (length pu) (length u))
  = map2 G u v.
Proof.
  revert v pu pv; induction u as [| x u IH]; intros [| y v] pu pv Hl Hp;
    try discriminate; simpl; [reflexivity |].
  rewrite app_nth2 by lia. rewrite (app_nth2 pv) by lia.
  replace (length pu - length pv) with 0 by lia.
  rewrite Nat.sub_diag. simpl. f_equal.
  specialize (IH v (pu ++ [x]) (pv ++ [y])).
  rewrite !length_app, <- !app_assoc in IH. simpl in IH.
  rewrite Nat.add_1_r in IH. apply IH; [simpl in Hl; lia | lia].
Qed.

(** [(vlatent @ ones) * Z] is [diag(vlatent) @ Z]: in both, row [i] of [Z] is
    scaled by cell [i] of the column. *)
Lemma scaled_rows_code (v Z : ndarray F) (dN : nat) :
  ncols v = 1 -> Forall (fun r => length r = 1) (cells v) ->
  nrows Z = nrows v -> ncols Z = dN ->
  Forall (fun r => length r = dN) (cells Z) ->
  (lat1 <- matmul v (np_ones 1 dN) ;; amul lat1 Z)
  = inr (mkArr (nrows v) dN
           (map2 (fun r z => map (mul (nth 0 r zero)) z) (cells v) (cells Z))).
Proof.
  intros Hc Hv Hn Hd HZ.
  unfold matmul, np_ones. cbn [nrows ncols cells]. rewrite Hc.
  cbn [Nat.eqb bind ret].
  unfold amul, zipwith. cbn [nrows ncols cells].
  rewrite Hn, Hd, !Nat.eqb_refl. cbn [andb]. unfold ret. do 2 f_equal.
  unfold matmul_cells.
  revert HZ. generalize (cells Z). 
  induction Hv as [| r vs Hr _ IH]; intros zs HZ; cbn [map map2];
    [reflexivity |].
  destruct HZ as [| z zs Hz HZ]; [reflexivity |].
  cbn [map2]. f_equal; [| apply IH; exact HZ].
  destruct r as [| l [| ? ?]]; try discriminate. cbn [nth].
  rewrite <- Hz. rewrite <- (map2_const mul l z 0).
  f_equal. apply map_ext_in. intros j Hj. apply in_seq in Hj.
  cbn [repeat column map dot].
  rewrite nth_repeat_lt by lia.
  rewrite (add_zero_r Hex). apply (mul_one_r Hex).
Qed.

Lemma scaled_rows_spec (v Z : ndarray F) (dN : nat) :
  length (cells v) = nrows v ->
  nrows Z = nrows v -> ncols Z = dN -> length (cells Z) = nrows Z ->
  Forall (fun r => length r = dN) (cells Z) ->
  matmul (diag v) Z
  = inr (mkArr (nrows v) dN
           (map2 (fun r z => map (mul (nth 0 r zero)) z) (cells v) (cells Z))).
Proof.
  intros Hlv Hn Hd Hlz HZ.
  unfold matmul, diag. cbn [nrows ncols cells].
  rewrite Hn, Nat.eqb_refl, Hd. unfold ret. do 2 f_equal.
  unfold matmul_cells. rewrite map_map.
  rewrite <- (map_seq_map2 (fun r z => map (mul (nth 0 r zero)) z) [] []
               (cells v) (cells Z) [] []) by (cbn; lia).
  cbn [app length]. rewrite Hlv.
  apply map_ext_in. intros i Hi. apply in_seq in Hi.
  assert (Hzi : length (nth i (cells Z) []) = dN).
  { rewrite Forall_forall in HZ. apply HZ. apply nth_In. lia. }
  rewrite <- (map_seq_nth (mul (nth 0 (nth i (cells v) []) zero)) zero
               (nth i (cells Z) []) []).
  cbn [app length]. rewrite Hzi.
  apply map_ext. intros j.
  rewrite dot_diag_row; [| unfold column; rewrite length_map; lia | lia].
  rewrite Nat.sub_0_r. f_equal. unfold column.
  rewrite (nth_indep _ zero ((fun r : list F => nth j r zero) []))
    by (rewrite length_map; lia).
  rewrite (map_nth (fun r : list F => nth j r zero)). reflexivity.
Qed.


Lemma bdim_sym (m n : nat) : bdim m n = bdim n m.
Proof.
  unfold bdim.
  destruct (Nat.eqb_spec m n) as [-> | Hmn].
  - rewrite Nat.eqb_refl. reflexivity.
  - destruct (Nat.eqb_spec n m); [congruence |].
    destruct (Nat.eqb_spec m 1) as [-> | Hm], (Nat.eqb_spec n 1) as [-> | Hn];
      try reflexivity; congruence.
Qed.

Lemma map2_abs_sub_sym (u v : list (list F)) :
  map (map fabs) (map2 (map2 sub) u v) = map (map fabs) (map2 (map2 sub) v u).
Proof.
  revert v; induction u as [| r u IH]; intros [| s v]; cbn [map2 map];
    try reflexivity.
  f_equal; [| apply IH].
  clear IH. revert s; induction r as [| x r IH]; intros [| y s];
    cbn [map2 map]; try reflexivity.
  f_equal; [apply (abs_sub_sym Hex) | apply IH].
Qed.

(** [max |vb - vb_new| = max |vb_new - vb|] *)
Lemma dchange_of_spec (a b : ndarray F) :
  dchange_of a b = max_abs_change a b.
Proof.
  unfold dchange_of, max_abs_change, asub, zipwith.
  rewrite (Nat.eqb_sym (nrows b)), (Nat.eqb_sym (ncols b)).
  destruct (Nat.eqb_spec (nrows a) (nrows b)) as [Hr | Hr];
    destruct (Nat.eqb_spec (ncols a) (ncols b)) as [Hc | Hc];
    cbn [andb bind ret].
  1: { unfold np_max, np_abs, amap. cbn [cells].
       rewrite map2_abs_sub_sym. reflexivity. }
  all: rewrite (bdim_sym (nrows b)), (bdim_sym (ncols b));
    destruct (bdim (nrows a) (nrows b)) as [r |]; try reflexivity;
    destruct (bdim (ncols a) (ncols b)) as [c |]; try reflexivity;
    cbn [bind ret]; unfold np_max, np_abs, amap; cbn [cells];
    rewrite !map_map;
    erewrite map_ext;
      [reflexivity
      | intros i; rewrite !map_map; apply map_ext; intros j;
        apply (abs_sub_sym Hex)].
Qed.

Lemma latent_column (op : F -> F -> F) (w E v : ndarray F) (n : nat) :
  nrows w = n -> ncols w = 1 -> length (cells w) = n ->
  Forall (fun r => length r = 1) (cells w) ->
  nrows E = n -> ncols E = 1 -> length (cells E) = n ->
  Forall (fun r => length r = 1) (cells E) ->
  zipwith op w E = inr v ->
  nrows v = n /\ ncols v = 1 /\ length (cells v) = n /\
  Forall (fun r => length r = 1) (cells v).
Proof.
  intros Hwn Hwc Hwl Hwr Hen Hec Hel Her H.
  unfold zipwith in H. rewrite Hwn, Hwc, Hen, Hec, !Nat.eqb_refl in H.
  cbn [andb] in H. inversion H; subst v; clear H. cbn [nrows ncols cells].
  repeat split; try reflexivity.
  - clear Hwr Her. revert Hwl Hel. generalize (cells w) (cells E).
    clear. intros u; revert n; induction u as [| x u IH];
      intros n [| y v] Hu Hv;
      cbn [map2 length] in *; try lia.
    destruct n; [lia |]. f_equal. apply (IH n v); lia.
  - apply map2_rows_length; assumption.
Qed.


Lemma column_of_shape (f : observation -> F) (obs : list observation) :
  nrows (column_of f obs) = length obs /\ ncols (column_of f obs) = 1 /\
  length (cells (column_of f obs)) = length obs /\
  Forall (fun r => length r = 1) (cells (column_of f obs)).
Proof.
  unfold column_of. cbn [nrows ncols cells]. rewrite length_map.
  repeat split. apply Forall_forall. intros r Hr.
  apply in_map_iff in Hr as (o & <- & _). reflexivity.
Qed.

Lemma observations_five (mdata : ndarray F) :
  five_characteristics (observations mdata).
Proof.
  unfold five_characteristics, observations. apply Forall_forall.
  intros o Ho. apply in_map_iff in Ho as (r & <- & _). reflexivity.
Qed.

Lemma matrix_of_rows (c : nat) (row : observation -> list F)
    (obs : list observation) :
  Forall (fun o => length (row o) = c) obs ->
  Forall (fun r => length r = c) (cells (matrix_of c row obs)).
Proof.
  intros H. unfold matrix_of. cbn [cells]. apply Forall_forall. intros r Hr.
  apply in_map_iff in Hr as (o & <- & Ho).
  rewrite Forall_forall in H. auto.
Qed.

Lemma instruments_rows (obs : list observation) :
  five_characteristics obs ->
  Forall (fun r => length r = characteristic_count + 2)
    (cells (instruments obs)).
Proof.
  intros H. apply matrix_of_rows. apply Forall_forall. intros o Ho.
  unfold five_characteristics in H. rewrite Forall_forall in H.
  unfold instrument_row. cbn [length]. rewrite length_app, (H o Ho).
  reflexivity.
Qed.


Lemma matmul_column_shape (X b Xb : ndarray F) :
  ncols b = 1 -> matmul X b = inr Xb ->
  nrows Xb = nrows X /\ ncols Xb = 1 /\
  length (cells Xb) = length (cells X) /\
  Forall (fun r => length r = 1) (cells Xb).
Proof.
  intros Hb H. pose proof (matmul_column _ _ _ Hb H) as [Hc Hr].
  apply matmul_inv in H as [_ ->]. cbn [nrows ncols cells] in *.
  unfold matmul_cells. rewrite length_map. auto.
Qed.

Lemma amap_shape (f : F -> F) (a : ndarray F) (n : nat) :
  nrows a = n -> ncols a = 1 -> length (cells a) = n ->
  Forall (fun r => length r = 1) (cells a) ->
  nrows (amap f a) = n /\ ncols (amap f a) = 1 /\
  length (cells (amap f a)) = n /\
  Forall (fun r => length r = 1) (cells (amap f a)).
Proof.
  intros Hn Hc Hl Hr. unfold amap. cbn [nrows ncols cells].
  rewrite length_map. repeat split; try assumption.
  apply Forall_forall. intros r Hin.
  apply in_map_iff in Hin as (r' & <- & Hin'). rewrite length_map.
  rewrite Forall_forall in Hr. auto.
Qed.

(** Once the latent demand is a column, both loops scale the rows alike and
    go on alike. *)
Lemma update_spec (Z X vb vl : ndarray F) (dN : nat) :
  nrows vl = nrows Z -> ncols vl = 1 -> length (cells vl) = nrows vl ->
  Forall (fun r => length r = 1) (cells vl) ->
  ncols Z = dN -> length (cells Z) = nrows Z ->
  Forall (fun r => length r = dN) (cells Z) ->
  (mZ_tilde <- (lat1 <- matmul vl (np_ones 1 dN) ;; amul lat1 Z) ;;
   upd <- (ZtX <- matmul (transpose mZ_tilde) X ;;
           Minv <- inv ZtX ;;
           MZt <- matmul Minv (transpose Z) ;;
           matmul MZt (sub_scalar vl one)) ;;
   vb_new <- aadd vb upd ;;
   dchange <- dchange_of vb vb_new ;;
   ret (dchange, vb_new))
  = (vb' <- (Zt <- matmul (diag vl) Z ;;
             ZtX <- matmul (transpose Zt) X ;;
             Minv <- inv ZtX ;;
             MZ <- matmul Minv (transpose Z) ;;
             upd <- matmul MZ (sub_scalar vl one) ;;
             aadd vb upd) ;;
     d <- max_abs_change vb vb' ;;
     ret (d, vb')).
Proof.
  intros Hn Hc Hl Hr Hd HlZ HZ.
  rewrite (scaled_rows_code vl Z dN Hc Hr (eq_sym Hn) Hd HZ).
  rewrite (scaled_rows_spec vl Z dN Hl (eq_sym Hn) Hd HlZ HZ).
  cbn [bind].
  destruct (matmul (transpose _) X) as [e | ZtX]; [reflexivity |]. cbn [bind].
  destruct (inv ZtX) as [e | Minv]; [reflexivity |]. cbn [bind].
  destruct (matmul Minv (transpose Z)) as [e | MZ]; [reflexivity |]. cbn [bind].
  destruct (matmul MZ (sub_scalar vl one)) as [e | upd]; [reflexivity |].
  cbn [bind].
  destruct (aadd vb upd) as [e | vb']; [reflexivity |]. cbn [bind].
  rewrite dchange_of_spec. reflexivity.
Qed.

Lemma step_unconstrained_spec (obs : list observation) (vb : ndarray F) :
  five_characteristics obs -> ncols vb = 1 ->
  step_unconstrained (nonlinear_data_of obs) vb
  = step_and_change (unconstrained_step obs) vb.
Proof.
  intros Hk Hvb.
  unfold step_unconstrained, step_and_change, unconstrained_step,
    gauss_newton_step.
  rewrite vlatent_unconstrained_spec.
  cbn [nonlinear_data_of n_vrweight n_mX].
  destruct (latent_demand (column_of weight obs) (design obs) vb)
    as [e | vl] eqn:Hl; [reflexivity |]. cbn [bind].
  unfold latent_demand in Hl.
  apply bind_ret_inv in Hl as (Xb & HXb & Hl).
  destruct (matmul_column_shape _ _ _ Hvb HXb) as (Xn & Xc & Xl & Xr).
  unfold design, matrix_of in Xn, Xl. cbn [nrows cells] in Xn, Xl.
  rewrite length_map in Xl.
  destruct (amap_shape neg Xb (length obs) Xn Xc Xl Xr) as (An & Ac & Al & Ar).
  destruct (amap_shape fexp (aneg Xb) (length obs) An Ac Al Ar)
    as (En & Ec & El & Er).
  destruct (column_of_shape weight obs) as (Wn & Wc & Wl & Wr).
  destruct (latent_column mul _ _ _ (length obs) Wn Wc Wl Wr En Ec El Er Hl)
    as (Vn & Vc & Vl & Vr).
  unfold mZ_tilde_of, update_unconstrained.
  cbn [nonlinear_data_of n_dN n_mZ n_mX].
  assert (Zl : length (cells (instruments obs)) = nrows (instruments obs))
    by (unfold instruments, matrix_of; cbn [cells nrows]; apply length_map).
  pose proof (instruments_rows obs Hk) as Zr.
  apply (update_spec (instruments obs) (design obs) vb vl
           (characteristic_count + 2)).
  - rewrite Vn. reflexivity.
  - exact Vc.
  - rewrite Vn. exact Vl.
  - exact Vr.
  - reflexivity.
  - exact Zl.
  - exact Zr.
Qed.




Lemma step_constrained_ncols (d : nonlinear_data) (mX vb vb' : ndarray F)
    (dch : F) :
  ncols (n_vrweight d) = 1 -> ncols (n_vLNme d) = 1 -> ncols vb = 1 ->
  step_constrained d mX vb = inr (dch, vb') -> ncols vb' = 1.
Proof.
  intros Hw Hm Hvb H. unfold step_constrained in H.
  apply bind_ret_inv in H as (vlatent & Hl & H).
  apply bind_ret_inv in H as (mXt & _ & H).
  apply bind_ret_inv in H as (upd & Hu & H).
  apply bind_ret_inv in H as (vb_new & Hn & H).
  apply bind_ret_inv in H as (dc & _ & H).
  inversion H; subst; clear H.
  unfold vlatent_constrained in Hl.
  apply bind_ret_inv in Hl as (Xb & HXb & Hl).
  apply bind_ret_inv in Hl as (e & He & Hl).
  assert (HXc : ncols Xb = 1).
  { apply matmul_inv in HXb as [_ ->]. exact Hvb. }
  assert (Hec : ncols e = 1).
  { exact (zipwith_ncols sub (scale (neg ceiling) (n_vLNme d)) Xb e
             Hm HXc He). }
  assert (Hlc : ncols vlatent = 1).
  { exact (zipwith_ncols mul (n_vrweight d) (np_exp e) vlatent Hw Hec Hl). }
  unfold update_constrained in Hu.
  apply bind_ret_inv in Hu as (XtX & _ & Hu).
  apply bind_ret_inv in Hu as (Minv & _ & Hu).
  apply bind_ret_inv in Hu as (MXt & _ & Hu).
  apply matmul_inv in Hu as [_ Hu].
  refine (zipwith_ncols add vb upd vb' Hvb _ Hn).
  rewrite Hu. exact Hlc.
Qed.

Lemma step_unconstrained_ncols (d : nonlinear_data) (vb vb' : ndarray F)
    (dch : F) :
  ncols (n_vrweight d) = 1 -> ncols vb = 1 ->
  step_unconstrained d vb = inr (dch, vb') -> ncols vb' = 1.
Proof.
  intros Hw Hvb H. unfold step_unconstrained in H.
  apply bind_ret_inv in H as (vlatent & Hl & H).
  apply bind_ret_inv in H as (mZt & _ & H).
  apply bind_ret_inv in H as (upd & Hu & H).
  apply bind_ret_inv in H as (vb_new & Hn & H).
  apply bind_ret_inv in H as (dc & _ & H).
  inversion H; subst; clear H.
  unfold vlatent_unconstrained in Hl.
  apply bind_ret_inv in Hl as (Xb & HXb & Hl).
  assert (HXc : ncols Xb = 1).
  { apply matmul_inv in HXb as [_ ->]. exact Hvb. }
  assert (Hlc : ncols vlatent = 1).
  { exact (zipwith_ncols mul (n_vrweight d) (np_exp Xb) vlatent Hw HXc Hl). }
  unfold update_unconstrained in Hu.
  apply bind_ret_inv in Hu as (ZtX & _ & Hu).
  apply bind_ret_inv in Hu as (Minv & _ & Hu).
  apply bind_ret_inv in Hu as (MZt & _ & Hu).
  apply matmul_inv in Hu as [_ Hu].
  refine (zipwith_ncols add vb upd vb' Hvb _ Hn).
  rewrite Hu. exact Hlc.
Qed.

End RefineLemmas.

(** * The claims of the specification *)

Section Claims.
Context {F : Type} {NF : Numeric F} {LA : LinAlg F}.

Lemma structure_nonlinear_inv (mdata : ndarray F) (d : nonlinear_data) :
  structure_nonlinear mdata = inr d ->
  n_vrweight d = vrweight_of mdata /\
  n_mchars d = cols 3 8 mdata /\
  n_vLNme d = cols 8 9 mdata /\
  n_vones d = np_ones (nrows mdata) 1 /\
  n_dN d = ncols (cols 3 8 mdata) + 2.
Proof.
  unfold structure_nonlinear. intros H.
  apply bind_ret_inv in H as (mX & _ & H).
  apply bind_ret_inv in H as (mZ & _ & H).
  inversion H; subst d; clear H. repeat split.
Qed.

Lemma unconstrained_nonlinear_column (d : nonlinear_data) (fuel : nat)
    (vb_lin vb : ndarray F) :
  ncols (n_vrweight d) = 1 -> column_vector vb_lin ->
  unconstrained_nonlinear d fuel vb_lin = Returned vb -> column_vector vb.
Proof.
  intros Hw Hlin H. unfold unconstrained_nonlinear in H.
  apply while_returned in H as (n & st' & _ & Hp & _ & <-).
  apply (passes_invariant (step_unconstrained d) column_vector) in Hp.
  - exact Hp.
  - intros vb0 dch vb1 H0 H1.
    exact (step_unconstrained_column d vb0 vb1 dch Hw H0 H1).
  - exact Hlin.
Qed.

(** C1.  Whenever both cells run to their end on a table of ten columns, the
    first coefficient [x] of the linear-IV vector and the first coefficient
    of the nonlinear-IV vector are not greater than the ceiling .99: the
    test [x > .99] is false.  So [x] is at most .99 wherever [<=] is the
    negation of [>] at [x]; a first coefficient that is not ordered with
    .99 passes the test as well.  Of the arithmetic this needs only that
    [.99 > .99] is false. *)
Theorem first_coefficient_bounded (mdata : ndarray F) (fuel : nat)
    (vb_lin vb_non : ndarray F) :
  ceiling_not_above_itself ->
  ncols mdata = 10 ->
  notebook fuel mdata = Returned (vb_lin, vb_non) ->
  (exists x, first_coefficient vb_lin x /\ gtb x ceiling = false /\
             (leb x ceiling = negb (gtb x ceiling) -> leb x ceiling = true)) /\
  (exists x, first_coefficient vb_non x /\ gtb x ceiling = false /\
             (leb x ceiling = negb (gtb x ceiling) -> leb x ceiling = true)).
Proof.
  intros Hirr Hc Hrun.
  assert (Hle : forall x, gtb x ceiling = false ->
                  leb x ceiling = negb (gtb x ceiling) ->
                  leb x ceiling = true).
  { intros x Hg Hx. rewrite Hx, Hg. reflexivity. }
  unfold notebook in Hrun.
  destruct (vb_linearIV mdata) as [e | vl] eqn:Hlin; [discriminate |].
  destruct (vb_nonlinearIV fuel mdata vl) as [vn | e |] eqn:Hnon;
    try discriminate.
  inversion Hrun; subst vl vn; clear Hrun.
  (* the linear cell *)
  unfold vb_linearIV in Hlin.
  apply bind_ret_inv in Hlin as (d & Hd & Hlin).
  destruct (structure_linear_ncols mdata d Hc Hd) as [Hy _].
  pose proof (linear_of_column d vb_lin Hy Hlin) as Hcol.
  split.
  - unfold linear_of in Hlin.
    apply bind_ret_inv in Hlin as (vb0 & H0 & Hlin).
    apply bind_ret_inv in Hlin as (c & Hc0 & Hlin).
    destruct c.
    + apply constrained_linear_first in Hlin as [_ Hf].
      exists ceiling. split; [exact Hf |]. split; [exact Hirr |].
      exact (Hle ceiling Hirr).
    + inversion Hlin; subst vb0.
      destruct (exceeds_ceiling_column vb_lin false Hcol Hc0) as (x & Hx & Hg).
      exists x. split; [exact Hx |]. split; [exact Hg | exact (Hle x Hg)].
  - (* the nonlinear cell *)
    unfold vb_nonlinearIV in Hnon.
    destruct (structure_nonlinear mdata) as [e | dn] eqn:Hdn; [discriminate |].
    destruct (structure_nonlinear_inv mdata dn Hdn) as (Hw & _).
    assert (Hw1 : ncols (n_vrweight dn) = 1)
      by (rewrite Hw; apply vrweight_ncols; exact Hc).
    unfold nonlinear_of in Hnon.
    destruct (unconstrained_nonlinear dn fuel vb_lin) as [vb | e |] eqn:Hun;
      try discriminate.
    pose proof (unconstrained_nonlinear_column dn fuel vb_lin vb Hw1 Hcol Hun)
      as Hvb.
    destruct (exceeds_ceiling vb) as [e | c] eqn:Hex; [discriminate |].
    destruct c.
    + unfold constrained_nonlinear in Hnon.
      destruct (concatenate1 (n_mchars dn) [n_vones dn]) as [e | mX];
        [discriminate |].
      destruct (while_loop _ fuel _) as [b | e |]; try discriminate.
      destruct (concatenate0 (singleton ceiling) b) as [e | v] eqn:Hcat;
        simpl in Hnon; [discriminate |].
      inversion Hnon; subst v.
      apply concatenate0_singleton in Hcat as [_ ->].
      exists ceiling. split; [eexists; reflexivity |].
      split; [exact Hirr | exact (Hle ceiling Hirr)].
    + inversion Hnon; subst vb.
      destruct (exceeds_ceiling_column vb_non false Hvb Hex) as (x & Hx & Hg).
      exists x. split; [exact Hx |]. split; [exact Hg | exact (Hle x Hg)].
Qed.

(** The first line of the linear cell's estimation is the two-stage
    least-squares formula on the retained observations. *)
Lemma unconstrained_linear_spec (mdata : ndarray F) :
  table_ok mdata ->
  (d <- structure_linear mdata ;; unconstrained_linear d)
  = two_stage_least_squares (observations mdata).
Proof.
  intros Hok. rewrite (structure_linear_spec mdata Hok). reflexivity.
Qed.

(** C2.  On a table of ten columns the unconstrained linear-IV result is the
    two-stage least-squares formula [(Z^T X)^-1 Z^T y] of the specification,
    with [X], [Z] and [y = log weight] built from the rows of positive weight
    only; when [np.linalg.inv] returns [Minv] for [Z^T X], it is
    [Minv Z^T y]. *)
Theorem linear_unconstrained_is_two_stage (mdata : ndarray F) :
  table_ok mdata ->
  let kept := retained (observations mdata) in
  let X := design kept in
  let Z := instruments kept in
  let y := log_weights kept in
  (d <- structure_linear mdata ;; unconstrained_linear d)
    = two_stage_least_squares (observations mdata) /\
  forall ZtX Minv : ndarray F,
    matmul (transpose Z) X = inr ZtX ->
    linalg_inv ZtX = Some Minv ->
    (d <- structure_linear mdata ;; unconstrained_linear d)
      = (MZt <- matmul Minv (transpose Z) ;; matmul MZt y).
Proof.
  intros Hok kept X Z y.
  rewrite (unconstrained_linear_spec mdata Hok).
  split; [reflexivity |].
  intros ZtX Minv HZtX Hinv.
  unfold two_stage_least_squares, normal_equation.
  fold kept. fold X. fold Z. fold y.
  rewrite HZtX. cbn [bind]. unfold inv. rewrite Hinv. reflexivity.
Qed.

Lemma map2_map {A} (op : F -> F -> F) (f g : A -> list F) (l : list A) :
  map2 (map2 op) (map f l) (map g l) = map (fun x => map2 op (f x) (g x)) l.
Proof.
  induction l as [| x l IH]; simpl; [reflexivity | now rewrite IH].
Qed.

(** The body of the [if] of the linear cell is step 5 of the specification. *)
Lemma constrained_linear_spec (mdata : ndarray F) (d : linear_data) :
  table_ok mdata -> structure_linear mdata = inr d ->
  constrained_linear d = constrained_least_squares (observations mdata).
Proof.
  intros Hok Hd.
  rewrite (structure_linear_spec mdata Hok) in Hd.
  inversion Hd; subst d; clear Hd.
  set (kept := retained (observations mdata)).
  unfold constrained_linear, constrained_least_squares, normal_equation.
  cbn [l_mchars l_vones l_vLNrweight l_vLNme].
  fold kept.
  assert (HX : concatenate1
                 (matrix_of characteristic_count characteristics kept)
                 [np_ones (length kept) 1] = inr (reduced_design kept)).
  { unfold concatenate1, hstack2, matrix_of, np_ones, reduced_design, matrix_of.
    cbn [nrows ncols cells bind]. rewrite Nat.eqb_refl. cbn [bind].
    change (repeat one 1) with [one].
    rewrite zip_rows_ones. reflexivity. }
  rewrite HX. cbn [bind].
  destruct (matmul (transpose (reduced_design kept)) (reduced_design kept))
    as [e | XtX]; [reflexivity |]. cbn [bind].
  destruct (inv XtX) as [e | Minv]; [reflexivity |]. cbn [bind].
  destruct (matmul Minv (transpose (reduced_design kept))) as [e | MXt] eqn:HM;
    [reflexivity |]. cbn [bind].
  assert (Hy : asub (log_weights kept)
                 (scale ceiling (column_of log_market_value kept))
               = inr (adjusted_log_weights kept)).
  { unfold asub, zipwith, scale, amap, log_weights, adjusted_log_weights,
      column_of. cbn [nrows ncols cells]. rewrite !Nat.eqb_refl. cbn [andb].
    rewrite map_map, map2_map. reflexivity. }
  rewrite Hy. cbn [bind].
  destruct (matmul MXt (adjusted_log_weights kept)) as [e | b] eqn:Hb;
    [reflexivity |]. cbn [bind].
  apply matmul_inv in Hb as [_ ->].
  unfold concatenate0, singleton, adjusted_log_weights, column_of.
  cbn [nrows ncols cells]. reflexivity.
Qed.











(** Where a run can fail to come to an end.  The linear cell has no loop
    and always runs to its end; the notebook can fail to come to an end only
    inside one of the two [while] loops of the nonlinear cell.  Such a loop
    comes to an end -- it returns or raises within some number of passes --
    exactly when, after finitely many passes, the change is not above the
    tolerance or the body raises. *)
Theorem termination_characterised :
  (forall (fuel : nat) (mdata : ndarray F),
      notebook fuel mdata = OutOfFuel ->
      exists vb_lin d,
        vb_linearIV mdata = inr vb_lin /\
        structure_nonlinear mdata = inr d /\
        (unconstrained_nonlinear d fuel vb_lin = OutOfFuel \/
         exists mX,
           concatenate1 (n_mchars d) [n_vones d] = inr mX /\
           while_loop (step_constrained d mX) fuel (one, tail_rows vb_lin)
           = OutOfFuel)) /\
  (forall (body : ndarray F -> result (F * ndarray F))
          (st : F * ndarray F),
      (exists fuel, while_loop body fuel st <> OutOfFuel) <->
      (exists n st', passes body st n st' /\
                     (gtb (fst st') tolerance = false \/
                      exists e, body (snd st') = inl e))).
Proof.
  split.
  { intros fuel mdata H. unfold notebook in H.
    destruct (vb_linearIV mdata) as [e | vb_lin]; [discriminate |].
    exists vb_lin.
    destruct (vb_nonlinearIV fuel mdata vb_lin) as [vb | e |] eqn:Hn;
      try discriminate.
    clear H. unfold vb_nonlinearIV in Hn.
    destruct (structure_nonlinear mdata) as [e | d]; [discriminate |].
    exists d. split; [reflexivity |]. split; [reflexivity |].
    unfold nonlinear_of in Hn.
    destruct (unconstrained_nonlinear d fuel vb_lin) as [vb | e |];
      [| discriminate | left; reflexivity].
    destruct (exceeds_ceiling vb) as [e | []]; try discriminate.
    unfold constrained_nonlinear in Hn.
    destruct (concatenate1 (n_mchars d) [n_vones d]) as [e | mX];
      [discriminate |].
    right. exists mX. split; [reflexivity |].
    destruct (while_loop (step_constrained d mX) fuel (one, tail_rows vb_lin))
      as [b | e |]; [| discriminate | reflexivity].
    destruct (concatenate0 (singleton ceiling) b); discriminate. }
  intros body st. split.
  - intros (fuel & H).
    destruct (while_loop body fuel st) as [b | e |] eqn:E.
    + apply while_returned in E as (n & st' & _ & Hp & Hg & _).
      exists n, st'. auto.
    + apply while_raised in E as (n & st' & _ & Hp & _ & Hb).
      exists n, st'. split; [exact Hp | right; eauto].
    + congruence.
  - intros (n & st' & Hp & Hend).
    exists (S n). intros Hout.
    apply while_out_of_fuel in Hout as (st2 & Hp2).
    apply passes_last in Hp2 as (prev & Hq & Hg & Hb).
    pose proof (passes_deterministic body st n st' prev Hp Hq); subst prev.
    destruct Hend as [Hf | (e & He)]; congruence.
Qed.

End Claims.

(** ** The iteration of the nonlinear cell *)

Section IterationClaims.
Context {F : Type} {NF : Numeric F} {LA : LinAlg F}.

(** [np.concatenate([mchars,vones],axis=1)] over all rows is [X']. *)
Lemma reduced_design_code (obs : list observation) :
  concatenate1 (n_mchars (nonlinear_data_of obs))
    [n_vones (nonlinear_data_of obs)]
  = inr (reduced_design obs).
Proof.
  unfold nonlinear_data_of. cbn [n_mchars n_vones].
  unfold concatenate1, hstack2, matrix_of, np_ones, reduced_design, matrix_of.
  cbn [nrows ncols cells bind]. rewrite Nat.eqb_refl. cbn [bind].
  change (repeat one 1) with [one].
  rewrite zip_rows_ones. reflexivity.
Qed.



(** A [while] loop entered with a change above the tolerance runs the
    iteration that stops at the first change that is not above it. *)
Lemma loop_settles (body : ndarray F -> result (F * ndarray F))
    (seed b : ndarray F) (d0 : F) :
  gtb d0 tolerance = true ->
  ((exists fuel, while_loop body fuel (d0, seed) = Returned b) <->
   settles body seed b).
Proof.
  intros Hg. split.
  - intros (fuel & H). revert seed d0 Hg H.
    induction fuel as [| fuel IH]; intros seed d0 Hg H; [discriminate |].
    cbn [while_loop fst snd] in H. rewrite Hg in H.
    destruct (body seed) as [e | [d vb']] eqn:Hb; [discriminate |].
    destruct (gtb d tolerance) eqn:Hgd.
    + eapply settles_next; [exact Hb | exact Hgd | exact (IH vb' d Hgd H)].
    + destruct fuel as [| fuel]; [discriminate |].
      cbn [while_loop fst snd] in H. rewrite Hgd in H.
      inversion H; subst b.
      eapply settles_stop; [exact Hb | exact Hgd].
  - intros Hs. revert d0 Hg.
    induction Hs as [beta beta' d Hb Hgd | beta beta' b d Hb Hgd Hs IH];
      intros d0 Hg.
    + exists 2. cbn [while_loop fst snd]. rewrite Hg, Hb.
      cbn [fst snd]. rewrite Hgd. reflexivity.
    + destruct (IH d Hgd) as (fuel & Hf).
      exists (S fuel). cbn [while_loop fst snd]. rewrite Hg, Hb. exact Hf.
Qed.

(** Two passes that agree on the vectors the iteration meets settle at the
    same vector. *)
Lemma settles_agree (pass1 pass2 : ndarray F -> result (F * ndarray F))
    (P : ndarray F -> Prop) :
  (forall vb, P vb -> pass1 vb = pass2 vb) ->
  (forall vb d vb', P vb -> pass1 vb = inr (d, vb') -> P vb') ->
  forall seed b, P seed -> (settles pass1 seed b <-> settles pass2 seed b).
Proof.
  intros Hsame Hpres seed b HP. split; intros Hs.
  - induction Hs as [beta beta' d Hb Hg | beta beta' b d Hb Hg Hs IH].
    + eapply settles_stop; [rewrite <- (Hsame _ HP); exact Hb | exact Hg].
    + eapply settles_next;
        [rewrite <- (Hsame _ HP); exact Hb | exact Hg |].
      apply IH. exact (Hpres _ _ _ HP Hb).
  - induction Hs as [beta beta' d Hb Hg | beta beta' b d Hb Hg Hs IH].
    + eapply settles_stop; [rewrite (Hsame _ HP); exact Hb | exact Hg].
    + rewrite <- (Hsame _ HP) in Hb.
      eapply settles_next; [exact Hb | exact Hg |].
      apply IH. exact (Hpres _ _ _ HP Hb).
Qed.

(** What the nonlinear cell returns, from what its first loop returns. *)
Lemma nonlinear_of_returned (d : nonlinear_data) (fuel : nat)
    (vb_lin b : ndarray F) :
  nonlinear_of d fuel vb_lin = Returned b ->
  exists b0,
    unconstrained_nonlinear d fuel vb_lin = Returned b0 /\
    (exceeds_ceiling b0 = inr false /\ b = b0 \/
     exceeds_ceiling b0 = inr true /\ first_coefficient b ceiling).
Proof.
  unfold nonlinear_of. intros H.
  destruct (unconstrained_nonlinear d fuel vb_lin) as [b0 | e |];
    try discriminate.
  exists b0. split; [reflexivity |].
  destruct (exceeds_ceiling b0) as [e | []]; [discriminate | |].
  - right. split; [reflexivity |].
    unfold constrained_nonlinear in H.
    destruct (concatenate1 (n_mchars d) [n_vones d]) as [e | mX];
      [discriminate |].
    destruct (while_loop _ fuel _) as [v | e |]; try discriminate.
    destruct (concatenate0 (singleton ceiling) v) as [e | w] eqn:Hcat;
      simpl in H; [discriminate |].
    inversion H; subst w.
    apply concatenate0_singleton in Hcat as [_ ->].
    eexists; reflexivity.
  - left. inversion H. split; reflexivity.
Qed.

(** C4.  The nonlinear cell structures its data over ALL rows of the table,
    rows of zero weight included: the design and the instruments have as
    many rows as the table.  The notebook hands it the linear-IV vector.
    From that vector the cell runs the iteration whose pass is the body of
    its first loop and which stops at the first change that is not above
    1e-4 ([> 1e-4] is false: the change is at most 1e-4, or not ordered with
    it): if the iteration settles at [b] and the first coefficient of [b]
    does not exceed .99, the cell returns [b]; and whatever the cell
    returns, the iteration has settled, at the vector returned unless its
    first coefficient exceeds .99.  In exact arithmetic a pass is the
    Gauss-Newton update [beta + (Zt^T X)^-1 Z^T (latent - 1)],
    [latent = weight (.) exp(-X beta)], [Zt = diag(latent) Z], together with
    the largest absolute change, and the iteration is that of the update of
    the specification. *)
Theorem nonlinear_unconstrained_iteration (mdata : ndarray F) :
  one_exceeds_tolerance ->
  table_ok mdata ->
  let obs := observations mdata in
  let d := nonlinear_data_of obs in
  structure_nonlinear mdata = inr d /\
  n_mX d = design obs /\ n_mZ d = instruments obs /\
  nrows (design obs) = nrows mdata /\
  nrows (instruments obs) = nrows mdata /\
  (forall fuel vb_lin vb,
      notebook fuel mdata = Returned (vb_lin, vb) ->
      vb_linearIV mdata = inr vb_lin /\
      vb_nonlinearIV fuel mdata vb_lin = Returned vb) /\
  (forall vb_lin b,
      settles (step_unconstrained d) vb_lin b ->
      exceeds_ceiling b = inr false ->
      exists fuel, vb_nonlinearIV fuel mdata vb_lin = Returned b) /\
  (forall fuel vb_lin b,
      vb_nonlinearIV fuel mdata vb_lin = Returned b ->
      exists b0,
        settles (step_unconstrained d) vb_lin b0 /\
        (exceeds_ceiling b0 = inr false /\ b = b0 \/
         exceeds_ceiling b0 = inr true /\ first_coefficient b ceiling)) /\
  (exact_arithmetic ->
   (forall vb, ncols vb = 1 ->
      step_unconstrained d vb
      = step_and_change (unconstrained_step obs) vb) /\
   (forall vb_lin b, ncols vb_lin = 1 ->
      (settles (step_unconstrained d) vb_lin b <->
       settles (step_and_change (unconstrained_step obs)) vb_lin b))).
Proof.
  intros H1 Hok obs d.
  pose proof (structure_nonlinear_spec mdata Hok) as Hd. fold obs d in Hd.
  pose proof (observations_five mdata) as Hk. fold obs in Hk.
  destruct Hok as (Hc & Hn & Hrows).
  split; [exact Hd |].
  split; [reflexivity |]. split; [reflexivity |].
  split.
  { unfold design, matrix_of, obs, observations. cbn [nrows].
    rewrite length_map. exact Hn. }
  split.
  { unfold instruments, matrix_of, obs, observations. cbn [nrows].
    rewrite length_map. exact Hn. }
  split.
  { intros fuel vb_lin vb Hrun. unfold notebook in Hrun.
    destruct (vb_linearIV mdata) as [e | vl]; [discriminate |].
    destruct (vb_nonlinearIV fuel mdata vl) as [vn | e |] eqn:Hnon;
      try discriminate.
    inversion Hrun; subst vl vn. split; [reflexivity | exact Hnon]. }
  split.
  { intros vb_lin b Hs Hex.
    apply (loop_settles (step_unconstrained d) vb_lin b one H1) in Hs
      as (fuel & Hloop).
    exists fuel. unfold vb_nonlinearIV. rewrite Hd.
    unfold nonlinear_of, unconstrained_nonlinear. rewrite Hloop, Hex.
    reflexivity. }
  split.
  { intros fuel vb_lin b Hret. unfold vb_nonlinearIV in Hret.
    rewrite Hd in Hret.
    apply nonlinear_of_returned in Hret as (b0 & Hloop & Hb).
    exists b0. split; [| exact Hb].
    apply (loop_settles (step_unconstrained d) vb_lin b0 one H1).
    exists fuel. exact Hloop. }
  intros Hex.
  assert (Hbody : forall vb, ncols vb = 1 ->
            step_unconstrained d vb
            = step_and_change (unconstrained_step obs) vb).
  { intros vb Hvb. exact (step_unconstrained_spec Hex obs vb Hk Hvb). }
  split; [exact Hbody |].
  intros vb_lin b Hlin.
  apply (settles_agree (step_unconstrained d)
           (step_and_change (unconstrained_step obs))
           (fun vb => ncols vb = 1) Hbody); [| exact Hlin].
  intros vb dch vb' Hvb Hs.
  exact (step_unconstrained_ncols d vb vb' dch eq_refl Hvb Hs).
Qed.


Lemma zipwith_ncols_eq (op : F -> F -> F) (a b c : ndarray F) :
  ncols a = ncols b -> zipwith op a b = inr c -> ncols c = ncols a.
Proof.
  intros Hab H. unfold zipwith in H.
  destruct (Nat.eqb (nrows a) (nrows b) && Nat.eqb (ncols a) (ncols b)).
  - inversion H; reflexivity.
  - unfold bdim in H at 2. rewrite <- Hab, Nat.eqb_refl in H.
    destruct (bdim (nrows a) (nrows b)); inversion H; reflexivity.
Qed.


(** The anatomy of a pass of the first loop on a well-formed column: the
    increment is a column of the height of the vector, and the new vector is
    the old one plus the increment, cell by cell. *)
Lemma pass_anatomy (obs : list observation) (vb vb' : ndarray F) (dch : F) :
  inverse_keeps_shape ->
  well_shaped vb -> ncols vb = 1 ->
  step_unconstrained (nonlinear_data_of obs) vb = inr (dch, vb') ->
  exists vlatent mZ_tilde upd,
    vlatent_unconstrained (nonlinear_data_of obs) vb = inr vlatent /\
    mZ_tilde_of (nonlinear_data_of obs) vlatent = inr mZ_tilde /\
    update_unconstrained (nonlinear_data_of obs) vlatent mZ_tilde = inr upd /\
    aadd vb upd = inr vb' /\
    length (cells upd) = length (cells vb) /\
    Forall (fun r => length r = 1) (cells upd) /\
    cells vb' = map2 (map2 add) (cells vb) (cells upd) /\
    nrows vb' = nrows vb /\ ncols vb' = 1.
Proof.
  intros Hshape [Hlen Hrows] Hc H. rewrite Hc in Hrows.
  set (d := nonlinear_data_of obs) in *.
  unfold step_unconstrained in H.
  apply bind_ret_inv in H as (vlatent & Hl & H).
  apply bind_ret_inv in H as (mZt & Hz & H).
  apply bind_ret_inv in H as (upd & Hu & H).
  apply bind_ret_inv in H as (vb_new & Hn & H).
  apply bind_ret_inv in H as (dc & _ & H).
  inversion H; subst dc vb_new; clear H.
  exists vlatent, mZt, upd.
  split; [exact Hl |]. split; [exact Hz |]. split; [exact Hu |].
  split; [exact Hn |].
  (* the vector has as many rows as the design has columns *)
  unfold vlatent_unconstrained in Hl.
  apply bind_ret_inv in Hl as (Xb & HXb & Hl).
  pose proof HXb as HXb'. apply matmul_inv in HXb' as [Hin HXe].
  change (ncols (aneg (n_mX d))) with (characteristic_count + 2) in Hin.
  assert (HXc : ncols Xb = 1) by (rewrite HXe; exact Hc).
  assert (Hlc : ncols vlatent = 1).
  { exact (zipwith_ncols mul (n_vrweight d) (np_exp Xb) vlatent
             eq_refl HXc Hl). }
  (* the scaled instruments have the columns of the instruments *)
  unfold mZ_tilde_of in Hz.
  apply bind_ret_inv in Hz as (lat1 & Hlat & Hz).
  apply matmul_inv in Hlat as [_ Hlat].
  assert (Hzc : ncols mZt = characteristic_count + 2).
  { rewrite (zipwith_ncols_eq mul lat1 (n_mZ d) mZt); [| | exact Hz];
      rewrite Hlat; reflexivity. }
  (* the increment *)
  unfold update_unconstrained in Hu.
  apply bind_ret_inv in Hu as (ZtX & HZtX & Hu).
  apply bind_ret_inv in Hu as (Minv & Hinv & Hu).
  apply bind_ret_inv in Hu as (MZt & HMZt & Hu).
  apply matmul_inv in HZtX as [_ HZtX].
  unfold inv in Hinv.
  destruct (linalg_inv ZtX) as [N |] eqn:HN; [| discriminate].
  inversion Hinv; subst N; clear Hinv.
  apply Hshape in HN as (HNr & _ & HNl).
  rewrite HZtX in HNr. cbn [nrows transpose] in HNr. rewrite Hzc in HNr.
  apply matmul_inv in HMZt as [_ HMZt].
  destruct (matmul_column_shape MZt (sub_scalar vlatent one) upd Hlc Hu)
    as (Hur & Huc & Hul & Hurows).
  assert (HMr : nrows MZt = characteristic_count + 2)
    by (rewrite HMZt; exact HNr).
  assert (HMl : length (cells MZt) = characteristic_count + 2).
  { rewrite HMZt. cbn [cells]. unfold matmul_cells. rewrite length_map.
    rewrite HNl. exact HNr. }
  rewrite HMr in Hur. rewrite HMl in Hul.
  assert (Hsame : vb' = mkArr (nrows vb) (ncols vb)
                          (map2 (map2 add) (cells vb) (cells upd))).
  { unfold aadd, zipwith in Hn.
    rewrite <- Hin, Hur, Hc, Huc, !Nat.eqb_refl in Hn. cbn [andb] in Hn.
    inversion Hn. rewrite <- Hin, Hc. reflexivity. }
  split; [rewrite Hul, Hlen; exact Hin |].
  split; [exact Hurows |].
  rewrite Hsame. cbn [cells nrows ncols]. auto.
Qed.

(** A pass keeps a column well formed. *)
Lemma pass_well_shaped (obs : list observation) (vb vb' : ndarray F)
    (dch : F) :
  inverse_keeps_shape ->
  well_shaped vb /\ ncols vb = 1 ->
  step_unconstrained (nonlinear_data_of obs) vb = inr (dch, vb') ->
  well_shaped vb' /\ ncols vb' = 1.
Proof.
  intros Hshape [Hw Hc] H.
  destruct (pass_anatomy obs vb vb' dch Hshape Hw Hc H)
    as (vl & mZt & upd & _ & _ & _ & _ & Hul & Hur & Hcells & Hr & Hc').
  destruct Hw as [Hlen Hrows]. rewrite Hc in Hrows.
  split; [| exact Hc']. split.
  - rewrite Hcells, Hr, <- Hlen. clear - Hul.
    revert Hul. generalize (cells vb) (cells upd).
    intros V; induction V as [| v V IH]; intros [| u U] HU;
      cbn [length map2] in *; try lia.
    f_equal. apply IH. lia.
  - rewrite Hcells, Hc'. apply map2_rows_length; assumption.
Qed.


End IterationClaims.

(** ** Where two claims fail *)

Module Counterexamples.
Import RNum RFacts Portfolio.
Local Open Scope R_scope.

Lemma fold_left_Rmax_ge_init (l : list R) (a : R) : a <= fold_left Rmax l a.
Proof.
  revert a; induction l as [| y l IH]; intros a; simpl; [lra |].
  eapply Rle_trans; [apply (Rmax_l a y) | apply IH].
Qed.

Lemma fold_left_Rmax_ge (l : list R) (a x : R) :
  In x l -> x <= fold_left Rmax l a.
Proof.
  revert a; induction l as [| y l IH]; intros a H; simpl; [destruct H |].
  destruct H as [-> | H].
  - eapply Rle_trans; [apply (Rmax_r a x) | apply fold_left_Rmax_ge_init].
  - apply IH. exact H.
Qed.


Lemma one_gt_tolerance : @gtb R numeric one tolerance = true.
Proof. apply Rgtb_true. rewrite one_R, tolerance_R. lra. Qed.



(** *** [drifting]: the intercept moves by 1 at every pass *)

Lemma drifting_step (b1 b2 b3 b4 b5 b6 b7 : R) :
  exists dch c1 c2 c3 c4 c5 c6 c7,
    step_unconstrained (nonlinear_data_of (all_observations 1 0 2 0))
      (colvec [b1; b2; b3; b4; b5; b6; b7])
    = inr (dch, colvec [c1; c2; c3; c4; c5; c6; c7]) /\
    @gtb R numeric dch tolerance = true.
Proof.
  assert (H1 : (1 : R) <> 0) by lra.
  pose proof (step_portfolio 1 0 2 0 H1 b1 b2 b3 b4 b5 b6 b7) as H.
  cbv zeta in H.
  set (ls := latent_at 1 0 [b1; b2; b3; b4; b5; b6; b7]) in *.
  assert (Hl : exists l1 l2 l3 l4 l5 l6 l7, ls = [l1; l2; l3; l4; l5; l6; l7])
    by (unfold ls, latent_at; repeat eexists).
  destruct Hl as (l1 & l2 & l3 & l4 & l5 & l6 & l7 & Hl).
  rewrite Hl in H. unfold increment in H. cbn [nth map2] in H.
  do 8 eexists. split; [exact H |].
  apply Rgtb_true. rewrite tolerance_R.
  unfold max_abs_diff. cbn [map2].
  eapply Rlt_le_trans;
    [| apply fold_left_Rmax_ge; do 5 right; left; reflexivity].
  assert (Hl1 : l1 <> 0).
  { pose proof (latent_nonzero 1 0 [b1; b2; b3; b4; b5; b6; b7]) as Hnz.
    fold ls in Hnz. rewrite Hl in Hnz. inversion Hnz; assumption. }
  match goal with |- _ < Rabs ?e => replace e with (- (1)) by (field; lra) end.
  rewrite Rabs_Ropp, Rabs_R1. lra.
Qed.

Lemma drifting_passes (n : nat) :
  exists dch c1 c2 c3 c4 c5 c6 c7,
    passes (step_unconstrained (nonlinear_data_of (all_observations 1 0 2 0)))
      (one, colvec [0; 0; 0; 0; 0; 0; ln (1 / 10)]) n
      (dch, colvec [c1; c2; c3; c4; c5; c6; c7]) /\
    @gtb R numeric dch tolerance = true.
Proof.
  induction n as [| n IH].
  - do 8 eexists. split; [constructor | exact one_gt_tolerance].
  - destruct IH as (dch & c1 & c2 & c3 & c4 & c5 & c6 & c7 & Hp & Hg).
    destruct (drifting_step c1 c2 c3 c4 c5 c6 c7)
      as (dch' & e1 & e2 & e3 & e4 & e5 & e6 & e7 & Hs & Hg').
    exists dch', e1, e2, e3, e4, e5, e6, e7. split; [| exact Hg'].
    eapply passes_snoc; [exact Hp | exact Hg | exact Hs].
Qed.

(** *** [early_stop]: a small update followed by a large one *)





(** * The claims that fail *)

(** In exact real arithmetic the loops need not end.  On the observation
    set [drifting] (seven held securities, one that is not held) the linear
    cell returns, and every pass of the first loop of the nonlinear cell
    raises the intercept by exactly 1, so that the change stays above the
    tolerance for ever.  This is a fact of exact arithmetic; rounding changes
    the run, and nothing follows for float64. *)
Lemma nonlinear_loop_diverges : ~ runs_to_completion drifting.
Proof.
  intros (fuel & H). apply H. clear H.
  unfold notebook, drifting.
  assert (H1 : (1 : R) <> 0) by lra.
  rewrite (linear_portfolio 1 0 2 0 H1).
  unfold vb_nonlinearIV.
  rewrite (structure_nonlinear_spec _ (table_ok_portfolio 1 0 2 0)).
  fold (all_observations 1 0 2 0).
  unfold nonlinear_of, unconstrained_nonlinear.
  destruct (drifting_passes fuel)
    as (dch & c1 & c2 & c3 & c4 & c5 & c6 & c7 & Hp & _).
  assert (Hout : while_loop
            (step_unconstrained (nonlinear_data_of (all_observations 1 0 2 0)))
            fuel (one, colvec [0; 0; 0; 0; 0; 0; ln (1 / 10)]) = OutOfFuel).
  { apply while_out_of_fuel. eexists. exact Hp. }
  rewrite Hout. reflexivity.
Qed.




End Counterexamples.

(** ** The run on which [np.exp] overflows *)

Module Overflow.
Import RNum RFacts Portfolio XNum.
Local Open Scope R_scope.

Ltac xcbv :=
  cbv - [IZR Rdiv Rminus Rplus Rmult Ropp Rinv exp ln Rabs Rmax Rgt_dec
         Rle_dec Rgtb Rleb Q2R RNum.inverse exp_overflow].

Lemma Q2R_zero : Q2R 0 = 0.
Proof. unfold Q2R. simpl. lra. Qed.
Lemma Q2R_one : Q2R 1 = 1.
Proof. unfold Q2R. simpl. lra. Qed.
Lemma Q2R_ceiling : Q2R (99 # 100) = 99 / 100.
Proof. unfold Q2R. simpl. lra. Qed.
Lemma Q2R_tolerance : Q2R (1 # 10000) = 1 / 10000.
Proof. unfold Q2R. simpl. lra. Qed.

Ltac lits := rewrite ?Q2R_zero, ?Q2R_one, ?Q2R_ceiling, ?Q2R_tolerance.
Ltac by_xfield := apply f_equal; lits; field.

(** [ln (1/10)] and [ln (1/20)] between bounds. *)
Lemma ln_lower (x : R) : 0 < x -> - (1 / x) < ln x.
Proof.
  intros Hx.
  assert (H : exp (- (1 / x)) < x).
  { rewrite exp_Ropp.
    assert (Hp : 0 < 1 / x) by (apply Rdiv_lt_0_compat; lra).
    assert (Hn : 1 / x <> 0) by lra.
    pose proof (exp_ineq1 (1 / x) Hn) as He.
    assert (H1 : / exp (1 / x) < / (1 / x)).
    { apply Rinv_lt_contravar; [| lra].
      apply Rmult_lt_0_compat; [exact Hp | apply exp_pos]. }
    replace (/ (1 / x)) with x in H1 by (field; lra). exact H1. }
  apply ln_increasing in H; [| apply exp_pos].
  rewrite ln_exp in H. exact H.
Qed.

Lemma ln_tenth : -10 < ln (1 / 10) < 0.
Proof.
  split.
  - pose proof (ln_lower (1 / 10)) as H.
    replace (- (1 / (1 / 10))) with (-10) in H by field. apply H. lra.
  - rewrite <- ln_1. apply ln_increasing; lra.
Qed.

Lemma ln_twentieth : -20 < ln (1 / 20).
Proof.
  pose proof (ln_lower (1 / 20)) as H.
  replace (- (1 / (1 / 20))) with (-20) in H by field. apply H. lra.
Qed.

Lemma ln_half : ln (1 / 20) - ln (1 / 10) < - (1 / 2).
Proof.
  replace (1 / 20) with ((1 / 10) * (1 / 2)) by field.
  rewrite ln_mult by lra.
  assert (H : ln (1 / 2) < - (1 / 2)); [| lra].
  rewrite <- (ln_exp (- (1 / 2))).
  apply ln_increasing; [lra |].
  rewrite exp_Ropp.
  assert (He : exp (1 / 2) < 2).
  { destruct (Rlt_le_dec (exp (1 / 2)) 2) as [Hlt | Hge]; [exact Hlt |].
    exfalso. pose proof exp_le_3 as H3.
    replace 1 with (1 / 2 + 1 / 2) in H3 by field.
    rewrite exp_plus in H3.
    assert (2 * 2 <= exp (1 / 2) * exp (1 / 2))
      by (apply Rmult_le_compat; lra).
    lra. }
  replace (1 / 2) with (/ 2) at 1 by field.
  apply Rinv_lt_contravar; [| exact He].
  apply Rmult_lt_0_compat; [apply exp_pos | lra].
Qed.

Lemma table_ok_overflowing : table_ok overflowing.
Proof.
  unfold table_ok, overflowing, table; cbn.
  repeat split. repeat constructor.
Qed.

Lemma retained_overflowing :
  retained (observations overflowing) = overflowing_held.
Proof.
  unfold retained, overflowing_held, observations, overflowing, table.
  assert (H1 : @gtb xreal numeric (Fin (1/10)) zero = true).
  { cbn. lits. apply Rgtb_true. lra. }
  assert (H2 : @gtb xreal numeric (Fin (1/20)) zero = true).
  { cbn. lits. apply Rgtb_true. lra. }
  assert (H0 : @gtb xreal numeric (Fin 0) zero = false).
  { cbn. lits. apply Rgtb_false. lra. }
  cbv [map cells app observation_of nth filter weight firstn].
  rewrite !H1, H2, H0. reflexivity.
Qed.

(** The linear cell on [overflowing]: the held rows determine the
    coefficients. *)
Lemma linear_overflowing : vb_linearIV overflowing = inr overflowing_linear.
Proof.
  unfold vb_linearIV.
  rewrite (structure_linear_spec _ table_ok_overflowing). cbn [bind].
  rewrite retained_overflowing.
  assert (Hy : log_weights overflowing_held
               = colvec [Fin (ln (1/10)); Fin (ln (1/10)); Fin (ln (1/20));
                         Fin (ln (1/10)); Fin (ln (1/10)); Fin (ln (1/10));
                         Fin (ln (1/10))]).
  { xcbv. rewrite !(Rgtb_true (1/10) 0), (Rgtb_true (1/20) 0) by lra.
    reflexivity. }
  rewrite Hy.
  assert (H0 : unconstrained_linear
                 (mkLinearData
                    (matrix_of characteristic_count characteristics
                       overflowing_held)
                    (column_of log_market_value overflowing_held)
                    (column_of log_market_value_instrument overflowing_held)
                    (colvec [Fin (ln (1/10)); Fin (ln (1/10));
                             Fin (ln (1/20)); Fin (ln (1/10));
                             Fin (ln (1/10)); Fin (ln (1/10));
                             Fin (ln (1/10))])
                    (np_ones (length overflowing_held) 1)
                    (design overflowing_held)
                    (instruments overflowing_held))
               = inr overflowing_linear).
  { unfold unconstrained_linear. cbn [l_mX l_mZ l_vLNrweight].
    match goal with
    | |- context [matmul ?A ?B] =>
        let M := eval cbv - [IZR Rdiv Rminus Rplus Rmult Ropp Rinv exp ln Rabs
                             Rmax Rgt_dec Rle_dec Rgtb Rleb Q2R RNum.inverse
                             exp_overflow] in (matmul A B) in
        change (matmul A B) with M
    end.
    cbn [bind].
    match goal with
    | |- context [inv ?M] =>
        assert (HN : linalg_inv M
                     = Some (of_reals
                               (cross_product_inverse 1 0
                                  [1; 1; 1; 1; 1; 1; 1])))
    end.
    { unfold linalg_inv, linalg, inverse.
      match goal with
      | |- context [all_finite ?M] =>
          change (all_finite M) with true; cbv iota
      end.
      match goal with
      | |- context [RNum.inverse ?M] =>
          assert (HR : RNum.inverse M
                       = Some (cross_product_inverse 1 0
                                 [1; 1; 1; 1; 1; 1; 1]))
      end.
      { apply inverse_eq. unfold is_inverse. xcbv.
        repeat split; try (repeat constructor).
        - apply f_equal; apply f_equal;
            cells_eq ltac:(lits; field; lra).
        - apply f_equal; apply f_equal;
            cells_eq ltac:(lits; field; lra). }
      rewrite HR. reflexivity. }
    unfold inv. rewrite HN. clear HN.
    xcbv. apply f_equal. apply f_equal.
    cells_eq ltac:(apply f_equal; lits; field; lra). }
  unfold linear_of. rewrite H0. cbn [bind].
  unfold exceeds_ceiling, row0, overflowing_linear, colvec.
  cbn [cells map bind ret truth_gt].
  assert (Hc : @gtb xreal numeric (Fin 0) ceiling = false).
  { cbn. lits. apply Rgtb_false. lra. }
  rewrite Hc. reflexivity.
Qed.

(** The latent demands at the linear-IV vector: numbers on the held rows;
    on the eighth row [np.exp] overflows and [0 * inf] is [nan]. *)
Lemma vlatent_overflowing :
  exists l1 l2 l3 l4 l5 l6 l7,
    vlatent_unconstrained overflowing_data overflowing_linear
    = inr (colvec [Fin l1; Fin l2; Fin l3; Fin l4; Fin l5; Fin l6; Fin l7;
                   NaN]).
Proof.
  pose proof ln_tenth as [H10 H10'].
  pose proof ln_twentieth as H20. pose proof ln_half as Hh.
  xcbv.
  repeat match goal with
  | |- context [Rgtb ?a exp_overflow] =>
      first [ rewrite (Rgtb_false a exp_overflow)
                by (unfold exp_overflow; lits; lra)
            | rewrite (Rgtb_true a exp_overflow)
                by (unfold exp_overflow; lits; lra) ]
  end.
  rewrite !(Rgtb_false 0 0) by lra.
  repeat eexists.
Qed.

(** The pass of the first loop on the linear-IV vector: every cell of
    [Zt^T X] is [nan], [np.linalg.inv] returns without raising, and the new
    vector and the change are [nan]. *)
Lemma step_overflowing :
  step_unconstrained overflowing_data overflowing_linear
  = inr (NaN, overflowing_nonlinear).
Proof.
  destruct vlatent_overflowing as (l1 & l2 & l3 & l4 & l5 & l6 & l7 & Hl).
  unfold step_unconstrained. rewrite Hl. cbn [bind].
  xcbv. reflexivity.
Qed.

Lemma one_exceeds_tolerance_X : @one_exceeds_tolerance xreal numeric.
Proof.
  unfold one_exceeds_tolerance. cbn. lits. apply Rgtb_true. lra.
Qed.

(** The first loop leaves after that pass: [nan > 1e-4] is false. *)
Lemma loop_overflowing (fuel : nat) :
  unconstrained_nonlinear overflowing_data (S (S fuel)) overflowing_linear
  = Returned overflowing_nonlinear.
Proof.
  unfold unconstrained_nonlinear. cbn [while_loop fst snd].
  rewrite one_exceeds_tolerance_X, step_overflowing. reflexivity.
Qed.

(** The cell returns the vector of [nan]: [nan > .99] is false. *)
Lemma nonlinear_overflowing (fuel : nat) :
  vb_nonlinearIV (S (S fuel)) overflowing overflowing_linear
  = Returned overflowing_nonlinear.
Proof.
  unfold vb_nonlinearIV.
  rewrite (structure_nonlinear_spec _ table_ok_overflowing).
  unfold nonlinear_of. fold overflowing_data.
  rewrite loop_overflowing. reflexivity.
Qed.

Lemma notebook_overflowing (fuel : nat) :
  notebook (S (S fuel)) overflowing
  = Returned (overflowing_linear, overflowing_nonlinear).
Proof.
  unfold notebook. rewrite linear_overflowing, nonlinear_overflowing.
  reflexivity.
Qed.

(** *** The change measured against a vector of [nan] *)

Lemma fold_xmax_nan (l : list xreal) : fold_left xmax l NaN = NaN.
Proof. induction l as [| x l IH]; [reflexivity | exact IH]. Qed.

Lemma np_max_abs_nan (a : ndarray xreal) (d : xreal) :
  all_nan (cells a) -> np_max (np_abs a) = inr d -> d = NaN.
Proof.
  intros Ha H. unfold np_max, np_abs, amap in H. cbn [cells] in H.
  assert (Hc : Forall (fun x => x = NaN) (concat (map (map fabs) (cells a)))).
  { clear H.
    induction Ha as [| r rows Hr _ IH]; cbn [map concat]; [constructor |].
    apply Forall_app. split; [| exact IH].
    clear - Hr. induction Hr as [| x r Hx _ IH]; cbn [map]; constructor.
    - subst x. reflexivity.
    - exact IH. }
  destruct (concat _) as [| x xs]; [discriminate |].
  inversion Hc as [| ? ? Hx _]; subst.
  inversion H. apply fold_xmax_nan.
Qed.

Lemma map2_sub_nan (r : list xreal) : Forall (fun x => x = NaN)
                                        (map2 sub [NaN] r).
Proof. destruct r as [| y r]; cbn [map2]; repeat constructor. Qed.

Lemma map2_rows_nan (rows beta : list (list xreal)) :
  Forall (fun r => r = [NaN]) rows ->
  all_nan (map2 (map2 sub) rows beta).
Proof.
  intros H. revert beta.
  induction H as [| r rows Hr _ IH]; intros [| b beta]; cbn [map2];
    try constructor.
  - subst r. apply map2_sub_nan.
  - apply IH.
Qed.

(** Whatever the vector before it, the change to the vector of [nan] is
    [nan]. *)
Lemma change_to_nan (beta : ndarray xreal) (d : xreal) :
  max_abs_change beta overflowing_nonlinear = inr d -> d = NaN.
Proof.
  unfold max_abs_change. intros H.
  apply bind_ret_inv in H as (diff & Hd & H).
  apply (np_max_abs_nan diff); [| exact H].
  unfold asub, zipwith in Hd.
  destruct (Nat.eqb (nrows overflowing_nonlinear) (nrows beta)
            && Nat.eqb (ncols overflowing_nonlinear) (ncols beta)).
  - unfold ret in Hd. injection Hd as <-. cbn [cells].
    apply (map2_rows_nan (cells overflowing_nonlinear)).
    repeat constructor.
  - destruct (bdim _ (nrows beta)) as [r |] eqn:Er; [| discriminate].
    destruct (bdim _ (ncols beta)) as [c |]; [| discriminate].
    unfold ret in Hd. injection Hd as <-. cbn [cells].
    assert (Hr : r = 7%nat).
    { cbn in Er. unfold bdim in Er.
      destruct (Nat.eqb 7 (nrows beta)); [congruence |].
      cbn [Nat.eqb] in Er.
      destruct (Nat.eqb (nrows beta) 1); congruence. }
    subst r. cbn [seq map].
    unfold all_nan. repeat constructor;
      (apply Forall_forall; intros x Hx; apply in_map_iff in Hx;
       destruct Hx as (j & <- & _); reflexivity).
Qed.

(** The iteration of the specification ends on a change that is at most the
    tolerance. *)
Lemma converges_last {F : Type} {NF : Numeric F} {LA : LinAlg F}
    (step : ndarray F -> result (ndarray F)) (seed b : ndarray F) :
  converges step seed b ->
  exists beta d, max_abs_change beta b = inr d /\ leb d tolerance = true.
Proof.
  induction 1 as [beta beta' d _ Hd Hle | beta beta' b d _ _ _ _ IH].
  - exists beta, d. split; assumption.
  - exact IH.
Qed.



Lemma ceiling_not_above_itself_X : @ceiling_not_above_itself xreal numeric.
Proof.
  unfold ceiling_not_above_itself. cbn. apply Rgtb_false. lra.
Qed.

(** On [overflowing] the iteration as the loop runs it settles at the vector
    of [nan], after one pass. *)
Example settles_on_nan :
  settles (step_unconstrained overflowing_data) overflowing_linear
    overflowing_nonlinear.
Proof.
  eapply settles_stop; [exact step_overflowing | reflexivity].
Qed.

(** In this arithmetic a value of which [> .99] is false is at most .99, or
    it is [nan]. *)
Lemma not_above_ceiling (x : xreal) :
  gtb x ceiling = false -> leb x ceiling = true \/ x = NaN.
Proof.
  destruct x as [r | | |]; cbn; intros H.
  - left. unfold Rgtb in H. unfold Rleb.
    destruct (Rgt_dec r (Q2R (99 # 100))); [discriminate |].
    destruct (Rle_dec r (Q2R (99 # 100))); [reflexivity | lra].
  - discriminate.
  - left. reflexivity.
  - right. reflexivity.
Qed.

Lemma first_coefficient_bounded_witness :
  (exists x, first_coefficient overflowing_linear x /\
             gtb x ceiling = false /\
             (leb x ceiling = negb (gtb x ceiling) -> leb x ceiling = true)) /\
  (exists x, first_coefficient overflowing_nonlinear x /\
             gtb x ceiling = false /\
             (leb x ceiling = negb (gtb x ceiling) -> leb x ceiling = true)).
Proof.
  apply (first_coefficient_bounded overflowing 2).
  - exact ceiling_not_above_itself_X.
  - reflexivity.
  - exact (notebook_overflowing 0).
Defined.

(** C1, counterexample.  On the observation set [overflowing] both cells
    run to their end, and the first element of the nonlinear-IV vector is
    [nan], which is not at most .99: the latent demand of the row that is
    not held is [0 * inf], every cell of [Zt^T X] is [nan],
    [np.linalg.inv] raises nothing, and neither [nan > 1e-4] nor
    [nan > .99] holds. *)
Lemma first_element_is_nan : ~ first_elements_at_most_ceiling overflowing.
Proof.
  intros H.
  destruct (H 2%nat _ _ (notebook_overflowing 0))
    as [_ (x & (rest & Hx) & Hle)].
  inversion Hx; subst x. discriminate Hle.
Qed.

(** C4, counterexample.  On [overflowing] the first loop stops after one
    pass, whose change is [nan], not a number at most 1e-4: the loop returns
    a vector at which the iteration that stops exactly on a change of at
    most 1e-4 does not end. *)
Lemma loop_stops_on_nan : ~ stops_exactly_within_tolerance overflowing.
Proof.
  intros H.
  destruct (H overflowing_linear overflowing_nonlinear linear_overflowing)
    as [Hto _].
  assert (Hc : converges (unconstrained_step (observations overflowing))
                 overflowing_linear overflowing_nonlinear).
  { apply Hto. exists 2%nat. exact (loop_overflowing 0). }
  apply converges_last in Hc as (beta & d & Hd & Hle).
  apply change_to_nan in Hd. subst d. discriminate Hle.
Qed.


End Overflow.

(** ** The namespace of the notebook *)

Module StoreFacts.
Import Store.
Section Frame.
Context {F : Type} {NF : Numeric F} {LA : LinAlg F}.
Local Abbreviation state := (@Store.state F).
Local Abbreviation stmt := (@Store.stmt F).
Local Abbreviation framed := (@Store.framed F).

Lemma frame_refl (s : state) : frame s s.
Proof. split; auto. Qed.

Lemma frame_trans (s1 s2 s3 : state) :
  frame s1 s2 -> frame s2 s3 -> frame s1 s3.
Proof.
  intros [H1 H2] [H3 H4]. split; [congruence | auto].
Qed.

Lemma nth_error_grow {A} (h : list A) (a b : A) (r : nat) :
  nth_error h r = Some b -> nth_error (h ++ [a]) r = Some b.
Proof.
  intros H. rewrite nth_error_app1; [exact H |].
  apply nth_error_Some. congruence.
Qed.

Lemma framed_assign (x : string) (e : state -> result (ndarray F)) :
  String.eqb x "vb_linearIV" = false -> framed (assign x e).
Proof.
  intros Hx s. unfold assign. destruct (e s) as [err | a]; cbn [fst].
  - apply frame_refl.
  - split; cbn [new_array globals heap].
    + rewrite Hx. reflexivity.
    + intros r b. apply nth_error_grow.
Qed.

Lemma framed_assign_view (x y : string) (ws : list window) :
  String.eqb x "vb_linearIV" = false -> framed (assign_view x y ws).
Proof.
  intros Hx s. unfold assign_view. destruct (globals s y) as [v |]; cbn [fst].
  - split; cbn [rebind globals heap]; [rewrite Hx; reflexivity | auto].
  - apply frame_refl.
Qed.

Lemma framed_assign_dN (e : state -> nat) : framed (assign_dN e).
Proof. intros s. split; auto. Qed.

Lemma framed_assign_dchange (e : state -> result F) :
  framed (assign_dchange e).
Proof.
  intros s. unfold assign_dchange. destruct (e s); split; auto.
Qed.

Lemma framed_assign_shape (e : state -> result (ndarray F)) :
  framed (assign_shape e).
Proof.
  intros s. unfold assign_shape. destruct (e s); split; auto.
Qed.

Lemma framed_seq (p q : stmt) : framed p -> framed q -> framed (seq p q).
Proof.
  intros Hp Hq s. unfold seq. specialize (Hp s).
  destruct (p s) as [s1 [[] | e |]]; cbn [fst] in *; try exact Hp.
  exact (frame_trans _ _ _ Hp (Hq s1)).
Qed.

Lemma framed_if (c : state -> result bool) (p : stmt) :
  framed p -> framed (if_ c p).
Proof.
  intros Hp s. unfold if_. destruct (c s) as [err | []];
    [apply frame_refl | apply Hp | apply frame_refl].
Qed.

Lemma framed_while (fuel : nat) (body : stmt) :
  framed body -> framed (while fuel body).
Proof.
  intros Hb. induction fuel as [| fuel IH]; intros s; cbn [while].
  - apply frame_refl.
  - destruct (gtb (dchange s) tolerance); [| apply frame_refl].
    specialize (Hb s).
    destruct (body s) as [s1 [[] | e |]]; cbn [fst] in *; try exact Hb.
    exact (frame_trans _ _ _ Hb (IH s1)).
Qed.

Ltac framed :=
  repeat first
    [ apply framed_seq
    | apply framed_assign; reflexivity
    | apply framed_assign_view; reflexivity
    | apply framed_assign_dN
    | apply framed_assign_dchange
    | apply framed_assign_shape
    | apply framed_if
    | apply framed_while ].

Lemma framed_nonlinear_cell (fuel : nat) : framed (nonlinear_cell fuel).
Proof.
  unfold nonlinear_cell, structure_the_data, unconstrained_estimation,
    constrained_estimation, body_unconstrained, body_constrained.
  framed.
Qed.

Lemma load_frame (s s' : state) (a : ndarray F) :
  frame s s' -> load "vb_linearIV" s = inr a -> load "vb_linearIV" s' = inr a.
Proof.
  intros [Hg Hh]. unfold load. rewrite Hg.
  destruct (globals s "vb_linearIV") as [v |]; [| discriminate].
  unfold deref. destruct (nth_error (heap s) (ref v)) as [b |] eqn:E;
    [| discriminate].
  rewrite (Hh _ _ E). auto.
Qed.


(** *** Reading a name after a statement *)

Lemma load_new_array (x y : string) (a : ndarray F) (s : state) :
  well_formed s ->
  load y (new_array x a s) = if String.eqb x y then inr a else load y s.
Proof.
  intros Hwf. unfold load, new_array. cbn [globals heap].
  destruct (String.eqb x y).
  - unfold deref. cbn [heap ref windows].
    rewrite nth_error_app2, Nat.sub_diag by lia. reflexivity.
  - destruct (globals s y) as [v |] eqn:E; [| reflexivity].
    unfold deref. cbn [heap].
    rewrite nth_error_app1 by exact (Hwf _ _ E). reflexivity.
Qed.

Lemma well_formed_new_array (x : string) (a : ndarray F) (s : state) :
  well_formed s -> well_formed (new_array x a s).
Proof.
  intros Hwf y v. unfold new_array. cbn [globals heap].
  rewrite length_app. cbn [List.length].
  destruct (String.eqb x y).
  - intros H; inversion H; subst v. cbn [ref]. lia.
  - intros H. specialize (Hwf _ _ H). lia.
Qed.

Lemma fold_left_windows (ws1 ws2 : list window) (a : ndarray F) :
  fold_left through_window (ws1 ++ ws2) a
  = fold_left through_window ws2 (fold_left through_window ws1 a).
Proof. apply fold_left_app. Qed.

Lemma assign_ok (x : string) (e : state -> result (ndarray F)) (s : state)
    (a : ndarray F) :
  well_formed s -> e s = inr a ->
  exists s1, assign x e s = (s1, Returned tt) /\ effect s s1 x (inr a).
Proof.
  intros Hwf He. unfold assign. rewrite He.
  exists (new_array x a s). split; [reflexivity |].
  split; try reflexivity.
  - exact (well_formed_new_array x a s Hwf).
  - intros z. exact (load_new_array x z a s Hwf).
Qed.

Lemma assign_raises (x : string) (e : state -> result (ndarray F))
    (s : state) (err : exn) :
  e s = inl err -> assign x e s = (s, Raised err).
Proof. intros He. unfold assign. rewrite He. reflexivity. Qed.

Lemma assign_view_ok (x y : string) (ws : list window) (s : state)
    (a : ndarray F) :
  well_formed s -> load y s = inr a ->
  exists s1, assign_view x y ws s = (s1, Returned tt) /\
             effect s s1 x (inr (fold_left through_window ws a)).
Proof.
  intros Hwf Hy. unfold assign_view. unfold load in Hy.
  destruct (globals s y) as [v |] eqn:E; [| discriminate].
  eexists. split; [reflexivity |].
  split; try reflexivity.
  - intros z u. unfold rebind. cbn [globals heap].
    destruct (String.eqb x z).
    + intros H; inversion H; subst u. cbn [ref]. exact (Hwf _ _ E).
    + apply Hwf.
  - intros z. unfold load at 1, rebind. cbn [globals].
    destruct (String.eqb x z); [| reflexivity].
    unfold deref in *. cbn [heap ref windows].
    destruct (nth_error (heap s) (ref v)) as [b |]; [| discriminate].
    inversion Hy; subst a. unfold ret. rewrite fold_left_windows.
    reflexivity.
Qed.


Lemma effect_same {s s1 : state} {x : string} {r : result (ndarray F)} :
  effect s s1 x r -> load x s1 = r.
Proof.
  intros E. rewrite (eff_load E). rewrite String.eqb_refl. reflexivity.
Qed.

Lemma effect_other {s s1 : state} {x : string} {r : result (ndarray F)}
    (z : string) :
  effect s s1 x r -> String.eqb x z = false -> load z s1 = load z s.
Proof. intros E H. rewrite (eff_load E), H. reflexivity. Qed.

Lemma seq_ok (p q : stmt) (s s1 : state) :
  p s = (s1, Returned tt) -> seq p q s = q s1.
Proof. intros H. unfold seq. rewrite H. reflexivity. Qed.

Lemma seq_assoc (p q r : stmt) (s : state) :
  seq (seq p q) r s = seq p (seq q r) s.
Proof.
  unfold seq. destruct (p s) as [s1 [[] | e |]]; reflexivity.
Qed.

Lemma seq_raises (p q : stmt) (s s1 : state) (e : exn) :
  p s = (s1, Raised e) -> seq p q s = (s1, Raised e).
Proof. intros H. unfold seq. rewrite H. reflexivity. Qed.

Lemma seq_out_of_fuel (p q : stmt) (s s1 : state) :
  p s = (s1, OutOfFuel) -> seq p q s = (s1, OutOfFuel).
Proof. intros H. unfold seq. rewrite H. reflexivity. Qed.

Ltac loads :=
  repeat match goal with
    | E : effect _ ?s1 ?x _ |- context [load ?z ?s1] =>
        first [ rewrite (effect_same E)
              | rewrite (effect_other z E eq_refl) ]
    | E : effect _ ?s1 _ _ |- context [dN ?s1] => rewrite (eff_dN E)
    | E : effect _ ?s1 _ _ |- context [dT ?s1] => rewrite (eff_dT E)
    | E : effect _ ?s1 _ _ |- context [dchange ?s1] => rewrite (eff_dchange E)
    end.

Lemma knows_effect (s s1 : state) (d : nonlinear_data) (mX : ndarray F)
    (n : nat) (vb_lin : ndarray F) (x : string) (r : result (ndarray F)) :
  knows s d mX n vb_lin -> effect s s1 x r ->
  forallb (fun z => negb (String.eqb x z))
    ["vrweight"; "mchars"; "vLNme"; "vones"; "mX"; "mZ"; "vb_linearIV"]%string
  = true ->
  knows s1 d mX n vb_lin.
Proof.
  intros K E H. cbn [forallb] in H.
  repeat (apply andb_prop in H as [?H H]).
  repeat match goal with
         | H : negb _ = true |- _ => apply negb_true_iff in H
         end.
  split.
  - exact (eff_wf E).
  - rewrite (effect_other _ E) by assumption. exact (k_vrweight K).
  - rewrite (effect_other _ E) by assumption. exact (k_mchars K).
  - rewrite (effect_other _ E) by assumption. exact (k_vLNme K).
  - rewrite (effect_other _ E) by assumption. exact (k_vones K).
  - rewrite (effect_other _ E) by assumption. exact (k_mX K).
  - rewrite (effect_other _ E) by assumption. exact (k_mZ K).
  - rewrite (effect_other _ E) by assumption. exact (k_lin K).
  - rewrite (eff_dN E). exact (k_dN K).
Qed.

Lemma assign_dchange_ok (e : state -> result F) (s : state) (x : F) :
  e s = inr x -> assign_dchange e s = (with_dchange x s, Returned tt).
Proof. intros H. unfold assign_dchange. rewrite H. reflexivity. Qed.

Lemma assign_dchange_raises (e : state -> result F) (s : state) (err : exn) :
  e s = inl err -> assign_dchange e s = (s, Raised err).
Proof. intros H. unfold assign_dchange. rewrite H. reflexivity. Qed.

Lemma assign_shape_ok (e : state -> result (ndarray F)) (s : state)
    (a : ndarray F) :
  e s = inr a ->
  assign_shape e s = (with_dN (ncols a) (with_dT (nrows a) s), Returned tt).
Proof. intros H. unfold assign_shape. rewrite H. reflexivity. Qed.

Lemma assign_dN_ok (e : state -> nat) (s : state) :
  assign_dN e s = (with_dN (e s) s, Returned tt).
Proof. reflexivity. Qed.

Lemma knows_with_dchange (s : state) (d : nonlinear_data) (mX : ndarray F)
    (n : nat) (vb_lin : ndarray F) (x : F) :
  knows s d mX n vb_lin -> knows (with_dchange x s) d mX n vb_lin.
Proof. intros [? ? ? ? ? ? ? ? ?]. split; assumption. Qed.

(** A pass of the first loop on the namespace is a pass of the loop on
    values. *)
Lemma body_unconstrained_agrees (s : state) (d : nonlinear_data)
    (vb_lin vb : ndarray F) :
  knows s d (n_mX d) (n_dN d) vb_lin ->
  load "vb_nonlinearIV" s = inr vb ->
  match step_unconstrained d vb with
  | inl e => exists s1, body_unconstrained s = (s1, Raised e)
  | inr (dch, vb') =>
      exists s1, body_unconstrained s = (s1, Returned tt) /\
                 knows s1 d (n_mX d) (n_dN d) vb_lin /\
                 load "vb_nonlinearIV" s1 = inr vb' /\
                 dchange s1 = dch
  end.
Proof.
  intros K Hvb. unfold body_unconstrained, step_unconstrained.
  (* vlatent *)
  destruct (vlatent_unconstrained d vb) as [err | vl] eqn:Hl; cbn [bind].
  { eexists. apply seq_raises, assign_raises. cbv beta.
    rewrite (k_vrweight K), (k_mX K), Hvb. exact Hl. }
  edestruct (assign_ok "vlatent") as (s1 & R1 & E1);
    [exact (k_wf K) | | rewrite (seq_ok _ _ _ _ R1); clear R1].
  { cbv beta. rewrite (k_vrweight K), (k_mX K), Hvb. exact Hl. }
  (* mZ_tilde *)
  destruct (mZ_tilde_of d vl) as [err | mZt] eqn:Hz; cbn [bind].
  { eexists. apply seq_raises, assign_raises. cbv beta. loads.
    rewrite (k_mZ K), (k_dN K). exact Hz. }
  edestruct (assign_ok "mZ_tilde") as (s2 & R2 & E2);
    [exact (eff_wf E1) | | rewrite (seq_ok _ _ _ _ R2); clear R2].
  { cbv beta. loads. rewrite (k_mZ K), (k_dN K). exact Hz. }
  (* vb_nonlinearIV_new *)
  destruct (update_unconstrained d vl mZt) as [err | upd] eqn:Hu; cbn [bind].
  { eexists. apply seq_raises, assign_raises. cbv beta. loads.
    rewrite Hvb, (k_mX K), (k_mZ K). cbn [bind].
    unfold update_unconstrained in Hu.
    destruct (matmul (transpose mZt) (n_mX d)) as [? | ZtX];
      [exact Hu |]; cbn [bind] in *.
    destruct (inv ZtX) as [? | Minv]; [exact Hu |]; cbn [bind] in *.
    destruct (matmul Minv (transpose (n_mZ d))) as [? | MZt];
      [exact Hu |]; cbn [bind] in *.
    rewrite Hu. reflexivity. }
  destruct (aadd vb upd) as [err | vb'] eqn:Ha; cbn [bind].
  { eexists. apply seq_raises, assign_raises. cbv beta. loads.
    rewrite Hvb, (k_mX K), (k_mZ K). cbn [bind].
    unfold update_unconstrained in Hu.
    destruct (matmul (transpose mZt) (n_mX d)) as [? | ZtX];
      [discriminate |]; cbn [bind] in *.
    destruct (inv ZtX) as [? | Minv]; [discriminate |]; cbn [bind] in *.
    destruct (matmul Minv (transpose (n_mZ d))) as [? | MZt];
      [discriminate |]; cbn [bind] in *.
    rewrite Hu. cbn [bind]. exact Ha. }
  edestruct (assign_ok "vb_nonlinearIV_new") as (s3 & R3 & E3);
    [exact (eff_wf E2) | | rewrite (seq_ok _ _ _ _ R3); clear R3].
  { cbv beta. loads. rewrite Hvb, (k_mX K), (k_mZ K). cbn [bind].
    unfold update_unconstrained in Hu.
    destruct (matmul (transpose mZt) (n_mX d)) as [? | ZtX];
      [discriminate |]; cbn [bind] in *.
    destruct (inv ZtX) as [? | Minv]; [discriminate |]; cbn [bind] in *.
    destruct (matmul Minv (transpose (n_mZ d))) as [? | MZt];
      [discriminate |]; cbn [bind] in *.
    rewrite Hu. cbn [bind]. exact Ha. }
  (* dchange *)
  assert (K3 : knows s3 d (n_mX d) (n_dN d) vb_lin).
  { apply (knows_effect _ _ _ _ _ _ _ _
             (knows_effect _ _ _ _ _ _ _ _
                (knows_effect _ _ _ _ _ _ _ _ K E1 eq_refl) E2 eq_refl)
             E3 eq_refl). }
  assert (Hvb3 : load "vb_nonlinearIV" s3 = inr vb).
  { loads. exact Hvb. }
  assert (Hnew3 : load "vb_nonlinearIV_new" s3 = inr vb').
  { loads. reflexivity. }
  destruct (dchange_of vb vb') as [err | dch] eqn:Hd; cbn [bind ret].
  { eexists. apply seq_raises, assign_dchange_raises. cbv beta.
    rewrite Hvb3, Hnew3. exact Hd. }
  erewrite seq_ok;
    [| apply assign_dchange_ok; cbv beta; rewrite Hvb3, Hnew3; exact Hd].
  (* vb_nonlinearIV = vb_nonlinearIV_new *)
  pose proof (knows_with_dchange _ _ _ _ _ dch K3) as K4.
  edestruct (assign_view_ok "vb_nonlinearIV" "vb_nonlinearIV_new" [])
    as (s5 & R5 & E5); [exact (k_wf K4) | exact Hnew3 |].
  exists s5. split; [exact R5 |].
  split; [exact (knows_effect _ _ _ _ _ _ _ _ K4 E5 eq_refl) |].
  split; [exact (effect_same E5) |].
  rewrite (eff_dchange E5). reflexivity.
Qed.


(** The same for the second loop, where [mX] is [X'] and [dN] one less. *)
Lemma body_constrained_agrees (s : state) (d : nonlinear_data)
    (mX vb_lin vb : ndarray F) :
  knows s d mX (n_dN d - 1) vb_lin ->
  load "vb_nonlinearIV" s = inr vb ->
  match step_constrained d mX vb with
  | inl e => exists s1, body_constrained s = (s1, Raised e)
  | inr (dch, vb') =>
      exists s1, body_constrained s = (s1, Returned tt) /\
                 knows s1 d mX (n_dN d - 1) vb_lin /\
                 load "vb_nonlinearIV" s1 = inr vb' /\
                 dchange s1 = dch
  end.
Proof.
  intros K Hvb. unfold body_constrained, step_constrained.
  (* vlatent *)
  destruct (vlatent_constrained d mX vb) as [err | vl] eqn:Hl; cbn [bind].
  { eexists. apply seq_raises, assign_raises. cbv beta.
    rewrite (k_vrweight K), (k_vLNme K), (k_mX K), Hvb. exact Hl. }
  edestruct (assign_ok "vlatent") as (s1 & R1 & E1);
    [exact (k_wf K) | | rewrite (seq_ok _ _ _ _ R1); clear R1].
  { cbv beta. rewrite (k_vrweight K), (k_vLNme K), (k_mX K), Hvb. exact Hl. }
  (* mX_tilde *)
  destruct (mX_tilde_of d mX vl) as [err | mXt] eqn:Hz; cbn [bind].
  { eexists. apply seq_raises, assign_raises. cbv beta. loads.
    rewrite (k_mX K), (k_dN K). exact Hz. }
  edestruct (assign_ok "mX_tilde") as (s2 & R2 & E2);
    [exact (eff_wf E1) | | rewrite (seq_ok _ _ _ _ R2); clear R2].
  { cbv beta. loads. rewrite (k_mX K), (k_dN K). exact Hz. }
  (* vb_nonlinearIV_new *)
  destruct (update_constrained mX vl mXt) as [err | upd] eqn:Hu; cbn [bind].
  { eexists. apply seq_raises, assign_raises. cbv beta. loads.
    rewrite Hvb, (k_mX K). cbn [bind].
    unfold update_constrained in Hu.
    destruct (matmul (transpose mXt) mX) as [? | XtX];
      [exact Hu |]; cbn [bind] in *.
    destruct (inv XtX) as [? | Minv]; [exact Hu |]; cbn [bind] in *.
    destruct (matmul Minv (transpose mX)) as [? | MXt];
      [exact Hu |]; cbn [bind] in *.
    rewrite Hu. reflexivity. }
  assert (Hnew : forall s2', load "vb_nonlinearIV" s2' = inr vb ->
                   load "mX_tilde" s2' = inr mXt ->
                   load "mX" s2' = inr mX -> load "vlatent" s2' = inr vl ->
                   (vb0 <- load "vb_nonlinearIV" s2' ;;
                    Xt <- load "mX_tilde" s2' ;;
                    X <- load "mX" s2' ;; v <- load "vlatent" s2' ;;
                    XtX <- matmul (transpose Xt) X ;; Minv <- inv XtX ;;
                    MXt <- matmul Minv (transpose X) ;;
                    upd <- matmul MXt (sub_scalar v one) ;; aadd vb0 upd)
                   = aadd vb upd).
  { intros s2' -> -> -> ->. cbn [bind].
    unfold update_constrained in Hu.
    destruct (matmul (transpose mXt) mX) as [? | XtX];
      [discriminate |]; cbn [bind] in *.
    destruct (inv XtX) as [? | Minv]; [discriminate |]; cbn [bind] in *.
    destruct (matmul Minv (transpose mX)) as [? | MXt];
      [discriminate |]; cbn [bind] in *.
    rewrite Hu. reflexivity. }
  assert (Hvb2 : load "vb_nonlinearIV" s2 = inr vb) by (loads; exact Hvb).
  assert (Ht2 : load "mX_tilde" s2 = inr mXt) by (loads; reflexivity).
  assert (HX2 : load "mX" s2 = inr mX) by (loads; exact (k_mX K)).
  assert (Hl2 : load "vlatent" s2 = inr vl) by (loads; reflexivity).
  specialize (Hnew s2 Hvb2 Ht2 HX2 Hl2).
  destruct (aadd vb upd) as [err | vb'] eqn:Ha; cbn [bind].
  { eexists. apply seq_raises, assign_raises. exact Hnew. }
  edestruct (assign_ok "vb_nonlinearIV_new") as (s3 & R3 & E3);
    [exact (eff_wf E2) | | rewrite (seq_ok _ _ _ _ R3); clear R3].
  { exact Hnew. }
  (* dchange *)
  assert (K3 : knows s3 d mX (n_dN d - 1) vb_lin).
  { apply (knows_effect _ _ _ _ _ _ _ _
             (knows_effect _ _ _ _ _ _ _ _
                (knows_effect _ _ _ _ _ _ _ _ K E1 eq_refl) E2 eq_refl)
             E3 eq_refl). }
  assert (Hvb3 : load "vb_nonlinearIV" s3 = inr vb).
  { loads. exact Hvb. }
  assert (Hnew3 : load "vb_nonlinearIV_new" s3 = inr vb').
  { loads. reflexivity. }
  destruct (dchange_of vb vb') as [err | dch] eqn:Hd; cbn [bind ret].
  { eexists. apply seq_raises, assign_dchange_raises. cbv beta.
    rewrite Hvb3, Hnew3. exact Hd. }
  erewrite seq_ok;
    [| apply assign_dchange_ok; cbv beta; rewrite Hvb3, Hnew3; exact Hd].
  pose proof (knows_with_dchange _ _ _ _ _ dch K3) as K4.
  edestruct (assign_view_ok "vb_nonlinearIV" "vb_nonlinearIV_new" [])
    as (s5 & R5 & E5); [exact (k_wf K4) | exact Hnew3 |].
  exists s5. split; [exact R5 |].
  split; [exact (knows_effect _ _ _ _ _ _ _ _ K4 E5 eq_refl) |].
  split; [exact (effect_same E5) |].
  rewrite (eff_dchange E5). reflexivity.
Qed.

(** The [while] of the namespace runs as the loop on values does, whatever
    the body, once each pass agrees. *)
Lemma while_agrees (body : stmt)
    (step : ndarray F -> result (F * ndarray F)) (I : state -> Prop) :
  (forall s vb, I s -> load "vb_nonlinearIV" s = inr vb ->
     match step vb with
     | inl e => exists s1, body s = (s1, Raised e)
     | inr (dch, vb') =>
         exists s1, body s = (s1, Returned tt) /\ I s1 /\
                    load "vb_nonlinearIV" s1 = inr vb' /\ dchange s1 = dch
     end) ->
  forall fuel s vb, I s -> load "vb_nonlinearIV" s = inr vb ->
    match while_loop step fuel (dchange s, vb) with
    | Returned b =>
        exists s1, while fuel body s = (s1, Returned tt) /\ I s1 /\
                   load "vb_nonlinearIV" s1 = inr b
    | Raised e => exists s1, while fuel body s = (s1, Raised e)
    | OutOfFuel => exists s1, while fuel body s = (s1, OutOfFuel)
    end.
Proof.
  intros Hbody. induction fuel as [| fuel IH]; intros s vb HI Hvb;
    cbn [while_loop while fst snd].
  - eexists; reflexivity.
  - destruct (gtb (dchange s) tolerance).
    + specialize (Hbody s vb HI Hvb).
      destruct (step vb) as [e | [dch vb']].
      * destruct Hbody as (s1 & ->). eexists; reflexivity.
      * destruct Hbody as (s1 & -> & HI1 & Hvb1 & <-).
        exact (IH s1 vb' HI1 Hvb1).
    + exists s. auto.
Qed.


(** "Structure the data" binds the names to what [structure_nonlinear]
    computes. *)
Lemma structure_agrees (s : state) (mdata vb_lin : ndarray F) :
  well_formed s ->
  load "mdata" s = inr mdata ->
  load "vrweight" s = inr (vrweight_of mdata) ->
  load "vb_linearIV" s = inr vb_lin ->
  match structure_nonlinear mdata with
  | inl e => exists s1, structure_the_data s = (s1, Raised e)
  | inr d =>
      exists s1, structure_the_data s = (s1, Returned tt) /\
                 knows s1 d (n_mX d) (n_dN d) vb_lin
  end.
Proof.
  intros Hwf Hm Hw Hlin. unfold structure_the_data, structure_nonlinear.
  destruct (assign_view_ok "mchars" "mdata" [Columns 3 8] s mdata Hwf Hm)
    as (s1 & R1 & E1).
  rewrite (seq_ok _ _ _ _ R1); clear R1.
  assert (Hm1 : load "mdata" s1 = inr mdata) by (loads; exact Hm).
  destruct (assign_view_ok "vLNme" "mdata" [Columns 8 9] s1 mdata
              (eff_wf E1) Hm1) as (s2 & R2 & E2).
  rewrite (seq_ok _ _ _ _ R2); clear R2.
  assert (Hm2 : load "mdata" s2 = inr mdata) by (loads; exact Hm).
  destruct (assign_view_ok "vLNmeIV" "mdata" [Columns 9 10] s2 mdata
              (eff_wf E2) Hm2) as (s3 & R3 & E3).
  rewrite (seq_ok _ _ _ _ R3); clear R3.
  cbn [fold_left through_window] in E1, E2, E3.
  assert (Hc3 : load "mchars" s3 = inr (cols 3 8 mdata))
    by (loads; reflexivity).
  (* dT,dN = mchars.shape; dN = dN+2 *)
  rewrite (seq_ok _ _ _ _ (assign_shape_ok _ s3 _ Hc3)).
  rewrite (seq_ok _ _ _ _ (assign_dN_ok _ _)). cbv beta.
  set (s5 := with_dN _ _).
  assert (Hs5 : forall z, load z s5 = load z s3) by reflexivity.
  assert (Hwf5 : well_formed s5) by exact (eff_wf E3).
  (* vones *)
  edestruct (assign_ok "vones") as (s6 & R6 & E6);
    [exact Hwf5 | | rewrite (seq_ok _ _ _ _ R6); clear R6].
  { reflexivity. }
  assert (Hl6 : forall z, String.eqb "vones" z = false ->
                          load z s6 = load z s3).
  { intros z Hz. rewrite (effect_other z E6 Hz). apply Hs5. }
  assert (Hme6 : load "vLNme" s6 = inr (cols 8 9 mdata)).
  { rewrite Hl6 by reflexivity. loads. reflexivity. }
  assert (Hiv6 : load "vLNmeIV" s6 = inr (cols 9 10 mdata)).
  { rewrite Hl6 by reflexivity. loads. reflexivity. }
  assert (Hc6 : load "mchars" s6 = inr (cols 3 8 mdata)).
  { rewrite Hl6 by reflexivity. exact Hc3. }
  assert (Ho6 : load "vones" s6
                = inr (np_ones (nrows (cols 3 8 mdata)) 1)).
  { rewrite (effect_same E6). reflexivity. }
  (* mX *)
  destruct (concatenate1 (cols 8 9 mdata)
              [cols 3 8 mdata; np_ones (nrows (cols 3 8 mdata)) 1])
    as [err | mX] eqn:HX; cbn [bind].
  { eexists. apply seq_raises, assign_raises. cbv beta.
    rewrite Hme6, Hc6, Ho6. exact HX. }
  edestruct (assign_ok "mX") as (s7 & R7 & E7);
    [exact (eff_wf E6) | | rewrite (seq_ok _ _ _ _ R7); clear R7].
  { cbv beta. rewrite Hme6, Hc6, Ho6. exact HX. }
  (* mZ *)
  assert (Hiv7 : load "vLNmeIV" s7 = inr (cols 9 10 mdata)).
  { rewrite (effect_other _ E7) by reflexivity. exact Hiv6. }
  assert (Hc7 : load "mchars" s7 = inr (cols 3 8 mdata)).
  { rewrite (effect_other _ E7) by reflexivity. exact Hc6. }
  assert (Ho7 : load "vones" s7
                = inr (np_ones (nrows (cols 3 8 mdata)) 1)).
  { rewrite (effect_other _ E7) by reflexivity. exact Ho6. }
  destruct (concatenate1 (cols 9 10 mdata)
              [cols 3 8 mdata; np_ones (nrows (cols 3 8 mdata)) 1])
    as [err | mZ] eqn:HZ; cbn [bind].
  { eexists. apply assign_raises. cbv beta.
    rewrite Hiv7, Hc7, Ho7. exact HZ. }
  edestruct (assign_ok "mZ") as (s8 & R8 & E8);
    [exact (eff_wf E7) | | exists s8; split; [exact R8 |]].
  { cbv beta. rewrite Hiv7, Hc7, Ho7. exact HZ. }
  assert (Hl8 : forall z, String.eqb "mZ" z = false ->
                          String.eqb "mX" z = false ->
                          String.eqb "vones" z = false ->
                          load z s8 = load z s3).
  { intros z H8 H7 H6.
    rewrite (effect_other z E8 H8), (effect_other z E7 H7). exact (Hl6 z H6). }
  split; cbn [n_vrweight n_mchars n_vLNme n_vones n_mX n_mZ n_dN].
  - exact (eff_wf E8).
  - rewrite Hl8 by reflexivity. loads. exact Hw.
  - rewrite Hl8 by reflexivity. exact Hc3.
  - rewrite Hl8 by reflexivity. loads. reflexivity.
  - rewrite (effect_other _ E8) by reflexivity. exact Ho7.
  - rewrite (effect_other _ E8) by reflexivity. exact (effect_same E7).
  - exact (effect_same E8).
  - rewrite Hl8 by reflexivity. loads. exact Hlin.
  - rewrite (eff_dN E8), (eff_dN E7), (eff_dN E6). reflexivity.
Qed.

(** The cell on the namespace leaves in [vb_nonlinearIV] what the cell on
    values returns, and ends as it ends. *)
Theorem namespace_run_agrees (fuel : nat) (s : state)
    (mdata vb_lin : ndarray F) :
  well_formed s ->
  load "mdata" s = inr mdata ->
  load "vrweight" s = inr (vrweight_of mdata) ->
  load "vb_linearIV" s = inr vb_lin ->
  result_of (nonlinear_cell fuel s) = vb_nonlinearIV fuel mdata vb_lin.
Proof.
  intros Hwf Hm Hw Hlin. unfold nonlinear_cell, vb_nonlinearIV.
  pose proof (structure_agrees s mdata vb_lin Hwf Hm Hw Hlin) as Hs.
  destruct (structure_nonlinear mdata) as [err | d].
  { destruct Hs as (s1 & Hs). rewrite (seq_raises _ _ _ _ _ Hs). reflexivity. }
  destruct Hs as (s1 & Hs & K1). rewrite (seq_ok _ _ _ _ Hs); clear Hs.
  (* the first loop *)
  unfold unconstrained_estimation, nonlinear_of, unconstrained_nonlinear.
  destruct (assign_view_ok "vb_nonlinearIV" "vb_linearIV" [] s1 vb_lin
              (k_wf K1) (k_lin K1)) as (s2 & R2 & E2).
  cbn [fold_left] in E2.
  rewrite seq_assoc.
  rewrite (seq_ok _ _ _ _ R2); clear R2. rewrite seq_assoc.
  erewrite seq_ok; [| apply assign_dchange_ok; reflexivity].
  set (s3 := with_dchange one s2).
  assert (K3 : knows s3 d (n_mX d) (n_dN d) vb_lin).
  { apply knows_with_dchange.
    exact (knows_effect _ _ _ _ _ _ _ _ K1 E2 eq_refl). }
  assert (Hvb3 : load "vb_nonlinearIV" s3 = inr vb_lin)
    by exact (effect_same E2).
  pose proof (while_agrees body_unconstrained (step_unconstrained d)
                (fun s => knows s d (n_mX d) (n_dN d) vb_lin)
                (fun s vb => body_unconstrained_agrees s d vb_lin vb)
                fuel s3 vb_lin K3 Hvb3) as Hloop.
  change (dchange s3) with (@one F NF) in Hloop.
  destruct (while_loop (step_unconstrained d) fuel (one, vb_lin))
    as [vb | err |].
  2: { destruct Hloop as (s4 & Hr). rewrite (seq_raises _ _ _ _ _ Hr).
       reflexivity. }
  2: { destruct Hloop as (s4 & Hr). rewrite (seq_out_of_fuel _ _ _ _ Hr).
       reflexivity. }
  destruct Hloop as (s4 & Hr & K4 & Hvb4).
  rewrite (seq_ok _ _ _ _ Hr); clear Hr.
  (* the test *)
  unfold constrained_estimation, if_. rewrite Hvb4. cbn [bind].
  destruct (exceeds_ceiling vb) as [err | []]; unfold result_of; cbn [fst snd].
  { reflexivity. }
  2: { rewrite Hvb4. reflexivity. }
  (* the second loop *)
  unfold constrained_nonlinear.
  destruct (assign_view_ok "vb_nonlinearIV" "vb_linearIV" [RowsFrom1] s4
              vb_lin (k_wf K4) (k_lin K4)) as (s5 & R5 & E5).
  cbn [fold_left through_window] in E5.
  rewrite (seq_ok _ _ _ _ R5); clear R5.
  erewrite seq_ok; [| apply assign_dchange_ok; reflexivity].
  set (s6 := with_dchange one s5).
  assert (K6 : knows s6 d (n_mX d) (n_dN d) vb_lin).
  { apply knows_with_dchange.
    exact (knows_effect _ _ _ _ _ _ _ _ K4 E5 eq_refl). }
  assert (Hvb6 : load "vb_nonlinearIV" s6 = inr (tail_rows vb_lin))
    by exact (effect_same E5).
  destruct (concatenate1 (n_mchars d) [n_vones d]) as [err | mX] eqn:HX.
  { erewrite seq_raises; [reflexivity |]. apply assign_raises. cbv beta.
    rewrite (k_mchars K6), (k_vones K6). exact HX. }
  edestruct (assign_ok "mX") as (s7 & R7 & E7);
    [exact (k_wf K6) | | rewrite (seq_ok _ _ _ _ R7); clear R7].
  { cbv beta. rewrite (k_mchars K6), (k_vones K6). exact HX. }
  rewrite (seq_ok _ _ _ _ (assign_dN_ok _ _)). cbv beta.
  set (s8 := with_dN _ s7).
  assert (K8 : knows s8 d mX (n_dN d - 1) vb_lin).
  { split.
    - exact (eff_wf E7).
    - change (load "vrweight" s7 = inr (n_vrweight d)).
      loads. exact (k_vrweight K6).
    - change (load "mchars" s7 = inr (n_mchars d)).
      loads. exact (k_mchars K6).
    - change (load "vLNme" s7 = inr (n_vLNme d)).
      loads. exact (k_vLNme K6).
    - change (load "vones" s7 = inr (n_vones d)).
      loads. exact (k_vones K6).
    - change (load "mX" s7 = inr mX). loads. reflexivity.
    - change (load "mZ" s7 = inr (n_mZ d)). loads. exact (k_mZ K6).
    - change (load "vb_linearIV" s7 = inr vb_lin). loads. exact (k_lin K6).
    - change (dN s7 - 1 = n_dN d - 1). rewrite (eff_dN E7).
      change (dN s6) with (dN s5). rewrite (eff_dN E5), (k_dN K4).
      reflexivity. }
  assert (Hvb8 : load "vb_nonlinearIV" s8 = inr (tail_rows vb_lin)).
  { change (load "vb_nonlinearIV" s7 = inr (tail_rows vb_lin)).
    loads. exact Hvb6. }
  pose proof (while_agrees body_constrained (step_constrained d mX)
                (fun s => knows s d mX (n_dN d - 1) vb_lin)
                (fun s vb => body_constrained_agrees s d mX vb_lin vb)
                fuel s8 (tail_rows vb_lin) K8 Hvb8) as Hloop.
  change (dchange s8) with (dchange s7) in Hloop.
  rewrite (eff_dchange E7) in Hloop.
  change (dchange s6) with (@one F NF) in Hloop.
  destruct (while_loop (step_constrained d mX) fuel (one, tail_rows vb_lin))
    as [b | err |].
  2: { destruct Hloop as (s9 & Hr). rewrite (seq_raises _ _ _ _ _ Hr).
       reflexivity. }
  2: { destruct Hloop as (s9 & Hr). rewrite (seq_out_of_fuel _ _ _ _ Hr).
       reflexivity. }
  destruct Hloop as (s9 & Hr & K9 & Hvb9).
  rewrite (seq_ok _ _ _ _ Hr); clear Hr.
  unfold assign. rewrite Hvb9. cbn [bind].
  destruct (concatenate0 (singleton ceiling) b) as [err | v];
    cbn [fst snd lift].
  - reflexivity.
  - rewrite (load_new_array _ _ _ _ (k_wf K9)). reflexivity.
Qed.


(** The namespace the cells before leave is well formed, and reads as the
    cell on values is given. *)
Lemma after_linear_cell_ok (mdata vb_lin : ndarray F) :
  well_formed (after_linear_cell mdata vb_lin) /\
  load "mdata" (after_linear_cell mdata vb_lin) = inr mdata /\
  load "vrweight" (after_linear_cell mdata vb_lin) = inr (vrweight_of mdata) /\
  load "vb_linearIV" (after_linear_cell mdata vb_lin) = inr vb_lin.
Proof.
  split; [| repeat split].
  intros x v. unfold after_linear_cell. cbn [globals heap List.length].
  destruct (String.eqb "mdata" x); [intros H; inversion H; cbn; lia |].
  destruct (String.eqb "vrweight" x); [intros H; inversion H; cbn; lia |].
  destruct (String.eqb "vb_linearIV" x); [intros H; inversion H; cbn; lia |].
  discriminate.
Qed.

Lemma notebook_run_agrees (fuel : nat) (mdata vb_lin : ndarray F) :
  result_of (nonlinear_cell fuel (after_linear_cell mdata vb_lin))
  = vb_nonlinearIV fuel mdata vb_lin.
Proof.
  destruct (after_linear_cell_ok mdata vb_lin) as (Hwf & Hm & Hw & Hl).
  exact (namespace_run_agrees fuel _ mdata vb_lin Hwf Hm Hw Hl).
Qed.

(** The seeds are the object of [vb_linearIV] itself, not copies of it. *)
Lemma seed_is_alias (s : state) (v : view) (ws : list window) :
  globals s "vb_linearIV" = Some v ->
  exists v',
    globals (fst (assign_view "vb_nonlinearIV" "vb_linearIV" ws s))
      "vb_nonlinearIV" = Some v' /\
    ref v' = ref v.
Proof.
  intros H. unfold assign_view. rewrite H. cbn [fst rebind globals].
  eexists. split; reflexivity.
Qed.

Lemma nth_error_overwrite (h : list (ndarray F)) (r : nat) (a b : ndarray F) :
  nth_error h r = Some b -> nth_error (overwrite h r a) r = Some a.
Proof.
  revert r; induction h as [| c h IH]; intros [| r] H; cbn in *;
    try discriminate; auto.
Qed.

(** So the model tells an update in place from a new array: had the seeded
    name been updated in place, [vb_linearIV] would read as the update. *)
Lemma update_in_place_through_alias (s : state) (r : nat)
    (vb_lin a : ndarray F) :
  globals s "vb_linearIV" = Some (mkView r []) ->
  load "vb_linearIV" s = inr vb_lin ->
  load "vb_linearIV"
    (update_in_place "vb_nonlinearIV" a
       (fst (assign_view "vb_nonlinearIV" "vb_linearIV" [] s)))
  = inr a.
Proof.
  intros Hg Hl. unfold assign_view. rewrite Hg. cbn [fst ref windows app].
  assert (Hn : String.eqb "vb_nonlinearIV" "vb_linearIV" = false)
    by reflexivity.
  unfold update_in_place, rebind. cbn [globals heap].
  rewrite String.eqb_refl. cbn [ref heap globals dT dN dchange].
  unfold load in *. cbn [globals]. rewrite Hn, Hg in *.
  unfold deref in *. cbn [heap ref windows fold_left] in *.
  destruct (nth_error (heap s) r) as [b |] eqn:E; [| discriminate].
  rewrite (nth_error_overwrite _ _ a b E). reflexivity.
Qed.

(** C9.  Whatever the namespace the nonlinear cell starts from, and however
    it ends (returning, raising, or still looping when the passes allowed
    are used up), the name [vb_linearIV] refers at the end to the view it
    referred to at the start and every object that existed is as it was: the
    cell binds names to new arrays and never writes to an array.  So
    [vb_linearIV] reads at the end as it read at the start -- although both
    seeds, [vb_linearIV] itself and [vb_linearIV[1:]], are views of its
    object. *)
Theorem linear_vector_untouched (fuel : nat) (s : state)
    (vb_lin : ndarray F) :
  load "vb_linearIV" s = inr vb_lin ->
  load "vb_linearIV" (fst (nonlinear_cell fuel s)) = inr vb_lin /\
  globals (fst (nonlinear_cell fuel s)) "vb_linearIV"
  = globals s "vb_linearIV" /\
  (forall r a, nth_error (heap s) r = Some a ->
               nth_error (heap (fst (nonlinear_cell fuel s))) r = Some a).
Proof.
  intros H. pose proof (framed_nonlinear_cell fuel s) as Hf.
  split; [exact (load_frame _ _ _ Hf H) |]. exact Hf.
Qed.

End Frame.
End StoreFacts.

(** * Runs on exact rational arithmetic *)

Module Runs.
Import QNum.

(** ** The laws of the arithmetic hold for the rationals *)

Lemma Qc_leb_le (x y : Qc) : Qc_leb x y = true <-> (x <= y)%Qc.
Proof. unfold Qc_leb, Qcle. apply Qle_bool_iff. Qed.


Lemma le_reflexive_Qc : @le_reflexive Qc numeric.
Proof. intros x. cbn. apply Qc_leb_le. apply Qcle_refl. Qed.

Lemma one_exceeds_tolerance_Qc : @one_exceeds_tolerance Qc numeric.
Proof. reflexivity. Qed.



Lemma gauss_jordan_length (steps k : nat) (done rest rows : list (list Qc)) :
  gauss_jordan steps k done rest = Some rows ->
  length rows = length done + steps.
Proof.
  revert k done rest. induction steps as [| steps IH]; intros k done rest H;
    cbn [gauss_jordan] in H.
  - inversion H; subst. lia.
  - destruct (find_pivot k [] rest) as [[[before r] after] |];
      [| discriminate].
    apply IH in H. rewrite H, length_app, length_map. cbn [length]. lia.
Qed.

Lemma inverse_keeps_shape_Qc : @inverse_keeps_shape Qc linalg.
Proof.
  intros M N H. cbn in H. unfold inverse in H.
  destruct (Nat.eqb (nrows M) (ncols M)) eqn:E; [| discriminate].
  apply Nat.eqb_eq in E.
  destruct (gauss_jordan _ _ _ _) as [rows |] eqn:G; [| discriminate].
  inversion H; subst N; clear H. cbn [nrows ncols cells].
  apply gauss_jordan_length in G. rewrite length_map, G. cbn [length].
  auto.
Qed.

(** ** The theorems on the observation sets *)

Lemma table_ok_calm : table_ok calm.
Proof. repeat split. repeat constructor. Qed.

Lemma table_ok_steep : table_ok steep.
Proof. repeat split. repeat constructor. Qed.

Lemma linear_unconstrained_is_two_stage_witness :
  (d <- structure_linear calm ;; unconstrained_linear d)
  = two_stage_least_squares (observations calm) /\
  forall ZtX Minv : ndarray Qc,
    matmul (transpose (instruments (retained (observations calm))))
      (design (retained (observations calm))) = inr ZtX ->
    linalg_inv ZtX = Some Minv ->
    (d <- structure_linear calm ;; unconstrained_linear d)
    = (MZt <- matmul Minv
                (transpose (instruments (retained (observations calm)))) ;;
       matmul MZt (log_weights (retained (observations calm)))).
Proof.
  apply (linear_unconstrained_is_two_stage calm).
  repeat split. repeat constructor.
Defined.


(** Scenario 2 of the specification on [steep]: the unconstrained
    market-value coefficient is 6/5, above the ceiling, and the linear cell
    returns the ceiling in its place. *)
Example scenario_two :
  Qc_eqb steep_first (Q2Qc (6 # 5)) = true /\
  leb steep_first ceiling = false /\
  Qc_eqb (first_of steep_linear) (Q2Qc (99 # 100)) = true /\
  vb_linearIV steep = inr steep_linear.
Proof. repeat split; vm_compute; reflexivity. Qed.

Lemma nonlinear_unconstrained_iteration_witness :
  structure_nonlinear calm = inr (nonlinear_data_of (observations calm)) /\
  n_mX (nonlinear_data_of (observations calm))
  = design (observations calm) /\
  n_mZ (nonlinear_data_of (observations calm))
  = instruments (observations calm) /\
  nrows (design (observations calm)) = nrows calm /\
  nrows (instruments (observations calm)) = nrows calm /\
  (forall fuel vb_lin vb,
      notebook fuel calm = Returned (vb_lin, vb) ->
      vb_linearIV calm = inr vb_lin /\
      vb_nonlinearIV fuel calm vb_lin = Returned vb) /\
  (forall vb_lin b,
      settles (step_unconstrained (nonlinear_data_of (observations calm)))
        vb_lin b ->
      exceeds_ceiling b = inr false ->
      exists fuel, vb_nonlinearIV fuel calm vb_lin = Returned b) /\
  (forall fuel vb_lin b,
      vb_nonlinearIV fuel calm vb_lin = Returned b ->
      exists b0,
        settles (step_unconstrained (nonlinear_data_of (observations calm)))
          vb_lin b0 /\
        (exceeds_ceiling b0 = inr false /\ b = b0 \/
         exceeds_ceiling b0 = inr true /\ first_coefficient b ceiling)) /\
  (exact_arithmetic ->
   (forall vb, ncols vb = 1 ->
      step_unconstrained (nonlinear_data_of (observations calm)) vb
      = step_and_change (unconstrained_step (observations calm)) vb) /\
   (forall vb_lin b, ncols vb_lin = 1 ->
      (settles (step_unconstrained (nonlinear_data_of (observations calm)))
         vb_lin b <->
       settles (step_and_change (unconstrained_step (observations calm)))
         vb_lin b))).
Proof.
  apply (nonlinear_unconstrained_iteration calm one_exceeds_tolerance_Qc).
  repeat split. repeat constructor.
Defined.

(** On [calm] the iteration from the linear-IV vector settles after one
    pass, at the vector the cell returns. *)
Example settles_on_calm :
  settles (step_unconstrained (nonlinear_data_of (observations calm)))
    calm_linear calm_nonlinear.
Proof.
  eapply settles_stop; vm_compute; reflexivity.
Qed.

(** Scenario 4 of the specification on [with_unheld]: the linear cell keeps
    the seven rows of positive weight, the nonlinear cell all eight. *)
Example scenario_four :
  (exists d, structure_linear with_unheld = inr d /\ nrows (l_mX d) = 7) /\
  (exists d, structure_nonlinear with_unheld = inr d /\
             nrows (n_mX d) = 8 /\ nrows (n_mZ d) = 8).
Proof.
  split; eexists; (split; [vm_compute; reflexivity |]); vm_compute; auto.
Qed.



Lemma linear_vector_untouched_witness :
  Store.load "vb_linearIV"
    (fst (Store.nonlinear_cell 3 (Store.after_linear_cell calm calm_linear)))
  = inr calm_linear /\
  Store.globals
    (fst (Store.nonlinear_cell 3 (Store.after_linear_cell calm calm_linear)))
    "vb_linearIV"
  = Store.globals (Store.after_linear_cell calm calm_linear) "vb_linearIV" /\
  (forall r a,
      nth_error (Store.heap (Store.after_linear_cell calm calm_linear)) r
      = Some a ->
      nth_error
        (Store.heap
           (fst (Store.nonlinear_cell 3
                   (Store.after_linear_cell calm calm_linear)))) r
      = Some a).
Proof.
  apply (StoreFacts.linear_vector_untouched 3
           (Store.after_linear_cell calm calm_linear) calm_linear).
  reflexivity.
Defined.



(** On [calm] the seed, the linear-IV vector, is already a fixed point: the
    loop makes one pass, whose increment is zero, and returns. *)
Example one_pass_on_calm :
  unconstrained_nonlinear (nonlinear_data_of (observations calm)) 1
    calm_linear = OutOfFuel /\
  unconstrained_nonlinear (nonlinear_data_of (observations calm)) 2
    calm_linear = Returned calm_nonlinear.
Proof. split; vm_compute; reflexivity. Qed.

(** The cell on the namespace, run on [calm]: it returns, and leaves in
    [vb_nonlinearIV] the vector the cell on values returns. *)
Example namespace_run_calm :
  Store.result_of
    (Store.nonlinear_cell 3 (Store.after_linear_cell calm calm_linear))
  = Returned calm_nonlinear.
Proof. vm_compute. reflexivity. Qed.

End Runs.

(** ** The selection of the manager *)

Section SelectLemmas.
Context {F : Type} {NF : Numeric F} {LA : LinAlg F} {EQ : NumericEq F}.

Lemma mask_rows_filter (p : list F -> bool) (rows : list (list F)) :
  mask_rows (map p rows) rows = filter p rows.
Proof.
  induction rows as [| r rows IH]; cbn [map mask_rows filter]; [reflexivity |].
  destruct (p r); rewrite IH; reflexivity.
Qed.

Lemma count_occ_filter (p : list F -> bool) (rows : list (list F)) :
  count_occ bool_dec (map p rows) true = length (filter p rows).
Proof.
  induction rows as [| r rows IH]; cbn [map count_occ filter]; [reflexivity |].
  destruct (p r); destruct (bool_dec _ true); try congruence;
    cbn [length]; rewrite IH; reflexivity.
Qed.

Lemma filter_idempotent {A} (p : A -> bool) (l : list A) :
  filter p (filter p l) = filter p l.
Proof.
  induction l as [| x l IH]; cbn [filter]; [reflexivity |].
  destruct (p x) eqn:E; cbn [filter]; rewrite ?E, IH; reflexivity.
Qed.

(** The mask [mdata[:,0]==imgr] has one entry for every row, so the boolean
    index is the filter of the rows. *)
Lemma select_manager_cells (imgr : F) (raw : ndarray F) :
  length (cells raw) = nrows raw -> 0 < ncols raw ->
  select_manager imgr raw
  = inr (mkArr (length (filter (of_manager imgr) (cells raw))) (ncols raw)
           (filter (of_manager imgr) (cells raw))).
Proof.
  intros Hlen Hc. unfold select_manager, column_1d.
  apply Nat.ltb_lt in Hc. rewrite Hc. cbn [bind ret]. rewrite map_map.
  change (fun x : list F => feqb (nth 0 x zero) imgr) with (of_manager imgr).
  unfold boolean_index. rewrite length_map, Hlen, Nat.eqb_refl.
  rewrite mask_rows_filter, count_occ_filter. reflexivity.
Qed.

(** X1.  The selection [mdata[mdata[:,0]==imgr]] on a table with at least one
    column returns the rows whose first cell equals the manager's number, in
    the order of the table, and nothing else; the columns are kept, a table
    of ten columns stays one, and selecting the same manager again changes
    nothing.  A table without a column has no first cell: [IndexError]. *)
Theorem select_manager_filter (imgr : F) (raw : ndarray F) :
  length (cells raw) = nrows raw ->
  (ncols raw = 0 -> select_manager imgr raw = inl IndexError) /\
  (0 < ncols raw ->
   exists mdata,
     select_manager imgr raw = inr mdata /\
     cells mdata = filter (of_manager imgr) (cells raw) /\
     nrows mdata = length (cells mdata) /\
     ncols mdata = ncols raw /\
     Forall (fun r => of_manager imgr r = true) (cells mdata) /\
     (table_ok raw -> table_ok mdata) /\
     select_manager imgr mdata = inr mdata).
Proof.
  intros Hlen. split.
  - intros H0. unfold select_manager, column_1d. rewrite H0. reflexivity.
  - intros Hc. rewrite (select_manager_cells imgr raw Hlen Hc).
    eexists. split; [reflexivity |]. cbn [cells nrows ncols].
    split; [reflexivity |]. split; [reflexivity |]. split; [reflexivity |].
    split.
    { apply Forall_forall. intros r Hr. apply filter_In in Hr. tauto. }
    split.
    { intros (H10 & _ & Hrows).
      split; [exact H10 |]. split; [reflexivity |]. cbn [cells].
      apply Forall_forall. intros r Hr. apply filter_In in Hr as [Hr _].
      rewrite Forall_forall in Hrows. auto. }
    rewrite select_manager_cells; cbn [cells nrows ncols];
      [| reflexivity | exact Hc].
    rewrite filter_idempotent. reflexivity.
Qed.

End SelectLemmas.

(** ** The cells as programs: what they come to *)

Section LinearCellLemmas.
Context {F : Type} {NF : Numeric F} {LA : LinAlg F}.

(** The linear cell in terms of the observations it keeps. *)
Lemma vb_linearIV_retained (mdata : ndarray F) :
  table_ok mdata ->
  vb_linearIV mdata
  = linear_of (mkLinearData
                 (matrix_of characteristic_count characteristics
                    (retained (observations mdata)))
                 (column_of log_market_value (retained (observations mdata)))
                 (column_of log_market_value_instrument
                    (retained (observations mdata)))
                 (log_weights (retained (observations mdata)))
                 (np_ones (List.length (retained (observations mdata))) 1)
                 (design (retained (observations mdata)))
                 (instruments (retained (observations mdata)))).
Proof.
  intros Hok. unfold vb_linearIV.
  rewrite (structure_linear_spec mdata Hok). reflexivity.
Qed.

End LinearCellLemmas.

Section Outcomes.
Context {F : Type} {NF : Numeric F} {LA : LinAlg F}.
Hypothesis Hshape : inverse_keeps_shape.

Lemma sound_bind {A B} (P : A -> Prop) (Q : B -> Prop) (c : result A)
    (k : A -> result B) :
  sound_result P c -> (forall a, P a -> sound_result Q (k a)) ->
  sound_result Q (bind c k).
Proof.
  destruct c as [e | a]; cbn [sound_result bind]; auto.
Qed.

(** [inv(Zt.T @ X) @ Z.T @ y] on conforming shapes. *)
Lemma solve_outcome (Zt X Z y : ndarray F) (T n : nat) :
  nrows Zt = T -> ncols Zt = n -> nrows X = T -> ncols X = n ->
  nrows Z = T -> ncols Z = n -> nrows y = T -> ncols y = 1 ->
  sound_result (column_of_height n)
    (ZtX <- matmul (transpose Zt) X ;; Minv <- inv ZtX ;;
     MZ <- matmul Minv (transpose Z) ;; matmul MZ y).
Proof.
  intros HZtr HZtc HXr HXc HZr HZc Hyr Hyc.
  unfold matmul at 1. cbn [transpose nrows ncols].
  rewrite HZtr, HXr, Nat.eqb_refl. cbn [bind ret].
  unfold inv. destruct (linalg_inv _) as [Minv |] eqn:E;
    cbn [bind ret sound_result raise]; [| reflexivity].
  apply Hshape in E as (Hr & Hc & Hl). cbn [nrows ncols] in Hr, Hc.
  unfold matmul at 1. cbn [transpose nrows ncols].
  rewrite Hc, HXc, HZc, Nat.eqb_refl. cbn [bind ret].
  unfold matmul. cbn [nrows ncols cells].
  rewrite HZr, Hyr, Nat.eqb_refl. cbn [sound_result ret].
  repeat split; cbn [nrows ncols cells].
  - rewrite Hr. exact HZtc.
  - exact Hyc.
  - unfold matmul_cells. rewrite !length_map, Hl, Hr. exact HZtc.
  - rewrite Hyc. unfold matmul_cells. apply Forall_forall. intros r Hin.
    apply in_map_iff in Hin as (r' & <- & _). reflexivity.
Qed.

Lemma normal_equation_outcome (A B y : ndarray F) (T n : nat) :
  nrows A = T -> ncols A = n -> nrows B = T -> ncols B = n ->
  nrows y = T -> ncols y = 1 ->
  sound_result (column_of_height n) (normal_equation A B y).
Proof.
  intros. unfold normal_equation.
  apply (solve_outcome A B A y T n); assumption.
Qed.

(** The test of an [if] on a column that has a row. *)
Lemma exceeds_ceiling_ok (n : nat) (vb : ndarray F) :
  column_of_height (S n) vb -> exists c, exceeds_ceiling vb = inr c.
Proof.
  intros (_ & _ & Hl & Hrows). unfold exceeds_ceiling, row0.
  destruct (cells vb) as [| r rest]; [discriminate |].
  inversion Hrows as [| ? ? Hr _]; subst.
  destruct r as [| x [| ? ?]]; try discriminate.
  eexists. reflexivity.
Qed.

Lemma column_of_shape' (f : observation -> F) (obs : list observation) :
  nrows (column_of f obs) = List.length obs /\ ncols (column_of f obs) = 1.
Proof. split; reflexivity. Qed.

(** The linear cell on a table of ten columns returns a column of seven
    coefficients or raises [LinAlgError]. *)
Lemma linear_cell_sound (mdata : ndarray F) :
  table_ok mdata ->
  sound_result (column_of_height (characteristic_count + 2))
    (vb_linearIV mdata).
Proof.
  intros Hok. rewrite (vb_linearIV_retained mdata Hok).
  set (kept := retained (observations mdata)).
  unfold linear_of.
  apply (sound_bind (column_of_height (characteristic_count + 2))).
  { unfold unconstrained_linear. cbn [l_mZ l_mX l_vLNrweight].
    apply (solve_outcome _ _ _ _ (List.length kept)); reflexivity. }
  intros vb0 Hvb0.
  destruct (exceeds_ceiling_ok _ vb0 Hvb0) as (c & ->). cbn [bind].
  destruct c; [| exact Hvb0].
  unfold constrained_linear. cbn [l_mchars l_vones l_vLNrweight l_vLNme].
  unfold concatenate1, hstack2. cbn [nrows ncols cells matrix_of np_ones].
  rewrite Nat.eqb_refl. cbn [bind ret].
  set (mX := mkArr _ _ _).
  assert (HX : nrows mX = List.length kept /\
               ncols mX = characteristic_count + 1) by (split; reflexivity).
  destruct HX as [HXr HXc].
  pose proof (solve_outcome mX mX mX) as Hsolve.
  unfold asub, zipwith, scale, amap, log_weights, column_of.
  cbn [nrows ncols cells]. rewrite !Nat.eqb_refl. cbn [andb bind ret].
  set (y := mkArr _ 1 _).
  specialize (Hsolve y (List.length kept) (characteristic_count + 1)
                HXr HXc HXr HXc HXr HXc eq_refl eq_refl).
  destruct (matmul (transpose mX) mX) as [e | XtX];
    cbn [bind sound_result] in *; [exact Hsolve |].
  destruct (inv XtX) as [e | Minv]; cbn [bind sound_result] in *;
    [exact Hsolve |].
  destruct (matmul Minv (transpose mX)) as [e | MXt];
    cbn [bind sound_result] in *; [exact Hsolve |].
  destruct (matmul MXt y) as [e | b]; cbn [bind sound_result] in *;
    [exact Hsolve |].
  destruct Hsolve as (Hbr & Hbc & Hbl & Hbrows).
  unfold concatenate0, singleton. cbn [nrows ncols cells].
  rewrite Hbc. cbn [Nat.eqb ret sound_result].
  split; [cbn [nrows]; rewrite Hbr; reflexivity |].
  split; [reflexivity |].
  split; [cbn [cells app List.length]; rewrite Hbl; reflexivity |].
  cbn [cells app]. constructor; [reflexivity | exact Hbrows].
Qed.

Lemma scaled_rows_sound (vl Z : ndarray F) (T n : nat) :
  nrows vl = T -> ncols vl = 1 -> nrows Z = T -> ncols Z = n ->
  exists Zt, (lat1 <- matmul vl (np_ones 1 n) ;; amul lat1 Z) = inr Zt /\
             nrows Zt = T /\ ncols Zt = n.
Proof.
  intros Hr Hc HZr HZc. unfold matmul, np_ones. cbn [nrows ncols cells].
  rewrite Hc. cbn [Nat.eqb bind ret]. unfold amul, zipwith.
  cbn [nrows ncols cells]. rewrite Hr, HZr, HZc, !Nat.eqb_refl.
  cbn [andb ret]. eexists. split; [reflexivity |]. split; reflexivity.
Qed.

Lemma map2_length_eq {A B C} (f : A -> B -> C) (u : list A) (v : list B)
    (n : nat) :
  List.length u = n -> List.length v = n -> List.length (map2 f u v) = n.
Proof.
  revert v n. induction u as [| x u IH]; intros [| y v] n Hu Hv;
    cbn [map2 List.length] in *; try lia.
  destruct n; [lia |]. f_equal. apply IH; lia.
Qed.

Lemma zip_columns_sound (op : F -> F -> F) (n : nat) (a b : ndarray F) :
  column_of_height n a -> column_of_height n b ->
  exists c, zipwith op a b = inr c /\ column_of_height n c.
Proof.
  intros (Har & Hac & Hal & Harows) (Hbr & Hbc & Hbl & Hbrows).
  unfold zipwith. rewrite Har, Hac, Hbr, Hbc, !Nat.eqb_refl. cbn [andb].
  eexists. split; [reflexivity |].
  repeat split; cbn [nrows ncols cells].
  - apply map2_length_eq; assumption.
  - apply map2_rows_length; assumption.
Qed.

Lemma np_max_abs_ok (n : nat) (a : ndarray F) :
  column_of_height (S n) a -> exists x, np_max (np_abs a) = inr x.
Proof.
  intros (_ & _ & Hl & Hrows). unfold np_max, np_abs, amap. cbn [cells].
  destruct (cells a) as [| r rest]; [discriminate |].
  inversion Hrows as [| ? ? Hr _]; subst.
  destruct r as [| x [| ? ?]]; try discriminate.
  cbn [map concat app]. eexists. reflexivity.
Qed.

Lemma dchange_of_ok (n : nat) (vb vb' : ndarray F) :
  column_of_height (S n) vb -> column_of_height (S n) vb' ->
  exists d, dchange_of vb vb' = inr d.
Proof.
  intros Hvb Hvb'. unfold dchange_of, asub.
  destruct (zip_columns_sound sub _ vb vb' Hvb Hvb') as (diff & -> & Hd).
  cbn [bind]. exact (np_max_abs_ok n diff Hd).
Qed.

(** A pass of the first loop on a column of seven coefficients gives such a
    column, or raises [LinAlgError]. *)
Lemma step_unconstrained_sound (obs : list observation) (vb : ndarray F) :
  column_of_height (characteristic_count + 2) vb ->
  sound_result (fun p => column_of_height (characteristic_count + 2) (snd p))
    (step_unconstrained (nonlinear_data_of obs) vb).
Proof.
  intros Hvb. pose proof Hvb as (Hr & Hc & _).
  unfold step_unconstrained.
  (* vlatent *)
  assert (Hl : exists vl,
             vlatent_unconstrained (nonlinear_data_of obs) vb = inr vl /\
             nrows vl = List.length obs /\ ncols vl = 1).
  { unfold vlatent_unconstrained, matmul.
    cbn [n_mX n_vrweight nonlinear_data_of aneg amap design matrix_of
           nrows ncols cells].
    rewrite Hr, Hc, Nat.eqb_refl. cbn [bind ret].
    unfold amul, zipwith. cbn [nrows ncols cells np_exp amap column_of].
    rewrite !Nat.eqb_refl. cbn [andb]. eexists. repeat split. }
  destruct Hl as (vl & -> & Hlr & Hlc). cbn [bind].
  destruct (scaled_rows_sound vl (instruments obs) (List.length obs)
              (characteristic_count + 2) Hlr Hlc eq_refl eq_refl)
    as (Zt & HZt & HZtr & HZtc).
  unfold mZ_tilde_of. cbn [n_dN n_mZ nonlinear_data_of].
  rewrite HZt. cbn [bind].
  apply (sound_bind (column_of_height (characteristic_count + 2))).
  { unfold update_unconstrained. cbn [n_mX n_mZ nonlinear_data_of].
    apply (solve_outcome Zt (design obs) (instruments obs)
             (sub_scalar vl one) (List.length obs));
      try reflexivity; assumption. }
  intros upd Hupd.
  destruct (zip_columns_sound add _ vb upd Hvb Hupd) as (vb' & Ha & Hvb').
  unfold aadd. rewrite Ha. cbn [bind].
  destruct (dchange_of_ok _ vb vb' Hvb Hvb') as (d & ->).
  cbn [bind ret sound_result snd]. exact Hvb'.
Qed.

(** The same for the second loop, on columns of six coefficients. *)
Lemma step_constrained_sound (obs : list observation) (vb : ndarray F) :
  column_of_height (characteristic_count + 1) vb ->
  sound_result (fun p => column_of_height (characteristic_count + 1) (snd p))
    (step_constrained (nonlinear_data_of obs) (reduced_design obs) vb).
Proof.
  intros Hvb. pose proof Hvb as (Hr & Hc & _).
  unfold step_constrained.
  assert (Hl : exists vl,
             vlatent_constrained (nonlinear_data_of obs)
               (reduced_design obs) vb = inr vl /\
             nrows vl = List.length obs /\ ncols vl = 1).
  { unfold vlatent_constrained, matmul.
    cbn [n_vLNme n_vrweight nonlinear_data_of reduced_design matrix_of
           nrows ncols cells].
    rewrite Hr, Hc, Nat.eqb_refl. cbn [bind ret].
    unfold asub, amul, zipwith.
    cbn [nrows ncols cells np_exp scale amap column_of].
    rewrite !Nat.eqb_refl. cbn [andb bind ret nrows ncols].
    rewrite !Nat.eqb_refl. cbn [andb]. eexists. repeat split. }
  destruct Hl as (vl & -> & Hlr & Hlc). cbn [bind].
  destruct (scaled_rows_sound vl (reduced_design obs) (List.length obs)
              (characteristic_count + 1) Hlr Hlc eq_refl eq_refl)
    as (Xt & HXt & HXtr & HXtc).
  unfold mX_tilde_of. cbn [n_dN nonlinear_data_of].
  change (characteristic_count + 2 - 1) with (characteristic_count + 1).
  rewrite HXt. cbn [bind].
  apply (sound_bind (column_of_height (characteristic_count + 1))).
  { unfold update_constrained.
    apply (solve_outcome Xt (reduced_design obs) (reduced_design obs)
             (sub_scalar vl one) (List.length obs));
      try reflexivity; assumption. }
  intros upd Hupd.
  destruct (zip_columns_sound add _ vb upd Hvb Hupd) as (vb' & Ha & Hvb').
  unfold aadd. rewrite Ha. cbn [bind].
  destruct (dchange_of_ok _ vb vb' Hvb Hvb') as (d & ->).
  cbn [bind ret sound_result snd]. exact Hvb'.
Qed.

Lemma while_loop_sound (body : ndarray F -> result (F * ndarray F))
    (P : ndarray F -> Prop) :
  (forall vb, P vb -> sound_result (fun p => P (snd p)) (body vb)) ->
  forall fuel st, P (snd st) -> sound_outcome P (while_loop body fuel st).
Proof.
  intros Hbody. induction fuel as [| fuel IH]; intros st HP;
    cbn [while_loop sound_outcome]; [exact I |].
  destruct (gtb (fst st) tolerance); [| exact HP].
  specialize (Hbody _ HP).
  destruct (body (snd st)) as [e | st1]; cbn [sound_result] in Hbody.
  - exact Hbody.
  - apply IH. exact Hbody.
Qed.

Lemma tail_rows_column (n : nat) (vb : ndarray F) :
  column_of_height (S n) vb -> column_of_height n (tail_rows vb).
Proof.
  intros (Hr & Hc & Hl & Hrows). unfold tail_rows.
  repeat split; cbn [nrows ncols cells].
  - lia.
  - exact Hc.
  - destruct (cells vb); cbn [tl List.length] in *; lia.
  - destruct (cells vb); cbn [tl]; [constructor |].
    inversion Hrows; assumption.
Qed.

(** The nonlinear cell, started from a column of seven coefficients. *)
Lemma nonlinear_cell_sound (mdata vb_lin : ndarray F) (fuel : nat) :
  table_ok mdata ->
  column_of_height (characteristic_count + 2) vb_lin ->
  sound_outcome (column_of_height (characteristic_count + 2))
    (vb_nonlinearIV fuel mdata vb_lin).
Proof.
  intros Hok Hlin. unfold vb_nonlinearIV.
  rewrite (structure_nonlinear_spec mdata Hok).
  set (obs := observations mdata).
  unfold nonlinear_of, unconstrained_nonlinear.
  pose proof (while_loop_sound (step_unconstrained (nonlinear_data_of obs))
                (column_of_height (characteristic_count + 2))
                (step_unconstrained_sound obs) fuel (one, vb_lin) Hlin)
    as H1.
  destruct (while_loop _ fuel (one, vb_lin)) as [vb | e |];
    cbn [sound_outcome] in *; try assumption.
  destruct (exceeds_ceiling_ok _ vb H1) as (c & ->).
  destruct c; [| exact H1].
  unfold constrained_nonlinear. rewrite (reduced_design_code obs).
  pose proof (while_loop_sound
                (step_constrained (nonlinear_data_of obs)
                   (reduced_design obs))
                (column_of_height (characteristic_count + 1))
                (step_constrained_sound obs) fuel (one, tail_rows vb_lin)
                (tail_rows_column _ vb_lin Hlin)) as H2.
  destruct (while_loop _ fuel (one, tail_rows vb_lin)) as [b | e |];
    cbn [sound_outcome] in *; try assumption.
  destruct H2 as (Hbr & Hbc & Hbl & Hbrows).
  unfold concatenate0, singleton. cbn [nrows ncols cells].
  rewrite Hbc. cbn [Nat.eqb lift ret sound_outcome].
  split; [cbn [nrows]; rewrite Hbr; reflexivity |].
  split; [reflexivity |].
  split; [cbn [cells app List.length]; rewrite Hbl; reflexivity |].
  cbn [cells app]. constructor; [reflexivity | exact Hbrows].
Qed.

(** X3.  On a table of ten columns the linear cell has two outcomes only:
    it raises [LinAlgError] (one of its two calls of [np.linalg.inv] has
    failed), or it returns a column of seven coefficients, one cell in every
    row.  No shape mismatch, ambiguous truth value or index error can occur,
    however many rows are held -- none included. *)
Theorem linear_cell_outcomes (mdata : ndarray F) :
  table_ok mdata ->
  vb_linearIV mdata = inl LinAlgError \/
  exists vb, vb_linearIV mdata = inr vb /\
             column_of_height (characteristic_count + 2) vb.
Proof.
  intros Hok. pose proof (linear_cell_sound mdata Hok) as H.
  destruct (vb_linearIV mdata) as [e | vb]; cbn [sound_result] in H.
  - left. rewrite H. reflexivity.
  - right. exists vb. split; [reflexivity | exact H].
Qed.

(** X4.  On a table of ten columns the notebook raises no exception but
    [LinAlgError], in either cell and at any pass of either loop, and the
    two vectors it returns are columns of seven coefficients -- also when
    the constrained branches have put .99 on top of six. *)
Theorem notebook_outcomes (mdata : ndarray F) (fuel : nat) :
  table_ok mdata ->
  (forall e, notebook fuel mdata = Raised e -> e = LinAlgError) /\
  (forall vb_lin vb,
     notebook fuel mdata = Returned (vb_lin, vb) ->
     column_of_height (characteristic_count + 2) vb_lin /\
     column_of_height (characteristic_count + 2) vb).
Proof.
  intros Hok. unfold notebook.
  pose proof (linear_cell_sound mdata Hok) as H1.
  destruct (vb_linearIV mdata) as [e1 | vb1]; cbn [sound_result] in H1.
  { split; [intros e E; inversion E; subst; reflexivity |].
    intros ? ? E; discriminate. }
  pose proof (nonlinear_cell_sound mdata vb1 fuel Hok H1) as H2.
  destruct (vb_nonlinearIV fuel mdata vb1) as [vb2 | e2 |];
    cbn [sound_outcome] in H2.
  - split; [intros e E; discriminate |].
    intros ? ? E; inversion E; subst. split; assumption.
  - split; [intros e E; inversion E; subst; reflexivity |].
    intros ? ? E; discriminate.
  - split; intros; discriminate.
Qed.

End Outcomes.

(** ** Where the iteration stands still *)

Section FixedPoint.
Context {F : Type} {NF : Numeric F} {LA : LinAlg F}.
Hypothesis Hshape : inverse_keeps_shape.
Hypothesis Hnull : null_arithmetic.

Lemma dot_zero_column (r : list F) (c : list F) :
  Forall (fun x => x = zero) c -> dot r c = zero.
Proof.
  intros Hc. revert r. induction Hc as [| y c Hy _ IH]; intros [| x r];
    cbn [dot]; try reflexivity.
  rewrite IH, Hy, (null_mul_r Hnull). apply (null_add_r Hnull).
Qed.

Lemma map2_add_zero (V U : list (list F)) :
  List.length U = List.length V ->
  Forall (fun r => List.length r = 1) V ->
  Forall (fun r => r = [zero]) U ->
  map2 (map2 add) V U = V.
Proof.
  revert U. induction V as [| v V IH]; intros [| u U] Hl HV HU;
    cbn [List.length map2] in *; try lia; [reflexivity |].
  inversion HV as [| ? ? Hv HV']; inversion HU as [| ? ? Hu HU']; subst.
  destruct v as [| x [| ? ?]]; try discriminate.
  cbn [map2]. rewrite (null_add_r Hnull). f_equal. apply IH; [lia | |];
    assumption.
Qed.

Lemma map2_sub_diag (V : list (list F)) :
  Forall (fun r => List.length r = 1) V ->
  map2 (map2 sub) V V = map (fun _ => [zero]) V.
Proof.
  induction 1 as [| v V Hv _ IH]; cbn [map2 map]; [reflexivity |].
  destruct v as [| x [| ? ?]]; try discriminate.
  cbn [map2]. rewrite (null_sub_diag Hnull), IH. reflexivity.
Qed.

Lemma fold_max_zero (l : list F) :
  Forall (fun x => x = zero) l -> fold_left fmax l zero = zero.
Proof.
  induction 1 as [| x l Hx _ IH]; cbn [fold_left]; [reflexivity |].
  rewrite Hx, (null_max Hnull). exact IH.
Qed.

(** The change between a column and itself is zero. *)
Lemma dchange_of_diag (n : nat) (vb : ndarray F) :
  column_of_height (S n) vb -> dchange_of vb vb = inr zero.
Proof.
  intros (Hr & Hc & Hl & Hrows). unfold dchange_of, asub, zipwith.
  rewrite !Nat.eqb_refl. cbn [andb bind ret].
  unfold np_max, np_abs, amap. cbn [cells].
  rewrite (map2_sub_diag _ Hrows).
  destruct (cells vb) as [| r rest]; [discriminate |].
  cbn [map concat app]. rewrite (null_abs Hnull). unfold ret. f_equal.
  apply fold_max_zero. clear - Hnull. induction rest as [| r' rest IH];
    cbn [map concat app]; constructor; [apply (null_abs Hnull) | exact IH].
Qed.

Lemma scaled_row_by_one (z : list F) :
  map2 mul
    (map (fun j => dot [one] (column j [repeat one (List.length z)]))
       (seq 0 (List.length z))) z = z.
Proof.
  assert (H : forall (k : nat) (z : list F),
             map2 mul
               (map (fun j => dot [one]
                                (column j [repeat one (k + List.length z)]))
                  (seq k (List.length z))) z = z).
  { clear z. intros k z; revert k; induction z as [| x z IHz]; intros k;
      cbn [List.length seq map map2]; [reflexivity |].
    f_equal.
    - unfold column. cbn [map dot].
      rewrite nth_repeat_lt by lia.
      rewrite (null_mul_one_l Hnull), (null_add_r Hnull).
      apply (null_mul_one_l Hnull).
    - replace (k + S (List.length z)) with (S k + List.length z) by lia.
      apply IHz. }
  exact (H 0 z).
Qed.

Lemma scaled_cells_by_one (n : nat) (ones zs : list (list F)) :
  Forall (fun r => r = [one]) ones ->
  List.length zs = List.length ones ->
  Forall (fun r => List.length r = n) zs ->
  map2 (map2 mul)
    (map (fun r => map (fun j => dot r (column j (repeat (repeat one n) 1)))
                     (seq 0 n)) ones) zs = zs.
Proof.
  intros Hones. revert zs.
  induction Hones as [| r rest Hr _ IH]; intros [| z zs] Hl Hrows;
    cbn [List.length map map2] in *; try lia; try reflexivity.
  inversion Hrows as [| ? ? Hz Hrows']; subst.
  f_equal; [| apply IH; [lia | assumption]].
  cbn [repeat]. apply scaled_row_by_one.
Qed.

(** Scaling the rows by a latent demand of one leaves them as they are. *)
Lemma scaled_by_one (vl Z : ndarray F) (T n : nat) :
  nrows vl = T -> ncols vl = 1 -> List.length (cells vl) = T ->
  Forall (fun r => r = [one]) (cells vl) ->
  nrows Z = T -> ncols Z = n -> List.length (cells Z) = T ->
  Forall (fun r => List.length r = n) (cells Z) ->
  (lat1 <- matmul vl (np_ones 1 n) ;; amul lat1 Z) = inr Z.
Proof.
  intros Hr Hc Hl Hones HZr HZc HZl HZrows.
  unfold matmul, np_ones. cbn [nrows ncols cells].
  rewrite Hc. cbn [Nat.eqb bind ret]. unfold amul, zipwith.
  cbn [nrows ncols cells]. rewrite Hr, HZr, HZc, !Nat.eqb_refl.
  cbn [andb ret]. unfold matmul_cells.
  rewrite (scaled_cells_by_one n (cells vl) (cells Z) Hones);
    [| congruence | exact HZrows].
  destruct Z as [zr zc zcells]. cbn [nrows ncols cells] in *.
  subst. reflexivity.
Qed.

Lemma column_of_ones_minus_one (vl : list (list F)) :
  Forall (fun r => r = [one]) vl ->
  Forall (fun x => x = zero)
    (column 0 (map (map (fun x => sub x one)) vl)).
Proof.
  induction 1 as [| r rest Hr _ IH]; cbn [map column]; [constructor |].
  constructor; [| exact IH].
  rewrite Hr. cbn [map nth]. apply (null_sub_diag Hnull).
Qed.

(** A pass at a vector that reproduces every weight exactly, where the latent
    demand is one on every row: the increment is zero, the vector stays as it
    is and the change is zero. *)
Lemma step_at_solved_moments (obs : list observation) (vb vl M N : ndarray F) :
  five_characteristics obs ->
  column_of_height (characteristic_count + 2) vb ->
  vlatent_unconstrained (nonlinear_data_of obs) vb = inr vl ->
  Forall (fun r => r = [one]) (cells vl) ->
  cross_product_unconstrained (nonlinear_data_of obs) vb = inr M ->
  linalg_inv M = Some N ->
  step_unconstrained (nonlinear_data_of obs) vb = inr (zero, vb).
Proof.
  intros Hk Hvb Hl Hones HM HN.
  pose proof Hvb as (Hr & Hc & Hlen & Hrows).
  (* the shape of the latent demand *)
  assert (Hvl : nrows vl = List.length obs /\ ncols vl = 1 /\
                List.length (cells vl) = List.length obs).
  { pose proof Hl as Hl'. unfold vlatent_unconstrained in Hl'.
    apply bind_ret_inv in Hl' as (Xb & HXb & Hl').
    destruct (matmul_column_shape _ _ _ Hc HXb) as (HXr & HXc & HXl & HXrows).
    cbn [n_mX nonlinear_data_of aneg amap design matrix_of nrows cells]
      in HXr, HXl.
    rewrite length_map in HXl. rewrite length_map in HXl.
    destruct (column_of_shape weight obs) as (Hwr & Hwc & Hwl & Hwrows).
    destruct (latent_column mul (column_of weight obs) (np_exp Xb) vl
                (List.length obs) Hwr Hwc Hwl Hwrows) as (A & B & C & _);
      try assumption.
    - unfold np_exp, amap. cbn [cells]. rewrite length_map. exact HXl.
    - unfold np_exp, amap. cbn [cells]. apply Forall_forall. intros r Hin.
      apply in_map_iff in Hin as (r' & <- & Hin'). rewrite length_map.
      rewrite Forall_forall in HXrows. auto.
    - auto. }
  destruct Hvl as (Hlr & Hlc & Hll).
  (* the instruments are scaled by one *)
  assert (HZt : mZ_tilde_of (nonlinear_data_of obs) vl
                = inr (instruments obs)).
  { unfold mZ_tilde_of. cbn [n_dN n_mZ nonlinear_data_of].
    apply (scaled_by_one vl (instruments obs) (List.length obs)
             (characteristic_count + 2)); try assumption; try reflexivity.
    - unfold instruments, matrix_of. cbn [cells]. apply length_map.
    - exact (instruments_rows obs Hk). }
  unfold cross_product_unconstrained in HM. rewrite Hl in HM.
  cbn [bind] in HM. rewrite HZt in HM. cbn [bind] in HM.
  unfold step_unconstrained. rewrite Hl. cbn [bind]. rewrite HZt.
  cbn [bind]. unfold update_unconstrained. rewrite HM. cbn [bind].
  unfold inv. rewrite HN. cbn [bind ret].
  apply matmul_inv in HM as [_ HM].
  apply Hshape in HN as (HNr & HNc & HNl).
  rewrite HM in HNr, HNc. cbn [nrows ncols transpose] in HNr, HNc.
  cbn [n_mX n_mZ nonlinear_data_of design instruments matrix_of ncols]
    in HNr, HNc.
  unfold matmul at 1. cbn [transpose nrows ncols n_mZ nonlinear_data_of
                             instruments matrix_of].
  rewrite HNc, Nat.eqb_refl. cbn [bind ret].
  unfold matmul at 1. cbn [nrows ncols cells sub_scalar amap].
  rewrite Hlr, Nat.eqb_refl. cbn [bind ret].
  (* the increment is a column of zeros *)
  set (MZt := matmul_cells (cells N) _ _).
  assert (Hupd : matmul_cells MZt
                   (map (map (fun x => sub x one)) (cells vl)) (ncols vl)
                 = map (fun _ => [zero]) MZt).
  { rewrite Hlc. unfold matmul_cells at 1. apply map_ext. intros r.
    cbn [seq map]. f_equal.
    apply dot_zero_column. exact (column_of_ones_minus_one _ Hones). }
  rewrite Hupd.
  assert (HMl : List.length MZt = characteristic_count + 2).
  { subst MZt. unfold matmul_cells. rewrite length_map, HNl. exact HNr. }
  unfold aadd, zipwith. cbn [nrows ncols cells].
  rewrite Hr, HNr, Hc, Hlc, !Nat.eqb_refl. cbn [andb bind ret].
  rewrite map2_add_zero.
  - assert (E : mkArr (characteristic_count + 2) 1 (cells vb) = vb).
    { destruct vb as [a b c]. cbn [nrows ncols cells] in *. subst.
      reflexivity. }
    rewrite E. rewrite (dchange_of_diag _ vb Hvb). reflexivity.
  - rewrite length_map, HMl. symmetry. exact Hlen.
  - exact Hrows.
  - apply Forall_forall. intros r Hin.
    apply in_map_iff in Hin as (r' & <- & _). reflexivity.
Qed.

End FixedPoint.

(** ** Weights generated by the model without noise *)

Module Recovery.
Import RNum RFacts.
Local Open Scope R_scope.

Lemma design_rows (obs : list (@observation R)) :
  five_characteristics obs ->
  Forall (fun r => length r = 7%nat) (cells (design obs)).
Proof.
  intros H. apply (matrix_of_rows 7). apply Forall_forall. intros o Ho.
  unfold five_characteristics in H. rewrite Forall_forall in H.
  unfold design_row. cbn [length]. rewrite length_app, (H o Ho).
  reflexivity.
Qed.

Lemma column_of_colvec (beta : list R) :
  column 0 (map (fun x => [x]) beta) = beta.
Proof.
  unfold column. rewrite map_map. cbn [nth]. apply map_id.
Qed.

(** [X beta] for a column [beta], row by row. *)
Lemma matmul_cells_colvec (A : list (list R)) (beta : list R) :
  matmul_cells A (map (fun x => [x]) beta) 1
  = map (fun r => [dot r beta]) A.
Proof.
  unfold matmul_cells. apply map_ext. intros r. cbn [seq map].
  rewrite column_of_colvec. reflexivity.
Qed.

Lemma transpose_rows (Z : ndarray R) :
  Forall (fun r => length r = length (cells Z)) (cells (transpose Z)).
Proof.
  unfold transpose. cbn [cells]. apply Forall_forall. intros r Hr.
  apply in_map_iff in Hr as (j & <- & _). unfold column. apply length_map.
Qed.

Lemma matmul_cells_rows (A B : list (list R)) (p : nat) :
  Forall (fun r => length r = p) (matmul_cells A B p).
Proof.
  unfold matmul_cells. apply Forall_forall. intros r Hr.
  apply in_map_iff in Hr as (r' & <- & _). rewrite length_map.
  apply length_seq.
Qed.

(** Weights that are exactly log-linear in the regressors give back their
    coefficients: [(Z^T X)^-1 Z^T (X beta) = beta]. *)
Lemma two_stage_recovers (kept : list (@observation R)) (beta : list R)
    (M N : ndarray R) :
  five_characteristics kept -> length beta = 7%nat ->
  Forall (fun o => ln (weight o) = dot (design_row o) beta) kept ->
  matmul (transpose (instruments kept)) (design kept) = inr M ->
  linalg_inv M = Some N ->
  normal_equation (instruments kept) (design kept) (log_weights kept)
  = inr (colvec beta).
Proof.
  intros Hk Hb Hlog HM HN. unfold normal_equation. rewrite HM. cbn [bind].
  unfold inv. rewrite HN. cbn [bind ret].
  apply inverse_spec in HN.
  destruct HN as (_ & _ & HNr & HNc & [HNl HNrows] & _ & HNM).
  apply matmul_inv in HM as [_ HM].
  assert (HMr : nrows M = 7%nat) by (rewrite HM; reflexivity).
  assert (HMc : ncols M = 7%nat) by (rewrite HM; reflexivity).
  rewrite HMr in *.
  apply matmul_inv in HNM as [_ HNM].
  apply (f_equal (@cells R)) in HNM. cbn [cells] in HNM. rewrite HMc in HNM.
  unfold matmul at 1. cbn [transpose nrows ncols instruments matrix_of].
  rewrite HNc. change (characteristic_count + 2)%nat with 7%nat.
  cbn [Nat.eqb bind ret].
  unfold matmul. cbn [nrows ncols cells log_weights column_of].
  rewrite Nat.eqb_refl. unfold ret, colvec. rewrite Hb, HNr.
  apply f_equal. apply f_equal.
  set (Zt := cells (transpose (instruments kept))).
  set (Xc := cells (design kept)).
  assert (Hy : map (fun o : observation => [flog (weight o)]) kept
               = matmul_cells Xc (map (fun x => [x]) beta) 1).
  { rewrite matmul_cells_colvec. subst Xc. unfold design, matrix_of.
    cbn [cells]. rewrite map_map.
    apply map_ext_in. intros o Ho. rewrite Forall_forall in Hlog.
    change (flog (weight o)) with (ln (weight o)).
    rewrite (Hlog o Ho). reflexivity. }
  rewrite Hy.
  assert (HZt : Forall (fun r => length r = length kept) Zt).
  { pose proof (transpose_rows (instruments kept)) as H.
    assert (E : length (cells (instruments kept)) = length kept)
      by (unfold instruments, matrix_of; cbn [cells]; apply length_map).
    rewrite E in H. exact H. }
  rewrite (matmul_cells_assoc (cells N) Zt _ (length kept) 1 HZt).
  rewrite <- (matmul_cells_assoc Zt Xc _ 7 1).
  2: { exact (design_rows kept Hk). }
  assert (HMcells : matmul_cells Zt Xc 7 = cells M).
  { rewrite HM. reflexivity. }
  rewrite HMcells.
  rewrite <- (matmul_cells_assoc (cells N) (cells M) _ 7 1).
  2: { rewrite <- HMcells. apply matmul_cells_rows. }
  rewrite <- HNM.
  apply matmul_cells_identity_l.
  - rewrite length_map. exact Hb.
  - apply Forall_forall. intros r Hr.
    apply in_map_iff in Hr as (x & <- & _). reflexivity.
Qed.

(** *** The laws of the arithmetic hold for the real numbers *)

Lemma inverse_keeps_shape_R : @inverse_keeps_shape R linalg.
Proof.
  intros M N H. apply inverse_spec in H.
  destruct H as (Hsq & _ & Hr & Hc & [Hl _] & _).
  repeat split; congruence.
Qed.

Lemma null_arithmetic_R : @null_arithmetic R numeric.
Proof.
  split; cbn [add mul sub fabs fmax gtb numeric]; rewrite ?zero_R, ?one_R;
    intros; try ring.
  - apply Rabs_R0.
  - apply Rmax_left. lra.
  - rewrite tolerance_R. unfold Rgtb.
    destruct (Rgt_dec 0 (1 / 10000)); [lra | reflexivity].
Qed.

Lemma one_exceeds_tolerance_R : @one_exceeds_tolerance R numeric.
Proof.
  unfold one_exceeds_tolerance. cbn [gtb numeric].
  rewrite one_R, tolerance_R. unfold Rgtb.
  destruct (Rgt_dec 1 (1 / 10000)); [reflexivity | lra].
Qed.

Lemma dot_opp (r c : list R) : dot (map Ropp r) c = - dot r c.
Proof.
  revert c. induction r as [| x r IH]; intros c; cbn [map].
  - destruct c; cbn [dot]; rewrite zero_R; ring.
  - destruct c as [| y c]; [rewrite !dot_nil_r; ring |].
    rewrite !dot_cons, IH. ring.
Qed.

Lemma colvec_column (beta : list R) (n : nat) :
  length beta = n -> column_of_height n (colvec beta).
Proof.
  intros H. unfold colvec. repeat split; cbn [nrows ncols cells].
  - exact H.
  - rewrite length_map. exact H.
  - apply Forall_forall. intros r Hr.
    apply in_map_iff in Hr as (x & <- & _). reflexivity.
Qed.

(** Weights generated by the model with a latent demand of one:
    the latent demand the loop computes at the true coefficients is one. *)
Lemma latent_of_exact_weights (obs : list (@observation R)) (beta : list R) :
  length beta = 7%nat ->
  Forall (fun o => weight o = exp (dot (design_row o) beta)) obs ->
  exists vl,
    vlatent_unconstrained (nonlinear_data_of obs) (colvec beta) = inr vl /\
    nrows vl = length obs /\ ncols vl = 1%nat /\
    length (cells vl) = length obs /\
    Forall (fun r => r = [@one R numeric]) (cells vl).
Proof.
  intros Hb Hw. unfold vlatent_unconstrained, matmul.
  cbn [n_mX n_vrweight nonlinear_data_of aneg amap design matrix_of colvec
         nrows ncols cells].
  rewrite Hb. change (characteristic_count + 2)%nat with 7%nat.
  cbn [Nat.eqb bind ret].
  unfold amul, zipwith. cbn [nrows ncols cells np_exp amap column_of].
  rewrite !Nat.eqb_refl. cbn [andb]. eexists. split; [reflexivity |].
  cbn [nrows ncols cells]. rewrite matmul_cells_colvec, !map_map.
  split; [reflexivity |]. split; [reflexivity |].
  split.
  { apply map2_length_eq; apply length_map. }
  induction Hw as [| o obs Ho _ IH]; cbn [map map2]; constructor;
    [| exact IH].
  rewrite Ho. change (map neg (design_row o)) with (map Ropp (design_row o)).
  rewrite dot_opp. cbn [mul fexp numeric]. rewrite one_R.
  rewrite <- exp_plus, Rplus_opp_r, exp_0. reflexivity.
Qed.

Lemma retained_exact_weights (obs : list (@observation R)) (beta : list R) :
  Forall (fun o => weight o = exp (dot (design_row o) beta)) obs ->
  retained obs = obs.
Proof.
  induction 1 as [| o obs Ho _ IH]; cbn [retained filter]; [reflexivity |].
  fold (retained obs). rewrite IH.
  assert (E : gtb (weight o) zero = true).
  { cbn [gtb numeric]. rewrite zero_R, Ho. unfold Rgtb.
    destruct (Rgt_dec _ 0) as [_ | Hn]; [reflexivity |].
    exfalso. apply Hn. apply exp_pos. }
  rewrite E. reflexivity.
Qed.

Lemma ceiling_not_exceeded (beta : list R) :
  length beta = 7%nat -> nth 0 beta 0 <= 99 / 100 ->
  exceeds_ceiling (colvec beta) = inr false.
Proof.
  intros Hb H0. unfold exceeds_ceiling, row0, colvec.
  destruct beta as [| b0 rest]; [discriminate |].
  cbn [map cells bind ret truth_gt].
  cbn [nth] in H0. cbn [gtb numeric]. rewrite ceiling_R. unfold Rgtb.
  destruct (Rgt_dec b0 (99 / 100)); [lra | reflexivity].
Qed.

(** Both cells on weights generated by the model. *)
Lemma exact_data_run (mdata : ndarray R) (beta : list R) (M N : ndarray R)
    (fuel : nat) :
  table_ok mdata -> length beta = 7%nat ->
  Forall (fun o => weight o = exp (dot (design_row o) beta))
    (observations mdata) ->
  matmul (transpose (instruments (observations mdata)))
    (design (observations mdata)) = inr M ->
  linalg_inv M = Some N ->
  nth 0 beta 0 <= 99 / 100 ->
  vb_linearIV mdata = inr (colvec beta) /\
  vb_nonlinearIV (S (S fuel)) mdata (colvec beta) = Returned (colvec beta).
Proof.
  intros Hok Hb Hw HM HN H0.
  set (obs := observations mdata) in *.
  pose proof (observations_five mdata) as Hk. fold obs in Hk.
  assert (Hce : exceeds_ceiling (colvec beta) = inr false).
  { destruct beta as [| b0 rest]; [discriminate |].
    unfold exceeds_ceiling, row0, colvec. cbn [map cells bind ret truth_gt].
    cbn [nth] in H0. cbn [gtb numeric]. rewrite ceiling_R. unfold Rgtb.
    destruct (Rgt_dec b0 (99 / 100)); [lra | reflexivity]. }
  split.
  - rewrite (vb_linearIV_retained mdata Hok). fold obs.
    rewrite (retained_exact_weights obs beta Hw).
    unfold linear_of.
    assert (Hlog : Forall (fun o => ln (weight o) = dot (design_row o) beta)
                     obs).
    { apply Forall_forall. intros o Ho. rewrite Forall_forall in Hw.
      rewrite (Hw o Ho). apply ln_exp. }
    pose proof (two_stage_recovers obs beta M N Hk Hb Hlog HM HN) as H2.
    unfold normal_equation in H2. unfold unconstrained_linear.
    cbn [l_mZ l_mX l_vLNrweight]. rewrite H2. cbn [bind].
    rewrite Hce. reflexivity.
  - unfold vb_nonlinearIV. rewrite (structure_nonlinear_spec mdata Hok).
    fold obs. unfold nonlinear_of, unconstrained_nonlinear.
    destruct (latent_of_exact_weights obs beta Hb Hw)
      as (vl & Hl & Hlr & Hlc & Hll & Hones).
    assert (HZt : mZ_tilde_of (nonlinear_data_of obs) vl
                  = inr (instruments obs)).
    { unfold mZ_tilde_of. cbn [n_dN n_mZ nonlinear_data_of].
      apply (scaled_by_one null_arithmetic_R vl (instruments obs)
               (length obs) (characteristic_count + 2));
        try assumption; try reflexivity.
      - unfold instruments, matrix_of. cbn [cells]. apply length_map.
      - exact (instruments_rows obs Hk). }
    assert (Hcross : cross_product_unconstrained (nonlinear_data_of obs)
                       (colvec beta) = inr M).
    { unfold cross_product_unconstrained. rewrite Hl. cbn [bind].
      rewrite HZt. cbn [bind]. exact HM. }
    pose proof (step_at_solved_moments inverse_keeps_shape_R
                  null_arithmetic_R obs (colvec beta) vl M N Hk
                  (colvec_column beta 7 Hb) Hl Hones Hcross HN) as Hstep.
    cbn [while_loop fst snd].
    rewrite one_exceeds_tolerance_R, Hstep. cbn [fst snd].
    rewrite (null_small null_arithmetic_R). rewrite Hce. reflexivity.
Qed.

(** X5.  Exact recovery by the linear cell.  On a table of ten columns whose
    held rows have log weights exactly linear in
    [[log market value | characteristics | 1]] with coefficients [beta], the
    first of them not above .99, the linear cell returns [beta], whenever
    [Z^T X] of the held rows has an inverse -- in the arithmetic of the real
    numbers.  The rows that are not held play no part. *)
Theorem linear_cell_recovers (mdata : ndarray R) (beta : list R)
    (M N : ndarray R) :
  table_ok mdata -> length beta = 7%nat ->
  Forall (fun o => ln (weight o) = dot (design_row o) beta)
    (retained (observations mdata)) ->
  matmul (transpose (instruments (retained (observations mdata))))
    (design (retained (observations mdata))) = inr M ->
  linalg_inv M = Some N ->
  nth 0 beta 0 <= 99 / 100 ->
  vb_linearIV mdata = inr (colvec beta).
Proof.
  intros Hok Hb Hlog HM HN H0.
  rewrite (vb_linearIV_retained mdata Hok).
  set (kept := retained (observations mdata)) in *.
  assert (Hk : five_characteristics kept).
  { unfold five_characteristics, kept, retained.
    apply Forall_filter. exact (observations_five mdata). }
  pose proof (two_stage_recovers kept beta M N Hk Hb Hlog HM HN) as H2.
  unfold normal_equation in H2. unfold linear_of, unconstrained_linear.
  cbn [l_mZ l_mX l_vLNrweight]. rewrite H2. cbn [bind].
  rewrite (ceiling_not_exceeded beta Hb H0). reflexivity.
Qed.

(** X6.  The notebook on weights generated by the model without noise:
    when every weight of the table is [exp] of the linear index with
    coefficients [beta] (the first not above .99) and [Z^T X] has an inverse,
    the linear cell returns [beta], the first loop finds a latent demand of
    one on every row and a change of zero at its first pass, and the
    notebook returns [beta] twice, whatever the number of passes allowed
    beyond two. *)
Theorem noiseless_run (mdata : ndarray R) (beta : list R) (M N : ndarray R)
    (fuel : nat) :
  table_ok mdata -> length beta = 7%nat ->
  Forall (fun o => weight o = exp (dot (design_row o) beta))
    (observations mdata) ->
  matmul (transpose (instruments (observations mdata)))
    (design (observations mdata)) = inr M ->
  linalg_inv M = Some N ->
  nth 0 beta 0 <= 99 / 100 ->
  notebook (S (S fuel)) mdata = Returned (colvec beta, colvec beta).
Proof.
  intros Hok Hb Hw HM HN H0.
  destruct (exact_data_run mdata beta M N fuel Hok Hb Hw HM HN H0)
    as [H1 H2].
  unfold notebook. rewrite H1, H2. reflexivity.
Qed.

End Recovery.

(** ** The order of the rows *)

Section RowOrder.
Context {F : Type} {NF : Numeric F} {LA : LinAlg F}.
Hypothesis Hsum : sum_laws.

Lemma dot_perm {O : Type} (f g : O -> F) (k k' : list O) :
  Permutation k k' -> dot (map f k) (map g k) = dot (map f k') (map g k').
Proof.
  induction 1 as [| o k k' _ IH | o1 o2 k | k1 k2 k3 _ IH1 _ IH2];
    cbn [map dot].
  - reflexivity.
  - rewrite IH. reflexivity.
  - rewrite !(sum_assoc Hsum).
    rewrite (sum_comm Hsum (mul (f o2) (g o2))). reflexivity.
  - congruence.
Qed.

(** The cross product [A^T X] is a sum over the rows. *)
Lemma cross_product_cells {O : Type} (n : nat) (a x : O -> list F)
    (k : list O) :
  matmul_cells (cells (transpose (mkArr (List.length k) n (map a k))))
    (map x k) n
  = map (fun j => map (fun l => dot (map (fun o => nth j (a o) zero) k)
                                    (map (fun o => nth l (x o) zero) k))
                      (seq 0 n))
        (seq 0 n).
Proof.
  unfold matmul_cells, transpose. cbn [cells ncols]. rewrite map_map.
  apply map_ext. intros j. apply map_ext. intros l.
  unfold column. rewrite !map_map. reflexivity.
Qed.

Lemma cross_product_perm {O : Type} (n : nat) (a x : O -> list F)
    (k k' : list O) :
  Permutation k k' ->
  matmul (transpose (mkArr (List.length k) n (map a k)))
    (mkArr (List.length k) n (map x k))
  = matmul (transpose (mkArr (List.length k') n (map a k')))
      (mkArr (List.length k') n (map x k')).
Proof.
  intros Hp. unfold matmul. cbn [transpose nrows ncols cells].
  rewrite !Nat.eqb_refl.
  change (map (fun j => column j (map a k)) (seq 0 n))
    with (cells (transpose (mkArr (List.length k) n (map a k)))).
  change (map (fun j => column j (map a k')) (seq 0 n))
    with (cells (transpose (mkArr (List.length k') n (map a k')))).
  rewrite !cross_product_cells. unfold ret. f_equal. f_equal.
  apply map_ext. intros j. apply map_ext. intros l.
  apply dot_perm. exact Hp.
Qed.

(** Column [c] of [Z^T] is row [c] of [Z], padded to [n] cells. *)
Lemma rows_of_transpose {O : Type} (n : nat) (z : O -> list F)
    (r : list F) (k pre : list O) :
  map (fun c => dot r (column c
                         (map (fun j => column j (map z (pre ++ k)))
                              (seq 0 n))))
      (seq (List.length pre) (List.length k))
  = map (fun o => dot r (map (fun j => nth j (z o) zero) (seq 0 n))) k.
Proof.
  revert pre. induction k as [| o k IH]; intros pre;
    cbn [List.length seq map]; [reflexivity |].
  f_equal.
  - f_equal. unfold column. rewrite map_map. apply map_ext. intros j.
    rewrite map_map, map_app. cbn [map].
    rewrite app_nth2; rewrite length_map; [| lia].
    rewrite Nat.sub_diag. reflexivity.
  - specialize (IH (pre ++ [o])).
    rewrite length_app, <- app_assoc in IH. cbn [List.length app] in IH.
    rewrite Nat.add_1_r in IH. exact IH.
Qed.

Lemma column_of_singletons {O : Type} (y : O -> F) (k : list O) :
  column 0 (map (fun o => [y o]) k) = map y k.
Proof. unfold column. rewrite map_map. reflexivity. Qed.

(** [inv(A^T X) Z^T y] does not depend on the order of the rows. *)
Lemma solve_rows_perm {O : Type} (n : nat) (a x z : O -> list F)
    (y : O -> F) (k k' : list O) :
  Permutation k k' -> solve_rows n a x z y k = solve_rows n a x z y k'.
Proof.
  intros Hp. unfold solve_rows.
  rewrite (cross_product_perm n a x k k' Hp).
  destruct (matmul _ _) as [e | AtX]; [reflexivity |]. cbn [bind].
  destruct (inv AtX) as [e | N]; [reflexivity |]. cbn [bind].
  unfold matmul at 1 3. cbn [transpose nrows ncols cells].
  destruct (Nat.eqb (ncols N) n); [| reflexivity]. cbn [bind ret].
  unfold matmul. cbn [nrows ncols cells]. rewrite !Nat.eqb_refl.
  unfold ret. f_equal. f_equal.
  unfold matmul_cells. rewrite !map_map.
  apply map_ext. intros r. cbn [seq map]. f_equal.
  rewrite !column_of_singletons.
  pose proof (rows_of_transpose n z r k []) as E.
  pose proof (rows_of_transpose n z r k' []) as E'.
  cbn [app List.length] in E, E'. rewrite E, E'.
  apply (dot_perm (fun o => dot r (map (fun j => nth j (z o) zero) (seq 0 n)))
           y k k' Hp).
Qed.

End RowOrder.

Section RowOrderLoops.
Context {F : Type} {NF : Numeric F} {LA : LinAlg F}.
Hypothesis Hsum : sum_laws.

Lemma step_unconstrained_split (d : nonlinear_data) (vb : ndarray F) :
  step_unconstrained d vb
  = (upd <- (vl <- vlatent_unconstrained d vb ;;
             Zt <- mZ_tilde_of d vl ;; update_unconstrained d vl Zt) ;;
     vb_new <- aadd vb upd ;;
     dchange <- dchange_of vb vb_new ;; ret (dchange, vb_new)).
Proof.
  unfold step_unconstrained.
  destruct (vlatent_unconstrained d vb) as [e | vl]; [reflexivity |].
  cbn [bind]. destruct (mZ_tilde_of d vl) as [e | Zt]; reflexivity.
Qed.

Lemma step_constrained_split (d : nonlinear_data) (mX vb : ndarray F) :
  step_constrained d mX vb
  = (upd <- (vl <- vlatent_constrained d mX vb ;;
             Xt <- mX_tilde_of d mX vl ;; update_constrained mX vl Xt) ;;
     vb_new <- aadd vb upd ;;
     dchange <- dchange_of vb vb_new ;; ret (dchange, vb_new)).
Proof.
  unfold step_constrained.
  destruct (vlatent_constrained d mX vb) as [e | vl]; [reflexivity |].
  cbn [bind]. destruct (mX_tilde_of d mX vl) as [e | Xt]; reflexivity.
Qed.

Lemma map2_map1 {A} (op : F -> F -> F) (f g : A -> F) (l : list A) :
  map2 (map2 op) (map (fun o => [f o]) l) (map (fun o => [g o]) l)
  = map (fun o => [op (f o) (g o)]) l.
Proof.
  induction l as [| x l IH]; cbn [map map2]; [reflexivity |].
  rewrite IH. reflexivity.
Qed.

(** The increment of the first loop, row by row. *)
Lemma unconstrained_increment_rows (k : list observation) (vb : ndarray F) :
  ncols vb = 1 -> nrows vb = characteristic_count + 2 ->
  (vl <- vlatent_unconstrained (nonlinear_data_of k) vb ;;
   Zt <- mZ_tilde_of (nonlinear_data_of k) vl ;;
   update_unconstrained (nonlinear_data_of k) vl Zt)
  = solve_rows (characteristic_count + 2)
      (fun o => map2 mul
                  (spread (latent_unconstrained_at (column 0 (cells vb)) o)
                     (characteristic_count + 2))
                  (instrument_row o))
      design_row instrument_row
      (fun o => sub (latent_unconstrained_at (column 0 (cells vb)) o) one)
      k.
Proof.
  intros Hc Hr. unfold vlatent_unconstrained, matmul at 1.
  cbn [n_mX n_vrweight nonlinear_data_of aneg amap design matrix_of
         nrows ncols cells].
  rewrite Hr, Hc, Nat.eqb_refl. cbn [bind ret].
  unfold amul at 1, zipwith.
  cbn [nrows ncols cells np_exp amap column_of].
  rewrite !Nat.eqb_refl. cbn [andb bind ret].
  unfold mZ_tilde_of, matmul at 1, np_ones.
  cbn [n_dN n_mZ nonlinear_data_of nrows ncols cells].
  cbn [Nat.eqb bind ret]. unfold amul, zipwith.
  cbn [nrows ncols cells instruments matrix_of].
  rewrite !Nat.eqb_refl. cbn [andb bind ret].
  unfold update_unconstrained, solve_rows.
  cbn [n_mX n_mZ nonlinear_data_of design instruments matrix_of sub_scalar
         amap nrows ncols cells].
  assert (E1 : matmul_cells (map (map neg) (map design_row k)) (cells vb) 1
               = map (fun o => [dot (map neg (design_row o))
                                  (column 0 (cells vb))]) k).
  { unfold matmul_cells. rewrite !map_map. reflexivity. }
  rewrite E1, map_map.
  change (map (fun x : observation =>
                 map fexp
                   [dot (map neg (design_row x)) (column 0 (cells vb))]) k)
    with (map (fun o : observation =>
                 [fexp (dot (map neg (design_row o))
                          (column 0 (cells vb)))]) k).
  rewrite (map2_map1 mul weight
             (fun o => fexp (dot (map neg (design_row o))
                               (column 0 (cells vb)))) k).
  fold (latent_unconstrained_at (column 0 (cells vb))).
  change (fun o : observation =>
            [mul (weight o)
               (fexp (dot (map neg (design_row o)) (column 0 (cells vb))))])
    with (fun o : observation =>
            [latent_unconstrained_at (column 0 (cells vb)) o]).
  assert (E2 : matmul_cells
                 (map (fun o => [latent_unconstrained_at
                                   (column 0 (cells vb)) o]) k)
                 (repeat (repeat one (characteristic_count + 2)) 1)
                 (characteristic_count + 2)
               = map (fun o => spread (latent_unconstrained_at
                                         (column 0 (cells vb)) o)
                                 (characteristic_count + 2)) k).
  { unfold matmul_cells. rewrite map_map. reflexivity. }
  rewrite E2, map2_map. unfold sub_scalar, amap.
  cbn [nrows ncols cells]. rewrite map_map. reflexivity.
Qed.

(** The increment of the second loop, row by row. *)
Lemma constrained_increment_rows (k : list observation) (vb : ndarray F) :
  ncols vb = 1 -> nrows vb = characteristic_count + 1 ->
  (vl <- vlatent_constrained (nonlinear_data_of k) (reduced_design k) vb ;;
   Xt <- mX_tilde_of (nonlinear_data_of k) (reduced_design k) vl ;;
   update_constrained (reduced_design k) vl Xt)
  = solve_rows (characteristic_count + 1)
      (fun o => map2 mul
                  (spread (latent_constrained_at (column 0 (cells vb)) o)
                     (characteristic_count + 1))
                  (reduced_row o))
      reduced_row reduced_row
      (fun o => sub (latent_constrained_at (column 0 (cells vb)) o) one)
      k.
Proof.
  intros Hc Hr. unfold vlatent_constrained, matmul at 1.
  cbn [n_vLNme n_vrweight nonlinear_data_of reduced_design matrix_of
         nrows ncols cells].
  rewrite Hr, Hc, Nat.eqb_refl. cbn [bind ret].
  unfold asub at 1, zipwith, scale, amap.
  cbn [nrows ncols cells column_of].
  rewrite !Nat.eqb_refl. cbn [andb bind ret].
  unfold amul at 1, zipwith.
  cbn [nrows ncols cells np_exp amap column_of].
  rewrite !Nat.eqb_refl. cbn [andb bind ret].
  unfold mX_tilde_of, matmul at 1, np_ones.
  cbn [n_dN nonlinear_data_of nrows ncols cells].
  cbn [Nat.eqb bind ret]. unfold amul, zipwith.
  cbn [nrows ncols cells matrix_of].
  change (characteristic_count + 2 - 1) with (characteristic_count + 1).
  rewrite !Nat.eqb_refl. cbn [andb bind ret].
  unfold update_constrained, solve_rows.
  cbn [sub_scalar amap nrows ncols cells].
  assert (E1 : matmul_cells (map reduced_row k) (cells vb) 1
               = map (fun o => [dot (reduced_row o)
                                  (column 0 (cells vb))]) k).
  { unfold matmul_cells. rewrite !map_map. reflexivity. }
  rewrite E1, !map_map.
  change (map (fun x : observation =>
                 map (mul (neg ceiling)) [log_market_value x]) k)
    with (map (fun o : observation =>
                 [mul (neg ceiling) (log_market_value o)]) k).
  rewrite (map2_map1 sub
             (fun o => mul (neg ceiling) (log_market_value o))
             (fun o => dot (reduced_row o) (column 0 (cells vb))) k).
  rewrite map_map.
  change (map (fun x : observation =>
                 map fexp
                   [sub (mul (neg ceiling) (log_market_value x))
                      (dot (reduced_row x) (column 0 (cells vb)))]) k)
    with (map (fun o : observation =>
                 [fexp (sub (mul (neg ceiling) (log_market_value o))
                          (dot (reduced_row o) (column 0 (cells vb))))]) k).
  rewrite (map2_map1 mul weight
             (fun o => fexp (sub (mul (neg ceiling) (log_market_value o))
                               (dot (reduced_row o)
                                  (column 0 (cells vb))))) k).
  change (fun o : observation =>
            [mul (weight o)
               (fexp (sub (mul (neg ceiling) (log_market_value o))
                        (dot (reduced_row o) (column 0 (cells vb)))))])
    with (fun o : observation =>
            [latent_constrained_at (column 0 (cells vb)) o]).
  assert (E2 : matmul_cells
                 (map (fun o => [latent_constrained_at
                                   (column 0 (cells vb)) o]) k)
                 (repeat (repeat one (characteristic_count + 1)) 1)
                 (characteristic_count + 1)
               = map (fun o => spread (latent_constrained_at
                                         (column 0 (cells vb)) o)
                                 (characteristic_count + 1)) k).
  { unfold matmul_cells. rewrite map_map. reflexivity. }
  rewrite E2. unfold reduced_design, matrix_of. cbn [nrows ncols cells].
  rewrite map2_map. unfold sub_scalar, amap. cbn [nrows ncols cells].
  rewrite map_map. reflexivity.
Qed.

End RowOrderLoops.

Section RowOrderCells.
Context {F : Type} {NF : Numeric F} {LA : LinAlg F}.
Hypothesis Hsum : sum_laws.

Lemma retained_perm (obs obs' : list observation) :
  Permutation obs obs' -> Permutation (retained obs) (retained obs').
Proof.
  unfold retained.
  induction 1 as [| o l l' _ IH | o o' l | l l1 l2 _ IH1 _ IH2];
    cbn [filter].
  - constructor.
  - destruct (gtb (weight o) zero); [constructor |]; exact IH.
  - destruct (gtb (weight o) zero), (gtb (weight o') zero);
      try apply Permutation_refl; constructor.
  - exact (Permutation_trans IH1 IH2).
Qed.

Lemma two_stage_perm (obs obs' : list observation) :
  Permutation (retained obs) (retained obs') ->
  two_stage_least_squares obs = two_stage_least_squares obs'.
Proof.
  intros HP.
  exact (solve_rows_perm Hsum (characteristic_count + 2) instrument_row
           design_row instrument_row (fun o => flog (weight o)) _ _ HP).
Qed.

Lemma constrained_least_squares_perm (obs obs' : list observation) :
  Permutation (retained obs) (retained obs') ->
  constrained_least_squares obs = constrained_least_squares obs'.
Proof.
  intros HP. unfold constrained_least_squares.
  cbn zeta.
  pose proof (solve_rows_perm Hsum (characteristic_count + 1) reduced_row
                reduced_row reduced_row
                (fun o => sub (flog (weight o))
                            (mul ceiling (log_market_value o))) _ _ HP) as E.
  change (normal_equation (reduced_design (retained obs))
            (reduced_design (retained obs))
            (adjusted_log_weights (retained obs))
          = normal_equation (reduced_design (retained obs'))
              (reduced_design (retained obs'))
              (adjusted_log_weights (retained obs'))) in E.
  rewrite E. reflexivity.
Qed.

(** The linear cell as the two estimators of the retained observations. *)
Lemma vb_linearIV_estimators (mdata : ndarray F) :
  table_ok mdata ->
  vb_linearIV mdata
  = (vb <- two_stage_least_squares (observations mdata) ;;
     c <- exceeds_ceiling vb ;;
     if c then constrained_least_squares (observations mdata) else ret vb).
Proof.
  intros Hok. unfold vb_linearIV.
  destruct (structure_linear mdata) as [e | d] eqn:Hd.
  - rewrite (structure_linear_spec mdata Hok) in Hd. discriminate.
  - cbn [bind]. unfold linear_of.
    rewrite (constrained_linear_spec mdata d Hok Hd).
    rewrite (structure_linear_spec mdata Hok) in Hd.
    inversion Hd; subst d. reflexivity.
Qed.

Lemma linear_cell_held_perm (m1 m2 : ndarray F) :
  table_ok m1 -> table_ok m2 ->
  Permutation (retained (observations m1)) (retained (observations m2)) ->
  vb_linearIV m1 = vb_linearIV m2.
Proof.
  intros H1 H2 HP.
  rewrite (vb_linearIV_estimators m1 H1), (vb_linearIV_estimators m2 H2).
  rewrite (two_stage_perm _ _ HP), (constrained_least_squares_perm _ _ HP).
  reflexivity.
Qed.

Lemma linear_cell_perm (m1 m2 : ndarray F) :
  table_ok m1 -> table_ok m2 -> Permutation (cells m1) (cells m2) ->
  vb_linearIV m1 = vb_linearIV m2.
Proof.
  intros H1 H2 HP. apply (linear_cell_held_perm m1 m2 H1 H2).
  apply retained_perm. unfold observations. apply Permutation_map.
  exact HP.
Qed.

(** X7.  The linear cell sees the held rows only, and not their order: two
    tables of ten columns whose rows of positive weight are the same up to
    their order give the same vector or the same exception, whatever their
    other rows are -- when sums do not depend on the order of their terms,
    as in exact arithmetic. *)
Theorem linear_cell_sees_held_rows (m1 m2 : ndarray F) :
  table_ok m1 -> table_ok m2 ->
  Permutation (retained (observations m1)) (retained (observations m2)) ->
  vb_linearIV m1 = vb_linearIV m2.
Proof. exact (linear_cell_held_perm m1 m2). Qed.

Lemma step_unconstrained_perm (k k' : list observation) (vb : ndarray F) :
  Permutation k k' -> ncols vb = 1 ->
  step_unconstrained (nonlinear_data_of k) vb
  = step_unconstrained (nonlinear_data_of k') vb.
Proof.
  intros HP Hc.
  destruct (Nat.eq_dec (nrows vb) (characteristic_count + 2)) as [Hr | Hr].
  - rewrite !step_unconstrained_split.
    rewrite !(unconstrained_increment_rows _ vb Hc Hr).
    rewrite (solve_rows_perm Hsum _ _ _ _ _ k k' HP). reflexivity.
  - apply Nat.neq_sym, Nat.eqb_neq in Hr.
    assert (E : forall q, step_unconstrained (nonlinear_data_of q) vb
                          = inl ValueError).
    { intros q. unfold step_unconstrained, vlatent_unconstrained.
      assert (M : matmul (aneg (n_mX (nonlinear_data_of q))) vb
                  = inl ValueError).
      { unfold matmul.
        cbn [n_mX nonlinear_data_of aneg amap design matrix_of nrows ncols].
        rewrite Hr. reflexivity. }
      rewrite M. reflexivity. }
    rewrite !E. reflexivity.
Qed.

Lemma step_constrained_perm (k k' : list observation) (vb : ndarray F) :
  Permutation k k' -> ncols vb = 1 ->
  step_constrained (nonlinear_data_of k) (reduced_design k) vb
  = step_constrained (nonlinear_data_of k') (reduced_design k') vb.
Proof.
  intros HP Hc.
  destruct (Nat.eq_dec (nrows vb) (characteristic_count + 1)) as [Hr | Hr].
  - rewrite !step_constrained_split.
    rewrite !(constrained_increment_rows _ vb Hc Hr).
    rewrite (solve_rows_perm Hsum _ _ _ _ _ k k' HP). reflexivity.
  - apply Nat.neq_sym, Nat.eqb_neq in Hr.
    assert (E : forall q, step_constrained (nonlinear_data_of q)
                            (reduced_design q) vb = inl ValueError).
    { intros q. unfold step_constrained, vlatent_constrained.
      assert (M : matmul (reduced_design q) vb = inl ValueError).
      { unfold matmul. cbn [reduced_design matrix_of nrows ncols].
        rewrite Hr. reflexivity. }
      rewrite M. reflexivity. }
    rewrite !E. reflexivity.
Qed.

(** Two bodies that agree on the vectors a loop can reach run the same
    loop. *)
Lemma while_loop_agree (body body' : ndarray F -> result (F * ndarray F))
    (P : ndarray F -> Prop) :
  (forall vb, P vb -> body vb = body' vb) ->
  (forall vb st, P vb -> body vb = inr st -> P (snd st)) ->
  forall fuel st, P (snd st) ->
  while_loop body fuel st = while_loop body' fuel st.
Proof.
  intros Hag Hinv. induction fuel as [| fuel IH]; intros st HP;
    cbn [while_loop]; [reflexivity |].
  destruct (gtb (fst st) tolerance); [| reflexivity].
  rewrite <- (Hag _ HP).
  destruct (body (snd st)) as [e | st'] eqn:Hb; [reflexivity |].
  apply IH. exact (Hinv _ _ HP Hb).
Qed.

Lemma nonlinear_cell_perm (m1 m2 vb_lin : ndarray F) (fuel : nat) :
  table_ok m1 -> table_ok m2 -> Permutation (cells m1) (cells m2) ->
  ncols vb_lin = 1 ->
  vb_nonlinearIV fuel m1 vb_lin = vb_nonlinearIV fuel m2 vb_lin.
Proof.
  intros H1 H2 HP Hc.
  assert (HO : Permutation (observations m1) (observations m2)).
  { unfold observations. apply Permutation_map. exact HP. }
  unfold vb_nonlinearIV.
  rewrite (structure_nonlinear_spec m1 H1), (structure_nonlinear_spec m2 H2).
  set (k := observations m1) in *. set (k' := observations m2) in *.
  unfold nonlinear_of, unconstrained_nonlinear.
  rewrite (while_loop_agree (step_unconstrained (nonlinear_data_of k))
             (step_unconstrained (nonlinear_data_of k'))
             (fun vb => ncols vb = 1)).
  2: { intros vb Hvb. exact (step_unconstrained_perm k k' vb HO Hvb). }
  2: { intros vb [dch vb'] Hvb Hs.
       exact (step_unconstrained_ncols (nonlinear_data_of k) vb vb' dch
                eq_refl Hvb Hs). }
  2: exact Hc.
  destruct (while_loop (step_unconstrained (nonlinear_data_of k')) fuel
              (one, vb_lin)) as [vb | e |]; try reflexivity.
  destruct (exceeds_ceiling vb) as [e | []]; try reflexivity.
  unfold constrained_nonlinear.
  rewrite !reduced_design_code.
  rewrite (while_loop_agree
             (step_constrained (nonlinear_data_of k) (reduced_design k))
             (step_constrained (nonlinear_data_of k') (reduced_design k'))
             (fun vb => ncols vb = 1)).
  - reflexivity.
  - intros b Hb. exact (step_constrained_perm k k' b HO Hb).
  - intros b [dch b'] Hb Hs.
    exact (step_constrained_ncols (nonlinear_data_of k) (reduced_design k)
             b b' dch eq_refl eq_refl Hb Hs).
  - exact Hc.
Qed.

(** X8.  The order of the rows of the table does not matter to the notebook:
    two tables of ten columns with the same rows in any order give the same
    two vectors or the same exception, pass by pass of both loops (so that
    a number of passes that does not suffice for one does not for the
    other) -- when sums do not depend on the order of their terms, as in
    exact arithmetic. *)
Theorem row_order_is_irrelevant (m1 m2 : ndarray F) (fuel : nat) :
  table_ok m1 -> table_ok m2 -> Permutation (cells m1) (cells m2) ->
  vb_linearIV m1 = vb_linearIV m2 /\ notebook fuel m1 = notebook fuel m2.
Proof.
  intros H1 H2 HP.
  pose proof (linear_cell_perm m1 m2 H1 H2 HP) as EL.
  split; [exact EL |]. unfold notebook. rewrite EL.
  destruct (vb_linearIV m2) as [e | vb_lin] eqn:Hl; [reflexivity |].
  assert (Hc : ncols vb_lin = 1).
  { unfold vb_linearIV in Hl.
    apply bind_ret_inv in Hl as (d & Hd & Hl).
    destruct H2 as (Hten & _).
    destruct (structure_linear_ncols m2 d Hten Hd) as (Hw & _).
    exact (proj1 (linear_of_column d vb_lin Hw Hl)). }
  rewrite (nonlinear_cell_perm m1 m2 vb_lin fuel H1 H2 HP Hc). reflexivity.
Qed.

End RowOrderCells.

(** ** Fewer held securities than coefficients *)

Module RankDeficiency.
Import RNum RFacts REq Recovery.
Local Open Scope R_scope.

Lemma dot_zeros_r (u : list R) (n : nat) : dot u (repeat 0 n) = 0.
Proof.
  revert n. induction u as [| x u IH]; intros [| n]; cbn [repeat].
  - apply zero_R.
  - apply zero_R.
  - apply dot_nil_r.
  - rewrite dot_cons, IH. ring.
Qed.

Lemma dot_sub_scaled (c : R) (u w v : list R) :
  length u = length w ->
  dot (map2 Rminus u (map (Rmult c) w)) v = dot u v - c * dot w v.
Proof.
  revert w v. induction u as [| x u IH]; intros [| y w] v H;
    cbn [length] in H; try discriminate.
  - cbn [map map2 dot]. rewrite zero_R. ring.
  - destruct v as [| z v]; cbn [map map2].
    + rewrite !dot_nil_r. ring.
    + rewrite !dot_cons, IH by lia. ring.
Qed.

(** Fewer equations than unknowns: a homogeneous linear system has a
    solution that is not zero. *)
Lemma kernel_vector (n : nat) (rows : list (list R)) :
  (length rows < n)%nat -> Forall (fun r => length r = n) rows ->
  exists v, length v = n /\ Exists (fun x => x <> 0) v /\
            Forall (fun r => dot r v = 0) rows.
Proof.
  revert rows. induction n as [| n IH]; intros rows Hlt Hrows; [lia |].
  destruct (Forall_Exists_dec (fun r : list R => hd 0 r = 0)
              (fun r => Req_dec_T (hd 0 r) 0) rows) as [Hall | Hsome].
  - (* no equation mentions the first unknown *)
    exists (1 :: repeat 0 n). split; [cbn [length]; rewrite repeat_length;
                                      reflexivity |].
    split; [constructor; lra |].
    rewrite Forall_forall in *. intros r Hr.
    specialize (Hall r Hr). specialize (Hrows r Hr).
    destruct r as [| x r]; [discriminate |]. cbn [hd] in Hall. subst x.
    rewrite dot_cons, dot_zeros_r. ring.
  - (* eliminate the first unknown with an equation that mentions it *)
    apply Exists_exists in Hsome as (p & Hp & Ha).
    apply in_split in Hp as (l1 & l2 & ->).
    assert (Hp : length p = S n).
    { rewrite Forall_forall in Hrows. apply Hrows.
      apply in_or_app. right. left. reflexivity. }
    destruct p as [| a p]; [discriminate |]. cbn [hd] in Ha.
    cbn [length] in Hp.
    set (others := l1 ++ l2).
    assert (Hothers : Forall (fun r => length r = S n) others).
    { rewrite Forall_forall in *. intros r Hr. apply Hrows.
      apply in_app_or in Hr as [Hr | Hr]; apply in_or_app;
        [left | right; right]; exact Hr. }
    set (elim := fun r : list R =>
                   map2 Rminus (tl r) (map (Rmult (hd 0 r / a)) p)).
    destruct (IH (map elim others)) as (v & Hv & Hnz & Hsol).
    { rewrite length_map. unfold others. rewrite length_app in *.
      cbn [length] in Hlt. lia. }
    { apply Forall_forall. intros r' Hr'.
      apply in_map_iff in Hr' as (r & <- & Hr).
      rewrite Forall_forall in Hothers. specialize (Hothers r Hr).
      destruct r as [| x r]; [discriminate |]. unfold elim. cbn [tl hd].
      cbn [length] in Hothers.
      assert (E : forall u w : list R,
                 length u = length w ->
                 length (map2 Rminus u w) = length u).
      { clear. induction u as [| x u IHu]; intros [| y w] H;
          cbn [length map2] in *; try lia. rewrite IHu; lia. }
      rewrite E; [lia | rewrite length_map; lia]. }
    exists (- dot p v / a :: v).
    split; [cbn [length]; rewrite Hv; reflexivity |].
    split; [apply Exists_cons_tl; exact Hnz |].
    assert (Hone : forall r, In r others ->
                             dot r (- dot p v / a :: v) = 0).
    { intros r Hr. rewrite Forall_forall in Hsol.
      specialize (Hsol (elim r) (in_map elim _ _ Hr)).
      rewrite Forall_forall in Hothers. specialize (Hothers r Hr).
      destruct r as [| x r]; [discriminate |].
      unfold elim in Hsol. cbn [tl hd] in Hsol. cbn [length] in Hothers.
      rewrite dot_sub_scaled in Hsol by lia.
      rewrite dot_cons.
      replace (dot r v) with (x / a * dot p v) by lra.
      field. exact Ha. }
    apply Forall_forall. intros r Hr.
    apply in_app_or in Hr as [Hr | [<- | Hr]].
    + apply Hone. apply in_or_app. left. exact Hr.
    + rewrite dot_cons. field. exact Ha.
    + apply Hone. apply in_or_app. right. exact Hr.
Qed.

Lemma dot_zero_terms {A} (r : list R) (l : list A) :
  dot r (map (fun _ => 0) l) = 0.
Proof.
  revert r. induction l as [| x l IH]; intros [| y r]; cbn [map].
  - apply zero_R.
  - apply dot_nil_r.
  - apply zero_R.
  - rewrite dot_cons, IH. ring.
Qed.

(** A matrix times a column of zeros. *)
Lemma matmul_cells_zero_column {A} (B : list (list R)) (l : list A) :
  matmul_cells B (map (fun _ => [0]) l) 1 = map (fun _ => [0]) B.
Proof.
  unfold matmul_cells. apply map_ext. intros r. cbn [seq map].
  unfold column. rewrite map_map. cbn [nth].
  rewrite dot_zero_terms. reflexivity.
Qed.

(** With fewer rows than columns in [X], the matrix [Z^T X] has no
    inverse. *)
Lemma cross_product_singular (kept : list (@observation R))
    (M : ndarray R) :
  five_characteristics kept -> (length kept < 7)%nat ->
  matmul (transpose (instruments kept)) (design kept) = inr M ->
  linalg_inv M = None.
Proof.
  intros Hk Hlt HM.
  destruct (linalg_inv M) as [N |] eqn:E; [| reflexivity].
  exfalso. apply inverse_spec in E.
  destruct E as (_ & _ & _ & _ & _ & _ & HNM).
  apply matmul_inv in HM as [_ HM].
  assert (HMr : nrows M = 7%nat) by (rewrite HM; reflexivity).
  assert (HMc : ncols M = 7%nat) by (rewrite HM; reflexivity).
  apply matmul_inv in HNM as [_ HNM].
  apply (f_equal (@cells R)) in HNM. cbn [cells] in HNM.
  rewrite HMc, HMr in HNM.
  set (Zt := cells (transpose (instruments kept))) in *.
  set (Xc := cells (design kept)) in *.
  assert (HMcells : cells M = matmul_cells Zt Xc 7).
  { rewrite HM. reflexivity. }
  assert (HX : Forall (fun r => length r = 7%nat) Xc)
    by exact (design_rows kept Hk).
  destruct (kernel_vector 7 Xc) as (v & Hv & Hnz & Hsol); [| exact HX |].
  { unfold Xc, design, matrix_of. cbn [cells]. rewrite length_map.
    exact Hlt. }
  set (V := map (fun x : R => [x]) v).
  assert (H1 : matmul_cells Xc V 1 = map (fun _ => [0]) Xc).
  { unfold V. rewrite matmul_cells_colvec. apply map_ext_in.
    intros r Hr. rewrite Forall_forall in Hsol. rewrite (Hsol r Hr).
    reflexivity. }
  assert (H2 : matmul_cells (cells M) V 1 = map (fun _ => [0]) Zt).
  { rewrite HMcells, (matmul_cells_assoc Zt Xc V 7 1 HX), H1.
    apply matmul_cells_zero_column. }
  assert (H3 : V = map (fun _ => [0]) (cells N)).
  { rewrite <- (matmul_cells_identity_l V 7 1).
    - rewrite HNM.
      rewrite (matmul_cells_assoc (cells N) (cells M) V 7 1).
      + rewrite H2. apply matmul_cells_zero_column.
      + rewrite HMcells. apply matmul_cells_rows.
    - unfold V. rewrite length_map. exact Hv.
    - apply Forall_forall. intros r Hr. unfold V in Hr.
      apply in_map_iff in Hr as (x & <- & _). reflexivity. }
  apply Exists_exists in Hnz as (x & Hx & Hx0). apply Hx0.
  assert (Hin : In [x] V) by exact (in_map (fun y : R => [y]) v x Hx).
  rewrite H3 in Hin. apply in_map_iff in Hin as (? & Heq & _).
  inversion Heq. reflexivity.
Qed.

(** The linear cell on a table with fewer than seven held rows, in the exact
    arithmetic of the real numbers. *)
Lemma linear_cell_deficient (mdata : ndarray R) :
  table_ok mdata -> (length (retained (observations mdata)) < 7)%nat ->
  vb_linearIV mdata = inl LinAlgError.
Proof.
  intros Hok Hlt. rewrite (vb_linearIV_retained mdata Hok).
  set (kept := retained (observations mdata)) in *.
  assert (Hk : five_characteristics kept).
  { unfold five_characteristics, kept, retained.
    apply Forall_filter. exact (observations_five mdata). }
  unfold linear_of, unconstrained_linear. cbn [l_mZ l_mX].
  assert (HM : exists M, matmul (transpose (instruments kept))
                           (design kept) = inr M).
  { unfold matmul. cbn [transpose instruments design matrix_of nrows ncols].
    rewrite Nat.eqb_refl. eexists. reflexivity. }
  destruct HM as (M & HM). rewrite HM. cbn [bind]. unfold inv.
  rewrite (cross_product_singular kept M Hk Hlt HM). reflexivity.
Qed.

(** X10.  A manager whose number is on no row of the table of ten columns:
    the selection is a table without a row, and the notebook raises
    [LinAlgError] in the linear cell (in the arithmetic of the real
    numbers). *)
Theorem unknown_manager_is_fatal (imgr : R) (raw : ndarray R) (fuel : nat) :
  table_ok raw ->
  Forall (fun r => nth 0 r 0 <> imgr) (cells raw) ->
  notebook_for fuel imgr raw = Raised LinAlgError.
Proof.
  intros Hok Hnot. pose proof Hok as (Hc & Hlen & Hrows).
  unfold notebook_for.
  rewrite (select_manager_cells imgr raw Hlen) by lia.
  assert (Hempty : filter (of_manager imgr) (cells raw) = []).
  { clear - Hnot.
    induction Hnot as [| r rows Hr _ IH]; cbn [filter]; [reflexivity |].
    unfold of_manager at 1. cbn [feqb numeric_eq]. unfold Reqb.
    rewrite nth_zero_R.
    destruct (Req_dec_T (nth 0 r 0) imgr); [contradiction | exact IH]. }
  rewrite Hempty. cbn [length].
  unfold notebook. rewrite linear_cell_deficient; [reflexivity | |].
  - split; [exact Hc |]. split; [reflexivity | constructor].
  - cbn. lia.
Qed.

End RankDeficiency.

(** ** The vectors a pass leaves as they are *)

Module Stationary.
Import RNum RFacts Recovery RankDeficiency.
Local Open Scope R_scope.

(** The latent demand at a column of coefficients is a column with a cell
    for every observation. *)
Lemma vlatent_unconstrained_shape (obs : list (@observation R))
    (vb vl : ndarray R) :
  ncols vb = 1%nat ->
  vlatent_unconstrained (nonlinear_data_of obs) vb = inr vl ->
  nrows vl = length obs /\ ncols vl = 1%nat /\
  length (cells vl) = length obs /\
  Forall (fun r => length r = 1%nat) (cells vl).
Proof.
  intros Hc Hl. unfold vlatent_unconstrained in Hl.
  apply bind_ret_inv in Hl as (Xb & HXb & Hl).
  destruct (matmul_column_shape _ _ _ Hc HXb) as (HXr & HXc & HXl & HXrows).
  cbn [n_mX nonlinear_data_of aneg amap design matrix_of nrows cells]
    in HXr, HXl.
  rewrite !length_map in HXl.
  destruct (column_of_shape weight obs) as (Hwr & Hwc & Hwl & Hwrows).
  destruct (amap_shape fexp Xb (length obs) HXr HXc HXl HXrows)
    as (Her & Hec & Hel & Herows).
  exact (latent_column mul (column_of weight obs) (np_exp Xb) vl
           (length obs) Hwr Hwc Hwl Hwrows Her Hec Hel Herows Hl).
Qed.

Lemma map2_add_zeros (V U : list (list R)) :
  length U = length V ->
  Forall (fun r => length r = 1%nat) V ->
  Forall (Forall (fun x => x = 0)) U ->
  Forall (fun r => length r = 1%nat) U ->
  map2 (map2 Rplus) V U = V.
Proof.
  revert U. induction V as [| v V IH]; intros [| u U] Hl HV HU HU1;
    cbn [length map2] in *; try lia; [reflexivity |].
  inversion HV as [| ? ? Hv HV']; inversion HU as [| ? ? Hu HU'];
    inversion HU1 as [| ? ? Hu1 HU1']; subst.
  destruct v as [| x [| ? ?]]; try discriminate.
  destruct u as [| y [| ? ?]]; try discriminate.
  inversion Hu as [| ? ? Hy _]; subst y.
  cbn [map2]. rewrite Rplus_0_r. f_equal. apply IH; [lia | | |]; assumption.
Qed.

Lemma map2_add_same (V U : list (list R)) :
  length U = length V ->
  Forall (fun r => length r = 1%nat) V ->
  Forall (fun r => length r = 1%nat) U ->
  map2 (map2 Rplus) V U = V -> Forall (Forall (fun x => x = 0)) U.
Proof.
  revert U. induction V as [| v V IH]; intros [| u U] Hl HV HU Heq;
    cbn [length map2] in *; try lia; [constructor |].
  inversion HV as [| ? ? Hv HV']; inversion HU as [| ? ? Hu HU']; subst.
  destruct v as [| x [| ? ?]]; try discriminate.
  destruct u as [| y [| ? ?]]; try discriminate.
  cbn [map2] in Heq. inversion Heq as [[Hxy Hrest]].
  constructor.
  - constructor; [lra | constructor].
  - apply IH; [lia | | |]; assumption.
Qed.

(** A matrix times a column all of whose cells are zero. *)
Lemma matmul_cells_null (B U : list (list R)) :
  Forall (fun r => length r = 1%nat) U ->
  Forall (Forall (fun x => x = 0)) U ->
  matmul_cells B U 1 = map (fun _ => [0]) B.
Proof.
  intros H1 H0.
  assert (E : U = map (fun _ => [0]) U).
  { clear B. induction U as [| u U IH]; [reflexivity |].
    inversion H1 as [| ? ? Hu H1']; inversion H0 as [| ? ? Hz H0']; subst.
    destruct u as [| y [| ? ?]]; try discriminate.
    inversion Hz as [| ? ? Hy _]; subst y. cbn [map]. f_equal.
    apply IH; assumption. }
  rewrite E. apply matmul_cells_zero_column.
Qed.

(** A pass of the first loop in terms of the moment vector
    [g = Z^T (latent - 1)]: the increment is [N g], with [N] the inverse the
    pass computes. *)
Lemma pass_through_moments (obs : list (@observation R))
    (vb vl g M N : ndarray R) :
  five_characteristics obs ->
  column_of_height 7 vb ->
  vlatent_unconstrained (nonlinear_data_of obs) vb = inr vl ->
  matmul (transpose (instruments obs)) (sub_scalar vl one) = inr g ->
  cross_product_unconstrained (nonlinear_data_of obs) vb = inr M ->
  linalg_inv M = Some N ->
  step_unconstrained (nonlinear_data_of obs) vb
  = (vb' <- aadd vb (mkArr 7 1 (matmul_cells (cells N) (cells g) 1)) ;;
     dch <- dchange_of vb vb' ;; ret (dch, vb')).
Proof.
  intros Hk (Hr & Hc & Hlen & Hrows) Hl Hg HM HN.
  destruct (vlatent_unconstrained_shape obs vb vl Hc Hl)
    as (Hlr & Hlc & Hll & Hlrows).
  destruct (scaled_rows_sound vl (instruments obs) (length obs) 7
              Hlr Hlc eq_refl eq_refl) as (Zt & HZt & _ & HZtc).
  assert (HZt' : mZ_tilde_of (nonlinear_data_of obs) vl = inr Zt)
    by exact HZt.
  unfold cross_product_unconstrained in HM. rewrite Hl in HM.
  cbn [bind] in HM. rewrite HZt' in HM. cbn [bind] in HM.
  unfold step_unconstrained. rewrite Hl. cbn [bind]. rewrite HZt'.
  cbn [bind]. unfold update_unconstrained. rewrite HM. cbn [bind].
  unfold inv. rewrite HN. cbn [bind ret].
  pose proof (inverse_spec _ _ HN) as (_ & _ & HNr & HNc & _).
  apply matmul_inv in HM as [_ HMe].
  assert (HMr : nrows M = 7%nat).
  { rewrite HMe. cbn [nrows transpose]. exact HZtc. }
  rewrite HMr in HNr, HNc.
  apply matmul_inv in Hg as [_ Hg].
  assert (Hupd : (MZt <- matmul N (transpose (n_mZ (nonlinear_data_of obs))) ;;
                  matmul MZt (sub_scalar vl one))
                 = inr (mkArr 7 1 (matmul_cells (cells N) (cells g) 1))).
  { unfold matmul at 1.
    cbn [transpose nrows ncols n_mZ nonlinear_data_of instruments
           matrix_of].
    rewrite HNc. change (characteristic_count + 2)%nat with 7%nat.
    cbn [Nat.eqb bind ret].
    unfold matmul. cbn [nrows ncols cells sub_scalar amap].
    rewrite Hlr, Nat.eqb_refl, HNr, Hlc. unfold ret. f_equal. f_equal.
    rewrite Hg. cbn [cells sub_scalar amap ncols]. rewrite Hlc.
    apply matmul_cells_assoc.
    pose proof (transpose_rows (instruments obs)) as H.
    assert (E : length (cells (instruments obs)) = length obs)
      by (unfold instruments, matrix_of; cbn [cells]; apply length_map).
    rewrite E in H. exact H. }
  cbn [bind] in Hupd.
  destruct (matmul N (transpose (n_mZ (nonlinear_data_of obs))))
    as [e | MZt]; [discriminate |].
  cbn [bind] in *. rewrite Hupd. reflexivity.
Qed.

(** X11.  The vectors the first loop leaves as they are, are the solutions of
    the sample moment conditions.  At a column [vb] of seven coefficients
    where the pass can invert its matrix, let [g = Z^T (latent - 1)] be the
    moment vector.  If [g] is zero the pass returns [vb] itself with a change
    of zero, and the loop started at [vb] returns [vb] after that one pass;
    and a pass can return [vb] itself only if [g] is zero.  In the arithmetic
    of the real numbers. *)
Theorem stationary_iff_moment_conditions (obs : list (@observation R))
    (vb vl g M N : ndarray R) :
  five_characteristics obs ->
  column_of_height 7 vb ->
  vlatent_unconstrained (nonlinear_data_of obs) vb = inr vl ->
  matmul (transpose (instruments obs)) (sub_scalar vl one) = inr g ->
  cross_product_unconstrained (nonlinear_data_of obs) vb = inr M ->
  linalg_inv M = Some N ->
  (all_zero g ->
   step_unconstrained (nonlinear_data_of obs) vb = inr (0, vb) /\
   forall fuel,
     unconstrained_nonlinear (nonlinear_data_of obs) (S (S fuel)) vb
     = Returned vb) /\
  (forall dch,
     step_unconstrained (nonlinear_data_of obs) vb = inr (dch, vb) ->
     all_zero g).
Proof.
  intros Hk Hvb Hl Hg HM HN.
  pose proof (pass_through_moments obs vb vl g M N Hk Hvb Hl Hg HM HN)
    as Hpass.
  pose proof Hvb as (Hr & Hc & Hlen & Hrows).
  pose proof (inverse_spec _ _ HN)
    as (_ & _ & HNr & HNc & [HNl HNrows] & HMN & _).
  (* the shapes of [M], [N] and [g] *)
  destruct (vlatent_unconstrained_shape obs vb vl Hc Hl)
    as (Hlr & Hlc & _).
  destruct (scaled_rows_sound vl (instruments obs) (length obs) 7
              Hlr Hlc eq_refl eq_refl) as (Zt & HZt & _ & HZtc).
  assert (HZt' : mZ_tilde_of (nonlinear_data_of obs) vl = inr Zt)
    by exact HZt.
  unfold cross_product_unconstrained in HM. rewrite Hl in HM.
  cbn [bind] in HM. rewrite HZt' in HM. cbn [bind] in HM.
  apply matmul_inv in HM as [_ HMe].
  assert (HMr : nrows M = 7%nat).
  { rewrite HMe. cbn [nrows transpose]. exact HZtc. }
  rewrite HMr in *. rewrite HNc in HNrows. rewrite HNr in HNl.
  apply matmul_inv in Hg as [_ Hge].
  assert (Hg1 : Forall (fun r => length r = 1%nat) (cells g)).
  { rewrite Hge. cbn [cells sub_scalar amap ncols]. rewrite Hlc.
    apply matmul_cells_rows. }
  assert (Hgl : length (cells g) = 7%nat).
  { rewrite Hge. cbn [cells]. unfold matmul_cells. rewrite length_map.
    unfold transpose. cbn [cells]. rewrite length_map, length_seq.
    reflexivity. }
  set (U := matmul_cells (cells N) (cells g) 1) in *.
  assert (HU1 : Forall (fun r => length r = 1%nat) U)
    by apply matmul_cells_rows.
  assert (HUl : length U = 7%nat).
  { unfold U, matmul_cells. rewrite length_map. exact HNl. }
  assert (Hadd : aadd vb (mkArr 7 1 U)
                 = inr (mkArr 7 1 (map2 (map2 Rplus) (cells vb) U))).
  { unfold aadd, zipwith. cbn [nrows ncols cells].
    rewrite Hr, Hc, !Nat.eqb_refl. reflexivity. }
  rewrite Hadd in Hpass. cbn [bind] in Hpass.
  split.
  - intros Hzero. unfold all_zero in Hzero. rewrite zero_R in Hzero.
    assert (HU0 : U = map (fun _ => [0]) (cells N))
      by exact (matmul_cells_null (cells N) (cells g) Hg1 Hzero).
    assert (Hsame : mkArr 7 1 (map2 (map2 Rplus) (cells vb) U) = vb).
    { rewrite map2_add_zeros; try assumption.
      - destruct vb as [a b c]. cbn [nrows ncols cells] in *. subst a b.
        reflexivity.
      - congruence.
      - rewrite HU0. apply Forall_forall. intros r Hin.
        apply in_map_iff in Hin as (? & <- & _). repeat constructor. }
    rewrite Hsame in Hpass.
    rewrite (dchange_of_diag null_arithmetic_R 6 vb Hvb) in Hpass.
    cbn [bind ret] in Hpass. rewrite zero_R in Hpass.
    split; [exact Hpass |]. intros fuel.
    unfold unconstrained_nonlinear. cbn [while_loop fst snd].
    rewrite one_exceeds_tolerance_R, Hpass. unfold ret. cbn [fst snd].
    assert (E : @gtb R numeric 0 tolerance = false).
    { cbn [gtb numeric]. apply Portfolio.Rgtb_false. rewrite tolerance_R.
      lra. }
    rewrite E. reflexivity.
  - intros dch Hstep. rewrite Hpass in Hstep.
    apply bind_ret_inv in Hstep as (d' & _ & Hstep).
    unfold ret in Hstep.
    assert (Hvb' : cells (mkArr 7 1 (map2 (map2 Rplus) (cells vb) U))
                   = cells vb) by congruence.
    cbn [cells] in Hvb'.
    assert (HU0 : Forall (Forall (fun x => x = 0)) U).
    { apply (map2_add_same (cells vb) U); try assumption. congruence. }
    apply matmul_inv in HMN as [_ HMN].
    apply (f_equal (@cells R)) in HMN. cbn [cells] in HMN.
    rewrite HNc in HMN.
    unfold all_zero. rewrite zero_R.
    rewrite <- (matmul_cells_identity_l (cells g) 7 1 Hgl Hg1).
    rewrite HMN.
    rewrite (matmul_cells_assoc (cells M) (cells N) (cells g) 7 1 HNrows).
    fold U. rewrite (matmul_cells_null (cells M) U HU1 HU0).
    apply Forall_forall. intros r Hin.
    apply in_map_iff in Hin as (? & <- & _). repeat constructor.
Qed.

End Stationary.

(** ** The object of [vb_nonlinearIV] at the end of the cell *)

Module Namespace.
Import Store StoreFacts.
Section Fresh.
Context {F : Type} {NF : Numeric F} {LA : LinAlg F}.
Local Abbreviation state := (@Store.state F).
Local Abbreviation stmt := (@Store.stmt F).
Variable n0 : nat.

Lemma ends_seq (P Q R : state -> Prop) (p q : stmt) :
  ends_with P p Q -> ends_with Q q R -> ends_with P (seq p q) R.
Proof.
  intros Hp Hq s s' u HP H. unfold seq in H.
  destruct (p s) as [s1 [u1 | e |]] eqn:E; try discriminate.
  exact (Hq s1 s' u (Hp s s1 u1 HP E) H).
Qed.

Lemma ends_weaken (P P' Q Q' : state -> Prop) (p : stmt) :
  (forall s, P' s -> P s) -> (forall s, Q s -> Q' s) ->
  ends_with P p Q -> ends_with P' p Q'.
Proof. intros HP HQ H s s' u Hs E. exact (HQ _ (H s s' u (HP _ Hs) E)). Qed.

Lemma ends_if (P Q : state -> Prop) (c : state -> result bool) (p : stmt) :
  ends_with P p Q -> (forall s, P s -> Q s) -> ends_with P (if_ c p) Q.
Proof.
  intros Hp HPQ s s' u HP H. unfold if_ in H.
  destruct (c s) as [e | []]; try discriminate.
  - exact (Hp s s' u HP H).
  - inversion H; subst. exact (HPQ _ HP).
Qed.

(** A loop that ends leaves its invariant, and a change within the
    tolerance. *)
Lemma ends_while (I : state -> Prop) (body : stmt) (fuel : nat) :
  ends_with I body I ->
  ends_with I (while fuel body)
    (fun s => I s /\ gtb (dchange s) tolerance = false).
Proof.
  intros Hb. induction fuel as [| fuel IH]; intros s s' u HI H;
    cbn [while] in H; [discriminate |].
  destruct (gtb (dchange s) tolerance) eqn:Hc.
  - destruct (body s) as [s1 [u1 | e |]] eqn:E; try discriminate.
    exact (IH s1 s' u (Hb s s1 u1 HI E) H).
  - inversion H; subst. split; assumption.
Qed.

(** No statement of the cell removes an object. *)
Lemma ends_framed (p : stmt) :
  framed p -> ends_with (heap_from n0) p (heap_from n0).
Proof.
  intros Hf s s' u HP E. specialize (Hf s). rewrite E in Hf.
  cbn [fst] in Hf. destruct Hf as [_ Hh]. unfold heap_from in *.
  destruct (Nat.le_gt_cases n0 (length (heap s'))) as [Hle | Hgt];
    [exact Hle | exfalso].
  assert (Hlt : length (heap s') < length (heap s)) by lia.
  destruct (nth_error (heap s) (length (heap s'))) as [a |] eqn:Ea.
  - apply Hh in Ea.
    assert (Hs : nth_error (heap s') (length (heap s')) <> None)
      by congruence.
    apply nth_error_Some in Hs. lia.
  - apply nth_error_None in Ea. lia.
Qed.

(** [x = <a new array>] makes [x] refer to a new object. *)
Lemma ends_assign_new (x : string) (e : state -> result (ndarray F)) :
  ends_with (heap_from n0) (assign x e)
    (fun s => heap_from n0 s /\ created_since n0 x s).
Proof.
  intros s s' u HP H. unfold assign in H.
  destruct (e s) as [err | a]; [discriminate |].
  inversion H; subst. unfold heap_from, created_since, new_array in *.
  cbn [heap globals]. rewrite length_app, String.eqb_refl. cbn [length].
  split; [lia |]. eexists. split; [reflexivity |]. cbn [ref windows].
  split; [exact HP | reflexivity].
Qed.

(** [dchange = ...] changes no name and no object. *)
Lemma ends_assign_dchange (x : string) (e : state -> result F) :
  ends_with (fun s => heap_from n0 s /\ created_since n0 x s)
    (assign_dchange e)
    (fun s => heap_from n0 s /\ created_since n0 x s).
Proof.
  intros s s' u HP H. unfold assign_dchange in H.
  destruct (e s) as [err | a]; [discriminate |].
  inversion H; subst. exact HP.
Qed.

(** [x = y] makes [x] refer to the object of [y]. *)
Lemma ends_assign_alias (x y : string) :
  ends_with (fun s : state => heap_from n0 s /\ created_since n0 y s)
    (assign_view x y [])
    (fun s : state => heap_from n0 s /\ created_since n0 x s).
Proof.
  intros s s' u [HP (v & Hv & Hr & Hw)] H. unfold assign_view in H.
  rewrite Hv in H. inversion H; subst.
  unfold heap_from, created_since, rebind in *. cbn [heap globals].
  rewrite String.eqb_refl. split; [exact HP |].
  eexists. split; [reflexivity |]. cbn [ref windows].
  rewrite Hw. split; [exact Hr | reflexivity].
Qed.

(** [dchange = 1] *)
Lemma ends_dchange_one :
  ends_with (heap_from n0) (assign_dchange (fun _ => ret one))
    (fun s => heap_from n0 s /\ dchange s = one).
Proof.
  intros s s' u HP H. unfold assign_dchange in H. cbn [ret] in H.
  inversion H; subst. split; [exact HP | reflexivity].
Qed.

Ltac keeps_objects :=
  apply ends_framed;
  repeat first
    [ apply framed_seq
    | apply framed_assign; reflexivity
    | apply framed_assign_view; reflexivity
    | apply framed_assign_dN
    | apply framed_assign_dchange
    | apply framed_assign_shape
    | apply framed_if
    | apply framed_while ].

(** A pass of either loop leaves [vb_nonlinearIV] on the new array
    [vb_nonlinearIV_new]. *)
Lemma body_unconstrained_new :
  ends_with (heap_from n0) body_unconstrained
    (fun s => heap_from n0 s /\ created_since n0 "vb_nonlinearIV" s).
Proof.
  unfold body_unconstrained.
  apply (ends_seq (heap_from n0) (heap_from n0)); [keeps_objects |].
  apply (ends_seq (heap_from n0) (heap_from n0)); [keeps_objects |].
  apply (ends_seq (heap_from n0)
           (fun s => heap_from n0 s /\
                     created_since n0 "vb_nonlinearIV_new" s));
    [apply ends_assign_new |].
  apply (ends_seq _ (fun s => heap_from n0 s /\
                              created_since n0 "vb_nonlinearIV_new" s));
    [apply ends_assign_dchange |].
  apply ends_assign_alias.
Qed.

Lemma body_constrained_new :
  ends_with (heap_from n0) body_constrained
    (fun s => heap_from n0 s /\ created_since n0 "vb_nonlinearIV" s).
Proof.
  unfold body_constrained.
  apply (ends_seq (heap_from n0) (heap_from n0)); [keeps_objects |].
  apply (ends_seq (heap_from n0) (heap_from n0)); [keeps_objects |].
  apply (ends_seq (heap_from n0)
           (fun s => heap_from n0 s /\
                     created_since n0 "vb_nonlinearIV_new" s));
    [apply ends_assign_new |].
  apply (ends_seq _ (fun s => heap_from n0 s /\
                              created_since n0 "vb_nonlinearIV_new" s));
    [apply ends_assign_dchange |].
  apply ends_assign_alias.
Qed.

Hypothesis Hone : @one_exceeds_tolerance F NF.

(** A loop entered with [dchange = 1] makes a pass before it ends. *)
Lemma loop_leaves_new (body : stmt) (fuel : nat) :
  ends_with (heap_from n0) body
    (fun s => heap_from n0 s /\ created_since n0 "vb_nonlinearIV" s) ->
  ends_with (fun s => heap_from n0 s /\ dchange s = one)
    (while fuel body)
    (fun s => heap_from n0 s /\ created_since n0 "vb_nonlinearIV" s).
Proof.
  intros Hb.
  apply (ends_weaken
           (fun s => heap_from n0 s /\
                     (dchange s = one \/
                      created_since n0 "vb_nonlinearIV" s))
           _
           (fun s => (heap_from n0 s /\
                      (dchange s = one \/
                       created_since n0 "vb_nonlinearIV" s)) /\
                     gtb (dchange s) tolerance = false)).
  - intros s [H1 H2]. split; [exact H1 | left; exact H2].
  - intros s [[H1 [H2 | H2]] H3]; [| split; assumption].
    rewrite H2 in H3. unfold one_exceeds_tolerance in Hone.
    rewrite Hone in H3. discriminate.
  - apply ends_while. intros s s' u [H1 _] E.
    destruct (Hb s s' u H1 E) as [H1' H2']. split; [exact H1' |].
    right. exact H2'.
Qed.

(** The cell, when it ends normally. *)
Lemma nonlinear_cell_leaves_new (fuel : nat) :
  ends_with (heap_from n0) (nonlinear_cell fuel)
    (fun s => heap_from n0 s /\ created_since n0 "vb_nonlinearIV" s).
Proof.
  unfold nonlinear_cell.
  apply (ends_seq (heap_from n0) (heap_from n0));
    [unfold structure_the_data; keeps_objects |].
  apply (ends_seq (heap_from n0)
           (fun s => heap_from n0 s /\
                     created_since n0 "vb_nonlinearIV" s)).
  - unfold unconstrained_estimation.
    apply (ends_seq (heap_from n0) (heap_from n0)); [keeps_objects |].
    apply (ends_seq (heap_from n0)
             (fun s => heap_from n0 s /\ dchange s = one));
      [apply ends_dchange_one |].
    apply loop_leaves_new. exact body_unconstrained_new.
  - unfold constrained_estimation. apply ends_if; [| auto].
    apply (ends_weaken (heap_from n0) _
             (fun s => heap_from n0 s /\
                       created_since n0 "vb_nonlinearIV" s));
      [intros s [H _]; exact H | auto |].
    apply (ends_seq (heap_from n0) (heap_from n0)); [keeps_objects |].
    apply (ends_seq (heap_from n0) (heap_from n0)); [keeps_objects |].
    apply (ends_seq (heap_from n0) (heap_from n0)); [keeps_objects |].
    apply (ends_seq (heap_from n0) (heap_from n0)); [keeps_objects |].
    apply (ends_seq (heap_from n0) (heap_from n0)).
    + unfold body_constrained. keeps_objects.
    + apply ends_assign_new.
Qed.

Lemma nth_error_overwrite_other (h : list (ndarray F)) (r r' : nat)
    (a : ndarray F) :
  r <> r' -> nth_error (overwrite h r a) r' = nth_error h r'.
Proof.
  revert r r'. induction h as [| b h IH]; intros [| r] [| r'] H;
    cbn [overwrite nth_error]; try reflexivity; try contradiction.
  apply IH. lia.
Qed.

End Fresh.

Section Result.
Context {F : Type} {NF : Numeric F} {LA : LinAlg F}.
Local Abbreviation state := (@Store.state F).

(** X13.  When the nonlinear cell ends normally, [vb_nonlinearIV] refers to
    an array the cell has created, a whole object and not a slice: the
    first loop is entered with [dchange = 1 > 1e-4], so that the name, which
    [vb_nonlinearIV = vb_linearIV] had put on the object of [vb_linearIV],
    is moved to a new array before the loop can end.  The two names share
    no object at the end: an update in place of [vb_nonlinearIV] after the
    cell would leave [vb_linearIV] as it is. *)
Theorem result_is_a_new_array (fuel : nat) (s : state) (u : unit) :
  one_exceeds_tolerance ->
  snd (nonlinear_cell fuel s) = Returned u ->
  (exists v,
     globals (fst (nonlinear_cell fuel s)) "vb_nonlinearIV" = Some v /\
     length (heap s) <= ref v /\ windows v = []) /\
  (forall a vb_lin,
     well_formed s -> load "vb_linearIV" s = inr vb_lin ->
     load "vb_linearIV"
       (update_in_place "vb_nonlinearIV" a (fst (nonlinear_cell fuel s)))
     = inr vb_lin).
Proof.
  intros Hone Hend.
  assert (Hnew : created_since (length (heap s)) "vb_nonlinearIV"
                   (fst (nonlinear_cell fuel s))).
  { destruct (nonlinear_cell fuel s) as [s' o] eqn:E. cbn [fst snd] in *.
    subst o.
    apply (nonlinear_cell_leaves_new (length (heap s)) Hone fuel s s' u);
      [unfold heap_from; lia | exact E]. }
  split; [exact Hnew |].
  intros a vb_lin Hwf Hl. destruct Hnew as (v & Hv & Hr & _).
  destruct (framed_nonlinear_cell fuel s) as [Hg Hh].
  unfold update_in_place. rewrite Hv. unfold load in *. cbn [globals].
  rewrite Hg.
  destruct (globals s "vb_linearIV") as [vl |] eqn:Hvl; [| discriminate].
  unfold deref in *. cbn [heap].
  pose proof (Hwf _ _ Hvl) as Hlt.
  rewrite nth_error_overwrite_other by lia.
  destruct (nth_error (heap s) (ref vl)) as [b |] eqn:Hb; [| discriminate].
  rewrite (Hh _ _ Hb). exact Hl.
Qed.

End Result.
End Namespace.

(** ** What the linear cell solves *)

Module NormalEquations.
Import RNum RFacts Recovery.
Local Open Scope R_scope.

(** [inv(A.T @ B) @ A.T @ y], when it is computed, is the one column [x]
    with [(A.T @ B) @ x = A.T @ y]. *)
Lemma solve_characterised (A B y x : ndarray R) (T n : nat) :
  nrows A = T -> ncols A = n -> length (cells A) = T ->
  nrows B = T -> ncols B = n ->
  nrows y = T -> ncols y = 1%nat ->
  (M <- matmul (transpose A) B ;; Minv <- inv M ;;
   MAt <- matmul Minv (transpose A) ;; matmul MAt y) = inr x ->
  exists M,
    matmul (transpose A) B = inr M /\
    matmul M x = matmul (transpose A) y /\
    forall b, column_of_height n b ->
              matmul M b = matmul (transpose A) y -> b = x.
Proof.
  intros HAr HAc HAl HBr HBc Hyr Hyc H.
  apply bind_ret_inv in H as (M & HM & H). exists M. split; [exact HM |].
  apply bind_ret_inv in H as (N & HN & H).
  apply bind_ret_inv in H as (MAt & HMAt & Hx).
  unfold inv in HN. destruct (linalg_inv M) as [N' |] eqn:HN';
    [| discriminate].
  inversion HN; subst N'; clear HN.
  apply inverse_spec in HN'.
  destruct HN' as (_ & _ & HNr & HNc & [HNl HNrows] & HMN & HNM).
  apply matmul_inv in HM as [_ HMe].
  assert (HMr : nrows M = n) by (rewrite HMe; cbn [nrows transpose]; exact HAc).
  assert (HMc : ncols M = n) by (rewrite HMe; cbn [ncols]; exact HBc).
  rewrite HMr in *. rewrite HNc in HNrows. rewrite HNr in HNl.
  apply matmul_inv in HMN as [_ HMN]. apply matmul_inv in HNM as [_ HNM].
  apply (f_equal (@cells R)) in HMN, HNM. cbn [cells] in HMN, HNM.
  rewrite HNc in HMN. rewrite HMc in HNM.
  apply matmul_inv in HMAt as [_ HMAt].
  apply matmul_inv in Hx as [_ Hx].
  set (At := cells (transpose A)) in *.
  set (g := matmul_cells At (cells y) 1).
  assert (HAt : Forall (fun r => length r = T) At).
  { pose proof (transpose_rows A) as Hrows. rewrite HAl in Hrows.
    exact Hrows. }
  assert (Hgl : length g = n).
  { unfold g, At, matmul_cells, transpose. cbn [cells].
    rewrite !length_map, length_seq. exact HAc. }
  assert (Hg1 : Forall (fun r => length r = 1%nat) g)
    by apply matmul_cells_rows.
  assert (Hxc : cells x = matmul_cells (cells N) g 1).
  { rewrite Hx, HMAt. cbn [cells ncols transpose]. rewrite Hyc, HAr.
    apply (matmul_cells_assoc (cells N) At (cells y) T 1 HAt). }
  assert (Hxr : nrows x = n) by (rewrite Hx, HMAt; exact HNr).
  assert (Hxn : ncols x = 1%nat) by (rewrite Hx; exact Hyc).
  assert (Hrhs : matmul (transpose A) y = inr (mkArr n 1 g)).
  { unfold matmul. cbn [transpose nrows ncols]. rewrite HAr, Hyr.
    rewrite Nat.eqb_refl, HAc, Hyc. reflexivity. }
  rewrite Hrhs. split.
  - unfold matmul. rewrite HMc, Hxr, Nat.eqb_refl, HMr, Hxn.
    unfold ret. f_equal. f_equal. rewrite Hxc.
    rewrite <- (matmul_cells_assoc (cells M) (cells N) g n 1 HNrows).
    rewrite <- HMN. exact (matmul_cells_identity_l g n 1 Hgl Hg1).
  - intros b (Hbr & Hbc & Hbl & Hbrows) Hb.
    unfold matmul in Hb. rewrite HMc, Hbr, Nat.eqb_refl, HMr, Hbc in Hb.
    inversion Hb as [Hbg].
    assert (E : cells b = cells x).
    { rewrite Hxc, <- Hbg.
      rewrite <- (matmul_cells_assoc (cells N) (cells M) (cells b) n 1).
      - rewrite <- HNM. symmetry.
        exact (matmul_cells_identity_l (cells b) n 1 Hbl Hbrows).
      - rewrite HMe. cbn [cells]. rewrite HBc. apply matmul_cells_rows. }
    destruct b as [br bc bcells], x as [xr xc xcells].
    cbn [nrows ncols cells] in *. subst. reflexivity.
Qed.

(** X12.  What the two estimation lines of the linear cell return solves
    their normal equations, and nothing else does (real arithmetic).  On a
    table of ten columns, the vector of [np.linalg.inv(mZ.T@mX)@mZ.T@vLNrweight]
    is the one column [vb] of seven cells with
    [(mZ.T@mX) @ vb = mZ.T @ vLNrweight]: the residuals of the held rows are
    orthogonal to the instruments.  The constrained branch returns .99 on
    top of the one column [b] of six cells with
    [(mX.T@mX) @ b = mX.T @ (vLNrweight - .99*vLNme)], [mX] being
    [[mchars | vones]]. *)
Theorem linear_cell_solves_normal_equations (mdata : ndarray R)
    (d : linear_data) :
  table_ok mdata -> structure_linear mdata = inr d ->
  (forall vb,
     unconstrained_linear d = inr vb ->
     exists M,
       matmul (transpose (l_mZ d)) (l_mX d) = inr M /\
       matmul M vb = matmul (transpose (l_mZ d)) (l_vLNrweight d) /\
       forall b, column_of_height 7 b ->
                 matmul M b = matmul (transpose (l_mZ d)) (l_vLNrweight d) ->
                 b = vb) /\
  (forall vb,
     constrained_linear d = inr vb ->
     exists mX y M b,
       concatenate1 (l_mchars d) [l_vones d] = inr mX /\
       asub (l_vLNrweight d) (scale ceiling (l_vLNme d)) = inr y /\
       matmul (transpose mX) mX = inr M /\
       cells vb = [ceiling] :: cells b /\
       matmul M b = matmul (transpose mX) y /\
       forall b', column_of_height 6 b' ->
                  matmul M b' = matmul (transpose mX) y -> b' = b).
Proof.
  intros Hok Hd. rewrite (structure_linear_spec mdata Hok) in Hd.
  cbn zeta in Hd. inversion Hd; subst d; clear Hd.
  set (kept := retained (observations mdata)).
  cbn [l_mZ l_mX l_vLNrweight l_mchars l_vones l_vLNme].
  split.
  - intros vb H.
    apply (solve_characterised (instruments kept) (design kept)
             (log_weights kept) vb (length kept) 7); try reflexivity.
    + unfold instruments, matrix_of. cbn [cells]. apply length_map.
    + exact H.
  - intros vb H. unfold constrained_linear in H.
    cbn [l_mchars l_vones l_vLNrweight l_vLNme] in H.
    pose proof (reduced_design_code kept) as HX.
    cbn [n_mchars n_vones nonlinear_data_of] in HX.
    rewrite HX in H. cbn [bind] in H.
    assert (Hy : asub (log_weights kept)
                   (scale ceiling (column_of log_market_value kept))
                 = inr (adjusted_log_weights kept)).
    { unfold asub, zipwith, scale, amap, log_weights, adjusted_log_weights,
        column_of. cbn [nrows ncols cells]. rewrite !Nat.eqb_refl.
      cbn [andb]. rewrite map_map, map2_map. reflexivity. }
    destruct (matmul (transpose (reduced_design kept)) (reduced_design kept))
      as [e | M] eqn:HM; [discriminate |]. cbn [bind] in H.
    destruct (inv M) as [e | Minv] eqn:HN; [discriminate |].
    cbn [bind] in H.
    destruct (matmul Minv (transpose (reduced_design kept)))
      as [e | MXt] eqn:HMXt; [discriminate |]. cbn [bind] in H.
    rewrite Hy in H. cbn [bind] in H.
    destruct (matmul MXt (adjusted_log_weights kept)) as [e | b] eqn:Hb;
      [discriminate |]. cbn [bind] in H.
    apply concatenate0_singleton in H as [_ Hvb].
    exists (reduced_design kept), (adjusted_log_weights kept), M, b.
    split; [exact HX |]. split; [exact Hy |]. split; [exact HM |].
    split; [rewrite Hvb; reflexivity |].
    destruct (solve_characterised (reduced_design kept)
                (reduced_design kept) (adjusted_log_weights kept) b
                (length kept) 6) as (M' & HM' & Hsol & Huniq);
      try reflexivity.
    + unfold reduced_design, matrix_of. cbn [cells]. apply length_map.
    + rewrite HM. cbn [bind]. rewrite HN. cbn [bind]. rewrite HMXt.
      cbn [bind]. exact Hb.
    + rewrite HM in HM'. inversion HM'; subst M'. split; assumption.
Qed.

End NormalEquations.

(** ** The weights in another unit *)

Module Rescaling.
Import RNum RFacts Recovery.
Local Open Scope R_scope.

Lemma dot_shifted {O} (r : list R) (y : O -> R) (s : R) (k : list O) :
  dot r (map (fun o => y o + s) k)
  = dot r (map y k) + s * dot r (map (fun _ => 1) k).
Proof.
  revert r. induction k as [| o k IH]; intros [| x r]; cbn [map].
  - cbn [dot]. rewrite zero_R. ring.
  - rewrite !dot_nil_r. ring.
  - cbn [dot]. rewrite zero_R. ring.
  - rewrite !dot_cons, IH. ring.
Qed.

(** Adding [s] times the last unit vector is adding [s] to the last cell. *)
Lemma shift_by_unit {A} (f g : A -> R) (s : R) (m : nat) (l : list A) :
  map f l = repeat 0 m ++ [1] ->
  map (fun r => [g r + s * f r]) l = shift_last s (map (fun r => [g r]) l).
Proof.
  revert l. induction m as [| m IH]; intros l H; cbn [repeat app] in H.
  - destruct l as [| r [| r' l']]; try discriminate.
    cbn [map] in *. injection H as Hr. cbn [shift_last map].
    rewrite Hr. cbn [add numeric]. do 2 f_equal. ring.
  - destruct l as [| r l]; [discriminate |]. cbn [map] in H.
    injection H as Hr Hl. specialize (IH l Hl).
    destruct l as [| r1 l]; [destruct m; discriminate |].
    cbn [map] in *.
    change (shift_last s ([g r] :: [g r1] :: map (fun r => [g r]) l))
      with ([g r] :: shift_last s ([g r1] :: map (fun r => [g r]) l)).
    rewrite <- IH, Hr. do 2 f_equal. ring.
Qed.

(** The regression on a constant: adding [s] to every cell of [y] adds [s]
    to the coefficient of the column of ones, the last of [X], and leaves
    the others as they are. *)
Lemma solve_rows_shift {O} (m : nat) (a x : O -> list R) (y : O -> R)
    (s : R) (k : list O) :
  Forall (fun o => length (x o) = S m) k ->
  Forall (fun o => dot (x o) (repeat 0 m ++ [1]) = 1) k ->
  solve_rows (S m) a x a (fun o => y o + s) k
  = map_result (shift_intercept s) (solve_rows (S m) a x a y k).
Proof.
  intros Hx Hone. unfold solve_rows.
  set (A := mkArr (length k) (S m) (map a k)).
  set (X := mkArr (length k) (S m) (map x k)).
  destruct (matmul (transpose A) X) as [e | M] eqn:HM; [reflexivity |].
  cbn [bind]. unfold inv.
  destruct (linalg_inv M) as [N |] eqn:HN; [| reflexivity].
  cbn [bind ret].
  destruct (matmul N (transpose A)) as [e | NZ] eqn:HNZ; [reflexivity |].
  cbn [bind]. unfold matmul. cbn [nrows ncols cells].
  destruct (Nat.eqb (ncols NZ) (length k)); [| reflexivity].
  unfold ret. cbn [map_result]. unfold shift_intercept.
  cbn [nrows ncols cells]. apply f_equal. apply f_equal.
  (* the inverse and the products *)
  apply inverse_spec in HN.
  destruct HN as (_ & _ & HNr & HNc & _ & _ & HNM).
  apply matmul_inv in HM as [_ HMe].
  assert (HMr : nrows M = S m) by (rewrite HMe; reflexivity).
  assert (HMc : ncols M = S m) by (rewrite HMe; reflexivity).
  apply matmul_inv in HNM as [_ HNM].
  apply (f_equal (@cells R)) in HNM. cbn [cells] in HNM.
  rewrite HMr, HMc in HNM.
  apply matmul_inv in HNZ as [_ HNZe].
  set (Zt := cells (transpose A)) in *.
  assert (HZt : Forall (fun r => length r = length k) Zt).
  { pose proof (transpose_rows A) as H.
    assert (El : length (cells A) = length k)
      by (unfold A; cbn [cells]; apply length_map).
    rewrite El in H. exact H. }
  assert (HNZc : cells NZ = matmul_cells (cells N) Zt (length k)).
  { rewrite HNZe. reflexivity. }
  set (E := map (fun e : R => [e]) (repeat 0 m ++ [1])).
  assert (Hones : matmul_cells (map x k) E 1 = map (fun _ => [1]) k).
  { unfold E. rewrite matmul_cells_colvec, map_map.
    apply map_ext_in. intros o Ho. rewrite Forall_forall in Hone.
    rewrite (Hone o Ho). reflexivity. }
  assert (Hunit : matmul_cells (cells NZ) (map (fun _ => [1]) k) 1 = E).
  { rewrite <- Hones, HNZc.
    rewrite (matmul_cells_assoc (cells N) Zt _ (length k) 1 HZt).
    rewrite <- (matmul_cells_assoc Zt (map x k) E (S m) 1).
    2: { apply Forall_forall. intros r Hr.
         apply in_map_iff in Hr as (o & <- & Ho).
         rewrite Forall_forall in Hx. exact (Hx o Ho). }
    assert (HMcells : matmul_cells Zt (map x k) (S m) = cells M)
      by (rewrite HMe; reflexivity).
    rewrite HMcells.
    rewrite <- (matmul_cells_assoc (cells N) (cells M) E (S m) 1).
    2: { rewrite <- HMcells. apply matmul_cells_rows. }
    rewrite <- HNM. apply matmul_cells_identity_l.
    - unfold E. rewrite length_map, length_app, repeat_length.
      cbn [length]. lia.
    - apply Forall_forall. intros r Hr. unfold E in Hr.
      apply in_map_iff in Hr as (e & <- & _). reflexivity. }
  (* row by row *)
  assert (Hcol : forall z : O -> R,
             matmul_cells (cells NZ) (map (fun o => [z o]) k) 1
             = map (fun r => [dot r (map z k)]) (cells NZ)).
  { intros z. rewrite <- (map_map z (fun v : R => [v])).
    apply matmul_cells_colvec. }
  rewrite !Hcol. rewrite (Hcol (fun _ => 1)) in Hunit.
  rewrite <- (shift_by_unit (fun r => dot r (map (fun _ => 1) k))
                (fun r => dot r (map y k)) s m (cells NZ)).
  - apply map_ext. intros r. rewrite dot_shifted. reflexivity.
  - unfold E in Hunit.
    assert (Hinj : forall u v : list R,
               map (fun e : R => [e]) u = map (fun e : R => [e]) v ->
               u = v).
    { induction u as [| p u IHu]; intros [| q v] H; cbn [map] in H;
        try discriminate; [reflexivity |].
      inversion H. f_equal. apply IHu. assumption. }
    apply Hinj. rewrite map_map. exact Hunit.
Qed.

Lemma solve_rows_map {O O'} (n : nat) (f : O' -> O) (a x z : O -> list R)
    (y : O -> R) (k : list O') :
  solve_rows n a x z y (map f k)
  = solve_rows n (fun o => a (f o)) (fun o => x (f o)) (fun o => z (f o))
      (fun o => y (f o)) k.
Proof. unfold solve_rows. rewrite !map_map, length_map. reflexivity. Qed.

Lemma solve_rows_ext {O} (n : nat) (a a' x z : O -> list R) (y y' : O -> R)
    (k : list O) :
  (forall o, In o k -> a o = a' o) -> (forall o, In o k -> y o = y' o) ->
  solve_rows n a x z y k = solve_rows n a' x z y' k.
Proof.
  intros Ha Hy. unfold solve_rows.
  rewrite (map_ext_in a a' k Ha).
  rewrite (map_ext_in (fun o => [y o]) (fun o => [y' o]) k).
  - reflexivity.
  - intros o Ho. rewrite (Hy o Ho). reflexivity.
Qed.

(** *** The rows and the observations of the rescaled table *)

Lemma observation_of_scale_row (c : R) (r : list R) :
  length r = 10%nat ->
  observation_of (scale_row c r) = rescale_observation c (observation_of r).
Proof.
  intros H.
  do 10 (destruct r as [| ? r]; [discriminate |]).
  destruct r; [reflexivity | discriminate].
Qed.

Lemma table_ok_rescaled (c : R) (mdata : ndarray R) :
  table_ok mdata -> table_ok (rescale_weights c mdata).
Proof.
  intros (Hc & Hl & Hrows). unfold rescale_weights.
  split; [exact Hc |]. cbn [nrows ncols cells].
  split; [rewrite length_map; exact Hl |].
  apply Forall_forall. intros r' Hr'.
  apply in_map_iff in Hr' as (r & <- & Hr).
  rewrite Forall_forall in Hrows. specialize (Hrows r Hr).
  do 10 (destruct r as [| ? r]; [discriminate |]).
  destruct r; [reflexivity | discriminate].
Qed.

Lemma observations_rescaled (c : R) (mdata : ndarray R) :
  table_ok mdata ->
  observations (rescale_weights c mdata)
  = map (rescale_observation c) (observations mdata).
Proof.
  intros (_ & _ & Hrows). unfold observations, rescale_weights.
  cbn [cells]. rewrite !map_map. apply map_ext_in. intros r Hr.
  rewrite Forall_forall in Hrows.
  exact (observation_of_scale_row c r (Hrows r Hr)).
Qed.

Lemma retained_rescaled (c : R) (obs : list (@observation R)) :
  0 < c ->
  retained (map (rescale_observation c) obs)
  = map (rescale_observation c) (retained obs).
Proof.
  intros Hc. unfold retained.
  induction obs as [| o obs IH]; cbn [map filter]; [reflexivity |].
  rewrite IH.
  assert (E : @gtb R numeric (c * weight o) zero
              = @gtb R numeric (weight o) zero).
  { cbn [gtb numeric]. rewrite zero_R. unfold Rgtb.
    destruct (Rgt_dec (c * weight o) 0) as [H1 | H1],
             (Rgt_dec (weight o) 0) as [H2 | H2]; try reflexivity;
      exfalso.
    - apply H2. apply Rmult_lt_reg_l with c; [exact Hc |].
      rewrite Rmult_0_r. exact H1.
    - apply H1. apply Rmult_gt_0_compat; assumption. }
  cbn [rescale_observation weight mul numeric]. rewrite E.
  destruct (@gtb R numeric (weight o) zero); reflexivity.
Qed.

Lemma retained_positive (obs : list (@observation R)) :
  Forall (fun o => 0 < weight o) (retained obs).
Proof.
  unfold retained. apply Forall_forall. intros o Ho.
  apply filter_In in Ho as [_ Ho]. cbn [gtb numeric] in Ho.
  rewrite zero_R in Ho. unfold Rgtb in Ho.
  destruct (Rgt_dec (weight o) 0); [lra | discriminate].
Qed.

(** The last regressor is the constant. *)
Lemma dot_last_unit (u : list R) (x : R) :
  dot (u ++ [x]) (repeat 0 (length u) ++ [1]) = x.
Proof.
  induction u as [| z u IH]; cbn [app length repeat].
  - rewrite dot_cons. cbn [dot]. rewrite zero_R. ring.
  - rewrite dot_cons, IH. ring.
Qed.

Lemma design_row_constant (o : @observation R) :
  length (characteristics o) = characteristic_count ->
  length (design_row o) = 7%nat /\
  dot (design_row o) (repeat 0 6 ++ [1]) = 1.
Proof.
  intros H. unfold design_row. split.
  - cbn [length]. rewrite length_app, H. reflexivity.
  - change (log_market_value o :: characteristics o ++ [one])
      with ((log_market_value o :: characteristics o) ++ [one]).
    replace 6%nat with (length (log_market_value o :: characteristics o))
      by (cbn [length]; rewrite H; reflexivity).
    rewrite dot_last_unit. apply one_R.
Qed.

Lemma reduced_row_constant (o : @observation R) :
  length (characteristics o) = characteristic_count ->
  length (reduced_row o) = 6%nat /\
  dot (reduced_row o) (repeat 0 5 ++ [1]) = 1.
Proof.
  intros H. unfold reduced_row. split.
  - rewrite length_app, H. reflexivity.
  - replace 5%nat with (length (characteristics o)) by exact H.
    rewrite dot_last_unit. apply one_R.
Qed.

(** *** The linear cell *)

Lemma exceeds_ceiling_shift (s : R) (vb : ndarray R) :
  (2 <= length (cells vb))%nat ->
  exceeds_ceiling (shift_intercept s vb) = exceeds_ceiling vb.
Proof.
  intros H. unfold exceeds_ceiling, row0, shift_intercept. cbn [cells].
  destruct (cells vb) as [| r [| r' rest]]; cbn [length] in H; try lia.
  reflexivity.
Qed.

Lemma two_stage_rescaled (c : R) (obs : list (@observation R)) :
  0 < c -> five_characteristics obs ->
  two_stage_least_squares (map (rescale_observation c) obs)
  = map_result (shift_intercept (ln c)) (two_stage_least_squares obs).
Proof.
  intros Hc Hk. unfold two_stage_least_squares. cbn zeta.
  rewrite (retained_rescaled c obs Hc).
  set (kept := retained obs).
  assert (Hkk : Forall (fun o => length (characteristics o)
                                  = characteristic_count) kept)
    by (apply Forall_filter; exact Hk).
  change (solve_rows 7 instrument_row design_row instrument_row
            (fun o => flog (weight o)) (map (rescale_observation c) kept)
          = map_result (shift_intercept (ln c))
              (solve_rows 7 instrument_row design_row instrument_row
                 (fun o => flog (weight o)) kept)).
  rewrite solve_rows_map.
  rewrite (solve_rows_ext 7
             (fun o => instrument_row (rescale_observation c o))
             instrument_row
             (fun o => design_row (rescale_observation c o))
             (fun o => instrument_row (rescale_observation c o))
             (fun o => flog (weight (rescale_observation c o)))
             (fun o => ln (weight o) + ln c) kept).
  - apply (solve_rows_shift 6 instrument_row design_row
             (fun o => ln (weight o)) (ln c) kept).
    + apply Forall_forall. intros o Ho. rewrite Forall_forall in Hkk.
      exact (proj1 (design_row_constant o (Hkk o Ho))).
    + apply Forall_forall. intros o Ho. rewrite Forall_forall in Hkk.
      exact (proj2 (design_row_constant o (Hkk o Ho))).
  - reflexivity.
  - intros o Ho. cbn [rescale_observation weight flog mul numeric].
    pose proof (retained_positive obs) as Hpos.
    rewrite Forall_forall in Hpos.
    rewrite ln_mult; [ring | exact Hc | exact (Hpos o Ho)].
Qed.

Lemma constrained_rescaled (c : R) (obs : list (@observation R)) :
  0 < c -> five_characteristics obs ->
  constrained_least_squares (map (rescale_observation c) obs)
  = map_result (shift_intercept (ln c)) (constrained_least_squares obs).
Proof.
  intros Hc Hk. unfold constrained_least_squares. cbn zeta.
  rewrite (retained_rescaled c obs Hc).
  set (kept := retained obs).
  assert (Hkk : Forall (fun o => length (characteristics o)
                                  = characteristic_count) kept)
    by (apply Forall_filter; exact Hk).
  set (adj := fun o : @observation R =>
                sub (flog (weight o)) (mul ceiling (log_market_value o))).
  assert (E : normal_equation
                (reduced_design (map (rescale_observation c) kept))
                (reduced_design (map (rescale_observation c) kept))
                (adjusted_log_weights (map (rescale_observation c) kept))
              = map_result (shift_intercept (ln c))
                  (solve_rows 6 reduced_row reduced_row reduced_row adj
                     kept)).
  { change (solve_rows 6 reduced_row reduced_row reduced_row adj
              (map (rescale_observation c) kept)
            = map_result (shift_intercept (ln c))
                (solve_rows 6 reduced_row reduced_row reduced_row adj
                   kept)).
    rewrite solve_rows_map.
    rewrite (solve_rows_ext 6
               (fun o => reduced_row (rescale_observation c o))
               reduced_row
               (fun o => reduced_row (rescale_observation c o))
               (fun o => reduced_row (rescale_observation c o))
               (fun o => adj (rescale_observation c o))
               (fun o => adj o + ln c) kept).
    - apply (solve_rows_shift 5 reduced_row reduced_row adj (ln c) kept).
      + apply Forall_forall. intros o Ho. rewrite Forall_forall in Hkk.
        exact (proj1 (reduced_row_constant o (Hkk o Ho))).
      + apply Forall_forall. intros o Ho. rewrite Forall_forall in Hkk.
        exact (proj2 (reduced_row_constant o (Hkk o Ho))).
    - reflexivity.
    - intros o Ho. unfold adj.
      cbn [rescale_observation weight log_market_value flog sub mul
             numeric].
      pose proof (retained_positive obs) as Hpos.
      rewrite Forall_forall in Hpos.
      rewrite ln_mult; [ring | exact Hc | exact (Hpos o Ho)]. }
  rewrite E.
  change (normal_equation (reduced_design kept) (reduced_design kept)
            (adjusted_log_weights kept))
    with (solve_rows 6 reduced_row reduced_row reduced_row adj kept).
  pose proof (normal_equation_outcome inverse_keeps_shape_R
                (reduced_design kept) (reduced_design kept)
                (adjusted_log_weights kept) (length kept) 6
                eq_refl eq_refl eq_refl eq_refl eq_refl eq_refl) as Hb.
  change (normal_equation (reduced_design kept) (reduced_design kept)
            (adjusted_log_weights kept))
    with (solve_rows 6 reduced_row reduced_row reduced_row adj kept) in Hb.
  destruct (solve_rows 6 reduced_row reduced_row reduced_row adj kept)
    as [e | b]; [reflexivity |].
  cbn [map_result bind ret sound_result] in *.
  destruct Hb as (Hbr & Hbc & Hbl & Hbrows).
  unfold shift_intercept. cbn [nrows ncols cells].
  destruct (cells b) as [| r rest]; [discriminate |]. reflexivity.
Qed.

(** The linear cell on the rescaled table. *)
Lemma linear_cell_rescaled (c : R) (mdata : ndarray R) :
  table_ok mdata -> 0 < c ->
  vb_linearIV (rescale_weights c mdata)
  = map_result (shift_intercept (ln c)) (vb_linearIV mdata).
Proof.
  intros Hok Hc.
  rewrite (vb_linearIV_estimators _ (table_ok_rescaled c mdata Hok)).
  rewrite (vb_linearIV_estimators mdata Hok).
  rewrite (observations_rescaled c mdata Hok).
  pose proof (observations_five mdata) as Hk.
  rewrite (two_stage_rescaled c _ Hc Hk), (constrained_rescaled c _ Hc Hk).
  set (kept := retained (observations mdata)).
  pose proof (normal_equation_outcome inverse_keeps_shape_R
                (instruments kept) (design kept) (log_weights kept)
                (length kept) 7
                eq_refl eq_refl eq_refl eq_refl eq_refl eq_refl) as H0.
  change (normal_equation (instruments kept) (design kept)
            (log_weights kept))
    with (two_stage_least_squares (observations mdata)) in H0.
  destruct (two_stage_least_squares (observations mdata)) as [e | vb0];
    [reflexivity |].
  cbn [map_result bind sound_result] in *.
  destruct H0 as (_ & _ & Hl & _).
  rewrite exceeds_ceiling_shift by (rewrite Hl; lia).
  destruct (exceeds_ceiling vb0) as [e | []]; reflexivity.
Qed.

(** *** The passes of the loops *)

Lemma dot_column_shift (m : nat) (x : list R) (rows : list (list R))
    (a : R) :
  length rows = S m -> Forall (fun r => length r = 1%nat) rows ->
  length x = S m ->
  dot x (column 0 (shift_last a rows))
  = dot x (column 0 rows) + a * dot x (repeat 0 m ++ [1]).
Proof.
  revert x rows. induction m as [| m IH]; intros x rows Hl Hrows Hx.
  - destruct rows as [| r [| ? ?]]; try discriminate.
    destruct x as [| x0 [| ? ?]]; try discriminate.
    inversion Hrows as [| ? ? Hr _]; subst.
    destruct r as [| v [| ? ?]]; try discriminate.
    cbn [shift_last map column nth repeat app add numeric].
    rewrite !dot_cons. cbn [dot]. rewrite zero_R. ring.
  - destruct rows as [| r rows]; [discriminate |].
    destruct x as [| x0 x]; [discriminate |].
    inversion Hrows as [| ? ? Hr Hrows']; subst.
    cbn [length] in Hl, Hx.
    destruct rows as [| r1 rows]; [discriminate |].
    change (shift_last a (r :: r1 :: rows))
      with (r :: shift_last a (r1 :: rows)).
    change (repeat 0 (S m) ++ [1]) with (0 :: (repeat 0 m ++ [1])).
    change (column 0 (r :: shift_last a (r1 :: rows)))
      with (nth 0 r zero :: column 0 (shift_last a (r1 :: rows))).
    change (column 0 (r :: r1 :: rows))
      with (nth 0 r zero :: column 0 (r1 :: rows)).
    rewrite !dot_cons, (IH x (r1 :: rows)); [ring | lia | exact Hrows' |
                                              lia].
Qed.

Lemma dot_neg_unit (x : list R) (e : list R) :
  dot (map neg x) e = - dot x e.
Proof. exact (dot_opp x e). Qed.

(** The latent demand does not see the unit of the weights, once the
    constant has taken it up. *)
Lemma latent_unconstrained_rescaled (c : R) (vb : ndarray R)
    (o : @observation R) :
  0 < c -> column_of_height 7 vb ->
  length (characteristics o) = characteristic_count ->
  latent_unconstrained_at (column 0 (cells (shift_intercept (ln c) vb)))
    (rescale_observation c o)
  = latent_unconstrained_at (column 0 (cells vb)) o.
Proof.
  intros Hc (_ & _ & Hl & Hrows) Ho.
  destruct (design_row_constant o Ho) as [Hxl Hx1].
  unfold latent_unconstrained_at, shift_intercept.
  cbn [cells rescale_observation weight].
  change (design_row (rescale_observation c o)) with (design_row o).
  rewrite (dot_column_shift 6 _ (cells vb) (ln c) Hl Hrows)
    by (rewrite length_map; exact Hxl).
  rewrite (dot_neg_unit (design_row o) (repeat 0 6 ++ [1])), Hx1.
  cbn [mul fexp numeric].
  replace (dot (map neg (design_row o)) (column 0 (cells vb))
           + ln c * - (1))
    with (dot (map neg (design_row o)) (column 0 (cells vb)) + - ln c)
    by ring.
  rewrite exp_plus, exp_Ropp, exp_ln by exact Hc.
  field. lra.
Qed.

Lemma latent_constrained_rescaled (c : R) (vb : ndarray R)
    (o : @observation R) :
  0 < c -> column_of_height 6 vb ->
  length (characteristics o) = characteristic_count ->
  latent_constrained_at (column 0 (cells (shift_intercept (ln c) vb)))
    (rescale_observation c o)
  = latent_constrained_at (column 0 (cells vb)) o.
Proof.
  intros Hc (_ & _ & Hl & Hrows) Ho.
  destruct (reduced_row_constant o Ho) as [Hxl Hx1].
  unfold latent_constrained_at, shift_intercept.
  cbn [cells rescale_observation weight log_market_value].
  change (reduced_row (rescale_observation c o)) with (reduced_row o).
  rewrite (dot_column_shift 5 _ (cells vb) (ln c) Hl Hrows) by exact Hxl.
  rewrite Hx1. cbn [mul sub fexp numeric].
  replace (neg ceiling * log_market_value o
           - (dot (reduced_row o) (column 0 (cells vb)) + ln c * 1))
    with (neg ceiling * log_market_value o
          - dot (reduced_row o) (column 0 (cells vb)) + - ln c)
    by ring.
  rewrite exp_plus, exp_Ropp, exp_ln by exact Hc.
  field. lra.
Qed.

Lemma map2_add_shift_last (a : R) (V U : list (list R)) :
  length V = length U ->
  Forall (fun r => length r = 1%nat) V ->
  Forall (fun r => length r = 1%nat) U ->
  map2 (map2 Rplus) (shift_last a V) U
  = shift_last a (map2 (map2 Rplus) V U).
Proof.
  revert U. induction V as [| v V IH]; intros [| u U] Hl HV HU;
    cbn [length] in Hl; try discriminate; [reflexivity |].
  inversion HV as [| ? ? Hv HV']; inversion HU as [| ? ? Hu HU']; subst.
  destruct v as [| x [| ? ?]]; try discriminate.
  destruct u as [| y [| ? ?]]; try discriminate.
  destruct V as [| v1 V], U as [| u1 U]; try discriminate.
  - cbn [shift_last map map2 add numeric]. do 2 f_equal. ring.
  - change (shift_last a ([x] :: v1 :: V))
      with ([x] :: shift_last a (v1 :: V)).
    cbn [map2]. rewrite (IH (u1 :: U)); [| cbn [length] in *; lia | |];
      try assumption.
    cbn [map2].
    destruct (map2 Rplus v1 u1 :: map2 (map2 Rplus) V U) eqn:E;
      [discriminate | reflexivity].
Qed.

Lemma map2_sub_shift_last (a : R) (V U : list (list R)) :
  length V = length U ->
  Forall (fun r => length r = 1%nat) V ->
  Forall (fun r => length r = 1%nat) U ->
  map2 (map2 Rminus) (shift_last a V) (shift_last a U)
  = map2 (map2 Rminus) V U.
Proof.
  revert U. induction V as [| v V IH]; intros [| u U] Hl HV HU;
    cbn [length] in Hl; try discriminate; [reflexivity |].
  inversion HV as [| ? ? Hv HV']; inversion HU as [| ? ? Hu HU']; subst.
  destruct v as [| x [| ? ?]]; try discriminate.
  destruct u as [| y [| ? ?]]; try discriminate.
  destruct V as [| v1 V], U as [| u1 U]; try discriminate.
  - cbn [shift_last map map2 add numeric]. do 2 f_equal. ring.
  - change (shift_last a ([x] :: v1 :: V))
      with ([x] :: shift_last a (v1 :: V)).
    change (shift_last a ([y] :: u1 :: U))
      with ([y] :: shift_last a (u1 :: U)).
    cbn [map2]. rewrite (IH (u1 :: U)); [| cbn [length] in *; lia | |];
      try assumption.
    reflexivity.
Qed.

(** The end of a pass: the new vector and the change. *)
Lemma finish_pass_shift (a : R) (n : nat) (vb upd : ndarray R) :
  column_of_height n vb -> column_of_height n upd ->
  (vb_new <- aadd (shift_intercept a vb) upd ;;
   dch <- dchange_of (shift_intercept a vb) vb_new ;; ret (dch, vb_new))
  = map_result (fun p => (fst p, shift_intercept a (snd p)))
      (vb_new <- aadd vb upd ;;
       dch <- dchange_of vb vb_new ;; ret (dch, vb_new)).
Proof.
  intros (Hr & Hc & Hl & Hrows) (Hur & Huc & Hul & Hurows).
  unfold aadd, zipwith, shift_intercept. cbn [nrows ncols cells].
  rewrite Hr, Hc, Hur, Huc, !Nat.eqb_refl. cbn [andb bind ret].
  unfold dchange_of, asub, zipwith. cbn [nrows ncols cells].
  rewrite ?Hr, ?Hc, !Nat.eqb_refl. cbn [andb bind ret].
  change (@add R numeric) with Rplus. change (@sub R numeric) with Rminus.
  rewrite (map2_add_shift_last a (cells vb) (cells upd))
    by (congruence || assumption).
  rewrite (map2_sub_shift_last a (cells vb)
             (map2 (map2 Rplus) (cells vb) (cells upd))).
  - destruct (np_max _) as [e | d]; reflexivity.
  - symmetry. apply map2_length_eq; congruence.
  - exact Hrows.
  - apply (map2_rows_length Rplus); assumption.
Qed.

Lemma step_unconstrained_rescaled (c : R) (k : list (@observation R))
    (vb : ndarray R) :
  0 < c -> five_characteristics k -> column_of_height 7 vb ->
  step_unconstrained (nonlinear_data_of (map (rescale_observation c) k))
    (shift_intercept (ln c) vb)
  = map_result (fun p => (fst p, shift_intercept (ln c) (snd p)))
      (step_unconstrained (nonlinear_data_of k) vb).
Proof.
  intros Hc Hk Hvb. pose proof Hvb as (Hr & Hcn & _).
  rewrite !step_unconstrained_split.
  rewrite (unconstrained_increment_rows (map (rescale_observation c) k)
             (shift_intercept (ln c) vb) Hcn Hr).
  rewrite (unconstrained_increment_rows k vb Hcn Hr).
  rewrite solve_rows_map.
  set (lat := latent_unconstrained_at (column 0 (cells vb))).
  set (lat' := latent_unconstrained_at
                 (column 0 (cells (shift_intercept (ln c) vb)))).
  rewrite (solve_rows_ext (characteristic_count + 2)
             (fun o => map2 mul
                         (spread (lat' (rescale_observation c o))
                            (characteristic_count + 2))
                         (instrument_row (rescale_observation c o)))
             (fun o => map2 mul (spread (lat o) (characteristic_count + 2))
                         (instrument_row o))
             (fun o => design_row (rescale_observation c o))
             (fun o => instrument_row (rescale_observation c o))
             (fun o => sub (lat' (rescale_observation c o)) one)
             (fun o => sub (lat o) one) k).
  2: { intros o Ho. unfold five_characteristics in Hk.
       rewrite Forall_forall in Hk. unfold lat', lat.
       rewrite (latent_unconstrained_rescaled c vb o Hc Hvb (Hk o Ho)).
       reflexivity. }
  2: { intros o Ho. unfold five_characteristics in Hk.
       rewrite Forall_forall in Hk. unfold lat', lat.
       rewrite (latent_unconstrained_rescaled c vb o Hc Hvb (Hk o Ho)).
       reflexivity. }
  change (fun o => design_row (rescale_observation c o)) with
    (@design_row R numeric).
  change (fun o => instrument_row (rescale_observation c o)) with
    (@instrument_row R numeric).
  set (U := solve_rows _ _ _ _ _ k).
  assert (HU : sound_result (column_of_height 7) U).
  { unfold U, solve_rows.
    apply (solve_outcome inverse_keeps_shape_R _ _ _ _ (length k) 7);
      reflexivity. }
  destruct U as [e | upd]; [reflexivity |].
  cbn [bind sound_result] in *.
  exact (finish_pass_shift (ln c) 7 vb upd Hvb HU).
Qed.

Lemma step_constrained_rescaled (c : R) (k : list (@observation R))
    (vb : ndarray R) :
  0 < c -> five_characteristics k -> column_of_height 6 vb ->
  step_constrained (nonlinear_data_of (map (rescale_observation c) k))
    (reduced_design (map (rescale_observation c) k))
    (shift_intercept (ln c) vb)
  = map_result (fun p => (fst p, shift_intercept (ln c) (snd p)))
      (step_constrained (nonlinear_data_of k) (reduced_design k) vb).
Proof.
  intros Hc Hk Hvb. pose proof Hvb as (Hr & Hcn & _).
  rewrite !step_constrained_split.
  rewrite (constrained_increment_rows (map (rescale_observation c) k)
             (shift_intercept (ln c) vb) Hcn Hr).
  rewrite (constrained_increment_rows k vb Hcn Hr).
  rewrite solve_rows_map.
  set (lat := latent_constrained_at (column 0 (cells vb))).
  set (lat' := latent_constrained_at
                 (column 0 (cells (shift_intercept (ln c) vb)))).
  rewrite (solve_rows_ext (characteristic_count + 1)
             (fun o => map2 mul
                         (spread (lat' (rescale_observation c o))
                            (characteristic_count + 1))
                         (reduced_row (rescale_observation c o)))
             (fun o => map2 mul (spread (lat o) (characteristic_count + 1))
                         (reduced_row o))
             (fun o => reduced_row (rescale_observation c o))
             (fun o => reduced_row (rescale_observation c o))
             (fun o => sub (lat' (rescale_observation c o)) one)
             (fun o => sub (lat o) one) k).
  2: { intros o Ho. unfold five_characteristics in Hk.
       rewrite Forall_forall in Hk. unfold lat', lat.
       rewrite (latent_constrained_rescaled c vb o Hc Hvb (Hk o Ho)).
       reflexivity. }
  2: { intros o Ho. unfold five_characteristics in Hk.
       rewrite Forall_forall in Hk. unfold lat', lat.
       rewrite (latent_constrained_rescaled c vb o Hc Hvb (Hk o Ho)).
       reflexivity. }
  change (fun o => reduced_row (rescale_observation c o)) with
    (@reduced_row R numeric).
  set (U := solve_rows _ _ _ _ _ k).
  assert (HU : sound_result (column_of_height 6) U).
  { unfold U, solve_rows.
    apply (solve_outcome inverse_keeps_shape_R _ _ _ _ (length k) 6);
      reflexivity. }
  destruct U as [e | upd]; [reflexivity |].
  cbn [bind sound_result] in *.
  exact (finish_pass_shift (ln c) 6 vb upd Hvb HU).
Qed.

(** *** The loops and the cells *)

Lemma while_loop_shift (a : R)
    (body body' : ndarray R -> result (R * ndarray R))
    (P : ndarray R -> Prop) :
  (forall vb, P vb ->
     body' (shift_intercept a vb)
     = map_result (fun p => (fst p, shift_intercept a (snd p))) (body vb)) ->
  (forall vb st, P vb -> body vb = inr st -> P (snd st)) ->
  forall fuel st, P (snd st) ->
    while_loop body' fuel (fst st, shift_intercept a (snd st))
    = map_outcome (shift_intercept a) (while_loop body fuel st).
Proof.
  intros Hsim Hinv. induction fuel as [| fuel IH]; intros st HP;
    cbn [while_loop fst snd map_outcome]; [reflexivity |].
  destruct (gtb (fst st) tolerance); [| reflexivity].
  rewrite (Hsim _ HP).
  destruct (body (snd st)) as [e | st'] eqn:Hb; cbn [map_result];
    [reflexivity |].
  exact (IH st' (Hinv _ _ HP Hb)).
Qed.

Lemma tail_rows_shift (a : R) (n : nat) (vb : ndarray R) :
  column_of_height (S (S n)) vb ->
  tail_rows (shift_intercept a vb) = shift_intercept a (tail_rows vb).
Proof.
  intros (_ & _ & Hl & _). unfold tail_rows, shift_intercept.
  cbn [nrows ncols cells].
  destruct (cells vb) as [| r [| r' rest]]; try discriminate.
  reflexivity.
Qed.

Lemma nonlinear_cell_rescaled (c : R) (mdata vb_lin : ndarray R)
    (fuel : nat) :
  table_ok mdata -> 0 < c -> column_of_height 7 vb_lin ->
  vb_nonlinearIV fuel (rescale_weights c mdata)
    (shift_intercept (ln c) vb_lin)
  = map_outcome (shift_intercept (ln c))
      (vb_nonlinearIV fuel mdata vb_lin).
Proof.
  intros Hok Hc Hlin. unfold vb_nonlinearIV.
  rewrite (structure_nonlinear_spec _ (table_ok_rescaled c mdata Hok)).
  rewrite (structure_nonlinear_spec mdata Hok).
  rewrite (observations_rescaled c mdata Hok).
  pose proof (observations_five mdata) as Hk.
  set (k := observations mdata) in *.
  set (k' := map (rescale_observation c) k).
  unfold nonlinear_of, unconstrained_nonlinear.
  pose proof (while_loop_shift (ln c)
                (step_unconstrained (nonlinear_data_of k))
                (step_unconstrained (nonlinear_data_of k'))
                (column_of_height 7)) as H1.
  specialize (H1 (fun vb Hvb => step_unconstrained_rescaled c k vb Hc Hk Hvb)).
  assert (Hinv1 : forall vb st, column_of_height 7 vb ->
                    step_unconstrained (nonlinear_data_of k) vb = inr st ->
                    column_of_height 7 (snd st)).
  { intros vb st Hvb Hs.
    pose proof (step_unconstrained_sound inverse_keeps_shape_R k vb Hvb)
      as Hsound.
    rewrite Hs in Hsound. exact Hsound. }
  specialize (H1 Hinv1 fuel (one, vb_lin) Hlin). cbn [fst snd] in H1.
  rewrite H1.
  pose proof (while_loop_sound
                (step_unconstrained (nonlinear_data_of k))
                (column_of_height 7)
                (step_unconstrained_sound inverse_keeps_shape_R k)
                fuel (one, vb_lin) Hlin) as Hret.
  destruct (while_loop (step_unconstrained (nonlinear_data_of k)) fuel
              (one, vb_lin)) as [vb | e |]; cbn [map_outcome sound_outcome]
    in *; try reflexivity.
  destruct Hret as (Hr & Hcn & Hl & Hrows).
  rewrite exceeds_ceiling_shift by (rewrite Hl; lia).
  destruct (exceeds_ceiling vb) as [e | []]; cbn [map_outcome];
    try reflexivity.
  unfold constrained_nonlinear.
  rewrite (reduced_design_code k'), (reduced_design_code k).
  rewrite (tail_rows_shift (ln c) 5 vb_lin Hlin).
  pose proof (while_loop_shift (ln c)
                (step_constrained (nonlinear_data_of k) (reduced_design k))
                (step_constrained (nonlinear_data_of k')
                   (reduced_design k'))
                (column_of_height 6)) as H2.
  specialize (H2 (fun vb Hvb => step_constrained_rescaled c k vb Hc Hk Hvb)).
  assert (Hinv2 : forall vb st, column_of_height 6 vb ->
                    step_constrained (nonlinear_data_of k)
                      (reduced_design k) vb = inr st ->
                    column_of_height 6 (snd st)).
  { intros vb' st Hvb Hs.
    pose proof (step_constrained_sound inverse_keeps_shape_R k vb' Hvb)
      as Hsound.
    rewrite Hs in Hsound. exact Hsound. }
  pose proof (tail_rows_column 6 vb_lin Hlin) as Htail.
  specialize (H2 Hinv2 fuel (one, tail_rows vb_lin) Htail).
  cbn [fst snd] in H2. rewrite H2.
  pose proof (while_loop_sound
                (step_constrained (nonlinear_data_of k) (reduced_design k))
                (column_of_height 6)
                (step_constrained_sound inverse_keeps_shape_R k)
                fuel (one, tail_rows vb_lin) Htail) as Hret2.
  destruct (while_loop (step_constrained (nonlinear_data_of k)
                          (reduced_design k)) fuel
              (one, tail_rows vb_lin)) as [b | e |];
    cbn [map_outcome sound_outcome] in *; try reflexivity.
  destruct Hret2 as (Hbr & Hbc & Hbl & Hbrows).
  unfold concatenate0, singleton, shift_intercept.
  cbn [nrows ncols cells]. rewrite Hbc. cbn [Nat.eqb lift ret map_outcome].
  unfold shift_intercept. cbn [nrows ncols cells app].
  destruct (cells b) as [| r rest]; [discriminate |]. reflexivity.
Qed.

(** X14.  The unit of the weights only moves the constant (real arithmetic).
    On a table of ten columns, multiplying every weight by [c > 0] adds
    [ln c] to the last coefficient, that of the column of ones, in both
    vectors and leaves the other coefficients as they are; the rescaled run
    raises what the run on the table raises, and needs the same number of
    passes. *)
Theorem rescaling_moves_the_constant (c : R) (mdata : ndarray R) :
  table_ok mdata -> 0 < c ->
  vb_linearIV (rescale_weights c mdata)
  = map_result (shift_intercept (ln c)) (vb_linearIV mdata) /\
  forall fuel,
    notebook fuel (rescale_weights c mdata)
    = map_outcome
        (fun p => (shift_intercept (ln c) (fst p),
                   shift_intercept (ln c) (snd p)))
        (notebook fuel mdata).
Proof.
  intros Hok Hc.
  pose proof (linear_cell_rescaled c mdata Hok Hc) as HL.
  split; [exact HL |]. intros fuel. unfold notebook. rewrite HL.
  pose proof (linear_cell_sound inverse_keeps_shape_R mdata Hok) as Hlin.
  destruct (vb_linearIV mdata) as [e | vb_lin];
    cbn [map_result map_outcome sound_result] in *; [reflexivity |].
  rewrite (nonlinear_cell_rescaled c mdata vb_lin fuel Hok Hc Hlin).
  destruct (vb_nonlinearIV fuel mdata vb_lin); reflexivity.
Qed.

End Rescaling.

(** ** The properties of the cells as programs, on data *)

Module Checks.
Import QNum QEq MoreData Runs.

Lemma sum_laws_Qc : @sum_laws Qc numeric.
Proof.
  split; intros; cbn [add numeric]; ring.
Qed.

Lemma table_ok_with_unheld : table_ok with_unheld.
Proof. repeat split. repeat constructor. Qed.

Lemma table_ok_reordered : table_ok reordered.
Proof. repeat split. repeat constructor. Qed.

Lemma select_manager_filter_witness :
  (ncols two_managers = 0 ->
   select_manager (Q2Qc 1) two_managers = inl IndexError) /\
  (0 < ncols two_managers ->
   exists mdata,
     select_manager (Q2Qc 1) two_managers = inr mdata /\
     cells mdata = filter (of_manager (Q2Qc 1)) (cells two_managers) /\
     nrows mdata = length (cells mdata) /\
     ncols mdata = ncols two_managers /\
     Forall (fun r => of_manager (Q2Qc 1) r = true) (cells mdata) /\
     (table_ok two_managers -> table_ok mdata) /\
     select_manager (Q2Qc 1) mdata = inr mdata).
Proof.
  apply (select_manager_filter (Q2Qc 1) two_managers). reflexivity.
Defined.

(** The selection of manager 1 from [two_managers] is [calm]. *)
Example selection_of_calm :
  select_manager (Q2Qc 1) two_managers = inr calm.
Proof. vm_compute. reflexivity. Qed.

Lemma linear_cell_outcomes_witness :
  vb_linearIV calm = inl LinAlgError \/
  exists vb, vb_linearIV calm = inr vb /\
             column_of_height (characteristic_count + 2) vb.
Proof.
  apply (linear_cell_outcomes inverse_keeps_shape_Qc calm).
  repeat split. repeat constructor.
Defined.

Lemma notebook_outcomes_witness :
  (forall e, notebook 3 with_unheld = Raised e -> e = LinAlgError) /\
  (forall vb_lin vb,
     notebook 3 with_unheld = Returned (vb_lin, vb) ->
     column_of_height (characteristic_count + 2) vb_lin /\
     column_of_height (characteristic_count + 2) vb).
Proof.
  apply (notebook_outcomes inverse_keeps_shape_Qc with_unheld 3).
  repeat split. repeat constructor.
Defined.

Lemma linear_cell_sees_held_rows_witness :
  vb_linearIV calm = vb_linearIV reordered.
Proof.
  apply (linear_cell_sees_held_rows sum_laws_Qc calm reordered).
  - repeat split. repeat constructor.
  - repeat split. repeat constructor.
  - vm_compute. apply perm_swap.
Defined.

Lemma row_order_is_irrelevant_witness :
  vb_linearIV with_unheld = vb_linearIV reordered /\
  notebook 3 with_unheld = notebook 3 reordered.
Proof.
  apply (row_order_is_irrelevant sum_laws_Qc with_unheld reordered 3).
  - repeat split. repeat constructor.
  - repeat split. repeat constructor.
  - vm_compute. apply perm_swap.
Defined.

Lemma result_is_a_new_array_witness :
  (exists v,
     Store.globals
       (fst (Store.nonlinear_cell 3
               (Store.after_linear_cell calm calm_linear)))
       "vb_nonlinearIV" = Some v /\
     length (Store.heap (Store.after_linear_cell calm calm_linear))
     <= Store.ref v /\
     Store.windows v = []) /\
  (forall a vb_lin,
     Store.well_formed (Store.after_linear_cell calm calm_linear) ->
     Store.load "vb_linearIV" (Store.after_linear_cell calm calm_linear)
     = inr vb_lin ->
     Store.load "vb_linearIV"
       (Store.update_in_place "vb_nonlinearIV" a
          (fst (Store.nonlinear_cell 3
                  (Store.after_linear_cell calm calm_linear))))
     = inr vb_lin).
Proof.
  apply (Namespace.result_is_a_new_array 3
           (Store.after_linear_cell calm calm_linear) tt
           one_exceeds_tolerance_Qc).
  vm_compute. reflexivity.
Defined.

End Checks.

Module ChecksR.
Import RNum RFacts REq Portfolio Recovery RankDeficiency Stationary MoreData.
Local Open Scope R_scope.

(** [Z^T X] of the seven held rows of the portfolios, and its inverse. *)
Lemma held_cross_product :
  exists M,
    matmul (transpose (instruments (held_observations 1 0)))
      (design (held_observations 1 0)) = inr M /\
    linalg_inv M = Some (cross_product_inverse 1 0 [1; 1; 1; 1; 1; 1; 1]).
Proof.
  eexists. split; [reflexivity |].
  apply inverse_eq. unfold is_inverse. rcbv.
  repeat split; try (repeat constructor).
  - apply f_equal; apply f_equal; cells_eq by_field.
  - apply f_equal; apply f_equal; cells_eq by_field.
Qed.

Lemma held_log_linear :
  Forall (fun o => ln (weight o) = dot (design_row o) all_held_coefficients)
    (held_observations 1 0).
Proof.
  unfold held_observations, held, all_held_coefficients.
  cbn [map observation_of nth].
  repeat constructor; rcbv; consts; ring.
Qed.

Lemma held_exp_linear :
  Forall (fun o => weight o = exp (dot (design_row o) all_held_coefficients))
    (held_observations 1 0).
Proof.
  pose proof held_log_linear as H. rewrite Forall_forall in *.
  intros o Ho. rewrite <- (H o Ho).
  assert (Hw : weight o = 1 / 10).
  { unfold held_observations, held in Ho. cbn [map observation_of nth] in Ho.
    repeat (destruct Ho as [<- | Ho]; [reflexivity |]). contradiction. }
  rewrite Hw. symmetry. apply exp_ln. lra.
Qed.

Lemma table_ok_all_held : table_ok all_held.
Proof. repeat split. repeat constructor. Qed.

Lemma linear_cell_recovers_witness :
  vb_linearIV drifting = inr (colvec all_held_coefficients).
Proof.
  destruct held_cross_product as (M & HM & HN).
  apply (linear_cell_recovers drifting all_held_coefficients M
           (cross_product_inverse 1 0 [1; 1; 1; 1; 1; 1; 1])).
  - apply table_ok_portfolio.
  - reflexivity.
  - change (observations drifting) with (all_observations 1 0 2 0).
    rewrite retained_portfolio. exact held_log_linear.
  - change (observations drifting) with (all_observations 1 0 2 0).
    rewrite retained_portfolio. exact HM.
  - exact HN.
  - cbn [nth all_held_coefficients]. lra.
Defined.

Lemma noiseless_run_witness :
  notebook 2 all_held
  = Returned (colvec all_held_coefficients, colvec all_held_coefficients).
Proof.
  destruct held_cross_product as (M & HM & HN).
  apply (noiseless_run all_held all_held_coefficients M
           (cross_product_inverse 1 0 [1; 1; 1; 1; 1; 1; 1]) 0).
  - exact table_ok_all_held.
  - reflexivity.
  - exact held_exp_linear.
  - exact HM.
  - exact HN.
  - cbn [nth all_held_coefficients]. lra.
Defined.

Lemma unknown_manager_is_fatal_witness :
  notebook_for 0 2 drifting = Raised LinAlgError.
Proof.
  apply (unknown_manager_is_fatal 2 drifting 0).
  - apply table_ok_portfolio.
  - unfold drifting, portfolio, table, held, not_held. cbn [cells app].
    repeat constructor; cbn [nth]; lra.
Defined.

(** The moment vector where the latent demand is one on every row. *)
Lemma moments_of_unit_latent (obs : list (@observation R)) (vl : ndarray R) :
  nrows vl = length obs -> ncols vl = 1%nat ->
  Forall (fun r => r = [@one R numeric]) (cells vl) ->
  exists g,
    matmul (transpose (instruments obs)) (sub_scalar vl one) = inr g /\
    all_zero g.
Proof.
  intros Hr Hc Hones. unfold matmul.
  cbn [transpose instruments matrix_of nrows ncols cells sub_scalar amap].
  rewrite Hr, Nat.eqb_refl. eexists. split; [reflexivity |].
  unfold all_zero. cbn [cells]. rewrite Hc. unfold matmul_cells.
  apply Forall_forall. intros r Hin.
  apply in_map_iff in Hin as (r' & <- & _). cbn [seq map].
  constructor; [| constructor].
  apply (dot_zero_column null_arithmetic_R).
  exact (column_of_ones_minus_one null_arithmetic_R _ Hones).
Qed.

Lemma stationary_iff_moment_conditions_witness :
  step_unconstrained (nonlinear_data_of (observations all_held))
    (colvec all_held_coefficients)
  = inr (0, colvec all_held_coefficients) /\
  forall fuel,
    unconstrained_nonlinear (nonlinear_data_of (observations all_held))
      (S (S fuel)) (colvec all_held_coefficients)
    = Returned (colvec all_held_coefficients).
Proof.
  set (obs := observations all_held).
  assert (Hk : five_characteristics obs) by apply observations_five.
  destruct (latent_of_exact_weights obs all_held_coefficients eq_refl
              held_exp_linear) as (vl & Hl & Hlr & Hlc & Hll & Hones).
  destruct (moments_of_unit_latent obs vl Hlr Hlc Hones) as (g & Hg & Hg0).
  destruct held_cross_product as (M & HM & HN).
  assert (HZt : mZ_tilde_of (nonlinear_data_of obs) vl
                = inr (instruments obs)).
  { unfold mZ_tilde_of. cbn [n_dN n_mZ nonlinear_data_of].
    apply (scaled_by_one null_arithmetic_R vl (instruments obs)
             (length obs) (characteristic_count + 2));
      try assumption; try reflexivity.
    exact (instruments_rows obs Hk). }
  assert (Hcross : cross_product_unconstrained (nonlinear_data_of obs)
                     (colvec all_held_coefficients) = inr M).
  { unfold cross_product_unconstrained. rewrite Hl. cbn [bind].
    rewrite HZt. cbn [bind]. exact HM. }
  apply (stationary_iff_moment_conditions obs (colvec all_held_coefficients)
           vl g M (cross_product_inverse 1 0 [1; 1; 1; 1; 1; 1; 1]) Hk
           (colvec_column all_held_coefficients 7 eq_refl) Hl Hg Hcross HN).
  exact Hg0.
Defined.

Lemma linear_cell_solves_normal_equations_witness :
  exists M,
    matmul (transpose (instruments (held_observations 1 0)))
      (design (held_observations 1 0)) = inr M /\
    matmul M (colvec all_held_coefficients)
    = matmul (transpose (instruments (held_observations 1 0)))
        (log_weights (held_observations 1 0)).
Proof.
  pose proof (structure_linear_spec drifting (table_ok_portfolio 1 0 2 0))
    as Hd.
  cbn zeta in Hd.
  change (observations drifting) with (all_observations 1 0 2 0) in Hd.
  rewrite retained_portfolio in Hd.
  destruct (NormalEquations.linear_cell_solves_normal_equations drifting _
              (table_ok_portfolio 1 0 2 0) Hd) as [H1 _].
  cbn [l_mZ l_mX l_vLNrweight] in H1.
  destruct (H1 (colvec all_held_coefficients)) as (M & HM & Hsol & _).
  { destruct held_cross_product as (M & HM & HN).
    assert (Hk : five_characteristics (held_observations 1 0))
      by (repeat constructor).
    exact (two_stage_recovers (held_observations 1 0)
             all_held_coefficients M _ Hk eq_refl held_log_linear HM HN). }
  exists M. split; assumption.
Defined.

Lemma rescaling_moves_the_constant_witness :
  vb_linearIV (rescale_weights 2 drifting)
  = inr (shift_intercept (ln 2) (colvec all_held_coefficients)).
Proof.
  destruct (Rescaling.rescaling_moves_the_constant 2 drifting
              (table_ok_portfolio 1 0 2 0)) as [H _]; [lra |].
  rewrite H. unfold drifting.
  rewrite (linear_portfolio 1 0 2 0); [reflexivity | lra].
Defined.

End ChecksR.

